(** * Motion AI video engine: scene pipeline and resource governance

    A shallow embedding of [src/lib/budgetManager.js], of the current
    revision of [src/lib/videoEngine.js] (characters, circuit breaker,
    script stage, video prompt, video stage, concurrency controller,
    movie record, [createMovie]) and of [src/lib/generationJobs.js],
    followed by the properties of the specification that are about
    them and by further properties of the code.

    Modelling conventions.
    - A JavaScript number holding money or a duration is an exact
      rational ([Q]) in the modules [Budget], [Video], [Stage] and
      [Movie]; [NaN] and the infinities are written out where the
      code can produce them.  Counters are [nat].
    - Module [Double] gives the same numbers as binary64 values, with
      every operation rounded to the nearest double, and on them the
      budget manager's spend, the cost estimate and the scene count of
      [createMovie].  The properties that turn on a single rounding
      (the ceiling test of [trackCost], the scene count, the snapping
      of a duration far from the permitted ones) are stated there.
    - [Date.now()] is an integer number of milliseconds ([Z]) and is an
      explicit argument of every method that reads the clock.
    - A [Map] keyed by strings is a [gmap string _].
    - The process-wide singletons (budget manager, circuit breaker) are
      values threaded explicitly through the calls.  A run of the video
      stage is modelled with the singletons to itself.
    - [throw] is the [Throw] constructor of [completion], carrying the
      text of [error.message].
    - Strings are sequences of ASCII characters. *)

From Stdlib Require Import QArith Qabs Qround Qminmax Qpower ZArith Ascii String List DecimalString Lqa.
From stdpp Require Import gmap strings list sorting.

#[local] Open Scope Z_scope.

(** ** Completions of a JavaScript call *)

Inductive completion (A : Type) : Type :=
| Return (a : A)
| Throw (message : string).
Arguments Return {A} a.
Arguments Throw {A} message.

(** ** The fragment of the JavaScript runtime that the engine uses *)

Module Js.

(** [String(n)] for an integer [n]. *)
Definition ofInt (n : Z) : string := NilZero.string_of_int (Z.to_int n).

(** [s.includes(needle)]. *)
Fixpoint includes (needle s : string) : bool :=
  String.prefix needle s ||
  match s with
  | EmptyString => false
  | String _ rest => includes needle rest
  end.

(** [s.padStart(4, "0")] *)
Definition padStart4 (s : string) : string :=
  Nat.iter (4 - String.length s) (String "0"%char) s.

(** [x.toFixed(4)]: the nearest multiple of 1/10000, the larger one on a
    tie, printed with four decimals; the sign is printed first. *)
Definition toFixed4 (x : Q) : string :=
  let a := Qabs x in
  let n := Qfloor (a * 10000 + (1 # 2))%Q in
  let body := ofInt (n / 10000) +:+ "." +:+ padStart4 (ofInt (n mod 10000)) in
  if Qle_bool 0 x then body else "-" +:+ body.

(** [a || b] where [a] is a number that may be [NaN] ([None]). *)
Definition orElse (a : option Q) (b : Q) : Q :=
  match a with
  | Some q => if Qeq_bool q 0 then b else q
  | None => b
  end.

(** [Math.abs(a - b) < Math.abs(c - b)] is used through this. *)
Definition dist (a b : Q) : Q := Qabs (a - b)%Q.

(** White space for [trim], on code units below 256. *)
Definition isWhite (c : ascii) : bool :=
  let n := nat_of_ascii c in
  (((9 <=? n) && (n <=? 13)) || (n =? 32) || (n =? 160))%nat.

Fixpoint trimStart (s : string) : string :=
  match s with
  | String c s' => if isWhite c then trimStart s' else s
  | EmptyString => s
  end.

Fixpoint trimEnd (s : string) : string :=
  match s with
  | String c s' =>
      match trimEnd s' with
      | EmptyString => if isWhite c then EmptyString else String c EmptyString
      | rest => String c rest
      end
  | EmptyString => s
  end.

(** [s.trim()] *)
Definition trim (s : string) : string := trimEnd (trimStart s).

(** [x > y] on finite numbers. *)
Definition gtb (x y : Q) : bool := negb (Qle_bool x y).

(** [x < y] on finite numbers. *)
Definition ltb (x y : Q) : bool := negb (Qle_bool y x).

End Js.

(** ** budgetManager.js *)

Module Budget.

Definition MAX_BUDGET : Q := 5.

Definition OPENAI_COST_PER_1K_TOKENS (model : string) : option Q :=
  if decide (model = "gpt-4o-mini") then Some 0.00015%Q
  else if decide (model = "gpt-4o") then Some 0.0025%Q
  else if decide (model = "gpt-4") then Some 0.03%Q
  else None.

Inductive Service := openai | replicate.

Record Limits := { requestsPerMinute : nat; requestsPerHour : nat }.

Definition RATE_LIMITS (service : Service) : Limits :=
  match service with
  | openai => {| requestsPerMinute := 60; requestsPerHour := 5000 |}
  | replicate => {| requestsPerMinute := 10; requestsPerHour := 500 |}
  end.

(** One entry of a rate limiter: the timestamps of the requests that
    were let through, oldest first. *)
Record LimiterRecord := { requests : list Z; lastReset : Z }.

Record BudgetManager := {
  currentCost : Q;
  openaiLimiter : gmap string LimiterRecord;
  replicateLimiter : gmap string LimiterRecord
}.

(** [constructor()] and [reset()]. *)
Definition fresh : BudgetManager :=
  {| currentCost := 0; openaiLimiter := ∅; replicateLimiter := ∅ |}.

Definition reset (bm : BudgetManager) : BudgetManager := fresh.

(** [this.rateLimiters[service]] *)
Definition rateLimiter (service : Service) (bm : BudgetManager) : gmap string LimiterRecord :=
  match service with
  | openai => openaiLimiter bm
  | replicate => replicateLimiter bm
  end.

Definition setRateLimiter (service : Service) (m : gmap string LimiterRecord)
    (bm : BudgetManager) : BudgetManager :=
  match service with
  | openai => {| currentCost := currentCost bm; openaiLimiter := m;
                 replicateLimiter := replicateLimiter bm |}
  | replicate => {| currentCost := currentCost bm; openaiLimiter := openaiLimiter bm;
                    replicateLimiter := m |}
  end.

Definition getModelCost (modelName : string) : Q :=
  if decide (modelName = "google/veo-3.1-fast") then 0.015%Q
  else if decide (modelName = "luma/dream-machine") then 0.01%Q
  else if decide (modelName = "stability-ai/svd") then 0.008%Q
  else 0.007%Q.

Record CostEstimate := { video : Q; openaiCost : Q; total : Q; scenes : Z }.

(** [calculateEstimatedCost].  A scene duration of zero makes the
    division yield an infinity or [NaN] and the total [NaN]: [None]. *)
Definition calculateEstimatedCost (totalDurationSeconds sceneDuration : Q)
    (modelName openaiModel : string) : option CostEstimate :=
  if Qeq_bool sceneDuration 0 then None
  else
    let totalScenes := Qceiling (totalDurationSeconds / sceneDuration) in
    let videoCost := (inject_Z totalScenes * sceneDuration * getModelCost modelName)%Q in
    let estimatedTokensPerScene := 500 in
    let totalTokens := totalScenes * estimatedTokensPerScene in
    let openaiCost :=
      Js.orElse
        (option_map (fun rate => (inject_Z totalTokens / 1000 * rate)%Q)
                    (OPENAI_COST_PER_1K_TOKENS openaiModel))
        0.00015%Q in
    Some {| video := videoCost; openaiCost := openaiCost;
            total := (videoCost + openaiCost)%Q; scenes := totalScenes |}.

(** [isWithinBudget]: a comparison with [NaN] is false. *)
Definition isWithinBudget (estimatedCost : option CostEstimate) : bool :=
  match estimatedCost with
  | Some e => Qle_bool (total e) MAX_BUDGET
  | None => false
  end.

Inductive Reason :=
| PerMinute (limit : nat)
| PerHour (limit : nat).

(** The text of [reason]. *)
Definition reasonText (r : Reason) : string :=
  match r with
  | PerMinute n => "Rate limit exceeded: " +:+ Js.ofInt (Z.of_nat n) +:+ " requests per minute"
  | PerHour n => "Rate limit exceeded: " +:+ Js.ofInt (Z.of_nat n) +:+ " requests per hour"
  end.

(** The object returned by [checkRateLimit]; [retryAfter] is [None]
    where the code computes it from a missing array element. *)
Inductive RateCheck :=
| Allowed
| Denied (reason : Reason) (retryAfter : option Z).

Definition allowed (r : RateCheck) : bool :=
  match r with Allowed => true | Denied _ _ => false end.

Definition MINUTE : Z := 60 * 1000.
Definition HOUR : Z := 60 * 60 * 1000.

(** [requests.filter((time) => now - time < window)] *)
Definition within (window now : Z) (reqs : list Z) : list Z :=
  filter (fun time => now - time < window) reqs.

Definition checkRateLimit (service : Service) (identifier : string) (now : Z)
    (bm : BudgetManager) : RateCheck * BudgetManager :=
  let limiter := rateLimiter service bm in
  let record :=
    match limiter !! identifier with
    | Some r => r
    | None => {| requests := []; lastReset := now |}
    end in
  let limits := RATE_LIMITS service in
  (* Clean old requests (older than 1 hour) *)
  let kept := within HOUR now (requests record) in
  let store reqs :=
    setRateLimiter service
      (<[identifier := {| requests := reqs; lastReset := lastReset record |}]> limiter) bm in
  (* Check per-minute limit *)
  let recentRequests := within MINUTE now kept in
  if decide (requestsPerMinute limits ≤ length recentRequests)%nat then
    (Denied (PerMinute (requestsPerMinute limits))
            (option_map (fun t0 => 60 - (now - t0) / 1000) (head recentRequests)),
     store kept)
  else if decide (requestsPerHour limits ≤ length kept)%nat then
    (Denied (PerHour (requestsPerHour limits))
            (option_map (fun t0 => 3600 - (now - t0) / 1000) (head kept)),
     store kept)
  else
    (* Record this request *)
    (Allowed, store (kept ++ [now])).

Definition budgetExceededMessage (cost : Q) : string :=
  "Budget exceeded! Current cost: $" +:+ Js.toFixed4 cost +:+ ", Max: $5".

(** [trackCost]: the addition is stored before the ceiling is tested. *)
Definition trackCost (service : string) (cost : Q) (bm : BudgetManager)
    : completion Q * BudgetManager :=
  let bm' := {| currentCost := (currentCost bm + cost)%Q;
                openaiLimiter := openaiLimiter bm;
                replicateLimiter := replicateLimiter bm |} in
  if Js.gtb (currentCost bm') MAX_BUDGET
  then (Throw (budgetExceededMessage (currentCost bm')), bm')
  else (Return (currentCost bm'), bm').

Definition trackOpenAICost (tokens : Z) (model : string) (bm : BudgetManager)
    : completion Q * BudgetManager :=
  let cost :=
    Js.orElse (option_map (fun rate => (inject_Z tokens / 1000 * rate)%Q)
                          (OPENAI_COST_PER_1K_TOKENS model))
              0.00015%Q in
  trackCost "openai" cost bm.

Definition trackReplicateCost (duration : Q) (modelName : string) (bm : BudgetManager)
    : completion Q * BudgetManager :=
  trackCost "replicate" (duration * getModelCost modelName)%Q bm.

Record BudgetStatus := { current : Q; max : Q; remaining : Q; percentage : Q }.

Definition getBudgetStatus (bm : BudgetManager) : BudgetStatus :=
  {| current := currentCost bm;
     max := MAX_BUDGET;
     remaining := (MAX_BUDGET - currentCost bm)%Q;
     percentage := (currentCost bm / MAX_BUDGET * 100)%Q |}.

(** A run of [trackCost] calls, whatever each of them returns or throws. *)
Definition trackCosts (calls : list (string * Q)) (bm : BudgetManager) : BudgetManager :=
  foldl (fun bm call => snd (trackCost (fst call) (snd call) bm)) bm calls.

(** The timestamps held for [identifier]; none before its first call. *)
Definition recorded (service : Service) (identifier : string) (bm : BudgetManager) : list Z :=
  match rateLimiter service bm !! identifier with
  | Some r => requests r
  | None => []
  end.

(** A run of [checkRateLimit] calls for one identifier at the given
    instants: the state it leaves, and whether every call was denied. *)
Fixpoint pollState (service : Service) (identifier : string) (times : list Z)
    (bm : BudgetManager) : BudgetManager :=
  match times with
  | [] => bm
  | t :: rest => pollState service identifier rest (snd (checkRateLimit service identifier t bm))
  end.

Fixpoint pollsDenied (service : Service) (identifier : string) (times : list Z)
    (bm : BudgetManager) : bool :=
  match times with
  | [] => true
  | t :: rest =>
      negb (allowed (fst (checkRateLimit service identifier t bm))) &&
      pollsDenied service identifier rest (snd (checkRateLimit service identifier t bm))
  end.

End Budget.

(** ** videoEngine.js: circuit breaker *)

Module Circuit.

Record CircuitRecord := { count : nat; lastFailure : Z }.

Record CircuitBreaker := {
  failureThreshold : nat;
  resetTimeout : Z;
  failures : gmap string CircuitRecord
}.

(** [new CircuitBreaker(failureThreshold, resetTimeout)] *)
Definition make (threshold : nat) (timeout : Z) : CircuitBreaker :=
  {| failureThreshold := threshold; resetTimeout := timeout; failures := ∅ |}.

(** [export const circuitBreaker = new CircuitBreaker()] *)
Definition circuitBreaker : CircuitBreaker := make 3 (60 * 1000).

Definition setFailures (m : gmap string CircuitRecord) (cb : CircuitBreaker) : CircuitBreaker :=
  {| failureThreshold := failureThreshold cb; resetTimeout := resetTimeout cb; failures := m |}.

Definition canExecute (model : string) (now : Z) (cb : CircuitBreaker)
    : bool * CircuitBreaker :=
  match failures cb !! model with
  | None => (true, cb)
  | Some record =>
      if decide (resetTimeout cb < now - lastFailure record)
      then (true, setFailures (delete model (failures cb)) cb)
      else (bool_decide (count record < failureThreshold cb)%nat, cb)
  end.

Definition recordSuccess (model : string) (cb : CircuitBreaker) : CircuitBreaker :=
  setFailures (delete model (failures cb)) cb.

Definition recordFailure (model : string) (now : Z) (cb : CircuitBreaker)
    : nat * CircuitBreaker :=
  let record :=
    match failures cb !! model with
    | Some r => r
    | None => {| count := 0; lastFailure := 0 |}
    end in
  let record' := {| count := S (count record); lastFailure := now |} in
  (count record', setFailures (<[model := record']> (failures cb)) cb).

Inductive Status := closed | open | halfOpen.

Definition getStatus (model : string) (cb : CircuitBreaker) : Status :=
  match failures cb !! model with
  | None => closed
  | Some record =>
      if decide (failureThreshold cb ≤ count record)%nat then open else halfOpen
  end.

(** A run of [recordFailure] calls at the given instants. *)
Definition recordFailures (model : string) (times : list Z) (cb : CircuitBreaker)
    : CircuitBreaker :=
  foldl (fun cb now => snd (recordFailure model now cb)) cb times.

(** The number of failures remembered for [model]. *)
Definition failureCount (model : string) (cb : CircuitBreaker) : nat :=
  match failures cb !! model with
  | Some r => count r
  | None => 0%nat
  end.

(** Calls made on the shared breaker, by any scene task, in the order in
    which the event loop runs them. *)
Inductive Op :=
| CanExecute (model : string) (now : Z)
| RecordSuccess (model : string)
| RecordFailure (model : string) (now : Z).

Definition opModel (op : Op) : string :=
  match op with
  | CanExecute m _ | RecordSuccess m | RecordFailure m _ => m
  end.

Definition step (cb : CircuitBreaker) (op : Op) : CircuitBreaker :=
  match op with
  | CanExecute m now => snd (canExecute m now cb)
  | RecordSuccess m => recordSuccess m cb
  | RecordFailure m now => snd (recordFailure m now cb)
  end.

Definition run (ops : list Op) (cb : CircuitBreaker) : CircuitBreaker :=
  foldl step cb ops.

(** Two breakers that cannot be told apart by calls for [model]. *)
Definition agree (model : string) (cb1 cb2 : CircuitBreaker) : Prop :=
  failures cb1 !! model = failures cb2 !! model /\
  failureThreshold cb1 = failureThreshold cb2 /\
  resetTimeout cb1 = resetTimeout cb2.

End Circuit.

(** ** videoEngine.js: models, duration snapping, retry hint *)

Module Video.
Import Budget Circuit.

Definition MIN_DURATION : Q := 4.
Definition MAX_TOTAL_DURATION : Q := 3600.
Definition DEFAULT_SCENE_DURATION : Q := 6.
Definition DEFAULT_FPS : Z := 24.
Definition ASPECT_RATIO : string := "16:9".
Definition MAX_PARALLEL_SCENES : nat := 2.
Definition MODEL_TIMEOUT_MS : Z := 5 * 60 * 1000.

(** The objects built by the [buildInput] functions, field by field;
    a field a backend does not take is [None]. *)
Record ModelInput := {
  in_prompt : string;
  in_duration : option Q;
  in_num_frames : option Z;
  in_fps : Z;
  in_aspect_ratio : option string;
  in_style : option string
}.

Record VideoModel := {
  name : string;
  maxDuration : Q;
  allowedDurations : option (list Q);
  costPerSecond : Q;
  priority : nat;
  enabled : bool;
  buildInput : string -> Q -> Z -> string -> ModelInput
}.

(** [buildInput] of "google/veo-3.1-fast": only 4, 6 or 8 seconds. *)
Definition veoValidDuration (duration : Q) : Q :=
  if Qle_bool duration 5 then 4
  else if Qle_bool duration 7 then 6
  else 8.

Definition veo : VideoModel :=
  {| name := "Google Veo 3.1 Fast";
     maxDuration := 8;
     allowedDurations := Some [4%Q; 6%Q; 8%Q];
     costPerSecond := 0.015;
     priority := 1;
     enabled := true;
     buildInput prompt duration fps aspect_ratio :=
       {| in_prompt := prompt; in_duration := Some (veoValidDuration duration);
          in_num_frames := None; in_fps := fps;
          in_aspect_ratio := Some aspect_ratio; in_style := None |} |}.

Definition luma : VideoModel :=
  {| name := "Luma Dream Machine";
     maxDuration := 30;
     allowedDurations := None;
     costPerSecond := 0.01;
     priority := 2;
     enabled := true;
     buildInput prompt duration fps _ :=
       {| in_prompt := prompt; in_duration := Some duration;
          in_num_frames := None; in_fps := fps;
          in_aspect_ratio := None; in_style := Some "realistic"%string |} |}.

Definition svd : VideoModel :=
  {| name := "Stable Video Diffusion";
     maxDuration := 30;
     allowedDurations := None;
     costPerSecond := 0.008;
     priority := 3;
     enabled := true;
     buildInput prompt duration fps _ :=
       {| in_prompt := prompt; in_duration := None;
          in_num_frames := Some (Qfloor (duration * inject_Z fps));
          in_fps := fps; in_aspect_ratio := None; in_style := None |} |}.

Definition zeroscope : VideoModel :=
  {| name := "Zeroscope v2 XL";
     maxDuration := 30;
     allowedDurations := None;
     costPerSecond := 0.007;
     priority := 4;
     enabled := true;
     buildInput prompt duration fps _ :=
       {| in_prompt := prompt; in_duration := None;
          in_num_frames := Some (Qfloor (duration * inject_Z fps));
          in_fps := fps; in_aspect_ratio := None; in_style := None |} |}.

Definition VIDEO_MODELS (modelName : string) : option VideoModel :=
  if decide (modelName = "google/veo-3.1-fast") then Some veo
  else if decide (modelName = "luma/dream-machine") then Some luma
  else if decide (modelName = "stability-ai/svd") then Some svd
  else if decide (modelName = "anotherjesse/zeroscope-v2-xl") then Some zeroscope
  else None.

Definition DEFAULT_CHAIN : list string :=
  ["google/veo-3.1-fast"; "luma/dream-machine"; "stability-ai/svd";
   "anotherjesse/zeroscope-v2-xl"]%string.

(** [allowed.reduce((prev, curr) =>
       Math.abs(curr - x) < Math.abs(prev - x) ? curr : prev)];
    [None] is the [TypeError] of [reduce] on an empty array. *)
Definition closer (x prev curr : Q) : Q :=
  if Js.ltb (Js.dist curr x) (Js.dist prev x) then curr else prev.

Definition closestAllowed (allowed : list Q) (x : Q) : option Q :=
  match allowed with
  | [] => None
  | first :: rest => Some (foldl (closer x) first rest)
  end.

(** The [actualDuration] of [generateSceneVideo]: clamp, then snap. *)
Definition clampDuration (model : VideoModel) (duration : Q) : Q :=
  Qmin (Qmax duration MIN_DURATION) (maxDuration model).

Definition actualDuration (model : VideoModel) (duration : Q) : option Q :=
  let clamped := clampDuration model duration in
  match allowedDurations model with
  | Some allowed => closestAllowed allowed clamped
  | None => Some clamped
  end.

(** *** [extractRetryTime] *)

Definition lower (c : ascii) : ascii :=
  let n := nat_of_ascii c in
  if ((65 <=? n) && (n <=? 90))%nat then ascii_of_nat (n + 32) else c.

(** [\s] on code units below 256. *)
Definition isSpace (c : ascii) : bool :=
  let n := nat_of_ascii c in
  (((9 <=? n) && (n <=? 13)) || (n =? 32) || (n =? 160))%nat.

Definition isDigit (c : ascii) : bool :=
  let n := nat_of_ascii c in ((48 <=? n) && (n <=? 57))%nat.

(** The rest of [s] after the literal [lit], letter case ignored. *)
Fixpoint afterLiteral (lit s : string) : option string :=
  match lit, s with
  | EmptyString, _ => Some s
  | String a lit', String b s' =>
      if decide (lower a = lower b) then afterLiteral lit' s' else None
  | String _ _, EmptyString => None
  end.

Fixpoint skipWhile (p : ascii -> bool) (s : string) : string :=
  match s with
  | String c s' => if p c then skipWhile p s' else s
  | EmptyString => s
  end.

(** [\s+] *)
Definition spaces1 (s : string) : option string :=
  match s with
  | String c s' => if isSpace c then Some (skipWhile isSpace s') else None
  | EmptyString => None
  end.

(** [(\d+)] with [parseInt] applied to the group: value and rest. *)
Fixpoint digitsFrom (acc : N) (s : string) : N * string :=
  match s with
  | String c s' =>
      if isDigit c then digitsFrom (acc * 10 + (N_of_ascii c - 48))%N s' else (acc, s)
  | EmptyString => (acc, s)
  end.

Definition digits1 (s : string) : option (N * string) :=
  match s with
  | String c _ => if isDigit c then Some (digitsFrom 0%N s) else None
  | EmptyString => None
  end.

(** The first pattern, anchored at the start of [s]: the literal
    retry_after, any run of double quotes (code 34), white space and
    colons (code 58), then [(\d+)]; letter case ignored. *)
Definition retryAfterKeyAt (s : string) : option N :=
  match afterLiteral "retry_after" s with
  | Some r =>
      let isSep c := (isSpace c || (nat_of_ascii c =? 34) || (nat_of_ascii c =? 58))%nat in
      option_map fst (digits1 (skipWhile isSep r))
  | None => None
  end.

(** [/wait\s+(\d+)\s+seconds/i] anchored at the start of [s]. *)
Definition waitSecondsAt (s : string) : option N :=
  match afterLiteral "wait" s with
  | Some r =>
      match spaces1 r with
      | Some r =>
          match digits1 r with
          | Some (n, r) =>
              match spaces1 r with
              | Some r =>
                  match afterLiteral "seconds" r with
                  | Some _ => Some n
                  | None => None
                  end
              | None => None
              end
          | None => None
          end
      | None => None
      end
  | None => None
  end.

(** [/retry\s+after\s+(\d+)/i] anchored at the start of [s]. *)
Definition retryAfterWordsAt (s : string) : option N :=
  match afterLiteral "retry" s with
  | Some r =>
      match spaces1 r with
      | Some r =>
          match afterLiteral "after" r with
          | Some r =>
              match spaces1 r with
              | Some r => option_map fst (digits1 r)
              | None => None
              end
          | None => None
          end
      | None => None
      end
  | None => None
  end.

(** [s.match(re)]: the leftmost position at which [re] matches. *)
Fixpoint search (re : string -> option N) (s : string) : option N :=
  match re s with
  | Some n => Some n
  | None =>
      match s with
      | String _ s' => search re s'
      | EmptyString => None
      end
  end.

Definition extractRetryTime (errorMessage : string) : Z :=
  match search retryAfterKeyAt errorMessage with
  | Some n => Z.of_N n
  | None =>
      match search waitSecondsAt errorMessage with
      | Some n => Z.of_N n
      | None =>
          match search retryAfterWordsAt errorMessage with
          | Some n => Z.of_N n
          | None => 10 (* Default to 10 seconds *)
          end
      end
  end.

End Video.

(** ** videoEngine.js: [generateSceneVideo] *)

Module Stage.
Import Budget Circuit Video.

(** A value found where a clip URL is expected: a string, or something
    else of which only the truthiness matters. *)
Inductive JsValue :=
| JsString (s : string)
| JsTruthy
| JsFalsy.

(** The shapes in which a backend answers. *)
Inductive Output :=
| OutArray (items : list JsValue)
| OutObject (video url output : JsValue)
| OutString (s : string)
| OutOther.

Definition truthy (v : JsValue) : bool :=
  match v with
  | JsString EmptyString => false
  | JsString _ => true
  | JsTruthy => true
  | JsFalsy => false
  end.

Definition orValue (a b : JsValue) : JsValue := if truthy a then a else b.

(** The clip URL, or [None] where the code throws "Invalid video URL". *)
Definition extractVideoUrl (output : Output) : option string :=
  let videoUrl :=
    match output with
    | OutArray items => match items with v :: _ => v | [] => JsFalsy end
    | OutObject video url out => orValue (orValue video url) out
    | OutString s => JsString s
    | OutOther => JsFalsy
    end in
  match videoUrl with
  | JsString s => if truthy videoUrl then Some s else None
  | _ => None
  end.

(** What [replicate.run] does: after [latency] milliseconds it resolves
    with an output or rejects with an error. *)
Record Reply := { latency : Z; result : completion Output }.

(** The collaborators of the stage: the backend, as a function of the
    model, the input and the instant of the call, and the abort signal,
    as a function of the instant at which it is read. *)
Record Env := {
  replicateRun : string -> ModelInput -> Z -> Reply;
  abortedAt : Z -> bool
}.

Inductive Event :=
| EvCall (model : string) (input : ModelInput) (at_ms : Z)
| EvWait (seconds : Z).

(** The state a run of the stage acts on.  The run has the two
    singletons to itself: between two of its steps nothing else changes
    [breaker] or [budget]. *)
Record World := {
  clock : Z;
  breaker : CircuitBreaker;
  budget : BudgetManager;
  trace : list Event
}.

Definition setBreaker (cb : CircuitBreaker) (w : World) : World :=
  {| clock := clock w; breaker := cb; budget := budget w; trace := trace w |}.

Definition setBudget (bm : BudgetManager) (w : World) : World :=
  {| clock := clock w; breaker := breaker w; budget := bm; trace := trace w |}.

(** An [await] that takes [ms] milliseconds and leaves [ev] in the trace. *)
Definition elapse (ms : Z) (ev : Event) (w : World) : World :=
  {| clock := clock w + ms; breaker := breaker w; budget := budget w;
     trace := trace w ++ [ev] |}.

(** [wait(seconds)] *)
Definition wait (seconds : Z) (w : World) : World :=
  elapse (seconds * 1000) (EvWait seconds) w.

Record VideoResult := {
  videoUrl : string;
  model : string;
  duration : Q;
  promptLength : nat
}.

Record ErrorEntry := {
  err_model : string;
  err_error : string;
  err_failureCount : option nat
}.

Definition MAX_RETRIES : nat := 3.

Definition newline : string := String (ascii_of_nat 10) EmptyString.

Definition abortedMessage : string := "Generation aborted by user".
Definition noModelsMessage : string := "No enabled video models available".
Definition creditMessage : string :=
  "Replicate account has insufficient credit. Please add credits at https://replicate.com/account/billing".

Definition rateLimitedMessage (retryAfter : Z) : string :=
  "Rate limit exceeded. Please wait " +:+ Js.ofInt retryAfter +:+
  " seconds before retrying. Low credit accounts have reduced rate limits.".

Definition timeoutMessage (modelName : string) : string :=
  "Model " +:+ modelName +:+ " timeout after " +:+ Js.ofInt (MODEL_TIMEOUT_MS / 1000) +:+ "s".

Definition invalidUrlMessage (modelName : string) : string :=
  "Invalid video URL from " +:+ modelName.

Definition governorDeniedMessage (reason : Reason) (retryAfter : option Z) : string :=
  "Rate limit: " +:+ reasonText reason +:+ ". Retry after " +:+
  match retryAfter with Some n => Js.ofInt n | None => "NaN" end +:+ "s".

Definition budgetInsufficientMessage (remaining needed : Q) : string :=
  "Budget insufficient. Remaining: $" +:+ Js.toFixed4 remaining +:+
  ", Needed: $" +:+ Js.toFixed4 needed.

Definition allFailedMessage (errors : list ErrorEntry) : string :=
  "All video generation models failed:" +:+ newline +:+
  String.concat newline
    (map (fun e => "  - " +:+ err_model e +:+ ": " +:+ err_error e) errors).

(** [chain.filter((m) => VIDEO_MODELS[m]?.enabled)], each name kept
    together with the entry that [VIDEO_MODELS[modelName]] reads later. *)
Definition enabledModels (chain : list string) : list (string * VideoModel) :=
  omap (fun m => match VIDEO_MODELS m with
                 | Some vm => if enabled vm then Some (m, vm) else None
                 | None => None
                 end) chain.

(** How one turn of the [for] loop over the models ends. *)
Inductive Control :=
| Continue (errors : list ErrorEntry)
| Finish (r : completion VideoResult).

Section WithEnv.
Context (env : Env).

(** The [try] block: the call raced against the timeout, the URL
    extraction, cost tracking and [recordSuccess]. *)
Definition callBackend (prompt : string) (actual : Q) (modelName : string)
    (vm : VideoModel) (w : World) : completion VideoResult * World :=
  let input := buildInput vm prompt actual DEFAULT_FPS ASPECT_RATIO in
  let reply := replicateRun env modelName input (clock w) in
  let timedOut := bool_decide (MODEL_TIMEOUT_MS <= latency reply) in
  let w := elapse (if timedOut then MODEL_TIMEOUT_MS else latency reply)
                  (EvCall modelName input (clock w)) w in
  match (if timedOut then Throw (timeoutMessage modelName) else result reply) with
  | Throw msg => (Throw msg, w)
  | Return output =>
      match extractVideoUrl output with
      | None => (Throw (invalidUrlMessage modelName), w)
      | Some url =>
          let '(tracked, bm) := trackReplicateCost actual modelName (budget w) in
          let w := setBudget bm w in
          match tracked with
          | Throw msg => (Throw msg, w)
          | Return _ =>
              (Return {| videoUrl := url; model := modelName; duration := actual;
                         promptLength := String.length prompt |},
               setBreaker (recordSuccess modelName (breaker w)) w)
          end
      end
  end.

(** The end of the [catch] block: [recordFailure], then the error is
    pushed and the loop goes on to the next model. *)
Definition failedTurn (modelName : string) (errors : list ErrorEntry)
    (errorMessage : string) (w : World) : Control * World :=
  let '(failureCount, cb) := recordFailure modelName (clock w) (breaker w) in
  (Continue (errors ++ [{| err_model := modelName; err_error := errorMessage;
                           err_failureCount := Some failureCount |}]),
   setBreaker cb w).

(** The [catch] block.  [retry] is the recursive call on the one-model
    chain, present while [retryCount < MAX_RETRIES]. *)
Definition handleFailure
    (retry : option (string -> World -> completion VideoResult * World))
    (modelName : string) (errors : list ErrorEntry) (message : string) (w : World)
    : Control * World :=
  if Js.includes "Budget exceeded" message then (Finish (Throw message), w)
  else if Js.includes "402" message || Js.includes "Payment Required" message
          || Js.includes "insufficient credit" message then
    failedTurn modelName errors creditMessage w
  else if Js.includes "429" message || Js.includes "Too Many Requests" message then
    let retryAfter := extractRetryTime message in
    match retry with
    | None => failedTurn modelName errors (rateLimitedMessage retryAfter) w
    | Some again =>
        let w := wait (retryAfter + 1) w in
        if abortedAt env (clock w) then (Finish (Throw abortedMessage), w)
        else
          match again modelName w with
          | (Return r, w) => (Finish (Return r), w)
          | (Throw retryMessage, w) => failedTurn modelName errors retryMessage w
          end
    end
  else failedTurn modelName errors message w.

(** One turn of the loop over the models. *)
Definition attempt
    (retry : option (string -> World -> completion VideoResult * World))
    (prompt : string) (requested : Q) (modelName : string) (vm : VideoModel)
    (errors : list ErrorEntry) (w : World) : Control * World :=
  if abortedAt env (clock w) then (Finish (Throw abortedMessage), w) else
  let '(permitted, cb) := canExecute modelName (clock w) (breaker w) in
  let w := setBreaker cb w in
  if negb permitted then
    (Continue (errors ++ [{| err_model := modelName; err_error := "Circuit breaker open";
                             err_failureCount := None |}]), w)
  else
  let '(rateLimitCheck, bm) := checkRateLimit replicate modelName (clock w) (budget w) in
  let w := setBudget bm w in
  match rateLimitCheck with
  | Denied reason retryAfter =>
      (Continue (errors ++ [{| err_model := modelName;
                               err_error := governorDeniedMessage reason retryAfter;
                               err_failureCount := None |}]), w)
  | Allowed =>
      match actualDuration vm requested with
      | None => (Finish (Throw "Reduce of empty array with no initial value"), w)
      | Some actual =>
          let estimatedCost := (costPerSecond vm * actual)%Q in
          let budgetStatus := getBudgetStatus (budget w) in
          if Js.ltb (remaining budgetStatus) estimatedCost then
            (Continue (errors ++ [{| err_model := modelName;
                                     err_error := budgetInsufficientMessage
                                                    (remaining budgetStatus) estimatedCost;
                                     err_failureCount := None |}]), w)
          else
          match callBackend prompt actual modelName vm w with
          | (Return r, w) => (Finish (Return r), w)
          | (Throw message, w) => handleFailure retry modelName errors message w
          end
      end
  end.

Fixpoint tryModels
    (retry : option (string -> World -> completion VideoResult * World))
    (prompt : string) (requested : Q) (models : list (string * VideoModel))
    (errors : list ErrorEntry) (w : World) : completion VideoResult * World :=
  match models with
  | [] => (Throw (allFailedMessage errors), w)
  | (modelName, vm) :: rest =>
      match attempt retry prompt requested modelName vm errors w with
      | (Continue errors', w') => tryModels retry prompt requested rest errors' w'
      | (Finish r, w') => (r, w')
      end
  end.

(** [generateSceneVideo] with [retriesLeft = MAX_RETRIES - retryCount]
    retries still permitted. *)
Fixpoint generateSceneVideoFrom (retriesLeft : nat) (prompt : string) (requested : Q)
    (modelChain : option (list string)) (w : World) : completion VideoResult * World :=
  let models := enabledModels (default DEFAULT_CHAIN modelChain) in
  match models with
  | [] => (Throw noModelsMessage, w)
  | _ :: _ =>
      if abortedAt env (clock w) then (Throw abortedMessage, w)
      else
        let retry :=
          match retriesLeft with
          | O => None
          | S fewer =>
              Some (fun modelName w' =>
                      generateSceneVideoFrom fewer prompt requested (Some [modelName]) w')
          end in
        tryModels retry prompt requested models [] w
  end.

Definition generateSceneVideo (prompt : string) (requested : Q)
    (modelChain : option (list string)) (retryCount : nat) (w : World)
    : completion VideoResult * World :=
  generateSceneVideoFrom (MAX_RETRIES - retryCount) prompt requested modelChain w.

End WithEnv.

(** The calls made to [modelName], in order, as instants. *)
Definition callsTo (modelName : string) (events : list Event) : list Z :=
  omap (fun ev => match ev with
                  | EvCall m _ t => if decide (m = modelName) then Some t else None
                  | EvWait _ => None
                  end) events.

(** The trace without the inputs: which backend was called, and the waits. *)
Inductive Step := Call (model : string) | Wait (seconds : Z).

Definition steps (events : list Event) : list Step :=
  map (fun ev => match ev with EvCall m _ _ => Call m | EvWait s => Wait s end) events.

(** A backend account that is being throttled: "luma/dream-machine"
    rejects every call after half a second with a 429 answer that
    carries a hint of three seconds; the other backends deliver a clip
    after ninety seconds.  Nobody aborts. *)
Definition throttledMessage : string :=
  "Request failed with status 429 Too Many Requests: retry after 3".

Definition throttledLuma : Env :=
  {| replicateRun modelName _ _ :=
       if decide (modelName = "luma/dream-machine")
       then {| latency := 500; result := Throw throttledMessage |}
       else {| latency := 90000;
               result := Return (OutArray [JsString "https://replicate.delivery/clip.mp4"]) |};
     abortedAt _ := false |}.

(** A process that has just started, at instant [t]. *)
Definition freshWorld (t : Z) : World :=
  {| clock := t; breaker := circuitBreaker; budget := Budget.fresh; trace := [] |}.

(** A world in which [k] calls to [m] in a row pass the breaker, the
    governor and the budget test, the clip costing [actual] seconds. *)
Definition ready (m : string) (vm : VideoModel) (actual : Q) (k : nat) (w : World) : Prop :=
  failures (breaker w) !! m = None /\
  (length (recorded replicate m (budget w)) + k <= 10)%nat /\
  Js.ltb (remaining (getBudgetStatus (budget w))) (costPerSecond vm * actual)%Q = false.

(** The waits and calls that follow the first call to [m] when [n]
    retries are still permitted and the hint is [hint] seconds. *)
Definition retrySteps (m : string) (hint : Z) (n : nat) : list Step :=
  concat (repeat [Wait (hint + 1); Call m] n).

End Stage.

(** ** videoEngine.js: the [try] block when the singletons are shared *)

Module Shared.
Import Budget Circuit Video Stage.

(** [callBackend] in a process in which other scene tasks or other
    requests use the same budget manager and circuit breaker: [others]
    is what they do to the two while this task awaits [replicate.run].
    [Stage.callBackend] is the case in which they do nothing. *)
Definition callBackend (env : Env) (others : World -> World) (prompt : string)
    (actual : Q) (modelName : string) (vm : VideoModel) (w : World)
    : completion VideoResult * World :=
  let input := buildInput vm prompt actual DEFAULT_FPS ASPECT_RATIO in
  let reply := replicateRun env modelName input (clock w) in
  let timedOut := bool_decide (MODEL_TIMEOUT_MS <= latency reply) in
  let w := others (elapse (if timedOut then MODEL_TIMEOUT_MS else latency reply)
                          (EvCall modelName input (clock w)) w) in
  match (if timedOut then Throw (timeoutMessage modelName) else result reply) with
  | Throw msg => (Throw msg, w)
  | Return output =>
      match extractVideoUrl output with
      | None => (Throw (invalidUrlMessage modelName), w)
      | Some url =>
          let '(tracked, bm) := trackReplicateCost actual modelName (budget w) in
          let w := setBudget bm w in
          match tracked with
          | Throw msg => (Throw msg, w)
          | Return _ =>
              (Return {| videoUrl := url; model := modelName; duration := actual;
                         promptLength := String.length prompt |},
               setBreaker (recordSuccess modelName (breaker w)) w)
          end
      end
  end.

(** Another scene task that is charged for a clip of [seconds] seconds
    of [modelName] in the meantime. *)
Definition otherClip (seconds : Q) (modelName : string) (w : World) : World :=
  setBudget (snd (trackReplicateCost seconds modelName (budget w))) w.

(** A process that has spent 4.90 so far. *)
Definition nearCeiling : World :=
  {| clock := 0; breaker := circuitBreaker;
     budget := {| currentCost := 4.9; openaiLimiter := ∅; replicateLimiter := ∅ |};
     trace := [] |}.

End Shared.

(** ** videoEngine.js: concurrency controller and [createMovie] *)

Module Movie.
Import Budget Video.

(** The fields of a scene record that the orchestrator itself reads;
    timestamps, prompt, model and duration are carried along unread. *)
Record SceneData := {
  scene : nat;
  success : bool;
  video : option string;
  summary : option string;
  error : option string;
  aborted : bool
}.

(** An entry of [progress.failedScenes]. *)
Record Failure := { failedScene : nat; failedError : string }.

(** What the orchestrator can observe of a run. *)
Inductive Event :=
| ScriptCall (sceneNumber : nat) (storySoFar : string) (previousSceneEnd : option string)
| ContinuityWrite (sceneNumber : nat) (storySoFar : string) (previousSceneEnd : string).

(** The variables that the scene closures share, the progress tracker
    and the abort signal. *)
Record Run := {
  storySoFar : string;
  previousSceneEnd : option string;
  scenes : list SceneData;
  failedScenes : list Failure;
  completedScenes : nat;
  signal : bool;
  log : list Event
}.

Definition start : Run :=
  {| storySoFar := EmptyString; previousSceneEnd := None; scenes := [];
     failedScenes := []; completedScenes := 0; signal := false; log := [] |}.

(** How the pipeline of a scene ends once its script has been asked
    for: with a saved clip, or with an error thrown inside the [try]
    (by the script stage, an abort check, the video stage or the upload). *)
Inductive Outcome :=
| Completed (summary endHook savedUrl : string)
| Raised (message : string).

(** A tick of the event loop on which the orchestration is suspended:
    the abort signal may trip, and one of the running scene tasks,
    chosen by position, runs to its end.  While the controller waits
    for a free slot, [batch] further tasks may run to their end before
    the controller is resumed. *)
Record Tick := { abortFires : bool; pick : nat; batch : nat }.

(** The environment of a run. *)
Record Oracle := {
  outcomeOf : nat -> Outcome;
  abortDuringScene : nat -> bool;
  abortDuringDelay : nat -> bool;
  schedule : list Tick
}.

Definition trip (fires : bool) (st : Run) : Run :=
  {| storySoFar := storySoFar st; previousSceneEnd := previousSceneEnd st;
     scenes := scenes st; failedScenes := failedScenes st;
     completedScenes := completedScenes st; signal := signal st || fires; log := log st |}.

(** A scene task after its synchronous start. *)
Inductive Task :=
| Pending (sceneNumber : nat)
| RejectedAtStart (sceneNumber : nat).

Inductive Settled :=
| Resolved (s : SceneData)
| Rejected (message : string).

Definition abortedMessage : string := "Generation aborted by user".

(** The scene closure up to its first [await]: the abort check, then
    [progress.notify(i, "scripting")] and the call of [generateSceneScript]
    with the continuity variables as they are now. *)
Definition sceneStart (i : nat) (st : Run) : Task * Run :=
  if signal st then (RejectedAtStart i, st)
  else
    (Pending i,
     {| storySoFar := storySoFar st; previousSceneEnd := previousSceneEnd st;
        scenes := scenes st; failedScenes := failedScenes st;
        completedScenes := i; signal := signal st;
        log := log st ++ [ScriptCall i (storySoFar st) (previousSceneEnd st)] |}).

(** [a || b] on strings. *)
Definition orString (a b : string) : string :=
  match a with EmptyString => b | _ => a end.

Definition sceneLine (i : nat) (summary : string) : string :=
  String (ascii_of_nat 10) ("Scene " +:+ Js.ofInt (Z.of_nat i) +:+ ": " +:+ summary).

(** The last segment of the scene closure: after [saveVideo] on
    success, the [catch] block otherwise. *)
Definition sceneFinish (i : nat) (outcome : Outcome) (st : Run) : Settled * Run :=
  match outcome with
  | Completed summary endHook savedUrl =>
      let story := storySoFar st +:+ sceneLine i summary in
      let hook := orString endHook summary in
      let sceneData :=
        {| scene := i; success := true; video := Some savedUrl;
           summary := Some summary; error := None; aborted := false |} in
      (Resolved sceneData,
       {| storySoFar := story; previousSceneEnd := Some hook;
          scenes := scenes st ++ [sceneData]; failedScenes := failedScenes st;
          completedScenes := i; signal := signal st;
          log := log st ++ [ContinuityWrite i story hook] |})
  | Raised message =>
      if Js.includes "aborted" message || signal st then
        let sceneData :=
          {| scene := i; success := false; video := None; summary := None;
             error := Some "Generation aborted"%string; aborted := true |} in
        (Rejected abortedMessage,
         {| storySoFar := storySoFar st; previousSceneEnd := previousSceneEnd st;
            scenes := scenes st ++ [sceneData]; failedScenes := failedScenes st;
            completedScenes := i; signal := signal st; log := log st |})
      else
        let sceneData :=
          {| scene := i; success := false; video := None; summary := None;
             error := Some message; aborted := false |} in
        (Resolved sceneData,
         {| storySoFar := storySoFar st; previousSceneEnd := previousSceneEnd st;
            scenes := scenes st ++ [sceneData];
            failedScenes := failedScenes st ++ [{| failedScene := i; failedError := message |}];
            completedScenes := i; signal := signal st; log := log st |})
  end.

(** A started task runs to its end. *)
Definition settle (oracle : Oracle) (task : Task) (st : Run) : Settled * Run :=
  match task with
  | Pending i => sceneFinish i (outcomeOf oracle i) st
  | RejectedAtStart _ => (Rejected abortedMessage, st)
  end.

(** *** The sequential loops of [createMovie] *)

(** [indices] are the values of the loop variable still to come and
    [count] is [sceneFns.length]; scene [i + 1] is [sceneFns[i]]. *)
Fixpoint runSequential (oracle : Oracle) (count : nat) (indices : list nat) (st : Run)
    : completion unit * Run :=
  match indices with
  | [] => (Return tt, st)
  | i :: rest =>
      if signal st then (Return tt, st)
      else
        let '(task, st) := sceneStart (i + 1) st in
        let st := trip (abortDuringScene oracle (i + 1)) st in
        match settle oracle task st with
        | (Rejected message, st) => (Throw message, st)
        | (Resolved _, st) =>
            let st :=
              if (i <? count - 1)%nat && negb (signal st)
              then trip (abortDuringDelay oracle (i + 1)) st
              else st in
            runSequential oracle count rest st
        end
  end.

(** *** [processScenesInParallel] *)

(** The state of the controller: the ticks still to come, the set
    [running] in insertion order, the sparse array [results]. *)
Record Pool := {
  ticks : list Tick;
  running : list (nat * Task);
  results : list (option SceneData);
  run : Run
}.

Definition abortedSlot (j : nat) : SceneData :=
  {| scene := j + 1; success := false; video := None; summary := None;
     error := Some "Generation aborted"%string; aborted := true |}.

Definition errorSlot (j : nat) (message : string) : SceneData :=
  {| scene := j + 1; success := false; video := None; summary := None;
     error := Some message; aborted := false |}.

(** One running task settles and its [then] or [catch] handler runs. *)
Definition settleOne (oracle : Oracle) (p : Pool) : Pool :=
  let tick :=
    match ticks p with
    | t :: _ => t
    | [] => {| abortFires := false; pick := 0; batch := 0 |}
    end in
  let st := trip (abortFires tick) (run p) in
  let position := (pick tick mod length (running p))%nat in
  match running p !! position with
  | None => p
  | Some (index, task) =>
      let '(settled, st) := settle oracle task st in
      let slot :=
        match settled with
        | Resolved s => s
        | Rejected message => errorSlot index message
        end in
      {| ticks := tail (ticks p);
         running := take position (running p) ++ drop (S position) (running p);
         results := if signal st then results p else <[index := Some slot]> (results p);
         run := st |}
  end.

(** [fuel] running tasks settle, one after the other; with [fuel] the
    size of [running] this is [await Promise.allSettled(running)]. *)
Fixpoint settleAll (oracle : Oracle) (fuel : nat) (p : Pool) : Pool :=
  match fuel with
  | O => p
  | S fuel' => settleAll oracle fuel' (settleOne oracle p)
  end.

(** [while (running.size >= maxParallel) { if (aborted) break;
    await Promise.race(running); }]; [None] when the race is over an
    empty set, which never settles. *)
Fixpoint waitForSlot (oracle : Oracle) (maxParallel : nat) (fuel : nat) (p : Pool)
    : option Pool :=
  if (length (running p) <? maxParallel)%nat then Some p
  else if signal (run p) then Some p
  else
    match fuel with
    | O => None
    | S fuel' =>
        let more := match ticks p with t :: _ => batch t | [] => O end in
        waitForSlot oracle maxParallel fuel' (settleAll oracle more (settleOne oracle p))
    end.

Fixpoint fillAborted (indices : list nat) (res : list (option SceneData))
    : list (option SceneData) :=
  match indices with
  | [] => res
  | j :: rest => fillAborted rest (<[j := Some (abortedSlot j)]> res)
  end.

Definition setResults (res : list (option SceneData)) (p : Pool) : Pool :=
  {| ticks := ticks p; running := running p; results := res; run := run p |}.

(** The [for] loop that starts the tasks. *)
Fixpoint spawn (oracle : Oracle) (maxParallel : nat) (indices : list nat) (p : Pool)
    : option Pool :=
  match indices with
  | [] => Some p
  | i :: rest =>
      if signal (run p) then Some (setResults (fillAborted (i :: rest) (results p)) p)
      else
        match waitForSlot oracle maxParallel (length (running p)) p with
        | None => None
        | Some p =>
            if signal (run p) then Some p
            else
              let '(task, st) := sceneStart (i + 1) (run p) in
              spawn oracle maxParallel rest
                {| ticks := ticks p; running := running p ++ [(i, task)];
                   results := results p; run := st |}
        end
  end.

(** [processScenesInParallel(sceneFns, maxParallel, abortSignal)] for
    [count] scene closures: the array it returns and the state it leaves. *)
Definition processScenesInParallel (oracle : Oracle) (count : nat) (maxParallel : nat)
    (st : Run) : option (list SceneData * Run) :=
  let p0 := {| ticks := schedule oracle; running := [];
               results := List.repeat None count; run := st |} in
  match spawn oracle maxParallel (seq 0 count) p0 with
  | None => None
  | Some p =>
      let p := if signal (run p) then p else settleAll oracle (length (running p)) p in
      Some (omap id (results p), run p)
  end.

(** *** [createMovie] *)

Record Request := {
  baseStoryPrompt : string;
  characterIds : list string;
  totalDurationSeconds : Q;
  sceneDuration : Q;
  enableParallel : bool;
  modelChain : option (list string);
  openaiModel : string
}.

(** [modelChain?.[0] || "google/veo-3.1-fast"] *)
Definition selectedModelName (req : Request) : string :=
  match modelChain req with
  | Some (first :: _) => orString first "google/veo-3.1-fast"
  | _ => "google/veo-3.1-fast"%string
  end.

(** [selectedModel?.allowedDurations] *)
Definition selectedAllowed (req : Request) : option (list Q) :=
  match VIDEO_MODELS (selectedModelName req) with
  | Some vm => allowedDurations vm
  | None => None
  end.

(** [calculatedSceneDuration]; [None] is the [TypeError] of [reduce]
    on an empty list of permitted durations. *)
Definition calculatedSceneDuration (req : Request) : option Q :=
  let d0 :=
    if Qeq_bool (totalDurationSeconds req) 30
    then match selectedAllowed req with Some _ => 6%Q | None => 10%Q end
    else sceneDuration req in
  match selectedAllowed req with
  | Some permitted => closestAllowed permitted d0
  | None => Some d0
  end.

(** [Math.max(1, Math.ceil(totalDurationSeconds / calculatedSceneDuration))] *)
Definition sceneCount (total duration : Q) : Z :=
  Z.max 1 (Qceiling (total / duration)).

Record RunResult := {
  totalScenes : Z;
  successfulScenes : nat;
  failedScenesCount : nat;
  totalDuration : Q;
  resultScenes : list SceneData;
  failed : list Failure;
  saveAttempted : bool
}.

(** [scenes.filter((s) => s.success && s.video)] *)
Definition isSuccessful (s : SceneData) : bool :=
  success s && match video s with
               | Some EmptyString | None => false
               | Some _ => true
               end.

Definition assemble (total : Z) (duration : Q) (st : Run) : RunResult :=
  let successful := List.filter isSuccessful (scenes st) in
  {| totalScenes := total;
     successfulScenes := length successful;
     failedScenesCount := length (failedScenes st);
     totalDuration := duration;
     resultScenes := successful;
     failed := failedScenes st;
     saveAttempted := (0 <? length successful)%nat || signal st |}.

(** The part of [createMovie] that drives the scene closures. *)
Definition drive (oracle : Oracle) (parallel : bool) (count : nat) (st : Run)
    : option (completion unit * Run) :=
  if parallel && (1 <? count)%nat then
    if (2 <? count)%nat then Some (runSequential oracle count (seq 0 count) st)
    else
      match processScenesInParallel oracle count MAX_PARALLEL_SCENES st with
      | Some (_, st) => Some (Return tt, st)
      | None => None
      end
  else Some (runSequential oracle count (seq 0 count) st).

Definition shortPromptMessage : string := "Story prompt must be at least 10 characters".
Definition noCharacterMessage : string := "At least one character ID is required".
Definition tooLongMessage : string := "Maximum duration is 60 minutes".
Definition emptyReduceMessage : string := "Reduce of empty array with no initial value".

Definition overBudgetMessage (estimate : option Q) : string :=
  "Estimated cost ($" +:+
  match estimate with Some q => Js.toFixed4 q | None => "NaN" end +:+
  ") exceeds maximum budget ($5). Please reduce duration or use a cheaper model.".

Definition insufficientMessage (remaining estimate : Q) : string :=
  "Insufficient budget remaining. Remaining: $" +:+ Js.toFixed4 remaining +:+
  ", Estimated: $" +:+ Js.toFixed4 estimate.

(** [createMovie]; the outer [None] is a call that never settles.
    [signalAtStart] is what the abort signal reads when the first scene
    is about to start. *)
Definition createMovie (req : Request) (oracle : Oracle) (signalAtStart : bool)
    (bm : BudgetManager) : option (completion RunResult) :=
  if (String.length (Js.trim (baseStoryPrompt req)) <? 10)%nat then
    Some (Throw shortPromptMessage)
  else if (length (characterIds req) =? 0)%nat then
    Some (Throw noCharacterMessage)
  else if Js.gtb (totalDurationSeconds req) MAX_TOTAL_DURATION then
    Some (Throw tooLongMessage)
  else
    match calculatedSceneDuration req with
    | None => Some (Throw emptyReduceMessage)
    | Some duration =>
        let estimatedCost :=
          calculateEstimatedCost (totalDurationSeconds req) duration
            (selectedModelName req) (openaiModel req) in
        match estimatedCost with
        | None => Some (Throw (overBudgetMessage None))
        | Some estimate =>
            if negb (isWithinBudget estimatedCost) then
              Some (Throw (overBudgetMessage (Some (total estimate))))
            else if Js.ltb (remaining (getBudgetStatus bm)) (total estimate) then
              Some (Throw (insufficientMessage (remaining (getBudgetStatus bm)) (total estimate)))
            else
              let totalScenes := sceneCount (totalDurationSeconds req) duration in
              match drive oracle (enableParallel req) (Z.to_nat totalScenes)
                          (trip signalAtStart start) with
              | None => None
              | Some (Throw message, _) => Some (Throw message)
              | Some (Return _, st) =>
                  Some (Return (assemble totalScenes (totalDurationSeconds req) st))
              end
        end
    end.

(** The scene slots that the result reports: successful and failed. *)
Definition accounted (st : Run) : nat :=
  (length (List.filter isSuccessful (scenes st)) + length (failedScenes st))%nat.

(** A pipeline end that is neither an abort nor a clip without URL. *)
Definition ordinary (outcome : Outcome) : Prop :=
  match outcome with
  | Completed _ _ savedUrl => savedUrl <> EmptyString
  | Raised message => Js.includes "aborted" message = false
  end.

(** A run that nobody aborts. *)
Definition quiet (oracle : Oracle) : Prop :=
  (forall i, ordinary (outcomeOf oracle i)) /\
  (forall i, abortDuringScene oracle i = false) /\
  (forall i, abortDuringDelay oracle i = false) /\
  Forall (fun t => abortFires t = false) (schedule oracle).

(** Scene slots reported so far plus scene tasks still running. *)
Definition inFlight (p : Pool) : nat := (accounted (run p) + length (running p))%nat.

Definition isPending (entry : nat * Task) : Prop :=
  match snd entry with Pending _ => True | RejectedAtStart _ => False end.

(** A controller that nobody has aborted and nobody will. *)
Definition quietPool (p : Pool) : Prop :=
  signal (run p) = false /\ Forall (fun t => abortFires t = false) (ticks p) /\
  Forall isPending (running p).

(** The errors with which [createMovie] rejects a call before any
    scene closure is run. *)
Definition preflight (message : string) : Prop :=
  message = shortPromptMessage \/ message = noCharacterMessage \/
  message = tooLongMessage \/ message = emptyReduceMessage \/
  (exists estimate, message = overBudgetMessage estimate) \/
  (exists remaining estimate, message = insufficientMessage remaining estimate).

(** Every scene is rendered and saved; nobody aborts; the scene started
    last is the first to finish. *)
Definition smooth : Oracle :=
  {| outcomeOf i :=
       Completed ("summary " +:+ Js.ofInt (Z.of_nat i)) ("hook " +:+ Js.ofInt (Z.of_nat i))
                 ("https://project.supabase.co/videos/" +:+ Js.ofInt (Z.of_nat i) +:+ ".mp4");
     abortDuringScene _ := false;
     abortDuringDelay _ := false;
     schedule := [{| abortFires := false; pick := 1; batch := 0 |}] |}.

(** Twelve seconds of film in six-second scenes: two scenes, which
    [createMovie] hands to [processScenesInParallel]. *)
Definition twelveSeconds : Request :=
  {| baseStoryPrompt := "A lighthouse keeper finds a map in a bottle";
     characterIds := ["c-001"%string];
     totalDurationSeconds := 12;
     sceneDuration := 6;
     enableParallel := true;
     modelChain := None;
     openaiModel := "gpt-4o-mini" |}.

(** As [smooth], but the scenes finish in the order in which they started. *)
Definition inOrder : Oracle :=
  {| outcomeOf := outcomeOf smooth;
     abortDuringScene _ := false;
     abortDuringDelay _ := false;
     schedule := [] |}.

(** The scene an event belongs to. *)
Definition eventScene (ev : Event) : nat :=
  match ev with
  | ScriptCall i _ _ | ContinuityWrite i _ _ => i
  end.

(** Reading a log from continuity [(story, hook)] on: the continuity at
    its end, provided every script call in it was made with the
    continuity written last before it. *)
Fixpoint replay (story : string) (hook : option string) (events : list Event)
    : option (string * option string) :=
  match events with
  | [] => Some (story, hook)
  | ScriptCall _ s h :: rest =>
      if decide (s = story /\ h = hook) then replay story hook rest else None
  | ContinuityWrite _ s h :: rest => replay s (Some h) rest
  end.

(** The scene records are in strictly ascending scene order and below
    [sceneBound]; the log is in ascending scene order and below [logBound]. *)
Definition ordered (sceneBound logBound : nat) (st : Run) : Prop :=
  StronglySorted lt (map scene (scenes st)) /\
  Forall (fun n => n <= sceneBound)%nat (map scene (scenes st)) /\
  StronglySorted le (map eventScene (log st)) /\
  Forall (fun n => n <= logBound)%nat (map eventScene (log st)).

End Movie.

(** ** Runs of calls on the governor and on the breaker *)

Module Traces.
Import Budget Circuit.

(** What the [canExecute] calls of a run of breaker calls answer, in order. *)
Fixpoint answers (ops : list Op) (cb : CircuitBreaker) : list bool :=
  match ops with
  | [] => []
  | CanExecute m now :: rest => fst (canExecute m now cb) :: answers rest (step cb (CanExecute m now))
  | op :: rest => answers rest (step cb op)
  end.

(** The breaker calls of a video stage that tries [model] over and over
    and fails each time: before each try it asks [canExecute], at
    instant [fst], and after the try it calls [recordFailure], at
    instant [snd]. *)
Definition failingTries (model : string) (tries : list (Z * Z)) : list Op :=
  flat_map (fun t => [CanExecute model (fst t); RecordFailure model (snd t)]) tries.

(** Each try starts more than [timeout] after the failure before it. *)
Fixpoint spaced (timeout : Z) (previousFailure : option Z) (tries : list (Z * Z)) : Prop :=
  match tries with
  | [] => True
  | t :: rest =>
      match previousFailure with
      | Some f => timeout < fst t - f
      | None => True
      end /\ spaced timeout (Some (snd t)) rest
  end.

(** The instants at which a run of [checkRateLimit] calls for one
    identifier, made at [times], was let through. *)
Fixpoint letThrough (service : Service) (identifier : string) (times : list Z)
    (bm : BudgetManager) : list Z :=
  match times with
  | [] => []
  | t :: rest =>
      (if allowed (fst (checkRateLimit service identifier t bm)) then [t] else []) ++
      letThrough service identifier rest (snd (checkRateLimit service identifier t bm))
  end.

(** The instants of [instants] in the window of length [window] that
    ends at [until]. *)
Definition inWindow (window until : Z) (instants : list Z) : list Z :=
  filter (fun t => until - window < t /\ t <= until) instants.

(** The instants of the [recordFailure] calls for [model] in [ops]. *)
Definition failuresOf (model : string) (ops : list Op) : list Z :=
  omap (fun op => match op with
                  | RecordFailure m t => if decide (m = model) then Some t else None
                  | _ => None
                  end) ops.

(** In [ops] no success is recorded for [model], and no [canExecute]
    call for [model] that comes after a failure of [model], the one at
    [previousFailure] or one in [ops], is made more than [timeout]
    after the last such failure before it. *)
Fixpoint unbroken (model : string) (timeout : Z) (previousFailure : option Z)
    (ops : list Op) : Prop :=
  match ops with
  | [] => True
  | CanExecute m now :: rest =>
      (m = model -> match previousFailure with
                    | Some f => now - f <= timeout
                    | None => True
                    end) /\
      unbroken model timeout previousFailure rest
  | RecordSuccess m :: rest => m <> model /\ unbroken model timeout previousFailure rest
  | RecordFailure m now :: rest =>
      unbroken model timeout (if decide (m = model) then Some now else previousFailure) rest
  end.

(** The instant of the last failure remembered for [model]. *)
Definition lastFailureOf (model : string) (cb : CircuitBreaker) : option Z :=
  lastFailure <$> failures cb !! model.

(** [lastReset] of the record of [identifier]. *)
Definition lastResetOf (service : Service) (identifier : string) (bm : BudgetManager)
    : option Z :=
  lastReset <$> rateLimiter service bm !! identifier.

End Traces.

(** ** videoEngine.js: [generateSceneScript] and [buildVideoPrompt] *)

Module Script.
Import Budget Stage.

(** A character as [getCharacters] returns it; a field that is
    [null] or missing is [None]. *)
Record Character := {
  id : string;
  name : string;
  base_prompt : option string;
  personality : option string;
  reference_image : option string;
  visual_details : option string
}.

Definition nl : string := String (ascii_of_nat 10) EmptyString.
Definition quote : string := String (ascii_of_nat 34) EmptyString.

(** [a || b] on a text that may be missing; the empty text is falsy. *)
Definition textOr (a : option string) (b : string) : string :=
  match a with
  | Some (String c s) => String c s
  | _ => b
  end.

(** [a ? f(a) : empty] *)
Definition whenText (a : option string) (f : string -> string) : string :=
  match a with
  | Some (String c s) => f (String c s)
  | _ => EmptyString
  end.

(** The script returned when OpenAI fails. *)
Definition fallbackScript (characters : list Character) : string :=
  "SCENE_VISUAL:" +:+ nl +:+
  "A cinematic scene showing " +:+ String.concat " and " (map name characters) +:+
  " continuing their story." +:+ nl +:+
  "Professional camera movements, smooth transitions." +:+ nl +:+
  nl +:+
  "DIALOGUE:" +:+ nl +:+
  textOr (name <$> head characters) "Character" +:+ ": " +:+ quote +:+
  "We need to keep moving." +:+ quote +:+ nl +:+
  nl +:+
  "SCENE_END_HOOK:" +:+ nl +:+
  "They keep moving forward, still in motion as the moment cuts." +:+ nl +:+
  nl +:+
  "SCENE_SUMMARY:" +:+ nl +:+
  "The characters continue their journey, maintaining momentum for the next scene.".

(** What [openai.chat.completions.create] resolves with, as far as it
    is read: [usage] and [choices?.[0]?.message?.content]. *)
Record Usage := { prompt_tokens : option Z; completion_tokens : option Z }.

Record ChatResponse := { usage : option Usage; content : option string }.

(** The [catch] block of [generateSceneScript]. *)
Definition recover (characters : list Character) (message : string) (bm : BudgetManager)
    : completion string * BudgetManager :=
  if Js.includes "Rate limit" message then (Throw message, bm)
  else (Return (fallbackScript characters), bm).

(** [generateSceneScript]; [reply] is how the call to OpenAI ends if
    it is made, [now] the instant of the rate-limit check. *)
Definition generateSceneScript (reply : completion ChatResponse) (openaiModel : string)
    (characters : list Character) (now : Z) (bm : BudgetManager)
    : completion string * BudgetManager :=
  let '(rateLimitCheck, bm) := checkRateLimit openai "script-generation" now bm in
  match rateLimitCheck with
  | Denied reason retryAfter =>
      recover characters (governorDeniedMessage reason retryAfter) bm
  | Allowed =>
      match reply with
      | Throw message => recover characters message bm
      | Return response =>
          let '(tracked, bm) :=
            match usage response with
            | Some u =>
                let totalTokens :=
                  default 0 (prompt_tokens u) + default 0 (completion_tokens u) in
                trackOpenAICost totalTokens openaiModel bm
            | None => (Return 0%Q, bm)
            end in
          match tracked with
          | Throw message => recover characters message bm
          | Return _ => (Return (textOr (content response) EmptyString), bm)
          end
      end
  end.

(** The fields of [sceneParts] that [buildVideoPrompt] reads. *)
Record SceneParts := { visual : string; dialogue : string }.

Definition GLOBAL_STYLE : string :=
  nl +:+
  "CINEMATIC STYLE LOCK:" +:+ nl +:+
  "- cinematic lighting" +:+ nl +:+
  "- film color grading" +:+ nl +:+
  "- smooth camera movement" +:+ nl +:+
  "- ultra realistic" +:+ nl +:+
  "- high temporal consistency" +:+ nl +:+
  "- no flicker" +:+ nl +:+
  "- professional movie look" +:+ nl +:+
  "- consistent motion blur" +:+ nl +:+
  "- depth of field" +:+ nl +:+
  "- 4K quality" +:+ nl +:+
  "- Arri Alexa camera style" +:+ nl +:+
  "- Roger Deakins cinematography" +:+ nl +:+
  "- Christopher Nolan film style" +:+ nl.

(** One entry of [characterLockBlock]. *)
Definition characterLock (c : Character) : string :=
  nl +:+
  "CHARACTER LOCK: " +:+ name c +:+ nl +:+
  textOr (base_prompt c) "cinematic, realistic character" +:+ nl +:+
  whenText (personality c) (fun t => "- Personality: " +:+ t) +:+ nl +:+
  "- CRITICAL: same face, same body, same hairstyle across ALL scenes" +:+ nl +:+
  "- CRITICAL: same wardrobe style and colors (unless story explicitly requires change)"
  +:+ nl +:+
  "- CRITICAL: identity locked with temporal consistency" +:+ nl +:+
  "- CRITICAL: consistent facial features and proportions in every frame" +:+ nl +:+
  "- CRITICAL: unchanged clothing unless story explicitly requires it" +:+ nl +:+
  "- CRITICAL: maintain exact same appearance from scene to scene" +:+ nl +:+
  whenText (visual_details c) (fun t => "- Visual Details: " +:+ t) +:+ nl +:+
  whenText (reference_image c) (fun t => "- Based on reference image: " +:+ t) +:+ nl +:+
  "- Character must look identical in every scene" +:+ nl +:+
  "- No variations in appearance, clothing, or physical characteristics" +:+ nl.

Definition characterLockBlock (characters : list Character) : string :=
  String.concat nl (map characterLock characters).

(** One entry of [characterPrompts]. *)
Definition characterPrompt (c : Character) : string :=
  name c +:+ ": " +:+
  whenText (base_prompt c) (fun t => t +:+ ". ") +:+
  whenText (personality c) (fun t => "Personality: " +:+ t +:+ ". ") +:+
  whenText (visual_details c) (fun t => "Visual: " +:+ t +:+ ". ") +:+
  "MUST maintain exact same appearance.".

Definition MAX_PROMPT_LENGTH : nat := 4000.

(** The heading with which the template of [buildVideoPrompt] begins. *)
Definition promptHeading : string := nl +:+ "CINEMATIC SCENE DIRECTIONS:" +:+ nl.

(** What follows the visual description in the template. *)
Definition promptTail (parts : SceneParts) (characters : list Character)
    (previousSceneEnd baseStoryPrompt : option string) : string :=
  nl +:+
  nl +:+
  whenText (Some (dialogue parts)) (fun t => "DIALOGUE SCENE:" +:+ nl +:+ t) +:+ nl +:+
  nl +:+
  whenText baseStoryPrompt (fun t => "STORY CONTEXT: " +:+ t) +:+ nl +:+
  nl +:+
  match previousSceneEnd with
  | Some (String c t) => "CONTINUE FROM PREVIOUS SCENE: " +:+ String c t
  | _ => "Opening scene of the film."
  end +:+ nl +:+
  nl +:+
  GLOBAL_STYLE +:+ nl +:+
  nl +:+
  "CHARACTER CONSISTENCY REQUIREMENTS:" +:+ nl +:+
  String.concat nl (map characterPrompt characters) +:+ nl +:+
  nl +:+
  characterLockBlock characters +:+ nl +:+
  nl +:+
  "CONTINUOUS CINEMATOGRAPHY:" +:+ nl +:+
  "- smooth camera transitions" +:+ nl +:+
  "- professional camera movements" +:+ nl +:+
  "- maintain temporal consistency" +:+ nl +:+
  "- no jump cuts or scene resets" +:+ nl +:+
  "- natural motion flow" +:+ nl +:+
  "- filmic pacing" +:+ nl +:+
  nl +:+
  "TECHNICAL REQUIREMENTS:" +:+ nl +:+
  "- 4K resolution, film quality" +:+ nl +:+
  "- natural film grain" +:+ nl +:+
  "- cinematic 16:9 aspect ratio" +:+ nl +:+
  "- professional color grading" +:+ nl +:+
  "- realistic lighting and shadows" +:+ nl +:+
  "- consistent character appearance (CRITICAL)" +:+ nl +:+
  "- temporal stability between frames" +:+ nl +:+
  "- characters must look identical to previous scenes" +:+ nl.

Definition buildVideoPrompt (parts : SceneParts) (characters : list Character)
    (previousSceneEnd baseStoryPrompt : option string) : string :=
  let prompt :=
    promptHeading +:+ visual parts +:+
    promptTail parts characters previousSceneEnd baseStoryPrompt in
  let prompt :=
    if (MAX_PROMPT_LENGTH <? String.length prompt)%nat
    then substring 0 MAX_PROMPT_LENGTH prompt
    else prompt in
  Js.trim prompt.

(** A row of the table of characters: the new schema keeps the
    prompts in the [profile] object, the old one in columns. *)
Record Profile := {
  profile_base_prompt : option string;
  profile_personality : option string;
  profile_visual_details : option string
}.

Record CharacterRow := {
  row_id : string;
  row_name : string;
  row_profile : option Profile;
  row_base_prompt : option string;
  row_personality : option string;
  row_reference_image : option string;
  row_visual_details : option string
}.

(** What the query resolves with: [error] and [data]. *)
Record QueryResult := { query_error : option string; query_data : option (list CharacterRow) }.

(** [x || null] on a text. *)
Definition textOrNull (a : option string) : option string :=
  match a with
  | Some (String c s) => Some (String c s)
  | _ => None
  end.

Definition fromRow (char : CharacterRow) : Character :=
  match row_profile char with
  | Some profile =>
      {| id := row_id char;
         name := row_name char;
         base_prompt := Some (textOr (profile_base_prompt profile)
                                     "cinematic, realistic character");
         personality := Some (textOr (profile_personality profile)
                                     "realistic movie character");
         reference_image := row_reference_image char;
         visual_details := textOrNull (profile_visual_details profile) |}
  | None =>
      {| id := row_id char;
         name := row_name char;
         base_prompt := Some (textOr (row_base_prompt char) "cinematic, realistic character");
         personality := Some (textOr (row_personality char) "realistic movie character");
         reference_image := row_reference_image char;
         visual_details := textOrNull (row_visual_details char) |}
  end.

(** The placeholder of the [catch] block. *)
Definition placeholder (characterId : string) : Character :=
  {| id := characterId;
     name := "Character " +:+ substring 0 4 characterId;
     base_prompt := Some "cinematic, realistic character"%string;
     personality := Some "realistic movie character"%string;
     reference_image := None;
     visual_details := None |}.

(** [getCharacters]; [reply] is how the query ends. *)
Definition getCharacters (reply : completion QueryResult) (characterIds : list string)
    : list Character :=
  match reply with
  | Throw _ => map placeholder characterIds
  | Return result =>
      match query_error result with
      | Some _ => map placeholder characterIds
      | None =>
          match query_data result with
          | None | Some [] => map placeholder characterIds
          | Some data => map fromRow data
          end
      end
  end.

End Script.

(** ** Facts about texts that the properties speak of *)

Module Text.
Import Video.

(** The character [c] does not occur in [s]. *)
Fixpoint avoids (c : ascii) (s : string) : bool :=
  match s with
  | EmptyString => true
  | String c' s' => negb (Ascii.eqb c c') && avoids c s'
  end.

(** Some character of [s] is a decimal digit. *)
Fixpoint hasDigit (s : string) : bool :=
  match s with
  | EmptyString => false
  | String c s' => isDigit c || hasDigit s'
  end.

End Text.

(** ** What a run of the video stage leaves behind *)

Module Ledger.
Import Budget Video Stage.

(** The spend recorded by the budget manager of a world. *)
Definition spent (w : World) : Q := currentCost (budget w).

(** The backends called in a stretch of the trace, in order. *)
Definition calledModels (events : list Event) : list string :=
  omap (fun ev => match ev with EvCall m _ _ => Some m | EvWait _ => None end) events.

(** The spend after a run that ended with [res] in [w'], against the
    spend before it in [w]: a delivered clip is charged once, at the
    price of its backend, and fits under the ceiling; a run that throws
    charges nothing. *)
Definition charged (requested : Q) (w : World) (res : completion VideoResult) (w' : World)
    : Prop :=
  match res with
  | Return r =>
      exists vm, VIDEO_MODELS (model r) = Some vm /\
                 actualDuration vm requested = Some (duration r) /\
                 (spent w' == spent w + duration r * costPerSecond vm)%Q /\
                 (spent w' <= MAX_BUDGET)%Q
  | Throw _ => spent w' = spent w
  end.

Definition chargedTurn (requested : Q) (w : World) (c : Control) (w' : World) : Prop :=
  match c with
  | Continue _ => spent w' = spent w
  | Finish res => charged requested w res w'
  end.

(** A retry function that charges as the stage does. *)
Definition chargedRetry (requested : Q)
    (retry : option (string -> World -> completion VideoResult * World)) : Prop :=
  match retry with
  | Some again =>
      forall modelName w, charged requested w (fst (again modelName w)) (snd (again modelName w))
  | None => True
  end.

(** The number of times [m] occurs in [names]. *)
Definition occurrences (m : string) (names : list string) : nat :=
  length (filter (fun x => x = m) names).

(** The number of calls to backend [m] among [events]. *)
Definition callsOf (m : string) (events : list Event) : nat :=
  occurrences m (calledModels events).

(** The trace of [w'] continues the trace of [w], with at most
    [bound m] calls to each backend [m]. *)
Definition extends (bound : string -> nat) (w w' : World) : Prop :=
  exists events,
    trace w' = trace w ++ events /\
    forall m, (callsOf m events <= bound m)%nat.

(** [k] calls to [modelName], none to another backend. *)
Definition only (modelName : string) (k : nat) (m : string) : nat :=
  if decide (m = modelName) then k else 0%nat.

(** A retry function that calls its backend at most [k] times, and no
    other backend. *)
Definition boundedRetry (k : nat)
    (retry : option (string -> World -> completion VideoResult * World)) : Prop :=
  match retry with
  | Some again =>
      forall modelName w, extends (only modelName k) w (snd (again modelName w))
  | None => True
  end.

(** The calls a retry function of [boundedRetry k] adds to one turn. *)
Definition retryCalls (k : nat)
    (retry : option (string -> World -> completion VideoResult * World)) : nat :=
  match retry with Some _ => k | None => 0%nat end.

End Ledger.

(** ** The slots of the concurrency controller *)

Module Slots.
Import Movie.

(** The scene a started task renders. *)
Definition taskScene (task : Task) : nat :=
  match task with Pending i | RejectedAtStart i => i end.

(** A controller over [count] closures in which every filled slot of
    [results] holds a record of the scene of its position, and every
    running task is the closure of the index it is stored with. *)
Definition aligned (count : nat) (p : Pool) : Prop :=
  length (results p) = count /\
  (forall j s, results p !! j = Some (Some s) -> scene s = (j + 1)%nat) /\
  Forall (fun entry => (fst entry < count)%nat /\ taskScene (snd entry) = (fst entry + 1)%nat)
         (running p).

(** The scene records are those of scenes 1 to [a], in that order, and
    scene [a] is the one that notified the progress tracker last. *)
Definition numbered (a : nat) (st : Run) : Prop :=
  map scene (scenes st) = seq 1 a /\ completedScenes st = a.

End Slots.

(** ** videoEngine.js: [saveMovieRecord] as [createMovie] calls it *)

Module Persist.
Import Movie.

Inductive MovieStatus := movieAborted | movieCompleted | movieFailed.

Definition statusText (s : MovieStatus) : string :=
  match s with
  | movieAborted => "aborted"
  | movieCompleted => "completed"
  | movieFailed => "failed"
  end.






End Persist.

(** ** generationJobs.js *)

Module Jobs.

Inductive JobStatus := jobRunning | jobAborted | jobCompleted.

(** A job; [abortController] is a reference to the controller made
    for it, whose signal the generation holds. *)
Record Job := {
  abortController : nat;
  startTime : Z;
  movieId : option string;
  status : JobStatus;
  abortedAt : option Z;
  completedAt : option Z
}.

(** The manager, with the [aborted] flag of the signal of every
    controller made so far. *)
Record GenerationJobsManager := {
  jobs : gmap string Job;
  controllers : list bool
}.

Definition fresh : GenerationJobsManager := {| jobs := ∅; controllers := [] |}.

(** [signal.aborted] of the controller [ref]. *)
Definition signalAborted (ref : nat) (m : GenerationJobsManager) : bool :=
  default false (controllers m !! ref).

Definition createJob (jobId : string) (movie : option string) (now : Z)
    (m : GenerationJobsManager) : nat * GenerationJobsManager :=
  let ref := length (controllers m) in
  (ref,
   {| jobs := <[jobId := {| abortController := ref; startTime := now; movieId := movie;
                            status := jobRunning; abortedAt := None; completedAt := None |}]>
                (jobs m);
      controllers := controllers m ++ [false] |}).

Definition getAbortSignal (jobId : string) (m : GenerationJobsManager) : option nat :=
  abortController <$> jobs m !! jobId.

Definition abortJob (jobId : string) (now : Z) (m : GenerationJobsManager)
    : bool * GenerationJobsManager :=
  match jobs m !! jobId with
  | Some job =>
      match status job with
      | jobRunning =>
          (true,
           {| jobs := <[jobId := {| abortController := abortController job;
                                    startTime := startTime job; movieId := movieId job;
                                    status := jobAborted; abortedAt := Some now;
                                    completedAt := completedAt job |}]> (jobs m);
              controllers := <[abortController job := true]> (controllers m) |})
      | _ => (false, m)
      end
  | None => (false, m)
  end.

Definition completeJob (jobId : string) (now : Z) (m : GenerationJobsManager)
    : GenerationJobsManager :=
  match jobs m !! jobId with
  | Some job =>
      {| jobs := <[jobId := {| abortController := abortController job;
                               startTime := startTime job; movieId := movieId job;
                               status := jobCompleted; abortedAt := abortedAt job;
                               completedAt := Some now |}]> (jobs m);
         controllers := controllers m |}
  | None => m
  end.

Record JobView := {
  view_status : JobStatus;
  view_startTime : Z;
  view_movieId : option string;
  view_elapsed : Z
}.

Definition getJobStatus (jobId : string) (now : Z) (m : GenerationJobsManager)
    : option JobView :=
  match jobs m !! jobId with
  | Some job =>
      Some {| view_status := status job; view_startTime := startTime job;
              view_movieId := movieId job; view_elapsed := now - startTime job |}
  | None => None
  end.

(** [a || b] on an instant that may be missing; 0 is falsy. *)
Definition orTime (a : option Z) (b : Z) : Z :=
  match a with
  | Some t => if decide (t = 0) then b else t
  | None => b
  end.

(** [job.completedAt || job.abortedAt || job.startTime] *)
Definition referenceTime (job : Job) : Z :=
  orTime (completedAt job) (orTime (abortedAt job) (startTime job)).

Definition isRunning (s : JobStatus) : bool :=
  match s with jobRunning => true | _ => false end.

(** The test under which [cleanup] deletes a job. *)
Definition stale (olderThanMs now : Z) (job : Job) : bool :=
  negb (isRunning (status job)) && bool_decide (olderThanMs < now - referenceTime job).

Definition cleanup (olderThanMs now : Z) (m : GenerationJobsManager)
    : GenerationJobsManager :=
  {| jobs := filter (fun entry => stale olderThanMs now (snd entry) = false) (jobs m);
     controllers := controllers m |}.

(** The calls made on the manager. *)
Inductive Op :=
| CreateJob (jobId : string) (movie : option string) (now : Z)
| AbortJob (jobId : string) (now : Z)
| CompleteJob (jobId : string) (now : Z)
| Cleanup (olderThanMs now : Z).

Definition step (m : GenerationJobsManager) (op : Op) : GenerationJobsManager :=
  match op with
  | CreateJob jobId movie now => snd (createJob jobId movie now m)
  | AbortJob jobId now => snd (abortJob jobId now m)
  | CompleteJob jobId now => completeJob jobId now m
  | Cleanup olderThanMs now => cleanup olderThanMs now m
  end.

Definition run (ops : list Op) (m : GenerationJobsManager) : GenerationJobsManager :=
  foldl step m ops.

(** Every job refers to a controller that has been made. *)
Definition wellFormed (m : GenerationJobsManager) : Prop :=
  forall jobId job, jobs m !! jobId = Some job ->
                    (abortController job < length (controllers m))%nat.

(** No job refers to the controller [ref]. *)
Definition orphan (ref : nat) (m : GenerationJobsManager) : Prop :=
  (ref < length (controllers m))%nat /\
  forall jobId job, jobs m !! jobId = Some job -> abortController job <> ref.

End Jobs.

(** ** The numbers of the engine as binary64 values *)

Module Double.

(** A JavaScript number: the rational that a finite double is, the two
    infinities, [NaN].  The two zeros are one: the engine divides by
    a zero only in [totalDurationSeconds / sceneDuration], and there
    [createMovie] rejects the call whichever the sign. *)
Inductive number :=
| Finite (q : Q)
| PosInf
| NegInf
| NaN.

Definition pow2 (e : Z) : Q := (2 ^ e)%Q.

(** The binade of a positive rational: [2^e <= q < 2^(e+1)]. *)
Definition ilog2 (q : Q) : Z :=
  let e := Z.log2 (Qnum q) - Z.log2 (Zpos (Qden q)) in
  if Qle_bool (pow2 e) q then e else e - 1.

(** The nearest integer, the even one on a tie. *)
Definition roundEven (x : Q) : Z :=
  let k := Qfloor x in
  match (x - inject_Z k ?= 1 # 2)%Q with
  | Lt => k
  | Gt => k + 1
  | Eq => if Z.even k then k else k + 1
  end.

(** The exponent of the last place of the doubles of the binade of
    [q]: 53 significant bits, and [2^-1074] for the subnormal ones. *)
Definition quantum (q : Q) : Z := Z.max (ilog2 q - 52) (-1074).

Definition roundPos (q : Q) : Q :=
  (inject_Z (roundEven (q / pow2 (quantum q))) * pow2 (quantum q))%Q.

(** The double nearest to a rational, ties to even, an infinity from
    [2^1024] on. *)
Definition round64 (q : Q) : number :=
  match (q ?= 0)%Q with
  | Eq => Finite 0
  | Gt => let r := roundPos q in
          if Qle_bool (pow2 1024) r then PosInf else Finite (Qred r)
  | Lt => let r := roundPos (- q) in
          if Qle_bool (pow2 1024) r then NegInf else Finite (Qred (- r))
  end.

(** The double that a decimal literal of the source denotes. *)
Definition literal (q : Q) : number := round64 q.

(** A number that a JavaScript variable can hold. *)
Definition representable (x : number) : Prop :=
  match x with
  | Finite q => round64 q = Finite q
  | _ => True
  end.

(** [a <= b], [a < b], [a > b], [a === b]: false when either is [NaN]. *)
Definition leb (a b : number) : bool :=
  match a, b with
  | NaN, _ | _, NaN => false
  | NegInf, _ | _, PosInf => true
  | PosInf, _ | _, NegInf => false
  | Finite x, Finite y => Qle_bool x y
  end.

Definition ltb (a b : number) : bool :=
  match a, b with
  | NaN, _ | _, NaN => false
  | PosInf, _ | _, NegInf => false
  | NegInf, _ | _, PosInf => true
  | Finite x, Finite y => negb (Qle_bool y x)
  end.

Definition gtb (a b : number) : bool := ltb b a.

Definition eqb (a b : number) : bool :=
  match a, b with
  | Finite x, Finite y => Qeq_bool x y
  | PosInf, PosInf | NegInf, NegInf => true
  | _, _ => false
  end.

Definition neg (a : number) : number :=
  match a with
  | Finite x => Finite (Qred (- x))
  | PosInf => NegInf
  | NegInf => PosInf
  | NaN => NaN
  end.

(** [Math.abs] *)
Definition abs (a : number) : number :=
  match a with
  | Finite x => Finite (Qred (Qabs x))
  | PosInf | NegInf => PosInf
  | NaN => NaN
  end.

(** [a + b] *)
Definition add (a b : number) : number :=
  match a, b with
  | NaN, _ | _, NaN => NaN
  | PosInf, NegInf | NegInf, PosInf => NaN
  | PosInf, _ | _, PosInf => PosInf
  | NegInf, _ | _, NegInf => NegInf
  | Finite x, Finite y => round64 (x + y)
  end.

(** [a - b] *)
Definition sub (a b : number) : number := add a (neg b).

(** An infinity of the sign of [x]; [NaN] for zero. *)
Definition signed (x : Q) (positive : number) : number :=
  match (x ?= 0)%Q with
  | Gt => positive
  | Lt => neg positive
  | Eq => NaN
  end.

(** [a * b] *)
Definition mul (a b : number) : number :=
  match a, b with
  | NaN, _ | _, NaN => NaN
  | Finite x, Finite y => round64 (x * y)
  | Finite x, PosInf | PosInf, Finite x => signed x PosInf
  | Finite x, NegInf | NegInf, Finite x => signed x NegInf
  | PosInf, PosInf | NegInf, NegInf => PosInf
  | PosInf, NegInf | NegInf, PosInf => NegInf
  end.

(** [a / b] *)
Definition div (a b : number) : number :=
  match a, b with
  | NaN, _ | _, NaN => NaN
  | Finite x, Finite y =>
      if Qeq_bool y 0 then signed x PosInf else round64 (x / y)
  | Finite _, (PosInf | NegInf) => Finite 0
  | PosInf, Finite y => if Qle_bool 0 y then PosInf else NegInf
  | NegInf, Finite y => if Qle_bool 0 y then NegInf else PosInf
  | (PosInf | NegInf), (PosInf | NegInf) => NaN
  end.

(** [Math.ceil] *)
Definition ceil (a : number) : number :=
  match a with
  | Finite x => Finite (inject_Z (Qceiling x))
  | _ => a
  end.

(** [Math.max(a, b)] *)
Definition fmax (a b : number) : number :=
  match a, b with
  | NaN, _ | _, NaN => NaN
  | _, _ => if leb a b then b else a
  end.

(** [a || b] on numbers: zero and [NaN] are falsy. *)
Definition orElse (a b : number) : number :=
  match a with
  | NaN => b
  | Finite x => if Qeq_bool x 0 then b else a
  | _ => a
  end.

(** *** budgetManager.js on doubles *)

Definition MAX_BUDGET : number := Finite 5.

(** [OPENAI_COST_PER_1K_TOKENS[model]] as a factor of a product: a
    missing key gives [undefined] and a key that [Object.prototype]
    answers gives a function or an object, and each of them is [NaN]
    in a product. *)
Definition OPENAI_COST_PER_1K_TOKENS (model : string) : number :=
  match Budget.OPENAI_COST_PER_1K_TOKENS model with
  | Some rate => literal rate
  | None => NaN
  end.

(** The keys that every object literal answers through [Object.prototype]. *)
Definition inherited : list string :=
  ["constructor"; "__proto__"; "hasOwnProperty"; "isPrototypeOf";
   "propertyIsEnumerable"; "toLocaleString"; "toString"; "valueOf";
   "__defineGetter__"; "__defineSetter__"; "__lookupGetter__";
   "__lookupSetter__"]%string.

(** [getModelCost(modelName).costPerSecond] as a factor of a product.
    For an inherited key [models[modelName]] is truthy, so the default
    is not taken, and it has no [costPerSecond]. *)
Definition getModelCost (modelName : string) : number :=
  if decide (modelName ∈ inherited) then NaN
  else literal (Budget.getModelCost modelName).

Record CostEstimate := { video : number; openai : number; total : number; scenes : number }.

Definition calculateEstimatedCost (totalDurationSeconds sceneDuration : number)
    (modelName openaiModel : string) : CostEstimate :=
  let totalScenes := ceil (div totalDurationSeconds sceneDuration) in
  let videoCost := mul (mul totalScenes sceneDuration) (getModelCost modelName) in
  let estimatedTokensPerScene := Finite 500 in
  let totalTokens := mul totalScenes estimatedTokensPerScene in
  let openaiCost :=
    orElse (mul (div totalTokens (Finite 1000)) (OPENAI_COST_PER_1K_TOKENS openaiModel))
           (literal 0.00015) in
  {| video := videoCost; openai := openaiCost;
     total := add videoCost openaiCost; scenes := totalScenes |}.

Definition isWithinBudget (estimatedCost : CostEstimate) : bool :=
  leb (total estimatedCost) MAX_BUDGET.

Record BudgetManager := {
  currentCost : number;
  openaiLimiter : gmap string Budget.LimiterRecord;
  replicateLimiter : gmap string Budget.LimiterRecord
}.

(** [constructor()] *)
Definition fresh : BudgetManager :=
  {| currentCost := Finite 0; openaiLimiter := ∅; replicateLimiter := ∅ |}.

(** What the governor and [createMovie] throw, named by cause.  The
    messages print their numbers with [toFixed(4)]:
    - [BudgetExceeded c]: Budget exceeded! Current cost: $c, Max: $5
    - [ShortPrompt]: Story prompt must be at least 10 characters
    - [NoCharacter]: At least one character ID is required
    - [TooLong]: Maximum duration is 60 minutes
    - [EmptyReduce]: the [TypeError] of [reduce] on an empty array
    - [OverBudget t]: Estimated cost ($t) exceeds maximum budget ($5). ...
    - [Insufficient r t]: Insufficient budget remaining. Remaining: $r,
      Estimated: $t
    - [InvalidArrayLength]: the [RangeError] of [push] on an array of
      [2^32 - 1] elements
    - [FromScene m]: an error with message [m] that a scene closure
      throws past its [try]. *)
Inductive Error :=
| BudgetExceeded (currentCost : number)
| ShortPrompt
| NoCharacter
| TooLong
| EmptyReduce
| OverBudget (total : number)
| Insufficient (remaining total : number)
| InvalidArrayLength
| FromScene (message : string).

Inductive outcome (A : Type) : Type :=
| Returns (a : A)
| Throws (e : Error).
Arguments Returns {A} a.
Arguments Throws {A} e.

(** [trackCost]: the sum is stored before the ceiling is tested. *)
Definition trackCost (service : string) (cost : number) (bm : BudgetManager)
    : outcome number * BudgetManager :=
  let bm' := {| currentCost := add (currentCost bm) cost;
                openaiLimiter := openaiLimiter bm;
                replicateLimiter := replicateLimiter bm |} in
  if gtb (currentCost bm') MAX_BUDGET
  then (Throws (BudgetExceeded (currentCost bm')), bm')
  else (Returns (currentCost bm'), bm').

Definition trackOpenAICost (tokens : number) (model : string) (bm : BudgetManager)
    : outcome number * BudgetManager :=
  let cost :=
    orElse (mul (div tokens (Finite 1000)) (OPENAI_COST_PER_1K_TOKENS model))
           (literal 0.00015) in
  trackCost "openai" cost bm.

Definition trackReplicateCost (duration : number) (modelName : string) (bm : BudgetManager)
    : outcome number * BudgetManager :=
  trackCost "replicate" (mul duration (getModelCost modelName)) bm.

Record BudgetStatus := { current : number; max : number; remaining : number; percentage : number }.

Definition getBudgetStatus (bm : BudgetManager) : BudgetStatus :=
  {| current := currentCost bm;
     max := MAX_BUDGET;
     remaining := sub MAX_BUDGET (currentCost bm);
     percentage := mul (div (currentCost bm) MAX_BUDGET) (Finite 100) |}.

(** A run of [trackCost] calls, whatever each of them returns or throws. *)
Definition trackCosts (calls : list (string * number)) (bm : BudgetManager) : BudgetManager :=
  foldl (fun bm call => snd (trackCost (fst call) (snd call) bm)) bm calls.

(** *** The scene count of [createMovie] on doubles *)

(** [allowed.reduce((prev, curr) =>
       Math.abs(curr - x) < Math.abs(prev - x) ? curr : prev)] *)
Definition distance (a x : number) : number := abs (sub a x).

Definition closer (x prev curr : number) : number :=
  if ltb (distance curr x) (distance prev x) then curr else prev.

Definition closestAllowed (allowed : list number) (x : number) : option number :=
  match allowed with
  | [] => None
  | first :: rest => Some (foldl (closer x) first rest)
  end.

(** The [allowedDurations] of "google/veo-3.1-fast", the only backend
    that lists any. *)
Definition veoDurations : list number := [Finite 4; Finite 6; Finite 8].

Record Request := {
  baseStoryPrompt : string;
  characterIds : list string;
  totalDurationSeconds : number;
  sceneDuration : number;
  enableParallel : bool;
  modelChain : option (list string);
  openaiModel : string
}.

(** [modelChain?.[0] || "google/veo-3.1-fast"] *)
Definition selectedModelName (req : Request) : string :=
  match modelChain req with
  | Some (first :: _) => Movie.orString first "google/veo-3.1-fast"
  | _ => "google/veo-3.1-fast"%string
  end.

(** [selectedModel?.allowedDurations]; an inherited key of
    [VIDEO_MODELS] has none. *)
Definition selectedAllowed (req : Request) : option (list number) :=
  match Video.VIDEO_MODELS (selectedModelName req) with
  | Some vm => option_map (map Finite) (Video.allowedDurations vm)
  | None => None
  end.

(** [calculatedSceneDuration]; [None] is the [TypeError] of [reduce]. *)
Definition calculatedSceneDuration (req : Request) : option number :=
  let d0 :=
    if eqb (totalDurationSeconds req) (Finite 30)
    then match selectedAllowed req with Some _ => Finite 6 | None => Finite 10 end
    else sceneDuration req in
  match selectedAllowed req with
  | Some permitted => closestAllowed permitted d0
  | None => Some d0
  end.

(** [Math.max(1, Math.ceil(totalDurationSeconds / calculatedSceneDuration))] *)
Definition sceneCount (total duration : number) : number :=
  fmax (Finite 1) (ceil (div total duration)).

Definition MAX_ARRAY_LENGTH : Z := 4294967295.

(** [for (let i = 1; i <= totalScenes; i++) sceneFns.push(...)]: the
    number of closures, or [None] for the [RangeError] of the push
    that would make the array longer than [2^32 - 1]. *)
Definition closures (totalScenes : number) : option nat :=
  match totalScenes with
  | Finite k => if Qfloor k <=? MAX_ARRAY_LENGTH then Some (Z.to_nat (Qfloor k)) else None
  | PosInf => None
  | NegInf | NaN => Some 0%nat
  end.

Record RunResult := {
  totalScenes : number;
  successfulScenes : nat;
  failedScenesCount : nat;
  totalDuration : number;
  resultScenes : list Movie.SceneData;
  failed : list Movie.Failure;
  saveAttempted : bool
}.

Definition assemble (total duration : number) (st : Movie.Run) : RunResult :=
  let successful := List.filter Movie.isSuccessful (Movie.scenes st) in
  {| totalScenes := total;
     successfulScenes := length successful;
     failedScenesCount := length (Movie.failedScenes st);
     totalDuration := duration;
     resultScenes := successful;
     failed := Movie.failedScenes st;
     saveAttempted := (0 <? length successful)%nat || Movie.signal st |}.

(** [createMovie]; the outer [None] is a call that never settles.
    [signalAtStart] is what the abort signal reads when the first scene
    is about to start. *)
Definition createMovie (req : Request) (oracle : Movie.Oracle) (signalAtStart : bool)
    (bm : BudgetManager) : option (outcome RunResult) :=
  if (String.length (Js.trim (baseStoryPrompt req)) <? 10)%nat then
    Some (Throws ShortPrompt)
  else if (length (characterIds req) =? 0)%nat then
    Some (Throws NoCharacter)
  else if gtb (totalDurationSeconds req) (Finite Video.MAX_TOTAL_DURATION) then
    Some (Throws TooLong)
  else
    match calculatedSceneDuration req with
    | None => Some (Throws EmptyReduce)
    | Some duration =>
        let estimatedCost :=
          calculateEstimatedCost (totalDurationSeconds req) duration
            (selectedModelName req) (openaiModel req) in
        if negb (isWithinBudget estimatedCost) then
          Some (Throws (OverBudget (total estimatedCost)))
        else if ltb (remaining (getBudgetStatus bm)) (total estimatedCost) then
          Some (Throws (Insufficient (remaining (getBudgetStatus bm)) (total estimatedCost)))
        else
          let totalScenes := sceneCount (totalDurationSeconds req) duration in
          match closures totalScenes with
          | None => Some (Throws InvalidArrayLength)
          | Some count =>
              match Movie.drive oracle (enableParallel req) count
                                (Movie.trip signalAtStart Movie.start) with
              | None => None
              | Some (Throw message, _) => Some (Throws (FromScene message))
              | Some (Return _, st) =>
                  Some (Returns (assemble totalScenes (totalDurationSeconds req) st))
              end
          end
    end.

(** The errors with which [createMovie] rejects a call before any
    scene closure is run. *)
Definition preflight (e : Error) : Prop :=
  match e with
  | ShortPrompt | NoCharacter | TooLong | EmptyReduce | OverBudget _
  | Insufficient _ _ | InvalidArrayLength => True
  | BudgetExceeded _ | FromScene _ => False
  end.

(** Two minutes of film in ten-second scenes, default backend chain. *)
Definition twoMinutes : Request :=
  {| baseStoryPrompt := "A lighthouse keeper finds a map in a bottle";
     characterIds := ["c-001"%string];
     totalDurationSeconds := Finite 120;
     sceneDuration := Finite 10;
     enableParallel := true;
     modelChain := None;
     openaiModel := "gpt-4o-mini" |}.

(** Thirty seconds of film on a backend without permitted durations. *)
Definition thirtySeconds : Request :=
  {| baseStoryPrompt := "A lighthouse keeper finds a map in a bottle";
     characterIds := ["c-001"%string];
     totalDurationSeconds := Finite 30;
     sceneDuration := Finite 6;
     enableParallel := true;
     modelChain := Some ["luma/dream-machine"%string];
     openaiModel := "gpt-4o-mini" |}.

End Double.

(** * Properties *)

(** ** Binary64 arithmetic *)

Section Binary64.
Import Double.
#[local] Open Scope Q_scope.

Lemma pow2_pos (e : Z) : 0 < pow2 e.
Proof. apply Qpower_0_lt. reflexivity. Qed.

Lemma pow2_add (a b : Z) : pow2 (a + b) == pow2 a * pow2 b.
Proof. apply Qpower_plus. discriminate. Qed.

Lemma pow2_sub (a b : Z) : pow2 (a - b) == pow2 a / pow2 b.
Proof. apply Qpower_minus. discriminate. Qed.

Lemma pow2_S (a : Z) : pow2 (a + 1) == 2 * pow2 a.
Proof. rewrite pow2_add. unfold pow2 at 2. rewrite Qpower_1_r. ring. Qed.

Lemma pow2_le (a b : Z) : (a <= b)%Z -> pow2 a <= pow2 b.
Proof. intros H. apply Qpower_le_compat_l; [exact H|discriminate]. Qed.

Lemma pow2_lt (a b : Z) : (a < b)%Z -> pow2 a < pow2 b.
Proof. intros H. apply Qpower_lt_compat_l; [exact H|reflexivity]. Qed.

Lemma pow2_lt_inv (a b : Z) : pow2 a < pow2 b -> (a < b)%Z.
Proof. intros H. apply (Qpower_lt_compat_l_inv 2); [exact H|reflexivity]. Qed.

Lemma pow2_Z (n : Z) : (0 <= n)%Z -> pow2 n == inject_Z (2 ^ n).
Proof. intros H. rewrite (Zpower_Qpower 2 n H). reflexivity. Qed.

Lemma Q_as_fraction (q : Q) : q * inject_Z (Zpos (Qden q)) == inject_Z (Qnum q).
Proof. destruct q as [n d]. unfold Qeq, Qmult, inject_Z. cbn. lia. Qed.

Lemma ilog2_spec (q : Q) :
  0 < q -> pow2 (ilog2 q) <= q /\ q < pow2 (ilog2 q + 1).
Proof.
  intros Hq.
  assert (Hn : (0 < Qnum q)%Z) by (destruct q as [n d]; unfold Qlt in Hq; cbn in *; lia).
  pose proof (Z.log2_spec _ Hn) as [Hn1 Hn2].
  pose proof (Z.log2_spec (Zpos (Qden q)) ltac:(lia)) as [Hd1 Hd2].
  pose proof (Z.log2_nonneg (Qnum q)) as Ha.
  pose proof (Z.log2_nonneg (Zpos (Qden q))) as Hb.
  set (a := Z.log2 (Qnum q)) in *. set (b := Z.log2 (Zpos (Qden q))) in *.
  pose proof (Q_as_fraction q) as Hfrac.
  set (n := inject_Z (Qnum q)) in *. set (d := inject_Z (Zpos (Qden q))) in *.
  assert (HA1 : pow2 a <= n).
  { rewrite (pow2_Z a Ha). unfold n. rewrite <- Zle_Qle. exact Hn1. }
  assert (HA2 : n < 2 * pow2 a).
  { rewrite <- pow2_S, (pow2_Z (a + 1)) by lia. unfold n. rewrite <- Zlt_Qlt.
    replace (a + 1)%Z with (Z.succ a) by lia. exact Hn2. }
  assert (HB1 : pow2 b <= d).
  { rewrite (pow2_Z b Hb). unfold d. rewrite <- Zle_Qle. exact Hd1. }
  assert (HB2 : d < 2 * pow2 b).
  { rewrite <- pow2_S, (pow2_Z (b + 1)) by lia. unfold d. rewrite <- Zlt_Qlt.
    replace (b + 1)%Z with (Z.succ b) by lia. exact Hd2. }
  pose proof (pow2_pos a) as Pa. pose proof (pow2_pos b) as Pb.
  assert (He : pow2 (a - b) * pow2 b == pow2 a).
  { rewrite <- pow2_add. replace (a - b + b)%Z with a by lia. reflexivity. }
  pose proof (pow2_pos (a - b)) as Pe.
  (* q < 2 * pow2 (a - b) *)
  assert (Hup : q < 2 * pow2 (a - b)).
  { apply Qnot_le_lt. intros Hle.
    assert (2 * pow2 (a - b) * d <= q * d) by (apply Qmult_le_compat_r; lra).
    assert (pow2 (a - b) * pow2 b <= pow2 (a - b) * d) by (apply Qmult_le_l; lra).
    lra. }
  assert (Hlow : pow2 (a - b) < 2 * q).
  { apply Qnot_le_lt. intros Hle.
    assert (2 * q * d <= pow2 (a - b) * d) by (apply Qmult_le_compat_r; lra).
    assert (pow2 (a - b) * d < pow2 (a - b) * (2 * pow2 b)) by (apply Qmult_lt_l; lra).
    lra. }
  unfold ilog2. fold a b.
  destruct (Qle_bool (pow2 (a - b)) q) eqn:E.
  - apply Qle_bool_iff in E. split; [exact E|]. rewrite pow2_S. exact Hup.
  - assert (Hlt : q < pow2 (a - b)).
    { apply Qnot_le_lt. intros H. apply Qle_bool_iff in H. congruence. }
    replace (a - b - 1 + 1)%Z with (a - b)%Z by lia. split; [|exact Hlt].
    assert (Hs : pow2 (a - b) == 2 * pow2 (a - b - 1)).
    { rewrite <- pow2_S. replace (a - b - 1 + 1)%Z with (a - b)%Z by lia. reflexivity. }
    lra.
Qed.

Lemma ilog2_unique (q : Q) (e : Z) :
  pow2 e <= q -> q < pow2 (e + 1) -> ilog2 q = e.
Proof.
  intros H1 H2.
  assert (Hq : 0 < q) by (pose proof (pow2_pos e); lra).
  destruct (ilog2_spec q Hq) as [H3 H4].
  assert (ilog2 q < e + 1)%Z by (apply pow2_lt_inv; lra).
  assert (e < ilog2 q + 1)%Z by (apply pow2_lt_inv; lra).
  lia.
Qed.

Lemma ilog2_mono (q q' : Q) : 0 < q -> q <= q' -> (ilog2 q <= ilog2 q')%Z.
Proof.
  intros Hq Hle.
  destruct (ilog2_spec q Hq) as [H1 _].
  destruct (ilog2_spec q' ltac:(lra)) as [_ H2].
  assert (ilog2 q < ilog2 q' + 1)%Z by (apply pow2_lt_inv; lra).
  lia.
Qed.

Lemma roundEven_inject (n : Z) : roundEven (inject_Z n) = n.
Proof.
  unfold roundEven. rewrite Qfloor_Z.
  assert (H : (inject_Z n - inject_Z n ?= 1 # 2) = Lt).
  { rewrite <- Qlt_alt. lra. }
  rewrite H. reflexivity.
Qed.

Lemma roundEven_bounds (x : Q) :
  (Qfloor x <= roundEven x <= Qfloor x + 1)%Z /\
  (x - inject_Z (Qfloor x) < 1 # 2 -> roundEven x = Qfloor x) /\
  (1 # 2 < x - inject_Z (Qfloor x) -> roundEven x = (Qfloor x + 1)%Z).
Proof.
  unfold roundEven.
  destruct (Qcompare_spec (x - inject_Z (Qfloor x)) (1 # 2)) as [E|E|E].
  - split; [destruct (Z.even _); lia|]. split; intros H; lra.
  - split; [lia|]. split; intros H; [reflexivity|lra].
  - split; [lia|]. split; intros H; [lra|reflexivity].
Qed.

Lemma roundEven_mono (x y : Q) : x <= y -> (roundEven x <= roundEven y)%Z.
Proof.
  intros Hxy.
  pose proof (Qfloor_resp_le _ _ Hxy) as Hfl.
  destruct (roundEven_bounds x) as (Hbx & _).
  destruct (roundEven_bounds y) as (Hby & _).
  destruct (Z.eq_dec (Qfloor x) (Qfloor y)) as [Heq|Hne]; [|lia].
  clear Hbx Hby. unfold roundEven. rewrite <- Heq.
  destruct (Qcompare_spec (x - inject_Z (Qfloor x)) (1 # 2)) as [Ex|Ex|Ex];
    destruct (Qcompare_spec (y - inject_Z (Qfloor x)) (1 # 2)) as [Ey|Ey|Ey];
    try (destruct (Z.even (Qfloor x)); lia); exfalso; lra.
Qed.


Lemma roundEven_above (x : Q) (n : Z) :
  inject_Z n + (1 # 2) < x -> (n + 1 <= roundEven x)%Z.
Proof.
  intros H. destruct (roundEven_bounds x) as (Hb & _ & Hup).
  assert (Hn : (n <= Qfloor x)%Z).
  { rewrite <- (Qfloor_Z n). apply Qfloor_resp_le. lra. }
  destruct (Z.eq_dec n (Qfloor x)) as [->|Hne]; [|lia].
  rewrite Hup by lra. lia.
Qed.

Lemma pow2_ratio (a b : Z) : (b <= a)%Z -> pow2 a == inject_Z (2 ^ (a - b)) * pow2 b.
Proof.
  intros H. rewrite <- pow2_Z by lia. rewrite <- pow2_add.
  replace (a - b + b)%Z with a by lia. reflexivity.
Qed.

Lemma div_pow2 (q : Q) (p : Z) : q / pow2 p * pow2 p == q.
Proof. pose proof (pow2_pos p). field. lra. Qed.

Lemma grid_div (m : Z) (p : Z) : inject_Z m * pow2 p / pow2 p == inject_Z m.
Proof. pose proof (pow2_pos p). field. lra. Qed.

(** Rounding does not cross a multiple of the quantum. *)
Lemma roundPos_ge_grid (q : Q) (m : Z) :
  inject_Z m * pow2 (quantum q) <= q -> inject_Z m * pow2 (quantum q) <= roundPos q.
Proof.
  intros H. unfold roundPos. pose proof (pow2_pos (quantum q)) as Hp.
  apply Qmult_le_compat_r; [|lra]. rewrite <- Zle_Qle.
  rewrite <- (roundEven_inject m). apply roundEven_mono.
  apply Qle_shift_div_l; assumption.
Qed.

Lemma roundPos_le_grid (q : Q) (m : Z) :
  q <= inject_Z m * pow2 (quantum q) -> roundPos q <= inject_Z m * pow2 (quantum q).
Proof.
  intros H. unfold roundPos. pose proof (pow2_pos (quantum q)) as Hp.
  apply Qmult_le_compat_r; [|lra]. rewrite <- Zle_Qle.
  rewrite <- (roundEven_inject m). apply roundEven_mono.
  apply Qle_shift_div_r; assumption.
Qed.

Lemma roundPos_ge_pow2 (q : Q) (a : Z) :
  (quantum q <= a)%Z -> pow2 a <= q -> pow2 a <= roundPos q.
Proof.
  intros Ha H. rewrite (pow2_ratio a (quantum q) Ha) in *. apply roundPos_ge_grid. exact H.
Qed.

Lemma roundPos_le_pow2 (q : Q) (a : Z) :
  (quantum q <= a)%Z -> q <= pow2 a -> roundPos q <= pow2 a.
Proof.
  intros Ha H. rewrite (pow2_ratio a (quantum q) Ha) in *. apply roundPos_le_grid. exact H.
Qed.

Lemma roundPos_nonneg (q : Q) : 0 < q -> 0 <= roundPos q.
Proof.
  intros H. assert (H0 : inject_Z 0 * pow2 (quantum q) <= roundPos q).
  { apply roundPos_ge_grid. change (inject_Z 0) with 0. lra. }
  change (inject_Z 0) with 0 in H0. lra.
Qed.

Lemma quantum_mono (q q' : Q) : 0 < q -> q <= q' -> (quantum q <= quantum q')%Z.
Proof. intros H1 H2. pose proof (ilog2_mono q q' H1 H2). unfold quantum. lia. Qed.

Lemma roundPos_mono (q q' : Q) : 0 < q -> q <= q' -> roundPos q <= roundPos q'.
Proof.
  intros Hq Hle.
  pose proof (quantum_mono q q' Hq Hle) as Hp.
  destruct (Z.eq_dec (quantum q) (quantum q')) as [Heq|Hne].
  - unfold roundPos. rewrite <- Heq. pose proof (pow2_pos (quantum q)) as Hpos.
    apply Qmult_le_compat_r; [|lra]. rewrite <- Zle_Qle. apply roundEven_mono.
    apply Qmult_le_compat_r; [exact Hle|]. apply Qlt_le_weak, Qinv_lt_0_compat. exact Hpos.
  - destruct (ilog2_spec q Hq) as [_ Hup].
    destruct (ilog2_spec q' ltac:(lra)) as [Hlow _].
    assert (He : (ilog2 q + 1 <= ilog2 q')%Z) by (unfold quantum in *; lia).
    pose proof (pow2_le _ _ He) as Hpow.
    apply Qle_trans with (pow2 (ilog2 q')).
    + apply roundPos_le_pow2; [unfold quantum in *; lia|lra].
    + apply roundPos_ge_pow2; [unfold quantum in *; lia|exact Hlow].
Qed.

Lemma leb_refl_finite (x : Q) : leb (Finite x) (Finite x) = true.
Proof. cbn. apply Qle_bool_iff. lra. Qed.

Lemma Qle_bool_false (x y : Q) : Qle_bool x y = false <-> y < x.
Proof.
  split.
  - intros H. apply Qnot_le_lt. intros Hle. apply Qle_bool_iff in Hle. congruence.
  - intros H. destruct (Qle_bool x y) eqn:E; [|reflexivity].
    apply Qle_bool_iff in E. lra.
Qed.

(** Rounding to the nearest double is monotone. *)
Lemma round64_mono (q q' : Q) : q <= q' -> leb (round64 q) (round64 q') = true.
Proof.
  intros Hle. unfold round64.
  destruct (Qcompare_spec q 0) as [E|E|E]; destruct (Qcompare_spec q' 0) as [E'|E'|E'];
    try (exfalso; lra).
  - reflexivity.
  - pose proof (roundPos_nonneg q' E') as Hr.
    destruct (Qle_bool (pow2 1024) (roundPos q')); [reflexivity|].
    cbn. apply Qle_bool_iff. rewrite Qred_correct. exact Hr.
  - pose proof (roundPos_nonneg (- q) ltac:(lra)) as Hr.
    destruct (Qle_bool (pow2 1024) (roundPos (- q))); [reflexivity|].
    cbn. apply Qle_bool_iff. rewrite Qred_correct. lra.
  - pose proof (roundPos_mono (- q') (- q) ltac:(lra) ltac:(lra)) as Hm.
    destruct (Qle_bool (pow2 1024) (roundPos (- q))) eqn:B.
    + destruct (Qle_bool (pow2 1024) (roundPos (- q'))); reflexivity.
    + apply Qle_bool_false in B.
      destruct (Qle_bool (pow2 1024) (roundPos (- q'))) eqn:B'.
      * apply Qle_bool_iff in B'. exfalso. lra.
      * cbn. apply Qle_bool_iff. rewrite !Qred_correct. lra.
  - pose proof (roundPos_nonneg (- q) ltac:(lra)) as Hr.
    pose proof (roundPos_nonneg q' E') as Hr'.
    destruct (Qle_bool (pow2 1024) (roundPos (- q)));
      destruct (Qle_bool (pow2 1024) (roundPos q')); try reflexivity.
    cbn. apply Qle_bool_iff. rewrite !Qred_correct. lra.
  - pose proof (roundPos_mono q q' E Hle) as Hm.
    destruct (Qle_bool (pow2 1024) (roundPos q)) eqn:B.
    + apply Qle_bool_iff in B.
      assert (B' : Qle_bool (pow2 1024) (roundPos q') = true) by (apply Qle_bool_iff; lra).
      rewrite B'. reflexivity.
    + destruct (Qle_bool (pow2 1024) (roundPos q')); [reflexivity|].
      cbn. apply Qle_bool_iff. rewrite !Qred_correct. exact Hm.
Qed.


Lemma Qfloor_eq (x y : Q) : x == y -> Qfloor x = Qfloor y.
Proof. intros H. apply Z.le_antisymm; apply Qfloor_resp_le; lra. Qed.

Lemma roundEven_comp (x y : Q) : x == y -> roundEven x = roundEven y.
Proof.
  intros H. unfold roundEven. rewrite (Qfloor_eq x y H).
  assert (Hc : (x - inject_Z (Qfloor y) ?= 1 # 2) = (y - inject_Z (Qfloor y) ?= 1 # 2)).
  { apply Qcompare_comp; [rewrite H|]; reflexivity. }
  rewrite Hc. reflexivity.
Qed.

Lemma ilog2_comp (q q' : Q) : 0 < q -> q == q' -> ilog2 q = ilog2 q'.
Proof.
  intros Hq H. destruct (ilog2_spec q' ltac:(lra)) as [H1 H2].
  apply ilog2_unique; lra.
Qed.

Lemma roundPos_comp (q q' : Q) : 0 < q -> q == q' -> roundPos q == roundPos q'.
Proof.
  intros Hq H. unfold roundPos, quantum. rewrite (ilog2_comp q q' Hq H).
  set (p := Z.max (ilog2 q' - 52) (-1074)).
  rewrite (roundEven_comp (q / pow2 p) (q' / pow2 p)); [reflexivity|].
  rewrite H. reflexivity.
Qed.

Lemma round64_comp (q q' : Q) : q == q' -> round64 q = round64 q'.
Proof.
  intros H. unfold round64.
  assert (Hc : (q ?= 0) = (q' ?= 0)) by (apply Qcompare_comp; [exact H|reflexivity]).
  rewrite <- Hc.
  destruct (Qcompare_spec q 0) as [E|E|E]; [reflexivity| |].
  - pose proof (roundPos_comp (- q) (- q') ltac:(lra) ltac:(rewrite H; reflexivity)) as Hr.
    assert (Hb : Qle_bool (pow2 1024) (roundPos (- q)) = Qle_bool (pow2 1024) (roundPos (- q'))).
    { destruct (Qle_bool (pow2 1024) (roundPos (- q'))) eqn:B.
      - apply Qle_bool_iff. apply Qle_bool_iff in B. lra.
      - apply Qle_bool_false. apply Qle_bool_false in B. lra. }
    rewrite Hb. destruct (Qle_bool (pow2 1024) (roundPos (- q'))); [reflexivity|].
    f_equal. apply Qred_complete. rewrite Hr. reflexivity.
  - pose proof (roundPos_comp q q' E H) as Hr.
    assert (Hb : Qle_bool (pow2 1024) (roundPos q) = Qle_bool (pow2 1024) (roundPos q')).
    { destruct (Qle_bool (pow2 1024) (roundPos q')) eqn:B.
      - apply Qle_bool_iff. apply Qle_bool_iff in B. lra.
      - apply Qle_bool_false. apply Qle_bool_false in B. lra. }
    rewrite Hb. destruct (Qle_bool (pow2 1024) (roundPos q')); [reflexivity|].
    f_equal. apply Qred_complete. exact Hr.
Qed.

Lemma round64_opp (q : Q) : round64 (- q) = neg (round64 q).
Proof.
  unfold round64.
  destruct (Qcompare_spec q 0) as [E|E|E]; destruct (Qcompare_spec (- q) 0) as [E'|E'|E'];
    try (exfalso; lra).
  - reflexivity.
  - destruct (Qle_bool (pow2 1024) (roundPos (- q))); [reflexivity|].
    cbn [neg]. f_equal. apply Qred_complete. rewrite Qred_correct. ring.
  - pose proof (roundPos_comp (- - q) q ltac:(lra) ltac:(ring)) as Hr.
    assert (Hb : Qle_bool (pow2 1024) (roundPos (- - q)) = Qle_bool (pow2 1024) (roundPos q)).
    { destruct (Qle_bool (pow2 1024) (roundPos q)) eqn:B.
      - apply Qle_bool_iff. apply Qle_bool_iff in B. lra.
      - apply Qle_bool_false. apply Qle_bool_false in B. lra. }
    rewrite Hb. destruct (Qle_bool (pow2 1024) (roundPos q)); [reflexivity|].
    cbn [neg]. f_equal. apply Qred_complete. rewrite Hr, Qred_correct. reflexivity.
Qed.

(** Where the quantum of a multiple of [2^p] with fewer than 54 bits lies. *)
Lemma quantum_le (q : Q) (m p : Z) :
  0 < q -> q == inject_Z m * pow2 p -> (m < 2 ^ 53)%Z -> (-1074 <= p)%Z ->
  (quantum q <= p)%Z.
Proof.
  intros Hq Hm Hlt Hp.
  destruct (ilog2_spec q Hq) as [H1 _].
  assert (Hup : q < pow2 (p + 53)).
  { rewrite Z.add_comm, pow2_add, Hm. pose proof (pow2_pos p).
    apply Qmult_lt_compat_r; [assumption|].
    rewrite (pow2_Z 53) by lia. rewrite <- Zlt_Qlt. exact Hlt. }
  assert (ilog2 q < p + 53)%Z by (apply pow2_lt_inv; lra).
  unfold quantum. lia.
Qed.

Lemma roundPos_grid (q : Q) (m p : Z) :
  0 < q -> q == inject_Z m * pow2 p -> (quantum q <= p)%Z -> roundPos q == q.
Proof.
  intros Hq Hm Hp. unfold roundPos.
  assert (Hint : q / pow2 (quantum q) == inject_Z (m * 2 ^ (p - quantum q))).
  { remember (quantum q) as P eqn:HP. clear HP.
    rewrite Hm, (pow2_ratio p P Hp), inject_Z_mult.
    pose proof (pow2_pos P). field. lra. }
  rewrite (roundEven_comp _ _ Hint), roundEven_inject, <- Hint.
  apply div_pow2.
Qed.

(** A number of fewer than 54 bits times a power of two in range is a
    double. *)
Lemma round64_grid_pos (m p : Z) :
  (0 < m < 2 ^ 53)%Z -> (-1074 <= p)%Z -> inject_Z m * pow2 p < pow2 1024 ->
  round64 (inject_Z m * pow2 p) = Finite (Qred (inject_Z m * pow2 p)).
Proof.
  intros Hm Hp Hmax. set (q := inject_Z m * pow2 p) in *.
  assert (Hq : 0 < q).
  { unfold q. pose proof (pow2_pos p). apply Qmult_lt_0_compat; [|assumption].
    change 0 with (inject_Z 0). rewrite <- Zlt_Qlt. lia. }
  pose proof (roundPos_grid q m p Hq ltac:(reflexivity)
                (quantum_le q m p Hq ltac:(reflexivity) ltac:(lia) Hp)) as Hr.
  unfold round64. destruct (Qcompare_spec q 0) as [E|E|E]; try (exfalso; lra).
  destruct (Qle_bool (pow2 1024) (roundPos q)) eqn:B.
  - apply Qle_bool_iff in B. exfalso. lra.
  - f_equal. apply Qred_complete. exact Hr.
Qed.

Lemma roundEven_le_int (x : Q) (n : Z) : x <= inject_Z n -> (roundEven x <= n)%Z.
Proof. intros H. rewrite <- (roundEven_inject n). apply roundEven_mono. exact H. Qed.

(** Rounding a double changes nothing. *)
Lemma round64_idempotent (q v : Q) : round64 q = Finite v -> round64 v = Finite v.
Proof.
  assert (Hpos : forall q v, 0 < q ->
            Qle_bool (pow2 1024) (roundPos q) = false -> v == roundPos q ->
            round64 v = Finite (Qred v)).
  { clear q v. intros q v Hq B Hv. apply Qle_bool_false in B.
    set (p := quantum q) in *. set (m := roundEven (q / pow2 p)) in *.
    assert (Hr : roundPos q == inject_Z m * pow2 p) by reflexivity.
    pose proof (pow2_pos p) as Pp.
    assert (Hp : (-1074 <= p)%Z) by (unfold p, quantum; lia).
    assert (Hm0 : (0 <= m)%Z).
    { pose proof (roundPos_nonneg q Hq) as H0. rewrite Hr in H0.
      destruct (Z_lt_le_dec m 0%Z) as [Hneg|]; [|assumption]. exfalso.
      assert (inject_Z m * pow2 p < 0 * pow2 p).
      { apply Qmult_lt_compat_r; [assumption|]. change 0 with (inject_Z 0).
        rewrite <- Zlt_Qlt. exact Hneg. }
      lra. }
    assert (Hm1 : (m <= 2 ^ 53)%Z).
    { apply roundEven_le_int. destruct (ilog2_spec q Hq) as [_ Hup].
      apply Qle_shift_div_r; [assumption|].
      assert (Hle : (ilog2 q + 1 <= 53 + p)%Z) by (unfold p, quantum; lia).
      pose proof (pow2_le _ _ Hle) as Hpw. rewrite (pow2_add 53 p) in Hpw.
      rewrite (pow2_Z 53) in Hpw by lia. lra. }
    destruct (Z.eq_dec m 0%Z) as [Hz|Hnz].
    - assert (Hv0 : v == 0) by (rewrite Hv, Hr, Hz; ring).
      rewrite (round64_comp v 0 Hv0). rewrite (Qred_complete v 0 Hv0). reflexivity.
    - destruct (Z.eq_dec m (2 ^ 53)%Z) as [Htop|Hntop].
      + assert (Hv' : v == inject_Z (2 ^ 52) * pow2 (p + 1)).
        { rewrite Hv, Hr, Htop, pow2_S.
          change (inject_Z (2 ^ 53)) with (2 * inject_Z (2 ^ 52)). ring. }
        rewrite (round64_comp _ _ Hv'), (Qred_complete _ _ Hv').
        apply round64_grid_pos; [lia|lia|]. rewrite <- Hv', Hv. exact B.
      + assert (Hv' : v == inject_Z m * pow2 p) by (rewrite Hv; exact Hr).
        rewrite (round64_comp _ _ Hv'), (Qred_complete _ _ Hv').
        apply round64_grid_pos; [lia|lia|]. rewrite <- Hr. exact B. }
  unfold round64 at 1.
  destruct (Qcompare_spec q 0) as [E|E|E].
  - intros [= <-]. reflexivity.
  - destruct (Qle_bool (pow2 1024) (roundPos (- q))) eqn:B; [discriminate|].
    intros [= <-].
    pose proof (Hpos (- q) (roundPos (- q)) ltac:(lra) B ltac:(reflexivity)) as H.
    rewrite (round64_comp (Qred (- roundPos (- q))) (- roundPos (- q)) (Qred_correct _)).
    rewrite round64_opp, H. cbn [neg]. f_equal. apply Qred_complete.
    rewrite Qred_correct. reflexivity.
  - destruct (Qle_bool (pow2 1024) (roundPos q)) eqn:B; [discriminate|].
    intros [= <-].
    pose proof (Hpos q (roundPos q) E B ltac:(reflexivity)) as H.
    rewrite (round64_comp (Qred (roundPos q)) (roundPos q) (Qred_correct _)).
    exact H.
Qed.

(** Between two neighbouring multiples of the quantum there is no double. *)
Lemma representable_gap (d : Q) (e n : Z) :
  round64 d = Finite d -> (-1022 <= e)%Z -> pow2 e <= d -> d < pow2 (e + 1) ->
  inject_Z n * pow2 (e - 52) < d -> inject_Z (n + 1) * pow2 (e - 52) <= d.
Proof.
  intros Hrep He H1 H2 Hn.
  assert (Hd : 0 < d) by (pose proof (pow2_pos e); lra).
  assert (Hq : quantum d = (e - 52)%Z).
  { unfold quantum. rewrite (ilog2_unique d e H1 H2). lia. }
  unfold round64 in Hrep. destruct (Qcompare_spec d 0) as [E|E|E]; try (exfalso; lra).
  destruct (Qle_bool (pow2 1024) (roundPos d)); [discriminate|].
  injection Hrep as Hrep.
  assert (Hval : d == roundPos d) by (rewrite <- Hrep at 1; apply Qred_correct).
  unfold roundPos in Hval. rewrite Hq in Hval.
  set (m := roundEven (d / pow2 (e - 52))) in *.
  pose proof (pow2_pos (e - 52)) as Pp.
  assert (Hlt : (n < m)%Z).
  { rewrite Zlt_Qlt. apply Qmult_lt_r with (pow2 (e - 52)); [assumption|lra]. }
  apply Qle_trans with (inject_Z m * pow2 (e - 52)); [|rewrite <- Hval; apply Qle_refl].
  apply Qmult_le_compat_r; [|lra].
  rewrite <- Zle_Qle. lia.
Qed.


(** *** The order of the numbers *)

Lemma leb_not_gtb (a b : number) : leb a b = true -> gtb a b = false.
Proof.
  destruct a as [x| | |], b as [y| | |]; cbn; try congruence.
  intros H. rewrite H. reflexivity.
Qed.

Lemma ltb_leb (a b : number) : ltb a b = true -> leb a b = true.
Proof.
  destruct a as [x| | |], b as [y| | |]; cbn; try congruence.
  rewrite negb_true_iff, Qle_bool_false, Qle_bool_iff. lra.
Qed.

Lemma ltb_finite (x y : Q) : ltb (Finite x) (Finite y) = true <-> x < y.
Proof. cbn. rewrite negb_true_iff. apply Qle_bool_false. Qed.

Lemma leb_finite (x y : Q) : leb (Finite x) (Finite y) = true <-> x <= y.
Proof. cbn. apply Qle_bool_iff. Qed.

Lemma ltb_trans (a b c : number) : ltb a b = true -> ltb b c = true -> ltb a c = true.
Proof.
  destruct a as [x| | |], b as [y| | |], c as [z| | |]; cbn; try congruence.
  rewrite !negb_true_iff, !Qle_bool_false. lra.
Qed.

Lemma leb_ltb_trans (a b c : number) : leb a b = true -> ltb b c = true -> ltb a c = true.
Proof.
  destruct a as [x| | |], b as [y| | |], c as [z| | |]; cbn; try congruence.
  rewrite !negb_true_iff, !Qle_bool_false, Qle_bool_iff. lra.
Qed.

Lemma ltb_leb_trans (a b c : number) : ltb a b = true -> leb b c = true -> ltb a c = true.
Proof.
  destruct a as [x| | |], b as [y| | |], c as [z| | |]; cbn; try congruence.
  rewrite !negb_true_iff, !Qle_bool_false, Qle_bool_iff. lra.
Qed.

Lemma leb_trans (a b c : number) : leb a b = true -> leb b c = true -> leb a c = true.
Proof.
  destruct a as [x| | |], b as [y| | |], c as [z| | |]; cbn; try congruence.
  rewrite !Qle_bool_iff. lra.
Qed.

Lemma ltb_irrefl (a : number) : ltb a a = false.
Proof.
  destruct a as [x| | |]; cbn; try reflexivity.
  rewrite negb_false_iff. apply Qle_bool_iff. lra.
Qed.

(** Two numbers that a double separates round to different doubles. *)
Lemma round64_separated (s s' u v : Q) :
  s <= u -> round64 u = Finite u -> u < v -> round64 v = Finite v -> v <= s' ->
  ltb (round64 s) (round64 s') = true.
Proof.
  intros H1 Hu Huv Hv H2.
  apply leb_ltb_trans with (Finite u); [rewrite <- Hu; apply round64_mono; exact H1|].
  apply ltb_leb_trans with (Finite v); [apply ltb_finite; exact Huv|].
  rewrite <- Hv. apply round64_mono. exact H2.
Qed.

Lemma Qred_inject (n : Z) : Qred (inject_Z n) = inject_Z n.
Proof.
  unfold Qred, inject_Z.
  pose proof (Z.ggcd_gcd n 1) as Hg. pose proof (Z.ggcd_correct_divisors n 1) as Hd.
  destruct (Z.ggcd n 1) as [g [aa bb]]. cbn [fst snd] in *.
  rewrite Z.gcd_1_r in Hg. subst g. destruct Hd as [Ha Hb].
  rewrite Z.mul_1_l in Ha, Hb. subst. reflexivity.
Qed.

(** The integers up to [2^53] are doubles. *)
Lemma round64_int (n : Z) :
  (Z.abs n <= 2 ^ 53)%Z -> round64 (inject_Z n) = Finite (inject_Z n).
Proof.
  assert (Hpos : forall n, (0 < n <= 2 ^ 53)%Z -> round64 (inject_Z n) = Finite (inject_Z n)).
  { clear n. intros n Hn.
    assert (Hmax : inject_Z n < pow2 1024).
    { apply Qle_lt_trans with (pow2 53); [|apply pow2_lt; lia].
      rewrite (pow2_Z 53) by lia. rewrite <- Zle_Qle. lia. }
    destruct (Z.eq_dec n (2 ^ 53)%Z) as [->|Hne].
    - vm_compute. reflexivity.
    - assert (Hv : inject_Z n == inject_Z n * pow2 0) by (unfold pow2; cbn; ring).
      rewrite (round64_comp _ _ Hv), round64_grid_pos; [|lia|lia|rewrite <- Hv; exact Hmax].
      f_equal. rewrite (Qred_complete _ _ (Qeq_sym _ _ Hv)). apply Qred_inject. }
  intros Hn. destruct (Z.lt_trichotomy n 0) as [Hneg|[->|Hp]].
  - assert (Ho : inject_Z n == - inject_Z (- n)) by (rewrite inject_Z_opp; ring).
    rewrite (round64_comp _ _ Ho), round64_opp, (Hpos (- n)%Z) by lia.
    cbn [neg]. f_equal. rewrite (Qred_complete _ _ (Qeq_sym _ _ Ho)). apply Qred_inject.
  - reflexivity.
  - apply Hpos. lia.
Qed.

(** Two numbers two apart, up to [2^53], round to different doubles. *)
Lemma round64_two_apart (s s' : Q) :
  0 <= s -> s + 2 <= s' -> s' <= inject_Z (2 ^ 53) ->
  ltb (round64 s) (round64 s') = true.
Proof.
  intros H0 H2 Hmax.
  pose proof (Qle_ceiling s) as Hc.
  assert (Hc' : inject_Z (Qceiling s) - 1 < s).
  { pose proof (Qceiling_lt s) as H.
    rewrite <- Z.add_opp_r, inject_Z_plus, inject_Z_opp in H.
    change (inject_Z 1) with 1 in H. lra. }
  assert (Hn0 : (0 <= Qceiling s)%Z).
  { rewrite Zle_Qle. change (inject_Z 0) with 0. lra. }
  assert (Hn1 : (Qceiling s + 1 <= 2 ^ 53)%Z).
  { rewrite Zle_Qle, inject_Z_plus. change (inject_Z 1) with 1. lra. }
  apply (round64_separated s s' (inject_Z (Qceiling s)) (inject_Z (Qceiling s + 1))).
  - exact Hc.
  - apply round64_int. lia.
  - rewrite <- Zlt_Qlt. lia.
  - apply round64_int. lia.
  - rewrite inject_Z_plus. change (inject_Z 1) with 1. lra.
Qed.

Lemma pow2_m50 : pow2 (-50) == 1 # 1125899906842624.
Proof. reflexivity. Qed.

(** The doubles of [4, 8) are the multiples of [2^-50]. *)
Lemma representable_next (d : Q) (n : Z) :
  round64 d = Finite d -> 4 <= d ->
  inject_Z n * (1 # 1125899906842624) < d ->
  inject_Z (n + 1) * (1 # 1125899906842624) <= 8 ->
  inject_Z (n + 1) * (1 # 1125899906842624) <= d.
Proof.
  intros Hrep H4 Hn Hn8.
  destruct (Qlt_le_dec d 8) as [H8|H8]; [|lra].
  pose proof (representable_gap d 2 n Hrep ltac:(lia) H4 H8) as H.
  change (2 - 52)%Z with (-50)%Z in H. rewrite pow2_m50 in H. apply H. exact Hn.
Qed.

(** A rational rounds above 5 exactly when it lies above the midpoint
    of 5 and the next double. *)
Lemma round64_above_five (s : Q) :
  gtb (round64 s) (Finite 5) = true <-> 5 + (1 # 2251799813685248) < s.
Proof.
  split.
  - intros H. apply Qnot_le_lt. intros Hle.
    pose proof (round64_mono _ _ Hle) as Hm.
    replace (round64 (5 + (1 # 2251799813685248))) with (Finite 5) in Hm
      by (vm_compute; reflexivity).
    apply leb_not_gtb in Hm. congruence.
  - intros H. destruct (Qlt_le_dec s 8) as [H8|H8].
    + assert (P2 : pow2 2 == 4) by reflexivity.
      assert (P3 : pow2 3 == 8) by reflexivity.
      assert (He : ilog2 s = 2%Z) by (apply ilog2_unique; [|change (2 + 1)%Z with 3%Z]; lra).
      assert (Hq : quantum s = (-50)%Z) by (unfold quantum; rewrite He; reflexivity).
      assert (Hup : roundPos s <= pow2 3).
      { apply roundPos_le_pow2; [rewrite Hq; lia|lra]. }
      assert (Hlow : inject_Z (5 * 2 ^ 50 + 1) * pow2 (-50) <= roundPos s).
      { unfold roundPos. rewrite Hq. pose proof (pow2_pos (-50)) as Pp.
        apply Qmult_le_compat_r; [|lra]. rewrite <- Zle_Qle.
        apply roundEven_above. apply Qlt_shift_div_l; [assumption|].
        rewrite pow2_m50.
        change (inject_Z (5 * 2 ^ 50)) with (5629499534213120 # 1). lra. }
      rewrite pow2_m50 in Hlow.
      change (inject_Z (5 * 2 ^ 50 + 1)) with (5629499534213121 # 1) in Hlow.
      unfold round64. destruct (Qcompare_spec s 0) as [E|E|E]; try (exfalso; lra).
      destruct (Qle_bool (pow2 1024) (roundPos s)) eqn:B.
      * apply Qle_bool_iff in B. exfalso.
        assert (pow2 3 < pow2 1024) by (apply pow2_lt; lia). lra.
      * unfold gtb. apply ltb_finite. rewrite Qred_correct. lra.
    + pose proof (round64_mono _ _ H8) as Hm.
      replace (round64 8) with (Finite 8) in Hm by (vm_compute; reflexivity).
      unfold gtb. apply ltb_leb_trans with (Finite 8); [reflexivity|exact Hm].
Qed.

(** The double after 5 is [5 + 2^-50]. *)
Lemma representable_above_five (v : Q) :
  round64 v = Finite v -> 5 < v -> 5 + (1 # 1125899906842624) <= v.
Proof.
  intros Hrep H5.
  pose proof (representable_next v (5 * 2 ^ 50) Hrep ltac:(lra)) as H.
  change (inject_Z (5 * 2 ^ 50)) with (5629499534213120 # 1) in H.
  change (inject_Z (5 * 2 ^ 50 + 1)) with (5629499534213121 # 1) in H.
  assert (Hg := H ltac:(lra) ltac:(lra)). lra.
Qed.

End Binary64.

(** ** Budget governor: spend *)

Section BudgetSpend.
Import Budget.

Lemma gtb_spec (x y : Q) : Js.gtb x y = true <-> (y < x)%Q.
Proof.
  unfold Js.gtb. rewrite negb_true_iff. split.
  - intros H. apply Qnot_le_lt. intros Hle. apply Qle_bool_iff in Hle. congruence.
  - intros H. destruct (Qle_bool x y) eqn:E; [|reflexivity].
    apply Qle_bool_iff in E. exfalso. apply (Qlt_not_le _ _ H). exact E.
Qed.

Lemma trackCost_stores (service : string) (x : Q) (bm : BudgetManager) :
  currentCost (snd (trackCost service x bm)) = (currentCost bm + x)%Q.
Proof. unfold trackCost. destruct (Js.gtb _ _); reflexivity. Qed.

End BudgetSpend.

Section Spend.
Import Double.

Lemma trackCost_stored (service : string) (x : number) (bm : BudgetManager) :
  currentCost (snd (trackCost service x bm)) = add (currentCost bm) x.
Proof. unfold trackCost. cbn [currentCost]. destruct (gtb _ _); reflexivity. Qed.

Lemma trackCost_outcome (service : string) (x : number) (bm : BudgetManager) :
  fst (trackCost service x bm) =
    if gtb (add (currentCost bm) x) MAX_BUDGET
    then Throws (BudgetExceeded (add (currentCost bm) x))
    else Returns (add (currentCost bm) x).
Proof. unfold trackCost. cbn [currentCost]. destruct (gtb _ _); reflexivity. Qed.

(** What an addition yields is a double, an infinity or [NaN]. *)
Lemma add_representable (a b : number) : representable (add a b).
Proof.
  destruct a as [x| | |], b as [y| | |]; cbn [add representable]; try exact I.
  destruct (round64 (x + y)) as [v| | |] eqn:E; cbn [representable]; try exact I.
  exact (round64_idempotent _ _ E).
Qed.

Lemma remaining_below_zero (v : number) :
  representable v -> gtb v MAX_BUDGET = true ->
  ltb (sub MAX_BUDGET v) (Finite 0) = true.
Proof.
  destruct v as [v| | |]; cbn [representable]; intros Hrep Hgt; try discriminate.
  - apply ltb_finite in Hgt.
    pose proof (representable_above_five v Hrep Hgt) as Hv.
    unfold sub, MAX_BUDGET. cbn [neg add].
    apply leb_ltb_trans with (Finite (-1 # 1125899906842624)).
    + replace (Finite (-1 # 1125899906842624))
        with (round64 (-1 # 1125899906842624)) by (vm_compute; reflexivity).
      apply round64_mono. rewrite Qred_correct. lra.
    + reflexivity.
  - reflexivity.
Qed.

Lemma add_stays_above (v y : number) :
  representable v -> gtb v MAX_BUDGET = true -> leb (Finite 0) y = true ->
  gtb (add v y) MAX_BUDGET = true.
Proof.
  destruct v as [v| | |]; cbn [representable]; intros Hrep Hgt Hy; try discriminate;
    destruct y as [y| | |]; try discriminate; try reflexivity.
  cbn [add]. apply leb_finite in Hy. unfold gtb in *.
  apply ltb_leb_trans with (Finite v); [exact Hgt|].
  rewrite <- Hrep. apply round64_mono. lra.
Qed.

Lemma trackCosts_stays_above (later : list (string * number)) (bm : BudgetManager) :
  Forall (fun call => leb (Finite 0) (snd call) = true) later ->
  representable (currentCost bm) -> gtb (currentCost bm) MAX_BUDGET = true ->
  representable (currentCost (trackCosts later bm)) /\
  gtb (currentCost (trackCosts later bm)) MAX_BUDGET = true.
Proof.
  intros Hpos. revert bm.
  induction Hpos as [|[svc y] later Hy _ IH]; intros bm Hrep Hgt; [split; assumption|].
  cbn [trackCosts foldl fst snd] in *. apply IH.
  - rewrite trackCost_stored. apply add_representable.
  - rewrite trackCost_stored. apply add_stays_above; assumption.
Qed.

(** C4. Read c + x as the sum that [trackCost] stores, the double
    nearest to the exact sum.  [trackCost] throws the budget-exceeded
    error exactly when that sum exceeds [MAX_BUDGET] = 5, and otherwise
    returns it; a stored cost above the ceiling is never left without
    the error having been thrown.  For finite c and x this is exactly
    when the exact sum exceeds 5 + 2^-51, the midpoint of 5 and the
    next double: never when the exact sum is at most 5, always when it
    is at least 5 + 2^-50. *)
Theorem trackCost_raises_iff_over_ceiling (service : string) (x : number) (bm : BudgetManager) :
  let c := currentCost bm in
  let r := fst (trackCost service x bm) in
  let bm' := snd (trackCost service x bm) in
  MAX_BUDGET = Finite 5 /\
  currentCost bm' = add c x /\
  ((exists e, r = Throws e) <-> gtb (add c x) MAX_BUDGET = true) /\
  (r = Throws (BudgetExceeded (add c x)) \/
   (r = Returns (add c x) /\ gtb (add c x) MAX_BUDGET = false)) /\
  (gtb (currentCost bm') MAX_BUDGET = true -> exists e, r = Throws e) /\
  (forall p q, c = Finite p -> x = Finite q ->
     ((exists e, r = Throws e) <-> (5 + (1 # 2251799813685248) < p + q)%Q) /\
     ((p + q <= 5)%Q -> r = Returns (add c x)) /\
     ((5 + (1 # 1125899906842624) <= p + q)%Q -> exists e, r = Throws e)).
Proof.
  cbn zeta. rewrite trackCost_stored, trackCost_outcome.
  assert (Hiff : (exists e : Error,
                    (if gtb (add (currentCost bm) x) MAX_BUDGET
                     then Throws (BudgetExceeded (add (currentCost bm) x))
                     else Returns (add (currentCost bm) x)) = Throws e) <->
                 gtb (add (currentCost bm) x) MAX_BUDGET = true).
  { destruct (gtb (add (currentCost bm) x) MAX_BUDGET).
    - split; [reflexivity|eauto].
    - split; [intros [e He]; discriminate|discriminate]. }
  split; [reflexivity|]. split; [reflexivity|]. split; [exact Hiff|].
  split; [|split].
  - destruct (gtb (add (currentCost bm) x) MAX_BUDGET); [left|right; split]; reflexivity.
  - apply Hiff.
  - intros p q Hc Hx. rewrite Hiff, Hc, Hx. cbn [add]. unfold MAX_BUDGET.
    rewrite round64_above_five. split; [reflexivity|]. split.
    + intros Hle.
      destruct (gtb (round64 (p + q)) (Finite 5)) eqn:E; [|reflexivity].
      apply round64_above_five in E. exfalso. lra.
    + intros Hge. lra.
Qed.

Lemma trackCost_raises_iff_over_ceiling_witness :
  let nearly := {| currentCost := literal 4.99985; openaiLimiter := ∅;
                   replicateLimiter := ∅ |} in
  (exists p q,
     currentCost nearly = Finite p /\ literal 0.00015 = Finite q /\ (5 < p + q)%Q /\
     fst (trackCost "openai" (literal 0.00015) nearly) = Returns (Finite 5)) /\
  (exists e, fst (trackCost "replicate" (literal 0.2)
                    {| currentCost := literal 4.9; openaiLimiter := ∅;
                       replicateLimiter := ∅ |}) = Throws e).
Proof.
  cbn zeta. split.
  - eexists _, _. split; [vm_compute; reflexivity|]. split; [vm_compute; reflexivity|].
    split; [vm_compute; reflexivity|].
    destruct (proj1 (proj2 (proj2 (proj2 (trackCost_raises_iff_over_ceiling "openai"
                (literal 0.00015)
                {| currentCost := literal 4.99985; openaiLimiter := ∅;
                   replicateLimiter := ∅ |}))))) as [Ht|[Hr _]].
    + exfalso. revert Ht. vm_compute. discriminate.
    + rewrite Hr. vm_compute. reflexivity.
  - apply (proj1 (proj2 (proj2 (trackCost_raises_iff_over_ceiling "replicate" (literal 0.2)
             {| currentCost := literal 4.9; openaiLimiter := ∅; replicateLimiter := ∅ |})))).
    vm_compute. reflexivity.
Defined.

(** C10. [trackCost] stores the sum before it tests the ceiling: the
    cumulative cost after the call is the sum of the prior cost and the
    tracked cost, as JavaScript adds them, whether the call returns or
    throws.  After a throwing call the stored cost exceeds the ceiling,
    [getBudgetStatus] reports a negative remaining budget, and this
    stays so through every later tracking of costs that are not
    negative. *)
Theorem trackCost_commits_before_check
    (service : string) (x : number) (bm : BudgetManager) (later : list (string * number)) :
  let bm' := snd (trackCost service x bm) in
  currentCost bm' = add (currentCost bm) x /\
  (forall e, fst (trackCost service x bm) = Throws e ->
     e = BudgetExceeded (add (currentCost bm) x) /\
     gtb (currentCost bm') MAX_BUDGET = true /\
     ltb (remaining (getBudgetStatus bm')) (Finite 0) = true /\
     (Forall (fun call => leb (Finite 0) (snd call) = true) later ->
      gtb (currentCost (trackCosts later bm')) MAX_BUDGET = true /\
      ltb (remaining (getBudgetStatus (trackCosts later bm'))) (Finite 0) = true)).
Proof.
  cbn zeta. split; [apply trackCost_stored|].
  intros e He. rewrite trackCost_outcome in He.
  destruct (gtb (add (currentCost bm) x) MAX_BUDGET) eqn:Hgt; [|discriminate].
  injection He as <-. split; [reflexivity|].
  pose proof (add_representable (currentCost bm) x) as Hrep.
  rewrite <- (trackCost_stored service x bm) in Hgt, Hrep.
  split; [exact Hgt|]. split.
  - cbn [getBudgetStatus remaining]. apply remaining_below_zero; assumption.
  - intros Hlater.
    destruct (trackCosts_stays_above later _ Hlater Hrep Hgt) as [Hrep' Hgt'].
    split; [exact Hgt'|].
    cbn [getBudgetStatus remaining]. apply remaining_below_zero; assumption.
Qed.

Lemma trackCost_commits_before_check_witness :
  let bm := {| currentCost := literal 4.99; openaiLimiter := ∅; replicateLimiter := ∅ |} in
  let bm' := snd (trackCost "replicate" (literal 0.09) bm) in
  currentCost bm' = add (literal 4.99) (literal 0.09) /\
  gtb (currentCost bm') MAX_BUDGET = true /\
  ltb (remaining (getBudgetStatus bm')) (Finite 0) = true /\
  gtb (currentCost (trackCosts [("openai"%string, literal 0.00015)] bm')) MAX_BUDGET = true.
Proof.
  cbn zeta.
  pose proof (trackCost_commits_before_check "replicate" (literal 0.09)
                {| currentCost := literal 4.99; openaiLimiter := ∅; replicateLimiter := ∅ |}
                [("openai"%string, literal 0.00015)]) as [Hstored Hthrown].
  split; [exact Hstored|].
  destruct (Hthrown (BudgetExceeded (add (literal 4.99) (literal 0.09))))
    as (_ & Hgt & Hrem & Hlater).
  - vm_compute. reflexivity.
  - split; [exact Hgt|]. split; [exact Hrem|].
    apply Hlater. repeat constructor.
Defined.

(** Twenty-five clips of twenty seconds at the rate of
    luma/dream-machine: the sum of the doubles passes 5 with the last. *)
Lemma trackReplicateCost_25_luma :
  let calls := repeat ("replicate"%string, mul (Finite 20) (getModelCost "luma/dream-machine")) 24 in
  let bm := trackCosts calls fresh in
  leb (currentCost bm) MAX_BUDGET = true /\
  exists e, fst (trackReplicateCost (Finite 20) "luma/dream-machine" bm) = Throws e.
Proof. cbn zeta. split; [vm_compute; reflexivity|]. eexists. vm_compute. reflexivity. Qed.

End Spend.


(** ** Budget governor: sliding-window rate limiter *)

Section RateLimiter.
Import Budget.

Lemma within_cons (w now t : Z) (l : list Z) :
  within w now (t :: l) = if decide (now - t < w) then t :: within w now l else within w now l.
Proof. unfold within. rewrite filter_cons. reflexivity. Qed.

(** Filtering by a window that is contained in an earlier filter's window
    makes the earlier filter invisible. *)
Lemma within_absorb (w w' now now' : Z) (l : list Z) :
  now' + w <= now + w' ->
  within w now (within w' now' l) = within w now l.
Proof.
  intros Hle. induction l as [|t l IH]; [reflexivity|].
  rewrite !within_cons.
  destruct (decide (now' - t < w')) as [H1|H1].
  - rewrite within_cons. destruct (decide (now - t < w)); rewrite IH; reflexivity.
  - destruct (decide (now - t < w)); [lia | exact IH].
Qed.

Lemma within_length_mono (w now now' : Z) (l : list Z) :
  now <= now' -> (length (within w now' l) <= length (within w now l))%nat.
Proof.
  intros Hle. induction l as [|t l IH]; [reflexivity|].
  rewrite !within_cons.
  destruct (decide (now' - t < w)), (decide (now - t < w)); cbn [length]; lia.
Qed.

Lemma within_length_aged (w now now' t0 : Z) (l : list Z) :
  now <= now' -> t0 ∈ within w now l -> w <= now' - t0 ->
  (length (within w now' l) < length (within w now l))%nat.
Proof.
  intros Hle Hin Hold. induction l as [|t l IH].
  - cbn in Hin. apply elem_of_nil in Hin. contradiction.
  - rewrite !within_cons in *.
    pose proof (within_length_mono w now now' l Hle) as Hm.
    destruct (decide (now - t < w)) as [H1|H1].
    + apply elem_of_cons in Hin as [->|Hin].
      * destruct (decide (now' - t < w)); [lia | cbn [length]; lia].
      * specialize (IH Hin). destruct (decide (now' - t < w)); cbn [length]; lia.
    + specialize (IH Hin). destruct (decide (now' - t < w)); [lia | exact IH].
Qed.

Lemma rateLimiter_set (service : Service) (m : gmap string LimiterRecord) (bm : BudgetManager) :
  rateLimiter service (setRateLimiter service m bm) = m.
Proof. destruct service; reflexivity. Qed.

Lemma setRateLimiter_twice (service : Service) (m m' : gmap string LimiterRecord)
    (bm : BudgetManager) :
  setRateLimiter service m' (setRateLimiter service m bm) = setRateLimiter service m' bm.
Proof. destruct service; reflexivity. Qed.

Lemma minute_below_hour : MINUTE <= HOUR.
Proof. unfold MINUTE, HOUR. lia. Qed.

(** The decision taken by [checkRateLimit], read off the stored timestamps. *)
Lemma checkRateLimit_allowed_iff (service : Service) (identifier : string) (now : Z)
    (bm : BudgetManager) :
  allowed (fst (checkRateLimit service identifier now bm)) = true <->
  (length (within MINUTE now (recorded service identifier bm))
     < requestsPerMinute (RATE_LIMITS service))%nat /\
  (length (within HOUR now (recorded service identifier bm))
     < requestsPerHour (RATE_LIMITS service))%nat.
Proof.
  pose proof minute_below_hour as Hmh.
  unfold checkRateLimit, recorded.
  destruct (rateLimiter service bm !! identifier) as [r|]; cbn zeta.
  - rewrite (within_absorb MINUTE HOUR now now) by lia.
    repeat case_decide; cbn [fst allowed]; split; intros Hgoal; try discriminate; try lia; reflexivity.
  - cbn [requests]. rewrite (within_absorb MINUTE HOUR now now) by lia.
    repeat case_decide; cbn [fst allowed]; split; intros Hgoal; try discriminate; try lia; reflexivity.
Qed.

(** What a call leaves in the window of its identifier. *)
Lemma checkRateLimit_recorded (service : Service) (identifier : string) (now : Z)
    (bm : BudgetManager) :
  recorded service identifier (snd (checkRateLimit service identifier now bm)) =
  if allowed (fst (checkRateLimit service identifier now bm))
  then within HOUR now (recorded service identifier bm) ++ [now]
  else within HOUR now (recorded service identifier bm).
Proof.
  unfold checkRateLimit, recorded.
  destruct (rateLimiter service bm !! identifier) as [r|]; cbn zeta;
    repeat case_decide; cbn [fst snd allowed];
    rewrite rateLimiter_set, lookup_insert_eq; reflexivity.
Qed.

Lemma limits_positive (service : Service) :
  (0 < requestsPerMinute (RATE_LIMITS service))%nat /\
  (0 < requestsPerHour (RATE_LIMITS service))%nat.
Proof. destruct service; cbn; lia. Qed.

(** The state left by a denied call: the identifier had a record, and
    only its timestamps older than one hour are gone. *)
Lemma denied_state (service : Service) (identifier : string) (now : Z) (bm : BudgetManager) :
  allowed (fst (checkRateLimit service identifier now bm)) = false ->
  exists r, rateLimiter service bm !! identifier = Some r /\
    snd (checkRateLimit service identifier now bm) =
    setRateLimiter service
      (<[identifier := {| requests := within HOUR now (requests r);
                          lastReset := lastReset r |}]> (rateLimiter service bm)) bm.
Proof.
  intros Hden.
  pose proof (limits_positive service) as [Hm Hh].
  unfold checkRateLimit in *.
  destruct (rateLimiter service bm !! identifier) as [r|] eqn:Hr; cbn zeta in *.
  - exists r. split; [reflexivity|].
    repeat case_decide; cbn [fst snd allowed] in *; try discriminate; reflexivity.
  - exfalso. cbn [requests] in Hden.
    repeat case_decide; cbn [fst snd allowed] in *; try discriminate; cbn in *; lia.
Qed.

(** A denied call is invisible to every later call. *)
Lemma denied_poll_transparent (service : Service) (identifier : string) (now now' : Z)
    (bm : BudgetManager) :
  allowed (fst (checkRateLimit service identifier now bm)) = false ->
  now <= now' ->
  checkRateLimit service identifier now' (snd (checkRateLimit service identifier now bm)) =
  checkRateLimit service identifier now' bm.
Proof.
  intros Hden Hle.
  destruct (denied_state service identifier now bm Hden) as (r & Hr & ->).
  unfold checkRateLimit.
  rewrite rateLimiter_set, lookup_insert_eq, Hr. cbn zeta. cbn [requests lastReset].
  rewrite !(within_absorb HOUR HOUR now' now) by lia.
  rewrite !insert_insert_eq, !setRateLimiter_twice. reflexivity.
Qed.

Lemma pollState_app (service : Service) (identifier : string) (times times' : list Z) :
  forall bm,
  pollState service identifier (times ++ times') bm =
  pollState service identifier times' (pollState service identifier times bm).
Proof. induction times as [|t rest IH]; intros bm; [reflexivity|]. cbn [app pollState]. apply IH. Qed.

Lemma letThrough_app (service : Service) (identifier : string) (times times' : list Z) :
  forall bm,
  Traces.letThrough service identifier (times ++ times') bm =
  Traces.letThrough service identifier times bm ++
  Traces.letThrough service identifier times' (pollState service identifier times bm).
Proof.
  induction times as [|t rest IH]; intros bm; [reflexivity|].
  cbn [app Traces.letThrough pollState]. rewrite IH, app_assoc. reflexivity.
Qed.

Lemma last_default (A : Type) (l : list A) (x d d' : A) :
  List.last (x :: l) d = List.last (x :: l) d'.
Proof.
  revert x. induction l as [|y l IH]; intros x; [reflexivity|].
  change (List.last (y :: l) d = List.last (y :: l) d'). apply IH.
Qed.

Lemma last_cons_default (A : Type) (l : list A) (x d : A) :
  List.last (x :: l) d = List.last l x.
Proof.
  destruct l as [|y l]; [reflexivity|].
  change (List.last (y :: l) d = List.last (y :: l) x). apply last_default.
Qed.

Lemma last_elem_of (A : Type) (l : list A) (x d : A) : List.last (x :: l) d ∈ x :: l.
Proof.
  revert x. induction l as [|y l IH]; intros x; [constructor|].
  change (List.last (y :: l) d ∈ x :: y :: l). right. apply IH.
Qed.

(** What is stored for an identifier is what was let through for it,
    as far as it is less than an hour older than the last call. *)
Lemma poll_history (service : Service) (identifier : string) (times : list Z) :
  forall (bm : BudgetManager) (t0 : Z) (history : list Z),
  recorded service identifier bm = within HOUR t0 history ->
  StronglySorted Z.le (t0 :: times) ->
  recorded service identifier (pollState service identifier times bm) =
  within HOUR (List.last times t0)
         (history ++ Traces.letThrough service identifier times bm).
Proof.
  induction times as [|t rest IH]; intros bm t0 history Hrec Hsorted.
  - cbn [pollState Traces.letThrough List.last]. rewrite app_nil_r. exact Hrec.
  - apply StronglySorted_cons in Hsorted as [Hall Hsorted].
    inversion Hall as [|? ? Ht0t _]; subst.
    cbn [pollState Traces.letThrough].
    pose proof (checkRateLimit_recorded service identifier t bm) as Hstep.
    rewrite Hrec, (within_absorb HOUR HOUR t t0) in Hstep by lia.
    rewrite (last_cons_default _ rest t t0), app_assoc. apply IH; [|exact Hsorted].
    rewrite Hstep. destruct (allowed _).
    + unfold within. rewrite filter_app. f_equal. rewrite filter_cons, filter_nil.
      case_decide as Hnow; [reflexivity|]. unfold HOUR in Hnow. lia.
    + rewrite app_nil_r. reflexivity.
Qed.

Lemma sorted_last_le (times : list Z) (now : Z) :
  StronglySorted Z.le (times ++ [now]) ->
  StronglySorted Z.le (hd now times :: times) /\ List.last times (hd now times) <= now.
Proof.
  intros Hsorted. apply StronglySorted_app in Hsorted as (Hle & Hs & _).
  destruct times as [|t rest]; cbn [hd].
  - split; [repeat constructor|cbn; lia].
  - split.
    + constructor; [exact Hs|]. apply StronglySorted_cons in Hs as [Hall _].
      constructor; [lia|exact Hall].
    + apply (Hle _ now (last_elem_of _ rest t t)). constructor.
Qed.

(** The answer to a call, read off the requests that were let through
    since the identifier was first seen. *)
Lemma verdict_by_history (service : Service) (identifier : string) (times : list Z)
    (now : Z) (bm : BudgetManager) :
  recorded service identifier bm = [] ->
  StronglySorted Z.le (times ++ [now]) ->
  allowed (fst (checkRateLimit service identifier now
                  (pollState service identifier times bm))) = true <->
  (length (within MINUTE now (Traces.letThrough service identifier times bm))
     < requestsPerMinute (RATE_LIMITS service))%nat /\
  (length (within HOUR now (Traces.letThrough service identifier times bm))
     < requestsPerHour (RATE_LIMITS service))%nat.
Proof.
  intros Hempty Hsorted.
  destruct (sorted_last_le times now Hsorted) as [Hs Hlast].
  pose proof (poll_history service identifier times bm (hd now times) [] Hempty Hs) as Hrec.
  cbn [app] in Hrec.
  rewrite checkRateLimit_allowed_iff, Hrec.
  pose proof minute_below_hour.
  rewrite (within_absorb MINUTE HOUR now) by lia.
  rewrite (within_absorb HOUR HOUR now) by lia. reflexivity.
Qed.

(** C5. Take any run of [checkRateLimit] calls for one service and
    identifier, made at instants that do not decrease and starting
    where nothing is stored for the identifier, and call history the
    instants at which the run was let through.  The next call is let
    through exactly when fewer than [requestsPerMinute] instants of the
    history lie in the last minute and fewer than [requestsPerHour] in
    the last hour, and when it is let through it joins the history.
    So the call that finds a window holding its limit of requests let
    through is denied, for each window whatever the other holds, and
    after such a denial a call is let through again as soon as a request
    of the full window has aged out of it (and the other window has
    room). *)
Theorem checkRateLimit_sliding_windows
    (service : Service) (identifier : string) (times : list Z) (now now' t0 : Z)
    (bm : BudgetManager) :
  recorded service identifier bm = [] ->
  StronglySorted Z.le (times ++ [now]) ->
  let history := Traces.letThrough service identifier times bm in
  let state := pollState service identifier times bm in
  let perMinute := requestsPerMinute (RATE_LIMITS service) in
  let perHour := requestsPerHour (RATE_LIMITS service) in
  let verdict := allowed (fst (checkRateLimit service identifier now state)) in
  let stateAfter := snd (checkRateLimit service identifier now state) in
  (verdict = true <->
     (length (within MINUTE now history) < perMinute)%nat /\
     (length (within HOUR now history) < perHour)%nat) /\
  Traces.letThrough service identifier (times ++ [now]) bm =
    history ++ (if verdict then [now] else []) /\
  ((perMinute <= length (within MINUTE now history))%nat -> verdict = false) /\
  ((perHour <= length (within HOUR now history))%nat -> verdict = false) /\
  (length (within MINUTE now history) = perMinute ->
   t0 ∈ within MINUTE now history -> now <= now' -> MINUTE <= now' - t0 ->
   (length (within HOUR now' history) < perHour)%nat ->
   verdict = false /\
   allowed (fst (checkRateLimit service identifier now' stateAfter)) = true) /\
  (length (within HOUR now history) = perHour ->
   t0 ∈ within HOUR now history -> now <= now' -> HOUR <= now' - t0 ->
   (length (within MINUTE now' history) < perMinute)%nat ->
   verdict = false /\
   allowed (fst (checkRateLimit service identifier now' stateAfter)) = true).
Proof.
  intros Hempty Hsorted. cbn zeta.
  pose proof (verdict_by_history service identifier times now bm Hempty Hsorted) as Hiff.
  assert (Hmin : (requestsPerMinute (RATE_LIMITS service)
                    <= length (within MINUTE now (Traces.letThrough service identifier times bm)))%nat ->
                 allowed (fst (checkRateLimit service identifier now
                                 (pollState service identifier times bm))) = false).
  { intros H. apply not_true_is_false. intros Ha. apply Hiff in Ha. lia. }
  assert (Hhour : (requestsPerHour (RATE_LIMITS service)
                    <= length (within HOUR now (Traces.letThrough service identifier times bm)))%nat ->
                 allowed (fst (checkRateLimit service identifier now
                                 (pollState service identifier times bm))) = false).
  { intros H. apply not_true_is_false. intros Ha. apply Hiff in Ha. lia. }
  assert (Hhistory :
    Traces.letThrough service identifier (times ++ [now]) bm =
    Traces.letThrough service identifier times bm ++
    (if allowed (fst (checkRateLimit service identifier now
                        (pollState service identifier times bm)))
     then [now] else [])).
  { rewrite letThrough_app. cbn [Traces.letThrough]. rewrite app_nil_r. reflexivity. }
  assert (Hagain : allowed (fst (checkRateLimit service identifier now
                                   (pollState service identifier times bm))) = false ->
                   now <= now' ->
                   (length (within MINUTE now' (Traces.letThrough service identifier times bm))
                      < requestsPerMinute (RATE_LIMITS service))%nat ->
                   (length (within HOUR now' (Traces.letThrough service identifier times bm))
                      < requestsPerHour (RATE_LIMITS service))%nat ->
                   allowed (fst (checkRateLimit service identifier now'
                                   (snd (checkRateLimit service identifier now
                                           (pollState service identifier times bm))))) = true).
  { intros Hden Hle Hm Hh.
    assert (Hsorted' : StronglySorted Z.le ((times ++ [now]) ++ [now'])).
    { apply StronglySorted_app. split; [|split; [exact Hsorted|repeat constructor]].
      intros x1 x2 H1 H2. apply list_elem_of_singleton in H2 as ->.
      apply StronglySorted_app in Hsorted as (Hle' & _ & _).
      apply elem_of_app in H1 as [H1|H1].
      - specialize (Hle' x1 now H1 ltac:(constructor)). lia.
      - apply list_elem_of_singleton in H1 as ->. exact Hle. }
    pose proof (verdict_by_history service identifier (times ++ [now]) now' bm Hempty Hsorted')
      as Hiff'.
    rewrite pollState_app, Hhistory, Hden, app_nil_r in Hiff'. cbn [pollState] in Hiff'.
    apply Hiff'. split; assumption. }
  split; [exact Hiff|]. split; [exact Hhistory|]. split; [exact Hmin|].
  split; [exact Hhour|]. split.
  - intros Hfull Hin Hle Hold Hroom.
    assert (Hden := Hmin ltac:(lia)). split; [exact Hden|].
    apply Hagain; [exact Hden|exact Hle| |exact Hroom].
    pose proof (within_length_aged MINUTE now now' t0 _ Hle Hin Hold). lia.
  - intros Hfull Hin Hle Hold Hroom.
    assert (Hden := Hhour ltac:(lia)). split; [exact Hden|].
    apply Hagain; [exact Hden|exact Hle|exact Hroom|].
    pose proof (within_length_aged HOUR now now' t0 _ Hle Hin Hold). lia.
Qed.

Lemma checkRateLimit_sliding_windows_witness :
  let calls := [0; 100; 200; 300; 400; 500; 600; 700; 800; 900] in
  let state := pollState replicate "luma/dream-machine" calls Budget.fresh in
  Traces.letThrough replicate "luma/dream-machine" calls Budget.fresh = calls /\
  allowed (fst (checkRateLimit replicate "luma/dream-machine" 1000 state)) = false /\
  allowed (fst (checkRateLimit replicate "luma/dream-machine" 60000
                  (snd (checkRateLimit replicate "luma/dream-machine" 1000 state)))) = true.
Proof.
  cbn zeta. split; [vm_compute; reflexivity|].
  refine (proj1 (proj2 (proj2 (proj2 (proj2
    (checkRateLimit_sliding_windows replicate "luma/dream-machine"
       [0; 100; 200; 300; 400; 500; 600; 700; 800; 900] 1000 60000 0 Budget.fresh _ _)))))
    _ _ _ _ _).
  - vm_compute. reflexivity.
  - repeat (constructor; [|repeat (constructor; [lia|]); constructor]). constructor.
  - vm_compute. reflexivity.
  - vm_compute. constructor.
  - lia.
  - vm_compute. discriminate.
  - vm_compute. lia.
Defined.

Lemma denied_polls_transparent (service : Service) (identifier : string) (times : list Z)
    (now' : Z) (bm : BudgetManager) :
  pollsDenied service identifier times bm = true ->
  Forall (fun t => t <= now') times ->
  checkRateLimit service identifier now' (pollState service identifier times bm) =
  checkRateLimit service identifier now' bm.
Proof.
  revert bm. induction times as [|t rest IH]; intros bm Hden Hle; [reflexivity|].
  cbn [pollsDenied pollState] in *.
  apply andb_true_iff in Hden as [Hd Hrest]. apply negb_true_iff in Hd.
  inversion Hle; subst.
  rewrite IH by assumption. apply denied_poll_transparent; assumption.
Qed.

(** C9. A call that [checkRateLimit] denies appends no timestamp: the
    window of the identifier is the old one without its entries older
    than one hour, and nothing else in the budget manager changes.  So a
    denied call consumes no quota, and a later call, also after any
    number of denied polls, is answered exactly as if the denied calls
    had never been made. *)
Theorem denied_check_only_evicts
    (service : Service) (identifier : string) (now now' : Z) (polls : list Z)
    (bm : BudgetManager) :
  allowed (fst (checkRateLimit service identifier now bm)) = false ->
  now <= now' ->
  pollsDenied service identifier polls bm = true ->
  Forall (fun t => t <= now') polls ->
  let bm' := snd (checkRateLimit service identifier now bm) in
  recorded service identifier bm' = within HOUR now (recorded service identifier bm) /\
  (forall t, t ∈ recorded service identifier bm' -> t ∈ recorded service identifier bm) /\
  (length (recorded service identifier bm') <= length (recorded service identifier bm))%nat /\
  currentCost bm' = currentCost bm /\
  (forall service' identifier',
      service' <> service \/ identifier' <> identifier ->
      rateLimiter service' bm' !! identifier' = rateLimiter service' bm !! identifier') /\
  lastReset <$> (rateLimiter service bm' !! identifier) =
    lastReset <$> (rateLimiter service bm !! identifier) /\
  checkRateLimit service identifier now' bm' = checkRateLimit service identifier now' bm /\
  checkRateLimit service identifier now' (pollState service identifier polls bm) =
    checkRateLimit service identifier now' bm.
Proof.
  intros Hden Hle Hpolls Htimes bm'.
  pose proof (checkRateLimit_recorded service identifier now bm) as Hrec.
  rewrite Hden in Hrec. fold bm' in Hrec.
  destruct (denied_state service identifier now bm Hden) as (r & Hr & Hst).
  fold bm' in Hst.
  split; [exact Hrec|]. split; [|split; [|split; [|split; [|split; [|split]]]]].
  - intros t. rewrite Hrec. unfold within. rewrite list_elem_of_filter. tauto.
  - rewrite Hrec. unfold within. apply length_filter.
  - rewrite Hst. destruct service; reflexivity.
  - intros service' identifier' Hne. rewrite Hst.
    destruct service, service'; cbn [rateLimiter setRateLimiter openaiLimiter replicateLimiter];
      try reflexivity; (destruct Hne as [Hne|Hne]; [congruence|]);
      rewrite lookup_insert_ne by congruence; reflexivity.
  - rewrite Hst, rateLimiter_set, lookup_insert_eq, Hr. reflexivity.
  - apply denied_poll_transparent; assumption.
  - apply denied_polls_transparent; assumption.
Qed.

Lemma denied_check_only_evicts_witness :
  let bm := {| currentCost := 0;
               openaiLimiter := ∅;
               replicateLimiter :=
                 {[ "stability-ai/svd"%string :=
                      {| requests := [-3600000; 5; 10; 15; 20; 25; 30; 35; 40; 45; 50];
                         lastReset := -3600000 |} ]} |} in
  recorded replicate "stability-ai/svd" (snd (checkRateLimit replicate "stability-ai/svd" 60 bm))
    = [5; 10; 15; 20; 25; 30; 35; 40; 45; 50] /\
  checkRateLimit replicate "stability-ai/svd" 70000
    (pollState replicate "stability-ai/svd" [1000; 2000; 59000] bm)
    = checkRateLimit replicate "stability-ai/svd" 70000 bm.
Proof.
  cbn zeta.
  pose proof (denied_check_only_evicts replicate "stability-ai/svd" 60 70000 [1000; 2000; 59000]
    {| currentCost := 0;
       openaiLimiter := ∅;
       replicateLimiter :=
         {[ "stability-ai/svd"%string :=
              {| requests := [-3600000; 5; 10; 15; 20; 25; 30; 35; 40; 45; 50];
                 lastReset := -3600000 |} ]} |}) as H.
  cbn zeta in H.
  destruct H as (H1 & _ & _ & _ & _ & _ & _ & H2).
  - vm_compute. reflexivity.
  - lia.
  - vm_compute. reflexivity.
  - repeat constructor; lia.
  - split; [|exact H2]. rewrite H1. vm_compute. reflexivity.
Defined.

End RateLimiter.

(** ** Circuit breaker *)

Section CircuitBreakerProps.
Import Circuit.

Lemma agree_refl (model : string) (cb : CircuitBreaker) : agree model cb cb.
Proof. repeat split. Qed.

Lemma step_frame (model : string) (cb : CircuitBreaker) (op : Op) :
  opModel op <> model -> agree model (step cb op) cb.
Proof.
  intros Hne. destruct op as [m now|m|m now]; cbn [opModel] in Hne; cbn [step].
  - unfold canExecute. destruct (failures cb !! m) as [r|]; [|apply agree_refl].
    case_decide; [|apply agree_refl].
    repeat split. cbn. apply lookup_delete_ne. exact Hne.
  - repeat split. cbn. apply lookup_delete_ne. exact Hne.
  - repeat split. cbn. apply lookup_insert_ne. exact Hne.
Qed.

Lemma step_agree (model : string) (cb1 cb2 : CircuitBreaker) (op : Op) :
  opModel op = model -> agree model cb1 cb2 -> agree model (step cb1 op) (step cb2 op).
Proof.
  intros <- (Hf & Ht & Hr).
  destruct op as [m now|m|m now]; cbn [opModel] in *; cbn [step].
  - unfold canExecute. rewrite Hf, Hr.
    destruct (failures cb2 !! m) as [r|] eqn:E; [|repeat split; cbn; congruence].
    case_decide; repeat split; cbn; try congruence.
    rewrite !lookup_delete_eq. reflexivity.
  - repeat split; cbn; try assumption. rewrite !lookup_delete_eq. reflexivity.
  - unfold recordFailure. rewrite Hf. repeat split; cbn; try assumption.
    rewrite !lookup_insert_eq. reflexivity.
Qed.

Lemma run_filter (model : string) (ops : list Op) (cb1 cb2 : CircuitBreaker) :
  agree model cb1 cb2 ->
  agree model (run ops cb1) (run (filter (fun op => opModel op = model) ops) cb2).
Proof.
  revert cb1 cb2. induction ops as [|op ops IH]; intros cb1 cb2 Hag; [exact Hag|].
  rewrite filter_cons. cbn [run foldl]. case_decide as Hm.
  - cbn [foldl]. apply IH. apply step_agree; assumption.
  - apply IH. destruct (step_frame model cb1 op Hm) as (Hf & Ht & Hr).
    destruct Hag as (Hf' & Ht' & Hr'). repeat split; congruence.
Qed.

Lemma run_failures (model : string) (times : list Z) (cb : CircuitBreaker) :
  run (map (RecordFailure model) times) cb = recordFailures model times cb.
Proof.
  revert cb. induction times as [|t times IH]; intros cb; [reflexivity|].
  cbn [map run foldl recordFailures]. apply IH.
Qed.

Lemma recordFailures_snoc (model : string) (times : list Z) (t : Z) (cb : CircuitBreaker) :
  recordFailures model (times ++ [t]) cb = snd (recordFailure model t (recordFailures model times cb)).
Proof. unfold recordFailures. rewrite foldl_app. reflexivity. Qed.

Lemma recordFailure_count (model : string) (now : Z) (cb : CircuitBreaker) :
  failureCount model (snd (recordFailure model now cb)) = S (failureCount model cb).
Proof.
  unfold failureCount, recordFailure. cbn. rewrite lookup_insert_eq.
  destruct (failures cb !! model); reflexivity.
Qed.

Lemma recordFailures_count (model : string) (times : list Z) (cb : CircuitBreaker) :
  failureCount model (recordFailures model times cb) = (failureCount model cb + length times)%nat.
Proof.
  revert cb. induction times as [|t times IH]; intros cb; cbn [recordFailures foldl length].
  - lia.
  - fold (recordFailures model times (snd (recordFailure model t cb))).
    rewrite IH, recordFailure_count. lia.
Qed.

Lemma recordFailures_params (model : string) (times : list Z) (cb : CircuitBreaker) :
  failureThreshold (recordFailures model times cb) = failureThreshold cb /\
  resetTimeout (recordFailures model times cb) = resetTimeout cb.
Proof.
  revert cb. induction times as [|t times IH]; intros cb; [split; reflexivity|].
  cbn [recordFailures foldl]. fold (recordFailures model times (snd (recordFailure model t cb))).
  destruct (IH (snd (recordFailure model t cb))) as [-> ->]. split; reflexivity.
Qed.

Lemma recordFailures_last (model : string) (times : list Z) (t : Z) (cb : CircuitBreaker) :
  failures (recordFailures model (times ++ [t]) cb) !! model =
  Some {| count := S (failureCount model cb + length times); lastFailure := t |}.
Proof.
  rewrite recordFailures_snoc, <- recordFailures_count.
  generalize (recordFailures model times cb). intros cb'.
  unfold recordFailure, failureCount. cbn. rewrite lookup_insert_eq.
  destruct (failures cb' !! model); reflexivity.
Qed.

(** A run without success and without a [canExecute] call that finds
    the failure before it expired keeps counting. *)
Lemma run_unbroken (B : string) (ops : list Op) :
  forall (cb : CircuitBreaker) (prev : option Z) (k : nat),
  Traces.unbroken B (resetTimeout cb) prev ops ->
  (forall f, prev = Some f ->
     exists c, failures cb !! B = Some {| count := c; lastFailure := f |} /\ (k <= c)%nat) ->
  (prev = None -> k = 0%nat) ->
  resetTimeout (run ops cb) = resetTimeout cb /\
  failureThreshold (run ops cb) = failureThreshold cb /\
  forall f, from_option Some prev (last (Traces.failuresOf B ops)) = Some f ->
    exists c, failures (run ops cb) !! B = Some {| count := c; lastFailure := f |} /\
              (k + length (Traces.failuresOf B ops) <= c)%nat.
Proof.
  induction ops as [|op ops IH]; intros cb prev k Hun Hprev Hnone.
  - cbn [run foldl Traces.failuresOf omap list_omap last from_option length].
    split; [reflexivity|]. split; [reflexivity|].
    intros f Hf. destruct (Hprev f Hf) as (c & Hc & Hk). exists c. split; [exact Hc|lia].
  - destruct op as [m now|m|m now]; cbn [Traces.unbroken] in Hun.
    + destruct Hun as [Hfresh Hun].
      assert (Hstep : resetTimeout (step cb (CanExecute m now)) = resetTimeout cb /\
                      failureThreshold (step cb (CanExecute m now)) = failureThreshold cb /\
                      forall f, prev = Some f ->
                        failures (step cb (CanExecute m now)) !! B = failures cb !! B).
      { cbn [step]. unfold canExecute.
        destruct (failures cb !! m) as [r|] eqn:Hr; [|auto].
        destruct (decide (resetTimeout cb < now - lastFailure r)) as [Hexp|Hkeep]; [|auto].
        cbn [snd resetTimeout failureThreshold failures setFailures].
        split; [reflexivity|]. split; [reflexivity|].
        intros f Hf. destruct (decide (m = B)) as [->|Hne].
        - exfalso. specialize (Hfresh eq_refl). rewrite Hf in Hfresh.
          destruct (Hprev f Hf) as (c & Hc & _). rewrite Hc in Hr. injection Hr as <-.
          cbn [lastFailure] in Hexp. lia.
        - apply lookup_delete_ne. exact Hne. }
      destruct Hstep as (Hr & Ht & Hsame).
      change (run (CanExecute m now :: ops) cb) with (run ops (step cb (CanExecute m now))).
      change (Traces.failuresOf B (CanExecute m now :: ops)) with (Traces.failuresOf B ops).
      rewrite <- Hr in Hun.
      destruct (IH (step cb (CanExecute m now)) prev k Hun) as (Hr' & Ht' & Hrec).
      { intros f Hf. rewrite (Hsame f Hf). exact (Hprev f Hf). }
      { exact Hnone. }
      split; [congruence|]. split; [congruence|]. exact Hrec.
    + destruct Hun as [Hne Hun].
      change (run (RecordSuccess m :: ops) cb) with (run ops (recordSuccess m cb)).
      change (Traces.failuresOf B (RecordSuccess m :: ops)) with (Traces.failuresOf B ops).
      destruct (IH (recordSuccess m cb) prev k Hun) as (Hr' & Ht' & Hrec).
      { intros f Hf. unfold recordSuccess. cbn [failures setFailures].
        rewrite lookup_delete_ne by exact Hne. exact (Hprev f Hf). }
      { exact Hnone. }
      split; [exact Hr'|]. split; [exact Ht'|]. exact Hrec.
    + change (run (RecordFailure m now :: ops) cb)
        with (run ops (snd (recordFailure m now cb))).
      destruct (decide (m = B)) as [->|Hne].
      * assert (Hf : Traces.failuresOf B (RecordFailure B now :: ops) =
                     now :: Traces.failuresOf B ops).
        { unfold Traces.failuresOf. cbn [omap list_omap].
          destruct (decide (B = B)); [reflexivity|contradiction]. }
        rewrite Hf, last_cons. cbn [length].
        destruct (IH (snd (recordFailure B now cb)) (Some now) (S k) Hun)
          as (Hr' & Ht' & Hrec).
        { intros f [= <-]. unfold recordFailure. cbn [snd failures setFailures].
          rewrite lookup_insert_eq. eexists. split; [reflexivity|]. cbn [count].
          destruct prev as [f0|].
          - destruct (Hprev f0 eq_refl) as (c & -> & Hk). cbn [count]. lia.
          - rewrite (Hnone eq_refl). lia. }
        { discriminate. }
        split; [exact Hr'|]. split; [exact Ht'|].
        intros f Hlast. destruct (Hrec f) as (c & Hc & Hk).
        { destruct (last (Traces.failuresOf B ops)); exact Hlast. }
        exists c. split; [exact Hc|lia].
      * assert (Hf : Traces.failuresOf B (RecordFailure m now :: ops) =
                     Traces.failuresOf B ops).
        { unfold Traces.failuresOf. cbn [omap list_omap].
          destruct (decide (m = B)); [contradiction|reflexivity]. }
        rewrite Hf.
        destruct (IH (snd (recordFailure m now cb)) prev k Hun) as (Hr' & Ht' & Hrec).
        { intros f Hprevf. unfold recordFailure. cbn [snd failures setFailures].
          rewrite lookup_insert_ne by exact Hne. exact (Hprev f Hprevf). }
        { exact Hnone. }
        split; [exact Hr'|]. split; [exact Ht'|]. exact Hrec.
Qed.

(** The claim as it is worded, at the standard breaker: three failures
    of one backend in a row, no success in between, each try preceded
    by the [canExecute] call of the video stage and more than a minute
    after the try before it.  One millisecond after the third failure
    [canExecute] answers true. *)
Lemma consecutive_failures_open_breaker_refuted :
  let B := "luma/dream-machine"%string in
  let ops := [CanExecute B 0; RecordFailure B 500;
              CanExecute B 70000; RecordFailure B 70500;
              CanExecute B 140000; RecordFailure B 140500] in
  length (Traces.failuresOf B ops) = failureThreshold circuitBreaker /\
  Forall (fun op => op <> RecordSuccess B) ops /\
  140501 - 140500 < resetTimeout circuitBreaker /\
  fst (canExecute B 140501 (run ops circuitBreaker)) = true /\
  ~ fst (canExecute B 140501 (run ops circuitBreaker)) = false.
Proof.
  cbn zeta. split; [vm_compute; reflexivity|]. split; [repeat constructor; discriminate|].
  split; [vm_compute; reflexivity|].
  assert (H : fst (canExecute "luma/dream-machine" 140501
                     (run [CanExecute "luma/dream-machine" 0;
                           RecordFailure "luma/dream-machine" 500;
                           CanExecute "luma/dream-machine" 70000;
                           RecordFailure "luma/dream-machine" 70500;
                           CanExecute "luma/dream-machine" 140000;
                           RecordFailure "luma/dream-machine" 140500] circuitBreaker)) = true)
    by (vm_compute; reflexivity).
  split; [exact H|]. rewrite H. discriminate.
Qed.

(** C3. Take any run of calls on the breaker, for backend [B] and for
    other backends in any order, in which no success is recorded for
    [B] and no [canExecute] call for [B] that follows a failure of [B]
    is made more than [resetTimeout] after that failure, so that none
    of them discards the record.  Once [failureThreshold] failures of
    [B] have been recorded in it, the last at instant [tN],
    [canExecute B] is false, and changes nothing, at every instant
    less than [resetTimeout] after [tN]; it is true at every instant
    more than [resetTimeout] after [tN], with no success recorded, and
    discards the record so that later calls are true as well.
    [recordSuccess] discards the record of [B] in any state. *)
Theorem breaker_open_until_reset_timeout
    (cb : CircuitBreaker) (B : string) (ops : list Op) (tN now later : Z) :
  Traces.unbroken B (resetTimeout cb) None ops ->
  (failureThreshold cb <= length (Traces.failuresOf B ops))%nat ->
  last (Traces.failuresOf B ops) = Some tN ->
  let cb' := run ops cb in
  (now - tN < resetTimeout cb -> canExecute B now cb' = (false, cb')) /\
  (resetTimeout cb < now - tN ->
     fst (canExecute B now cb') = true /\
     failures (snd (canExecute B now cb')) !! B = None /\
     fst (canExecute B later (snd (canExecute B now cb'))) = true) /\
  (forall cb0 t,
     failures (recordSuccess B cb0) !! B = None /\
     getStatus B (recordSuccess B cb0) = closed /\
     canExecute B t (recordSuccess B cb0) = (true, recordSuccess B cb0)).
Proof.
  intros Hun Hlen Hlast cb'.
  destruct (run_unbroken B ops cb None 0 Hun) as (Hr & Ht & Hrec);
    [discriminate|reflexivity|].
  destruct (Hrec tN) as (c & Hf & Hc); [rewrite Hlast; reflexivity|].
  fold cb' in Hr, Ht, Hf.
  split; [|split].
  - intros Hnow. unfold canExecute. rewrite Hf, Hr, Ht. cbn [lastFailure count].
    case_decide; [lia|]. rewrite bool_decide_eq_false_2 by lia. reflexivity.
  - intros Hnow.
    assert (Hex : canExecute B now cb' = (true, setFailures (delete B (failures cb')) cb')).
    { unfold canExecute. rewrite Hf, Hr. cbn [lastFailure]. case_decide; [reflexivity|lia]. }
    rewrite Hex. cbn [fst snd].
    split; [reflexivity|]. split; [apply lookup_delete_eq|].
    unfold canExecute. cbn [failures setFailures]. rewrite lookup_delete_eq. reflexivity.
  - intros cb0 t.
    assert (Hnone : failures (recordSuccess B cb0) !! B = None) by apply lookup_delete_eq.
    split; [exact Hnone|]. unfold getStatus, canExecute. rewrite Hnone. split; reflexivity.
Qed.

Lemma breaker_open_until_reset_timeout_witness :
  let cb' := run [CanExecute "luma/dream-machine" 900;
                  RecordFailure "luma/dream-machine" 1000;
                  CanExecute "stability-ai/svd" 1500;
                  CanExecute "luma/dream-machine" 1900;
                  RecordFailure "luma/dream-machine" 2000;
                  RecordFailure "stability-ai/svd" 2500;
                  RecordSuccess "stability-ai/svd";
                  CanExecute "luma/dream-machine" 2900;
                  RecordFailure "luma/dream-machine" 3000] circuitBreaker in
  canExecute "luma/dream-machine" 62999 cb' = (false, cb') /\
  fst (canExecute "luma/dream-machine" 63001 cb') = true.
Proof.
  cbn zeta.
  pose proof (breaker_open_until_reset_timeout circuitBreaker "luma/dream-machine"
    [CanExecute "luma/dream-machine" 900;
     RecordFailure "luma/dream-machine" 1000;
     CanExecute "stability-ai/svd" 1500;
     CanExecute "luma/dream-machine" 1900;
     RecordFailure "luma/dream-machine" 2000;
     RecordFailure "stability-ai/svd" 2500;
     RecordSuccess "stability-ai/svd";
     CanExecute "luma/dream-machine" 2900;
     RecordFailure "luma/dream-machine" 3000] 3000) as H.
  assert (Hun : Traces.unbroken "luma/dream-machine" (resetTimeout circuitBreaker) None
    [CanExecute "luma/dream-machine" 900;
     RecordFailure "luma/dream-machine" 1000;
     CanExecute "stability-ai/svd" 1500;
     CanExecute "luma/dream-machine" 1900;
     RecordFailure "luma/dream-machine" 2000;
     RecordFailure "stability-ai/svd" 2500;
     RecordSuccess "stability-ai/svd";
     CanExecute "luma/dream-machine" 2900;
     RecordFailure "luma/dream-machine" 3000]).
  { cbn. repeat split; try discriminate; intros; lia. }
  split.
  - refine (proj1 (H 62999 0 Hun _ _) _);
      [vm_compute; lia | vm_compute; reflexivity | vm_compute; reflexivity].
  - refine (proj1 (proj1 (proj2 (H 63001 0 Hun _ _)) _));
      [vm_compute; lia | vm_compute; reflexivity | vm_compute; reflexivity].
Defined.

End CircuitBreakerProps.

Example extractRetryTime_hint :
  Video.extractRetryTime "Request failed with status 429 Too Many Requests: retry after 3" = 3.
Proof. vm_compute. reflexivity. Qed.

Example extractRetryTime_key :
  Video.extractRetryTime "429 throttled, Retry_After: 12, please wait 7 seconds" = 12.
Proof. vm_compute. reflexivity. Qed.

Example extractRetryTime_default : Video.extractRetryTime "429" = 10.
Proof. vm_compute. reflexivity. Qed.

(** ** Video stage: duration snapping *)

Section DurationSnapping.
Import Video.

Lemma ltb_spec (x y : Q) : Js.ltb x y = true <-> (x < y)%Q.
Proof. unfold Js.ltb. apply (gtb_spec y x). Qed.

Lemma dist_cases (c x : Q) :
  (x <= c /\ Js.dist c x == c - x)%Q \/ (c <= x /\ Js.dist c x == x - c)%Q.
Proof.
  unfold Js.dist. destruct (Qlt_le_dec c x) as [H|H].
  - right. split; [lra|]. rewrite Qabs_neg by lra. lra.
  - left. split; [lra|]. rewrite Qabs_pos by lra. lra.
Qed.

(** Between two permitted values [prev < curr], [reduce] moves to
    [curr] only when the request is strictly nearer to it. *)
Lemma closer_upper (x prev curr : Q) :
  (prev < curr)%Q -> (prev + curr < 2 * x)%Q -> closer x prev curr = curr.
Proof.
  intros Hlt Hx. unfold closer.
  destruct (Js.ltb (Js.dist curr x) (Js.dist prev x)) eqn:E; [reflexivity|].
  exfalso. apply not_true_iff_false in E. apply E. apply ltb_spec.
  destruct (dist_cases curr x) as [[? ->]|[? ->]], (dist_cases prev x) as [[? ->]|[? ->]]; lra.
Qed.

Lemma closer_lower (x prev curr : Q) :
  (prev < curr)%Q -> (2 * x <= prev + curr)%Q -> closer x prev curr = prev.
Proof.
  intros Hlt Hx. unfold closer.
  destruct (Js.ltb (Js.dist curr x) (Js.dist prev x)) eqn:E; [|reflexivity].
  exfalso. apply ltb_spec in E. revert E.
  destruct (dist_cases curr x) as [[? ->]|[? ->]], (dist_cases prev x) as [[? ->]|[? ->]]; lra.
Qed.

(** A tie keeps the value met first, which in an ascending list is the
    smaller one. *)
Lemma closer_tie (x prev curr : Q) :
  (Js.dist curr x == Js.dist prev x)%Q -> closer x prev curr = prev.
Proof.
  intros Heq. unfold closer.
  destruct (Js.ltb (Js.dist curr x) (Js.dist prev x)) eqn:E; [|reflexivity].
  apply ltb_spec in E. rewrite Heq in E. exfalso. exact (Qlt_irrefl _ E).
Qed.

Lemma clampDuration_veo_inside (d : Q) :
  (4 <= d)%Q -> (d <= 8)%Q -> (clampDuration veo d == d)%Q.
Proof.
  intros H4 H8. unfold clampDuration, MIN_DURATION. cbn [maxDuration veo].
  rewrite (Q.max_l d 4) by exact H4. apply Q.min_l. exact H8.
Qed.

Lemma actualDuration_veo (d : Q) :
  actualDuration veo d =
  Some (closer (clampDuration veo d) (closer (clampDuration veo d) 4 6) 8).
Proof. reflexivity. Qed.

(** C7. For the backend whose permitted durations are 4, 6 and 8
    ("google/veo-3.1-fast"), the video stage snaps every requested
    duration greater than 5 and at most 7 to 6, and [buildInput] sends
    6 to the backend.  The boundaries are decided: exactly 5 gives 4 and
    exactly 7 gives 6, a tie always going to the smaller permitted
    value. *)
Theorem veo_duration_snaps_to_six (d : Q) (prompt : string) :
  allowedDurations veo = Some [4%Q; 6%Q; 8%Q] /\
  ((5 < d)%Q -> (d <= 7)%Q ->
     actualDuration veo d = Some 6%Q /\
     veoValidDuration d = 6%Q /\
     in_duration (buildInput veo prompt 6 DEFAULT_FPS ASPECT_RATIO) = Some 6%Q) /\
  ((d == 5)%Q -> actualDuration veo d = Some 4%Q /\ veoValidDuration d = 4%Q) /\
  ((d == 7)%Q -> actualDuration veo d = Some 6%Q /\ veoValidDuration d = 6%Q) /\
  (forall x prev curr : Q,
     (prev < curr)%Q -> (Js.dist curr x == Js.dist prev x)%Q -> closer x prev curr = prev).
Proof.
  split; [reflexivity|].
  assert (Hmid : (5 < d)%Q -> (d <= 7)%Q -> actualDuration veo d = Some 6%Q).
  { intros H5 H7. rewrite actualDuration_veo.
    pose proof (clampDuration_veo_inside d ltac:(lra) ltac:(lra)) as Hc.
    rewrite (closer_upper _ 4 6) by lra. rewrite (closer_lower _ 6 8) by lra. reflexivity. }
  assert (Hvalid : (5 < d)%Q -> (d <= 7)%Q -> veoValidDuration d = 6%Q).
  { intros H5 H7. unfold veoValidDuration.
    destruct (Qle_bool d 5) eqn:E5; [apply Qle_bool_iff in E5; lra|].
    destruct (Qle_bool d 7) eqn:E7; [reflexivity|].
    apply not_true_iff_false in E7. exfalso. apply E7. apply Qle_bool_iff. exact H7. }
  split; [|split; [|split]].
  - intros H5 H7. split; [auto|]. split; [auto|]. reflexivity.
  - intros H. split.
    + rewrite actualDuration_veo.
      pose proof (clampDuration_veo_inside d ltac:(lra) ltac:(lra)) as Hc.
      rewrite (closer_lower _ 4 6) by lra. rewrite (closer_lower _ 4 8) by lra. reflexivity.
    + unfold veoValidDuration.
      destruct (Qle_bool d 5) eqn:E5; [reflexivity|].
      apply not_true_iff_false in E5. exfalso. apply E5. apply Qle_bool_iff. lra.
  - intros H. split; [apply Hmid; lra | apply Hvalid; lra].
  - intros x prev curr _ Htie. apply closer_tie. exact Htie.
Qed.

Lemma veo_duration_snaps_to_six_witness :
  actualDuration veo 5.5 = Some 6%Q /\
  actualDuration veo (10 # 2) = Some 4%Q /\
  actualDuration veo 7 = Some 6%Q.
Proof.
  pose proof (veo_duration_snaps_to_six 5.5 "a prompt") as (_ & H1 & _).
  pose proof (veo_duration_snaps_to_six (10 # 2) "a prompt") as (_ & _ & H2 & _).
  pose proof (veo_duration_snaps_to_six 7 "a prompt") as (_ & _ & _ & H3 & _).
  split; [|split].
  - apply H1; reflexivity || discriminate.
  - apply H2. reflexivity.
  - apply H3. reflexivity.
Defined.

End DurationSnapping.

(** ** Video stage: automatic retry on a rate-limit answer *)

Section RateLimitRetry.
Import Budget Circuit Video Stage.

Context (env : Env) (m : string) (vm : VideoModel) (prompt : string)
        (requested actual : Q) (message : string) (lat hint : Z).

(** The backend [m] is enabled and answers every call, after [lat]
    milliseconds, with the same rate-limit error carrying [hint]. *)
Hypothesis Hmodel : VIDEO_MODELS m = Some vm.
Hypothesis Henabled : enabled vm = true.
Hypothesis Hnoabort : forall t, abortedAt env t = false.
Hypothesis Hreply :
  forall input t, replicateRun env m input t = {| latency := lat; result := Throw message |}.
Hypothesis Hlat : lat < MODEL_TIMEOUT_MS.
Hypothesis Hnotbudget : Js.includes "Budget exceeded" message = false.
Hypothesis Hnotcredit :
  Js.includes "402" message || Js.includes "Payment Required" message
    || Js.includes "insufficient credit" message = false.
Hypothesis Hrate :
  Js.includes "429" message || Js.includes "Too Many Requests" message = true.
Hypothesis Hhint : extractRetryTime message = hint.
Hypothesis Hactual : actualDuration vm requested = Some actual.

Lemma setBreaker_same (w : World) : setBreaker (breaker w) w = w.
Proof. destruct w; reflexivity. Qed.

Lemma within_length (window now : Z) (l : list Z) :
  (length (within window now l) <= length l)%nat.
Proof. unfold within. apply length_filter. Qed.

(** The governor lets a call through when fewer than ten requests are
    stored for the model; the stored list grows by at most one. *)
Lemma governor_lets_through (k : nat) (now : Z) (bm : BudgetManager) :
  (length (recorded replicate m bm) + S k <= 10)%nat ->
  exists bm',
    checkRateLimit replicate m now bm = (Allowed, bm') /\
    (length (recorded replicate m bm') + k <= 10)%nat /\
    currentCost bm' = currentCost bm.
Proof.
  intros Hlen.
  pose proof (checkRateLimit_allowed_iff replicate m now bm) as Hiff.
  pose proof (checkRateLimit_recorded replicate m now bm) as Hrec.
  pose proof (within_length MINUTE now (recorded replicate m bm)) as Hm.
  pose proof (within_length HOUR now (recorded replicate m bm)) as Hh.
  assert (Hall : allowed (fst (checkRateLimit replicate m now bm)) = true).
  { apply Hiff. cbn [RATE_LIMITS requestsPerMinute requestsPerHour]. lia. }
  rewrite Hall in Hrec.
  assert (Hcost : currentCost (snd (checkRateLimit replicate m now bm)) = currentCost bm).
  { unfold checkRateLimit. destruct (rateLimiter replicate bm !! m); cbn zeta;
      repeat case_decide; reflexivity. }
  destruct (checkRateLimit replicate m now bm) as [rc bm'] eqn:E. cbn [fst snd] in *.
  destruct rc; [|discriminate].
  exists bm'. split; [reflexivity|]. split; [|exact Hcost].
  rewrite Hrec, length_app. cbn [length]. lia.
Qed.

(** The failing call: what [callBackend] returns and leaves behind. *)
Lemma callBackend_rejected (w : World) :
  callBackend env prompt actual m vm w =
  (Throw message,
   elapse lat (EvCall m (buildInput vm prompt actual DEFAULT_FPS ASPECT_RATIO) (clock w)) w).
Proof.
  unfold callBackend. rewrite Hreply. cbn [latency result].
  rewrite bool_decide_eq_false_2 by lia. reflexivity.
Qed.

Lemma steps_app (evs evs' : list Event) : steps (evs ++ evs') = steps evs ++ steps evs'.
Proof. unfold steps. apply map_app. Qed.

(** One turn on [m]: the call is made and rejected, and the [catch]
    block runs in a world where one call fewer is guaranteed. *)
Lemma attempt_rejected
    (retry : option (string -> World -> completion VideoResult * World))
    (errors : list ErrorEntry) (k : nat) (w : World) :
  ready m vm actual (S k) w ->
  exists w1,
    attempt env retry prompt requested m vm errors w =
      handleFailure env retry m errors message w1 /\
    ready m vm actual k w1 /\
    clock w1 = clock w + lat /\
    steps (trace w1) = steps (trace w) ++ [Call m].
Proof.
  intros (Hnone & Hlen & Hbudget).
  destruct (governor_lets_through k (clock w) (budget w) Hlen) as (bm' & Hcheck & Hlen' & Hcost).
  exists (elapse lat (EvCall m (buildInput vm prompt actual DEFAULT_FPS ASPECT_RATIO) (clock w))
                 (setBudget bm' w)).
  split; [|split; [|split]].
  - unfold attempt. rewrite Hnoabort. unfold canExecute. rewrite Hnone.
    cbn [negb]. rewrite setBreaker_same, Hcheck, Hactual.
    cbn [budget setBudget]. unfold getBudgetStatus in *. cbn [remaining] in *.
    rewrite Hcost, Hbudget. rewrite callBackend_rejected. reflexivity.
  - unfold ready. cbn [elapse setBudget breaker budget].
    split; [exact Hnone|]. split; [exact Hlen'|].
    unfold getBudgetStatus in *. cbn [remaining] in *. rewrite Hcost. exact Hbudget.
  - reflexivity.
  - cbn [elapse trace setBudget]. rewrite steps_app. reflexivity.
Qed.

Lemma failedTurn_continues (errors : list ErrorEntry) (text : string) (w : World) :
  exists entry w',
    failedTurn m errors text w = (Continue (errors ++ [entry]), w') /\
    err_model entry = m /\ err_error entry = text /\
    failureCount m (breaker w') = S (failureCount m (breaker w)) /\
    clock w' = clock w /\ trace w' = trace w /\ budget w' = budget w.
Proof.
  unfold failedTurn.
  pose proof (recordFailure_count m (clock w) (breaker w)) as Hc.
  destruct (recordFailure m (clock w) (breaker w)) as [n cb] eqn:E. cbn [snd] in Hc.
  eexists _, _. split; [reflexivity|]. repeat split. exact Hc.
Qed.

Lemma ready_wait (k : nat) (seconds : Z) (w : World) : ready m vm actual k w -> ready m vm actual k (wait seconds w).
Proof. intros H. exact H. Qed.

Lemma ready_failureCount (k : nat) (w : World) : ready m vm actual k w -> failureCount m (breaker w) = 0%nat.
Proof. intros (Hnone & _). unfold failureCount. rewrite Hnone. reflexivity. Qed.

Lemma enabledModels_cons (rest : list string) :
  enabledModels (m :: rest) = (m, vm) :: enabledModels rest.
Proof. unfold enabledModels. cbn [omap list_omap]. rewrite Hmodel, Henabled. reflexivity. Qed.

(** On the one-model chain, with [n] retries left, the backend is
    called [n + 1] times, with a wait of [hint + 1] seconds before each
    retry, and the stage then throws. *)
Lemma single_chain_exhausts (n : nat) :
  forall w, ready m vm actual (S n) w ->
  exists text w',
    generateSceneVideoFrom env n prompt requested (Some [m]) w = (Throw text, w') /\
    steps (trace w') = steps (trace w) ++ Call m :: retrySteps m hint n /\
    clock w' = clock w + (Z.of_nat n + 1) * lat + Z.of_nat n * ((hint + 1) * 1000) /\
    failureCount m (breaker w') = S n.
Proof.
  induction n as [|n IH]; intros w Hready.
  - cbn [generateSceneVideoFrom default from_option id]. rewrite enabledModels_cons.
    cbn [enabledModels omap list_omap]. rewrite Hnoabort. cbn [tryModels].
    destruct (attempt_rejected None [] 0 w Hready) as (w1 & -> & Hr1 & Hc1 & Ht1).
    unfold handleFailure. rewrite Hnotbudget, Hnotcredit, Hrate.
    destruct (failedTurn_continues [] (rateLimitedMessage (extractRetryTime message)) w1)
      as (entry & w2 & -> & _ & _ & Hfc & Hc2 & Ht2 & _).
    eexists _, _. split; [reflexivity|].
    rewrite Ht2, Ht1, Hc2, Hc1, Hfc, (ready_failureCount 0 w1 Hr1).
    repeat split. cbn [Z.of_nat]. lia.
  - cbn [generateSceneVideoFrom default from_option id]. rewrite enabledModels_cons.
    cbn [enabledModels omap list_omap]. rewrite Hnoabort. cbn [tryModels].
    destruct (attempt_rejected
                (Some (fun modelName w' =>
                         generateSceneVideoFrom env n prompt requested (Some [modelName]) w'))
                [] (S n) w Hready) as (w1 & -> & Hr1 & Hc1 & Ht1).
    unfold handleFailure. rewrite Hnotbudget, Hnotcredit, Hrate, Hnoabort, Hhint.
    destruct (IH (wait (hint + 1) w1) (ready_wait _ _ _ Hr1)) as (text & w2 & -> & Ht2 & Hc2 & Hf2).
    destruct (failedTurn_continues [] text w2) as (entry & w3 & -> & _ & _ & Hfc & Hc3 & Ht3 & _).
    eexists _, _. split; [reflexivity|].
    rewrite Ht3, Ht2, Hc3, Hc2, Hfc, Hf2.
    cbn [wait elapse trace clock]. rewrite steps_app, Ht1, Hc1.
    repeat split.
    + unfold retrySteps. cbn [repeat concat steps map]. rewrite <- !app_assoc. reflexivity.
    + lia.
Qed.

Lemma generateSceneVideoFrom_succ (n : nat) (chain : list string) (w : World) :
  generateSceneVideoFrom env (S n) prompt requested (Some chain) w =
  match enabledModels chain with
  | [] => (Throw noModelsMessage, w)
  | _ :: _ =>
      if abortedAt env (clock w) then (Throw abortedMessage, w)
      else tryModels env
             (Some (fun modelName w' =>
                      generateSceneVideoFrom env n prompt requested (Some [modelName]) w'))
             prompt requested (enabledModels chain) [] w
  end.
Proof. reflexivity. Qed.

(** On a longer chain the stage goes on with the models after [m] once
    the three retries are used up. *)
Lemma chain_falls_through_after_retries (rest : list string) (w : World) :
  ready m vm actual 4 w ->
  exists entry w',
    generateSceneVideo env prompt requested (Some (m :: rest)) 0 w =
      tryModels env
        (Some (fun modelName w'' =>
                 generateSceneVideoFrom env 2 prompt requested (Some [modelName]) w''))
        prompt requested (enabledModels rest) [entry] w' /\
    err_model entry = m /\
    steps (trace w') = steps (trace w) ++ Call m :: retrySteps m hint 3 /\
    clock w' = clock w + 4 * lat + 3 * ((hint + 1) * 1000) /\
    failureCount m (breaker w') = 4%nat.
Proof.
  intros Hready. unfold generateSceneVideo.
  change (MAX_RETRIES - 0)%nat with 3%nat.
  rewrite generateSceneVideoFrom_succ, enabledModels_cons, Hnoabort. cbn [tryModels].
  destruct (attempt_rejected
              (Some (fun modelName w' =>
                       generateSceneVideoFrom env 2 prompt requested (Some [modelName]) w'))
              [] 3 w Hready) as (w1 & -> & Hr1 & Hc1 & Ht1).
  unfold handleFailure. rewrite Hnotbudget, Hnotcredit, Hrate, Hnoabort, Hhint.
  destruct (single_chain_exhausts 2 (wait (hint + 1) w1) (ready_wait _ _ _ Hr1))
    as (text & w2 & -> & Ht2 & Hc2 & Hf2).
  destruct (failedTurn_continues [] text w2) as (entry & w3 & -> & He & _ & Hfc & Hc3 & Ht3 & _).
  exists entry, w3. split; [reflexivity|]. split; [exact He|].
  rewrite Ht3, Ht2, Hc3, Hc2, Hfc, Hf2.
  cbn [wait elapse trace clock]. rewrite steps_app, Ht1, Hc1.
  repeat split.
  - unfold retrySteps. cbn [repeat concat steps map]. rewrite <- !app_assoc. reflexivity.
  - lia.
Qed.

End RateLimitRetry.

(** C6 as stated fails: when the backend keeps answering 429 with the
    hint, it is retried three times, not once, before the next backend
    is called. *)
Lemma retry_exactly_once_refuted :
  let run := Stage.generateSceneVideo Stage.throttledLuma "a prompt" 6
               (Some ["luma/dream-machine"; "stability-ai/svd"]%string) 0
               (Stage.freshWorld 0) in
  let retries := (length (Stage.callsTo "luma/dream-machine" (Stage.trace (snd run))) - 1)%nat in
  Stage.steps (Stage.trace (snd run)) =
    [Stage.Call "luma/dream-machine"; Stage.Wait 4;
     Stage.Call "luma/dream-machine"; Stage.Wait 4;
     Stage.Call "luma/dream-machine"; Stage.Wait 4;
     Stage.Call "luma/dream-machine"; Stage.Call "stability-ai/svd"] /\
  retries = 3%nat /\
  ~ retries = 1%nat.
Proof.
  cbn zeta. split; [vm_compute; reflexivity|].
  assert (Hretries :
    (length (Stage.callsTo "luma/dream-machine"
       (Stage.trace (snd (Stage.generateSceneVideo Stage.throttledLuma "a prompt" 6
          (Some ["luma/dream-machine"; "stability-ai/svd"]%string) 0
          (Stage.freshWorld 0))))) - 1)%nat = 3%nat) by (vm_compute; reflexivity).
  split; [exact Hretries|]. rewrite Hretries. discriminate.
Qed.

(** C6, amended. Let a backend answer every call with a 429-shaped
    error whose retry hint is 3 seconds, in a state where the breaker,
    the rate governor and the budget let four calls through and nobody
    aborts.  Then the video stage calls it, waits 4 seconds (the hint
    plus a one-second buffer), calls it again, and so on for
    [MAX_RETRIES] = 3 retries, four calls in all; only then does it
    record the failure and go on with the rest of the chain. *)
Theorem rate_limited_backend_retried_then_skipped
    (env : Stage.Env) (m : string) (vm : Video.VideoModel) (prompt : string)
    (requested actual : Q) (message : string) (lat : Z) (rest : list string)
    (w : Stage.World) :
  Video.VIDEO_MODELS m = Some vm ->
  Video.enabled vm = true ->
  (forall t, Stage.abortedAt env t = false) ->
  (forall input t,
     Stage.replicateRun env m input t =
       {| Stage.latency := lat; Stage.result := Throw message |}) ->
  lat < Video.MODEL_TIMEOUT_MS ->
  Js.includes "Budget exceeded" message = false ->
  Js.includes "402" message || Js.includes "Payment Required" message
    || Js.includes "insufficient credit" message = false ->
  Js.includes "429" message || Js.includes "Too Many Requests" message = true ->
  Video.extractRetryTime message = 3 ->
  Video.actualDuration vm requested = Some actual ->
  Stage.ready m vm actual 4 w ->
  Stage.MAX_RETRIES = 3%nat /\
  exists entry w',
    Stage.generateSceneVideo env prompt requested (Some (m :: rest)) 0 w =
      Stage.tryModels env
        (Some (fun modelName w'' =>
                 Stage.generateSceneVideoFrom env 2 prompt requested (Some [modelName]) w''))
        prompt requested (Stage.enabledModels rest) [entry] w' /\
    Stage.err_model entry = m /\
    Stage.steps (Stage.trace w') =
      Stage.steps (Stage.trace w) ++
      [Stage.Call m; Stage.Wait 4; Stage.Call m; Stage.Wait 4;
       Stage.Call m; Stage.Wait 4; Stage.Call m] /\
    Stage.clock w' = Stage.clock w + 4 * lat + 3 * 4000 /\
    Circuit.failureCount m (Stage.breaker w') = 4%nat.
Proof.
  intros Hmodel Henabled Hnoabort Hreply Hlat Hnb Hnc Hrate Hhint Hactual Hready.
  split; [reflexivity|].
  exact (chain_falls_through_after_retries env m vm prompt requested actual message lat 3
           Hmodel Henabled Hnoabort Hreply Hlat Hnb Hnc Hrate Hhint Hactual rest w Hready).
Qed.

Lemma rate_limited_backend_retried_then_skipped_witness :
  exists entry w',
    Stage.generateSceneVideo Stage.throttledLuma "a prompt" 6
      (Some ["luma/dream-machine"; "stability-ai/svd"]%string) 0 (Stage.freshWorld 0) =
      Stage.tryModels Stage.throttledLuma
        (Some (fun modelName w'' =>
                 Stage.generateSceneVideoFrom Stage.throttledLuma 2 "a prompt" 6
                   (Some [modelName]) w''))
        "a prompt" 6 (Stage.enabledModels ["stability-ai/svd"%string]) [entry] w' /\
    Stage.steps (Stage.trace w') =
      [Stage.Call "luma/dream-machine"; Stage.Wait 4;
       Stage.Call "luma/dream-machine"; Stage.Wait 4;
       Stage.Call "luma/dream-machine"; Stage.Wait 4;
       Stage.Call "luma/dream-machine"].
Proof.
  destruct (rate_limited_backend_retried_then_skipped Stage.throttledLuma
              "luma/dream-machine" Video.luma "a prompt" 6 6 Stage.throttledMessage 500
              ["stability-ai/svd"%string] (Stage.freshWorld 0))
    as (_ & entry & w' & Hrun & _ & Hsteps & _).
  - reflexivity.
  - reflexivity.
  - intros t. reflexivity.
  - intros input t. reflexivity.
  - reflexivity.
  - vm_compute. reflexivity.
  - vm_compute. reflexivity.
  - vm_compute. reflexivity.
  - vm_compute. reflexivity.
  - reflexivity.
  - unfold Stage.ready. split; [reflexivity|]. split; [vm_compute; lia | vm_compute; reflexivity].
  - exists entry, w'. split; [exact Hrun | exact Hsteps].
Defined.

(** ** Orchestrator: scene count and scene slots *)

Section SceneSlots.
Import Budget Video Movie.

Lemma sceneStart_keeps (i : nat) (st : Run) :
  accounted (snd (sceneStart i st)) = accounted st /\
  signal (snd (sceneStart i st)) = signal st.
Proof. unfold sceneStart. destruct (signal st) eqn:E; cbn; auto. Qed.

Lemma trip_keeps (fires : bool) (st : Run) : accounted (trip fires st) = accounted st.
Proof. reflexivity. Qed.

Lemma accounted_push_scene (st : Run) (s : SceneData) story hook done sig lg :
  accounted {| storySoFar := story; previousSceneEnd := hook; scenes := scenes st ++ [s];
               failedScenes := failedScenes st; completedScenes := done; signal := sig;
               log := lg |}
  = (accounted st + if isSuccessful s then 1 else 0)%nat.
Proof.
  unfold accounted. cbn [scenes failedScenes]. rewrite List.filter_app, length_app.
  cbn [List.filter]. destruct (isSuccessful s); cbn [length]; lia.
Qed.

(** The end of a scene adds at most one slot to the count. *)
Lemma sceneFinish_bound (i : nat) (outcome : Outcome) (st : Run) :
  (accounted (snd (sceneFinish i outcome st)) <= accounted st + 1)%nat /\
  signal (snd (sceneFinish i outcome st)) = signal st.
Proof.
  destruct outcome as [sm hook url|message]; cbn [sceneFinish].
  - cbn [snd]. rewrite accounted_push_scene. split; [|reflexivity].
    destruct (isSuccessful _); lia.
  - destruct (Js.includes "aborted" message || signal st); cbn [snd].
    + rewrite accounted_push_scene. cbn. split; [lia|reflexivity].
    + split; [|reflexivity]. unfold accounted. cbn [scenes failedScenes].
      rewrite List.filter_app, !length_app. cbn. lia.
Qed.

(** In a run that nobody aborts it adds exactly one and resolves. *)
Lemma sceneFinish_ordinary (i : nat) (outcome : Outcome) (st : Run) :
  ordinary outcome -> signal st = false ->
  exists s st',
    sceneFinish i outcome st = (Resolved s, st') /\
    accounted st' = (accounted st + 1)%nat /\ signal st' = false.
Proof.
  intros Hord Hsig. destruct outcome as [sm hook url|message]; cbn [sceneFinish ordinary] in *.
  - eexists _, _. split; [reflexivity|]. split; [|exact Hsig].
    rewrite accounted_push_scene. unfold isSuccessful. cbn [success video].
    destruct url; [contradiction|reflexivity].
  - rewrite Hord, Hsig. cbn [orb]. eexists _, _. split; [reflexivity|]. split; [|reflexivity].
    unfold accounted. cbn [scenes failedScenes].
    rewrite List.filter_app, !length_app. cbn. lia.
Qed.

Lemma settle_bound (oracle : Oracle) (task : Task) (st : Run) :
  (accounted (snd (settle oracle task st)) <= accounted st + 1)%nat /\
  signal (snd (settle oracle task st)) = signal st.
Proof.
  destruct task as [i|i]; cbn [settle]; [apply sceneFinish_bound|].
  cbn [snd]. split; [lia|reflexivity].
Qed.

(** The sequential loops: at most one slot per closure, whatever happens. *)
Lemma runSequential_bound (oracle : Oracle) (count : nat) (indices : list nat) :
  forall st, (accounted (snd (runSequential oracle count indices st))
                <= accounted st + length indices)%nat.
Proof.
  induction indices as [|i rest IH]; intros st; cbn [runSequential length]; [cbn; lia|].
  destruct (signal st) eqn:Hsig; [cbn; lia|].
  destruct (sceneStart_keeps (i + 1) st) as [Hacc _].
  destruct (sceneStart (i + 1) st) as [task st1]. cbn [snd] in Hacc.
  pose proof (settle_bound oracle task (trip (abortDuringScene oracle (i + 1)) st1)) as [Hb _].
  rewrite trip_keeps in Hb.
  destruct (settle oracle task (trip (abortDuringScene oracle (i + 1)) st1)) as [[s|message] st2];
    cbn [snd] in *; [|lia].
  match goal with |- context [runSequential oracle count rest ?x] => specialize (IH x) end.
  destruct ((i <? count - 1)%nat && negb (signal st2)); rewrite ?trip_keeps in IH; lia.
Qed.

(** In a run that nobody aborts every closure is run and none rejects. *)
Lemma runSequential_quiet (oracle : Oracle) (count : nat) (indices : list nat) :
  quiet oracle ->
  forall st, signal st = false ->
  exists st',
    runSequential oracle count indices st = (Return tt, st') /\
    accounted st' = (accounted st + length indices)%nat /\ signal st' = false.
Proof.
  intros (Hord & Hscene & Hdelay & _).
  induction indices as [|i rest IH]; intros st Hsig; cbn [runSequential length].
  - exists st. split; [reflexivity|]. split; [lia|exact Hsig].
  - rewrite Hsig. unfold sceneStart. rewrite Hsig, Hscene. cbn [settle].
    match goal with |- context [sceneFinish ?i ?o ?s] =>
      destruct (sceneFinish_ordinary i o s (Hord _)) as (sd & st2 & -> & Hacc & Hsig2)
    end.
    { reflexivity. }
    rewrite Hsig2, Hdelay. cbn [negb].
    destruct (IH (if (i <? count - 1)%nat && true then trip false st2 else st2))
      as (st' & Hrun & Hacc' & Hsig').
    { destruct (i <? count - 1)%nat; cbn; rewrite ?Hsig2; reflexivity. }
    exists st'. split; [exact Hrun|]. split; [|exact Hsig'].
    rewrite Hacc'.
    replace (accounted (if (i <? count - 1)%nat && true then trip false st2 else st2))
      with (accounted st2) by (destruct (i <? count - 1)%nat; reflexivity).
    rewrite Hacc. unfold accounted. cbn. lia.
Qed.

Lemma settleOne_position (p : Pool) (pk : nat) :
  running p <> [] -> is_Some (running p !! (pk mod length (running p))%nat).
Proof.
  intros Hne. apply lookup_lt_is_Some. apply Nat.mod_upper_bound.
  destruct (running p); [contradiction|cbn; lia].
Qed.

Lemma length_without {A : Type} (l : list A) (i : nat) :
  (i < length l)%nat -> S (length (take i l ++ drop (S i) l)) = length l.
Proof. intros Hi. rewrite length_app, length_take, length_drop. lia. Qed.

(** Settling a task never raises the number of slots in flight. *)
Lemma settleOne_bound (oracle : Oracle) (p : Pool) :
  (inFlight (settleOne oracle p) <= inFlight p)%nat.
Proof.
  unfold settleOne.
  set (tick := match ticks p with t :: _ => t | [] => _ end).
  destruct (running p !! (pick tick mod length (running p))%nat) as [[index task]|] eqn:E;
    [|lia].
  pose proof (settle_bound oracle task (trip (abortFires tick) (run p))) as [Hb _].
  rewrite trip_keeps in Hb.
  destruct (settle oracle task (trip (abortFires tick) (run p))) as [settled st].
  cbn [snd] in Hb. unfold inFlight. cbn [run running].
  apply lookup_lt_Some in E. pose proof (length_without (running p) _ E). lia.
Qed.

Lemma settleOne_running (oracle : Oracle) (p : Pool) :
  running p <> [] -> S (length (running (settleOne oracle p))) = length (running p).
Proof.
  intros Hne. unfold settleOne.
  set (tick := match ticks p with t :: _ => t | [] => _ end).
  destruct (settleOne_position p (pick tick) Hne) as [[index task] E]. rewrite E.
  destruct (settle oracle task (trip (abortFires tick) (run p))) as [settled st].
  cbn [running]. apply length_without. apply lookup_lt_Some in E. exact E.
Qed.

Lemma settleOne_quiet (oracle : Oracle) (p : Pool) :
  (forall i, ordinary (outcomeOf oracle i)) ->
  quietPool p -> running p <> [] ->
  inFlight (settleOne oracle p) = inFlight p /\ quietPool (settleOne oracle p).
Proof.
  intros Hord (Hsig & Hticks & Hpend) Hne. unfold settleOne.
  set (tick := match ticks p with t :: _ => t | [] => _ end).
  assert (Hfire : abortFires tick = false).
  { subst tick. destruct (ticks p) as [|t ts]; [reflexivity|]. inversion Hticks; assumption. }
  destruct (settleOne_position p (pick tick) Hne) as [[index task] E]. rewrite E, Hfire.
  assert (Htask : isPending (index, task)).
  { eapply Forall_lookup_1 in Hpend; [exact Hpend|exact E]. }
  destruct task as [i|i]; [|contradiction]. cbn [settle].
  destruct (sceneFinish_ordinary i (outcomeOf oracle i) (trip false (run p)) (Hord i))
    as (sd & st' & -> & Hacc & Hsig').
  { cbn. rewrite Hsig. reflexivity. }
  rewrite trip_keeps in Hacc.
  apply lookup_lt_Some in E. pose proof (length_without (running p) _ E) as Hlen.
  split.
  - unfold inFlight. cbn [run running]. lia.
  - unfold quietPool. cbn [run ticks running]. split; [exact Hsig'|]. split.
    + destruct (ticks p); [constructor|]. inversion Hticks; assumption.
    + apply Forall_app. split; [apply Forall_take | apply Forall_drop]; exact Hpend.
Qed.

Lemma settleOne_empty (oracle : Oracle) (p : Pool) :
  running p = [] -> settleOne oracle p = p.
Proof. intros H. unfold settleOne. rewrite H. reflexivity. Qed.

Lemma settleAll_bound (oracle : Oracle) (fuel : nat) :
  forall p, (inFlight (settleAll oracle fuel p) <= inFlight p)%nat.
Proof.
  induction fuel as [|fuel IH]; intros p; cbn [settleAll]; [lia|].
  specialize (IH (settleOne oracle p)). pose proof (settleOne_bound oracle p). lia.
Qed.

(** Any number of settlements keeps a quiet controller quiet and the
    slots in flight unchanged. *)
Lemma settleAll_keeps (oracle : Oracle) (fuel : nat) :
  (forall i, ordinary (outcomeOf oracle i)) ->
  forall p, quietPool p ->
  inFlight (settleAll oracle fuel p) = inFlight p /\
  quietPool (settleAll oracle fuel p) /\
  (length (running (settleAll oracle fuel p)) <= length (running p))%nat.
Proof.
  intros Hord. induction fuel as [|fuel IH]; intros p Hq; cbn [settleAll]; [auto|].
  destruct (running p) as [|entry others] eqn:Hrun.
  - rewrite (settleOne_empty oracle p Hrun). destruct (IH p Hq) as (H1 & H2 & H3).
    rewrite Hrun in H3. auto.
  - assert (Hne : running p <> []) by (rewrite Hrun; discriminate).
    destruct (settleOne_quiet oracle p Hord Hq Hne) as [Hin Hq'].
    pose proof (settleOne_running oracle p Hne) as Hlen. rewrite Hrun in Hlen.
    destruct (IH (settleOne oracle p) Hq') as (H1 & H2 & H3).
    split; [lia|]. split; [exact H2|]. cbn [length] in *. lia.
Qed.

Lemma waitForSlot_bound (oracle : Oracle) (maxParallel fuel : nat) :
  forall p p', waitForSlot oracle maxParallel fuel p = Some p' ->
               (inFlight p' <= inFlight p)%nat.
Proof.
  induction fuel as [|fuel IH]; intros p p'; cbn [waitForSlot];
    (destruct (length (running p) <? maxParallel)%nat; [intros [= <-]; lia|]);
    (destruct (signal (run p)); [intros [= <-]; lia|]).
  - discriminate.
  - intros H. apply IH in H. pose proof (settleOne_bound oracle p).
    match type of H with (_ <= inFlight (settleAll oracle ?n ?q))%nat =>
      pose proof (settleAll_bound oracle n q)
    end. lia.
Qed.

Lemma waitForSlot_quiet (oracle : Oracle) (maxParallel fuel : nat) :
  (forall i, ordinary (outcomeOf oracle i)) -> (1 <= maxParallel)%nat ->
  forall p, quietPool p -> (length (running p) <= fuel)%nat ->
  exists p', waitForSlot oracle maxParallel fuel p = Some p' /\
             inFlight p' = inFlight p /\ quietPool p'.
Proof.
  intros Hord Hmax. induction fuel as [|fuel IH]; intros p Hq Hlen; cbn [waitForSlot].
  - replace (length (running p) <? maxParallel)%nat with true
      by (symmetry; apply Nat.ltb_lt; lia).
    exists p. auto.
  - destruct (length (running p) <? maxParallel)%nat eqn:E; [exists p; auto|].
    destruct Hq as (Hsig & Hrest). rewrite Hsig.
    assert (Hne : running p <> []).
    { apply Nat.ltb_ge in E. destruct (running p); [cbn in E; lia|discriminate]. }
    destruct (settleOne_quiet oracle p Hord (conj Hsig Hrest) Hne) as [Hin Hq'].
    pose proof (settleOne_running oracle p Hne) as Hrun.
    set (more := match ticks p with t :: _ => batch t | [] => O end).
    destruct (settleAll_keeps oracle more Hord (settleOne oracle p) Hq') as (Hin2 & Hq2 & Hlen2).
    destruct (IH (settleAll oracle more (settleOne oracle p)) Hq2 ltac:(lia))
      as (p' & -> & Hin' & Hq'').
    exists p'. split; [reflexivity|]. split; [lia|exact Hq''].
Qed.

Lemma spawn_bound (oracle : Oracle) (maxParallel : nat) (indices : list nat) :
  forall p p', spawn oracle maxParallel indices p = Some p' ->
               (inFlight p' <= inFlight p + length indices)%nat.
Proof.
  induction indices as [|i rest IH]; intros p p'; cbn [spawn length].
  - intros [= <-]. lia.
  - destruct (signal (run p)); [intros [= <-]; unfold inFlight; cbn; lia|].
    destruct (waitForSlot oracle maxParallel (length (running p)) p) as [p1|] eqn:Hw;
      [|discriminate].
    apply waitForSlot_bound in Hw.
    destruct (signal (run p1)); [intros [= <-]; lia|].
    destruct (sceneStart_keeps (i + 1) (run p1)) as [Hacc _].
    destruct (sceneStart (i + 1) (run p1)) as [task st]. cbn [snd] in Hacc.
    intros H. apply IH in H. unfold inFlight in *. cbn [run running] in H.
    rewrite length_app in H. cbn [length] in H. lia.
Qed.

Lemma spawn_quiet (oracle : Oracle) (maxParallel : nat) (indices : list nat) :
  (forall i, ordinary (outcomeOf oracle i)) -> (1 <= maxParallel)%nat ->
  forall p, quietPool p ->
  exists p', spawn oracle maxParallel indices p = Some p' /\
             inFlight p' = (inFlight p + length indices)%nat /\ quietPool p'.
Proof.
  intros Hord Hmax. induction indices as [|i rest IH]; intros p Hq; cbn [spawn length].
  - exists p. split; [reflexivity|]. split; [lia|exact Hq].
  - pose proof Hq as (Hsig & _). rewrite Hsig.
    destruct (waitForSlot_quiet oracle maxParallel (length (running p)) Hord Hmax p Hq
                ltac:(lia)) as (p1 & -> & Hin & Hq1).
    destruct Hq1 as (Hsig1 & Hticks1 & Hpend1). rewrite Hsig1.
    unfold sceneStart. rewrite Hsig1.
    match goal with |- context [spawn oracle maxParallel rest ?x] =>
      destruct (IH x) as (p' & -> & Hin' & Hq')
    end.
    { unfold quietPool. cbn [run ticks running]. split; [reflexivity|]. split; [exact Hticks1|].
      apply Forall_app. split; [exact Hpend1|]. repeat constructor. }
    exists p'. split; [reflexivity|]. split; [|exact Hq'].
    rewrite Hin'. unfold inFlight in *. cbn [run running].
    rewrite length_app. cbn [length]. unfold accounted in *. cbn [scenes failedScenes]. lia.
Qed.

Lemma settleAll_quiet (oracle : Oracle) (fuel : nat) :
  (forall i, ordinary (outcomeOf oracle i)) ->
  forall p, quietPool p -> length (running p) = fuel ->
  accounted (run (settleAll oracle fuel p)) = inFlight p /\
  signal (run (settleAll oracle fuel p)) = false.
Proof.
  intros Hord. induction fuel as [|fuel IH]; intros p Hq Hlen; cbn [settleAll].
  - unfold inFlight. rewrite Hlen. destruct Hq as (Hsig & _). split; [lia|exact Hsig].
  - assert (Hne : running p <> []) by (destruct (running p); [discriminate Hlen|discriminate]).
    destruct (settleOne_quiet oracle p Hord Hq Hne) as [Hin Hq'].
    pose proof (settleOne_running oracle p Hne) as Hrun.
    destruct (IH (settleOne oracle p) Hq' ltac:(lia)) as [Hacc Hsig].
    split; [lia|exact Hsig].
Qed.

(** The concurrency controller reports at most one slot per closure. *)
Lemma processScenesInParallel_bound (oracle : Oracle) (count maxParallel : nat)
    (st st' : Run) (array : list SceneData) :
  processScenesInParallel oracle count maxParallel st = Some (array, st') ->
  (accounted st' <= accounted st + count)%nat.
Proof.
  unfold processScenesInParallel.
  destruct (spawn oracle maxParallel (seq 0 count) _) as [p|] eqn:Hs; [|discriminate].
  apply spawn_bound in Hs. rewrite length_seq in Hs.
  unfold inFlight in Hs at 2. cbn [run running length] in Hs.
  intros [= _ <-].
  destruct (signal (run p)).
  - unfold inFlight in Hs. lia.
  - pose proof (settleAll_bound oracle (length (running p)) p) as Ha.
    unfold inFlight at 1 in Ha. lia.
Qed.

(** When nobody aborts it returns, with every closure run to its end. *)
Lemma processScenesInParallel_quiet (oracle : Oracle) (count maxParallel : nat) (st : Run) :
  quiet oracle -> (1 <= maxParallel)%nat -> signal st = false ->
  exists array st',
    processScenesInParallel oracle count maxParallel st = Some (array, st') /\
    accounted st' = (accounted st + count)%nat /\ signal st' = false.
Proof.
  intros (Hord & _ & _ & Hticks) Hmax Hsig. unfold processScenesInParallel.
  match goal with |- context [spawn oracle maxParallel (seq 0 count) ?x] =>
    destruct (spawn_quiet oracle maxParallel (seq 0 count) Hord Hmax x)
      as (p & -> & Hin & Hq)
  end.
  { unfold quietPool. cbn [run ticks running]. split; [exact Hsig|]. split; [exact Hticks|].
    constructor. }
  rewrite length_seq in Hin. unfold inFlight in Hin at 2. cbn [run running length] in Hin.
  pose proof Hq as (Hsigp & _). rewrite Hsigp.
  destruct (settleAll_quiet oracle (length (running p)) Hord p Hq eq_refl) as [Hacc Hsig'].
  eexists _, _. split; [reflexivity|]. split; [lia|exact Hsig'].
Qed.

Lemma drive_bound (oracle : Oracle) (parallel : bool) (count : nat) (st st' : Run) :
  drive oracle parallel count st = Some (Return tt, st') ->
  (accounted st' <= accounted st + count)%nat.
Proof.
  unfold drive. intros H.
  assert (Hseq : Some (runSequential oracle count (seq 0 count) st) = Some (Return tt, st') ->
                 (accounted st' <= accounted st + count)%nat).
  { intros [= Hr]. pose proof (runSequential_bound oracle count (seq 0 count) st) as Hb.
    rewrite Hr, length_seq in Hb. exact Hb. }
  destruct (parallel && (1 <? count)%nat); [|auto].
  destruct (2 <? count)%nat; [auto|].
  destruct (processScenesInParallel oracle count MAX_PARALLEL_SCENES st) as [[array st'']|] eqn:E;
    [|discriminate].
  injection H as <-. eapply processScenesInParallel_bound. exact E.
Qed.

Lemma drive_quiet (oracle : Oracle) (parallel : bool) (count : nat) (st : Run) :
  quiet oracle -> signal st = false ->
  exists st', drive oracle parallel count st = Some (Return tt, st') /\
              accounted st' = (accounted st + count)%nat.
Proof.
  intros Hq Hsig. unfold drive.
  assert (Hseq : exists st', Some (runSequential oracle count (seq 0 count) st)
                             = Some (Return tt, st') /\
                             accounted st' = (accounted st + count)%nat).
  { destruct (runSequential_quiet oracle count (seq 0 count) Hq st Hsig) as (st' & -> & Ha & _).
    rewrite length_seq in Ha. eauto. }
  destruct (parallel && (1 <? count)%nat); [|exact Hseq].
  destruct (2 <? count)%nat; [exact Hseq|].
  destruct (processScenesInParallel_quiet oracle count MAX_PARALLEL_SCENES st Hq
              ltac:(unfold MAX_PARALLEL_SCENES; lia) Hsig) as (array & st' & -> & Ha & _).
  eauto.
Qed.

Lemma smooth_quiet : quiet smooth.
Proof.
  split; [|split; [|split]]; try (intros i; reflexivity).
  - intros i. cbn. discriminate.
  - repeat constructor.
Qed.

End SceneSlots.

Section SceneCount.
Import Double.

Lemma Qabs_cases (t : Q) : (0 <= t /\ Qabs t == t)%Q \/ (t < 0 /\ Qabs t == - t)%Q.
Proof.
  destruct (Qlt_le_dec t 0) as [H|H].
  - right. split; [exact H|]. apply Qabs_neg. lra.
  - left. split; [exact H|]. apply Qabs_pos. exact H.
Qed.

Lemma Qred_idem (q : Q) : Qred (Qred q) = Qred q.
Proof. apply Qred_complete, Qred_correct. Qed.

Lemma abs_neg (a : number) : abs (neg a) = abs a.
Proof.
  destruct a as [x| | |]; cbn [neg abs]; try reflexivity.
  f_equal. apply Qred_complete. rewrite Qred_correct. apply Qabs_opp.
Qed.

Lemma abs_round64_nonneg (s : Q) : (0 <= s)%Q -> abs (round64 s) = round64 s.
Proof.
  intros Hs. unfold round64.
  destruct (Qcompare_spec s 0) as [E|E|E]; [reflexivity|exfalso; lra|].
  pose proof (roundPos_nonneg s E) as Hr.
  destruct (Qle_bool (pow2 1024) (roundPos s)); [reflexivity|].
  cbn [abs]. f_equal. rewrite <- (Qred_idem (roundPos s)) at 2.
  apply Qred_complete. apply Qabs_pos. rewrite Qred_correct. exact Hr.
Qed.

Lemma abs_round64 (s : Q) : abs (round64 s) = round64 (Qabs s).
Proof.
  destruct (Qabs_cases s) as [[H E]|[H E]].
  - rewrite (round64_comp _ _ E). apply abs_round64_nonneg. exact H.
  - rewrite (round64_comp _ _ E), <- (abs_round64_nonneg (- s)) by lra.
    rewrite round64_opp. symmetry. apply abs_neg.
Qed.

Lemma distance_finite (a x : Q) :
  distance (Finite a) (Finite x) = round64 (Qabs (a - x)).
Proof.
  unfold distance, sub. cbn [neg add]. rewrite abs_round64.
  apply round64_comp. rewrite Qred_correct. reflexivity.
Qed.

(** A duration that is no nearer is not taken. *)
Lemma closer_keeps (prev curr x : Q) :
  (Qabs (prev - x) <= Qabs (curr - x))%Q ->
  closer (Finite x) (Finite prev) (Finite curr) = Finite prev.
Proof.
  intros H. unfold closer. rewrite !distance_finite.
  pose proof (leb_not_gtb _ _ (round64_mono _ _ H)) as Hn. unfold gtb in Hn.
  rewrite Hn. reflexivity.
Qed.

(** A duration that a double separates from the one held is taken. *)
Lemma closer_takes (prev curr x u v : Q) :
  (Qabs (curr - x) <= u)%Q -> round64 u = Finite u -> (u < v)%Q ->
  round64 v = Finite v -> (v <= Qabs (prev - x))%Q ->
  closer (Finite x) (Finite prev) (Finite curr) = Finite curr.
Proof.
  intros H1 Hu Huv Hv H2. unfold closer. rewrite !distance_finite.
  rewrite (round64_separated _ _ u v H1 Hu Huv Hv H2). reflexivity.
Qed.

Lemma closer_takes_two_apart (prev curr x : Q) :
  (Qabs (curr - x) + 2 <= Qabs (prev - x))%Q -> (Qabs (prev - x) <= inject_Z (2 ^ 53))%Q ->
  closer (Finite x) (Finite prev) (Finite curr) = Finite curr.
Proof.
  intros H1 H2. unfold closer. rewrite !distance_finite.
  rewrite (round64_two_apart _ _ (Qabs_nonneg _) H1 H2). reflexivity.
Qed.

Ltac abs_cases :=
  repeat match goal with
         | |- context [Qabs ?t] =>
             let H := fresh in let E := fresh in
             destruct (Qabs_cases t) as [[H E]|[H E]]; rewrite E in *
         end.

(** What the reduce of [createMovie] makes of a requested duration on
    the permitted durations 4, 6 and 8. *)
Lemma veo_snap (d : number) :
  let r := closestAllowed veoDurations d in
  (exists d', r = Some d' /\ d' ∈ veoDurations) /\
  (d = NaN \/ leb d (Finite 5) = true -> r = Some (Finite 4)) /\
  (representable d -> ltb (Finite 5) d = true -> leb d (Finite 7) = true ->
   r = Some (Finite 6)) /\
  (representable d -> ltb (Finite 7) d = true -> leb d (Finite (inject_Z (2 ^ 53))) = true ->
   r = Some (Finite 8)).
Proof.
  cbn zeta. unfold veoDurations, closestAllowed. cbn [foldl]. split; [|split; [|split]].
  - eexists. split; [reflexivity|]. unfold closer.
    destruct (ltb (distance (Finite 6) d) (distance (Finite 4) d));
      match goal with |- context [if ?b then _ else _] => destruct b end;
      set_solver.
  - intros [->|Hle]; [reflexivity|].
    destruct d as [q| | |]; try discriminate; [|reflexivity].
    apply leb_finite in Hle.
    rewrite (closer_keeps 4 6 q) by (abs_cases; lra).
    rewrite (closer_keeps 4 8 q) by (abs_cases; lra). reflexivity.
  - intros Hrep H5 H7. destruct d as [q| | |]; try discriminate.
    cbn [representable] in Hrep. apply ltb_finite in H5. apply leb_finite in H7.
    pose proof (representable_above_five q Hrep H5) as Hnext.
    rewrite (closer_takes 4 6 q 1 (1125899906842625 # 1125899906842624));
      [|abs_cases; lra|vm_compute; reflexivity|reflexivity|vm_compute; reflexivity
       |abs_cases; lra].
    rewrite (closer_keeps 6 8 q) by (abs_cases; lra). reflexivity.
  - intros Hrep H7 Hmax. destruct d as [q| | |]; try discriminate.
    cbn [representable] in Hrep. apply ltb_finite in H7. apply leb_finite in Hmax.
    rewrite (closer_takes_two_apart 4 6 q) by (abs_cases; lra).
    destruct (Qlt_le_dec q 8) as [H8|H8].
    + pose proof (representable_next q (7 * 2 ^ 50) Hrep ltac:(lra)) as Hn.
      change (inject_Z (7 * 2 ^ 50)) with (7881299347898368 # 1)%Q in Hn.
      change (inject_Z (7 * 2 ^ 50 + 1)) with (7881299347898369 # 1)%Q in Hn.
      assert (Hnext := Hn ltac:(lra) ltac:(lra)).
      rewrite (closer_takes 6 8 q 1 (1125899906842625 # 1125899906842624));
        [reflexivity|abs_cases; lra|vm_compute; reflexivity|reflexivity
        |vm_compute; reflexivity|abs_cases; lra].
    + rewrite (closer_takes_two_apart 6 8 q) by (abs_cases; lra). reflexivity.
Qed.

(** Only google/veo-3.1-fast lists permitted durations. *)
Lemma selectedAllowed_cases (req : Request) :
  (selectedAllowed req = Some veoDurations /\ selectedModelName req = "google/veo-3.1-fast"%string) \/
  (selectedAllowed req = None /\ selectedModelName req <> "google/veo-3.1-fast"%string).
Proof.
  unfold selectedAllowed, Video.VIDEO_MODELS.
  destruct (decide (selectedModelName req = "google/veo-3.1-fast")) as [E|E];
    [left; split; [reflexivity|exact E]|].
  right. split; [|exact E].
  repeat match goal with |- context [decide ?P] => destruct (decide P) end; reflexivity.
Qed.

(** An estimate within the budget was made from a scene count that is a
    number. *)
Lemma within_budget_quotient (total duration : number) (modelName openaiModel : string) :
  isWithinBudget (calculateEstimatedCost total duration modelName openaiModel) = true ->
  div total duration <> NaN.
Proof.
  intros H E. unfold isWithinBudget, calculateEstimatedCost in H. cbn [Double.total] in H.
  rewrite E in H. cbn in H. discriminate.
Qed.

(** The scene count that passes the loop building the closures. *)
Lemma sceneCount_closures (total duration : number) (count : nat) :
  div total duration <> NaN ->
  closures (sceneCount total duration) = Some count ->
  1 <= Z.of_nat count <= MAX_ARRAY_LENGTH /\
  sceneCount total duration = Finite (inject_Z (Z.of_nat count)) /\
  match div total duration with
  | Finite y => Z.of_nat count = Z.max 1 (Qceiling y)
  | NegInf => count = 1%nat
  | _ => False
  end.
Proof.
  intros Hnan. unfold sceneCount.
  destruct (div total duration) as [y| | |]; [| | |contradiction].
  - cbn [ceil fmax leb].
    assert (Hmax : (if Qle_bool 1 (inject_Z (Qceiling y))
                    then Finite (inject_Z (Qceiling y)) else Finite 1)
                   = Finite (inject_Z (Z.max 1 (Qceiling y)))).
    { destruct (Qle_bool 1 (inject_Z (Qceiling y))) eqn:B.
      - apply Qle_bool_iff in B. change 1%Q with (inject_Z 1) in B.
        rewrite <- Zle_Qle in B. rewrite Z.max_r by exact B. reflexivity.
      - apply Qle_bool_false in B. change 1%Q with (inject_Z 1) in B.
        rewrite <- Zlt_Qlt in B. rewrite Z.max_l by lia. reflexivity. }
    rewrite Hmax. cbn [closures]. rewrite Qfloor_Z.
    destruct (Z.max 1 (Qceiling y) <=? MAX_ARRAY_LENGTH) eqn:B; [|discriminate].
    intros [= <-]. apply Z.leb_le in B. rewrite Z2Nat.id by lia.
    split; [lia|]. split; reflexivity.
  - cbn. discriminate.
  - intros H. vm_compute in H. injection H as <-.
    unfold MAX_ARRAY_LENGTH. split; [lia|]. split; reflexivity.
Qed.

(** How far the ceiling of the double quotient is from the ceiling of
    the exact one. *)
Lemma ceiling_of_rounded (x y : Q) :
  round64 x = Finite y ->
  ((x <= inject_Z (2 ^ 53))%Q ->
   Z.max 1 (Qceiling x) - 1 <= Z.max 1 (Qceiling y) <= Z.max 1 (Qceiling x)) /\
  (round64 x = Finite (Qred x) -> Z.max 1 (Qceiling y) = Z.max 1 (Qceiling x)).
Proof.
  intros Hy. split.
  - intros Hmax.
    assert (Hup : forall n : Z, Z.abs n <= 2 ^ 53 -> (x <= inject_Z n)%Q -> Qceiling y <= n).
    { intros n Hn Hx. pose proof (round64_mono _ _ Hx) as Hm.
      rewrite Hy, (round64_int n Hn) in Hm. apply leb_finite in Hm.
      rewrite <- (Qceiling_Z n). apply Qceiling_resp_le. exact Hm. }
    assert (Hlow : forall n : Z, Z.abs n <= 2 ^ 53 -> (inject_Z n <= x)%Q -> n <= Qceiling y).
    { intros n Hn Hx. pose proof (round64_mono _ _ Hx) as Hm.
      rewrite Hy, (round64_int n Hn) in Hm. apply leb_finite in Hm.
      rewrite <- (Qceiling_Z n). apply Qceiling_resp_le. exact Hm. }
    pose proof (Qle_ceiling x) as Hc.
    assert (Hc' : (inject_Z (Qceiling x - 1) < x)%Q) by apply Qceiling_lt.
    assert (Hn : Qceiling x <= 2 ^ 53).
    { rewrite <- (Qceiling_Z (2 ^ 53)). apply Qceiling_resp_le. exact Hmax. }
    destruct (Z_le_gt_dec (Qceiling x) 1) as [Hsmall|Hbig].
    + assert (Qceiling y <= 1).
      { apply Hup; [lia|]. apply Qle_trans with (inject_Z (Qceiling x)); [exact Hc|].
        rewrite <- Zle_Qle. exact Hsmall. }
      lia.
    + pose proof (Hup (Qceiling x) ltac:(lia) Hc).
      pose proof (Hlow (Qceiling x - 1) ltac:(lia) ltac:(apply Qlt_le_weak; exact Hc')).
      lia.
  - intros Hexact. rewrite Hy in Hexact. injection Hexact as ->.
    rewrite (Qceiling_comp _ _ (Qred_correct x)). reflexivity.
Qed.

Lemma count_of_rounded (x : Q) (k : Z) :
  match round64 x with
  | Finite y => k = Z.max 1 (Qceiling y)
  | NegInf => k = 1
  | _ => False
  end ->
  ((x <= inject_Z (2 ^ 53))%Q -> Z.max 1 (Qceiling x) - 1 <= k <= Z.max 1 (Qceiling x)) /\
  (round64 x = Finite (Qred x) -> k = Z.max 1 (Qceiling x)).
Proof.
  destruct (round64 x) as [y| | |] eqn:Ey; try contradiction; intros ->.
  - pose proof (ceiling_of_rounded _ _ Ey) as Hc. rewrite Ey in Hc. exact Hc.
  - split; [intros _|discriminate].
    assert (Hneg : (x <= 0)%Q).
    { destruct (Qlt_le_dec 0 x) as [Hpos|Hle]; [|exact Hle].
      pose proof (round64_mono 0 x ltac:(lra)) as Hm. rewrite Ey in Hm. discriminate. }
    pose proof (Qceiling_resp_le _ _ Hneg) as Hc. change 0%Q with (inject_Z 0) in Hc.
    rewrite Qceiling_Z in Hc. lia.
Qed.

(** C1 as stated fails: with the default backend the requested ten
    seconds per scene become eight, and two minutes give fifteen scenes
    where [ceil(120 / 10)] is twelve (the quotient of the two doubles
    is the double 12). *)
Lemma scene_count_from_requested_duration_refuted :
  exists res,
    createMovie twoMinutes Movie.smooth false fresh = Some (Returns res) /\
    totalScenes res = Finite 15 /\
    (successfulScenes res + failedScenesCount res)%nat = 15%nat /\
    div (totalDurationSeconds twoMinutes) (sceneDuration twoMinutes) = Finite 12 /\
    Z.max 1 (Qceiling (120 / 10)) = 12 /\
    totalScenes res <> Finite (inject_Z (Z.max 1 (Qceiling (120 / 10)))).
Proof.
  eexists. split; [vm_compute; reflexivity|]. cbn [totalScenes successfulScenes failedScenesCount].
  repeat split; try (vm_compute; reflexivity). vm_compute. discriminate.
Qed.

(** C1, amended. The scene count is [max(1, ceil(T / d'))], the
    division being that of JavaScript, where [d'] is the scene duration
    that [createMovie] computes.  When the first backend of the chain
    lists no permitted durations, [d'] is 10 if [T] is 30 and the
    requested [d] otherwise.  When it lists them (google/veo-3.1-fast
    does: 4, 6 and 8), [d'] is 6 if [T] is 30, and otherwise, [d]
    being a double, 4 for [d] up to 5 or [NaN], 6 for [d] above 5 up
    to 7, 8 for [d] above 7 up to [2^53], and one of 4, 6 and 8
    beyond.  The count lies between 1 and [2^32 - 1]; it is the one of
    the exact quotient when that quotient is a double, and for a
    quotient up to [2^53] it is otherwise that or one less.  The result
    reports the count as [totalScenes], and reports at most that many
    scenes as successful or failed.  In a run that nobody aborts
    [createMovie] either rejects the call before any scene starts or
    returns a result in which successful plus failed scenes are
    exactly the scene count. *)
Theorem createMovie_scene_slots
    (req : Request) (oracle : Movie.Oracle) (signalAtStart : bool) (bm : BudgetManager) :
  let T := totalDurationSeconds req in
  let d := sceneDuration req in
  (forall res,
     createMovie req oracle signalAtStart bm = Some (Returns res) ->
     exists d' k,
       calculatedSceneDuration req = Some d' /\
       (selectedModelName req <> "google/veo-3.1-fast"%string ->
        d' = if eqb T (Finite 30) then Finite 10 else d) /\
       (selectedModelName req = "google/veo-3.1-fast"%string ->
        d' ∈ veoDurations /\
        (eqb T (Finite 30) = true -> d' = Finite 6) /\
        (eqb T (Finite 30) = false ->
         (d = NaN \/ leb d (Finite 5) = true -> d' = Finite 4) /\
         (representable d -> ltb (Finite 5) d = true -> leb d (Finite 7) = true ->
          d' = Finite 6) /\
         (representable d -> ltb (Finite 7) d = true ->
          leb d (Finite (inject_Z (2 ^ 53))) = true -> d' = Finite 8))) /\
       1 <= k <= MAX_ARRAY_LENGTH /\
       sceneCount T d' = Finite (inject_Z k) /\
       match div T d' with
       | Finite y => k = Z.max 1 (Qceiling y)
       | NegInf => k = 1
       | _ => False
       end /\
       (forall t q, T = Finite t -> d' = Finite q -> ~ (q == 0)%Q ->
        ((t / q <= inject_Z (2 ^ 53))%Q ->
         Z.max 1 (Qceiling (t / q)) - 1 <= k <= Z.max 1 (Qceiling (t / q))) /\
        (round64 (t / q) = Finite (Qred (t / q)) -> k = Z.max 1 (Qceiling (t / q)))) /\
       totalScenes res = Finite (inject_Z k) /\
       Z.of_nat (successfulScenes res + failedScenesCount res) <= k) /\
  (Movie.quiet oracle -> signalAtStart = false ->
     match createMovie req oracle signalAtStart bm with
     | None => False
     | Some (Throws e) => preflight e
     | Some (Returns res) =>
         totalScenes res =
           Finite (inject_Z (Z.of_nat (successfulScenes res + failedScenesCount res)))
     end).
Proof.
  cbn zeta. unfold createMovie.
  destruct (String.length (Js.trim (baseStoryPrompt req)) <? 10)%nat;
    [split; [discriminate | intros _ _; exact I]|].
  destruct (length (characterIds req) =? 0)%nat;
    [split; [discriminate | intros _ _; exact I]|].
  destruct (gtb (totalDurationSeconds req) (Finite Video.MAX_TOTAL_DURATION));
    [split; [discriminate | intros _ _; exact I]|].
  destruct (calculatedSceneDuration req) as [d'|] eqn:Hd;
    [|split; [discriminate | intros _ _; exact I]].
  destruct (isWithinBudget (calculateEstimatedCost (totalDurationSeconds req) d'
              (selectedModelName req) (openaiModel req))) eqn:Hwithin; cbn [negb];
    [|split; [discriminate | intros _ _; exact I]].
  destruct (ltb (remaining (getBudgetStatus bm)) _);
    [split; [discriminate | intros _ _; exact I]|].
  pose proof (within_budget_quotient _ _ _ _ Hwithin) as Hnan.
  destruct (closures (sceneCount (totalDurationSeconds req) d')) as [count|] eqn:Hcl;
    [|split; [discriminate | intros _ _; exact I]].
  destruct (sceneCount_closures _ _ _ Hnan Hcl) as (Hrange & Hcount & Hquot).
  split.
  - intros res Hres.
    destruct (Movie.drive oracle (enableParallel req) count
                (Movie.trip signalAtStart Movie.start)) as [[[[]|message] st]|] eqn:Hdrive;
      try discriminate.
    injection Hres as <-. exists d', (Z.of_nat count).
    split; [reflexivity|].
    unfold calculatedSceneDuration in Hd.
    destruct (selectedAllowed_cases req) as [[Hsel Hname]|[Hsel Hname]]; rewrite Hsel in Hd.
    + split; [intros Hne; contradiction|]. split.
      { intros _. pose proof (veo_snap (if eqb (totalDurationSeconds req) (Finite 30)
                                         then Finite 6 else sceneDuration req))
          as (Hmem & H4 & H6 & H8).
        cbn zeta in *. rewrite Hd in *.
        split; [destruct Hmem as (x & [= <-] & Hin); exact Hin|]. split.
        - intros E. rewrite E in *.
          specialize (H6 ltac:(vm_compute; reflexivity) eq_refl eq_refl). congruence.
        - intros E. rewrite E in *. split; [|split].
          + intros H. specialize (H4 H). congruence.
          + intros Hr Ha Hb. specialize (H6 Hr Ha Hb). congruence.
          + intros Hr Ha Hb. specialize (H8 Hr Ha Hb). congruence. }
      split; [exact Hrange|]. split; [exact Hcount|]. split.
      { destruct (div (totalDurationSeconds req) d') as [y| | |]; try contradiction;
          [exact Hquot|rewrite Hquot; reflexivity]. }
      split.
      { intros t q HT Hq Hnz. rewrite HT, Hq in Hquot. cbn [div] in Hquot.
        destruct (Qeq_bool q 0) eqn:Ez; [apply Qeq_bool_iff in Ez; contradiction|].
        apply count_of_rounded. destruct (round64 (t / q)); try contradiction;
          [exact Hquot|rewrite Hquot; reflexivity]. }
      split; [exact Hcount|].
      apply drive_bound in Hdrive.
      cbn [assemble successfulScenes failedScenesCount].
      unfold Movie.accounted in Hdrive. cbn in Hdrive. lia.
    + injection Hd as Hd.
      split; [intros _; symmetry; exact Hd|]. split; [intros Hn; contradiction|].
      split; [exact Hrange|]. split; [exact Hcount|]. split.
      { destruct (div (totalDurationSeconds req) d') as [y| | |]; try contradiction;
          [exact Hquot|rewrite Hquot; reflexivity]. }
      split.
      { intros t q HT Hq Hnz. rewrite HT, Hq in Hquot. cbn [div] in Hquot.
        destruct (Qeq_bool q 0) eqn:Ez; [apply Qeq_bool_iff in Ez; contradiction|].
        apply count_of_rounded. destruct (round64 (t / q)); try contradiction;
          [exact Hquot|rewrite Hquot; reflexivity]. }
      split; [exact Hcount|].
      apply drive_bound in Hdrive.
      cbn [assemble successfulScenes failedScenesCount].
      unfold Movie.accounted in Hdrive. cbn in Hdrive. lia.
  - intros Hq ->.
    destruct (drive_quiet oracle (enableParallel req) count
                (Movie.trip false Movie.start) Hq eq_refl) as (st' & -> & Hacc).
    cbn [assemble successfulScenes failedScenesCount totalScenes].
    rewrite Hcount. unfold Movie.accounted in Hacc. cbn in Hacc.
    do 2 f_equal. lia.
Qed.

Lemma createMovie_scene_slots_witness :
  exists res,
    createMovie thirtySeconds Movie.smooth false fresh = Some (Returns res) /\
    calculatedSceneDuration thirtySeconds = Some (Finite 10) /\
    totalScenes res = Finite 3 /\
    (successfulScenes res + failedScenesCount res)%nat = 3%nat.
Proof.
  pose proof (createMovie_scene_slots thirtySeconds Movie.smooth false fresh) as [Hres Hquiet].
  cbn zeta in *. specialize (Hquiet smooth_quiet eq_refl).
  destruct (createMovie thirtySeconds Movie.smooth false fresh) as [[res|e]|] eqn:E;
    [|exfalso; revert E; vm_compute; discriminate|contradiction].
  exists res. split; [reflexivity|].
  destruct (Hres res eq_refl) as (d' & k & Hd & Hother & _ & _ & Hcount & _ & _ & Htotal & _).
  rewrite (Hother ltac:(vm_compute; discriminate)) in Hd, Hcount.
  split; [exact Hd|].
  assert (Hk : Finite (inject_Z k) = Finite 3) by (rewrite <- Hcount; vm_compute; reflexivity).
  split; [rewrite Htotal; exact Hk|].
  rewrite Htotal, Hk in Hquiet. injection Hquiet as Hquiet. lia.
Defined.

(** Thirty-three seconds in scenes of 6.6 seconds on a backend without
    permitted durations: the quotient of the two doubles lies above 5
    and rounds to 5, so five scenes are made where the ceiling of the
    exact quotient is six. *)
Lemma scene_count_below_exact_ceiling :
  exists t q,
    Finite t = Finite 33 /\ literal 6.6 = Finite q /\
    sceneCount (Finite t) (Finite q) = Finite 5 /\
    Z.max 1 (Qceiling (t / q)) = 6.
Proof. eexists _, _. repeat split; vm_compute; reflexivity. Qed.

End SceneCount.

(** ** Orchestrator: continuity and result order on the parallel path *)

Section ParallelPath.
Import Budget Video Movie.

Lemma sceneFinish_log (i : nat) (outcome : Outcome) (st : Run) :
  exists more, log (snd (sceneFinish i outcome st)) = log st ++ more.
Proof.
  destruct outcome as [sm hook url|message]; cbn [sceneFinish].
  - eexists. reflexivity.
  - destruct (Js.includes "aborted" message || signal st); exists []; cbn; rewrite app_nil_r;
      reflexivity.
Qed.

Lemma settleOne_log (oracle : Oracle) (p : Pool) :
  exists more, log (run (settleOne oracle p)) = log (run p) ++ more.
Proof.
  unfold settleOne.
  set (tick := match ticks p with t :: _ => t | [] => _ end).
  destruct (running p !! (pick tick mod length (running p))%nat) as [[index task]|];
    [|exists []; rewrite app_nil_r; reflexivity].
  destruct task as [i|i]; cbn [settle].
  - destruct (sceneFinish_log i (outcomeOf oracle i) (trip (abortFires tick) (run p)))
      as [more Hmore].
    destruct (sceneFinish i (outcomeOf oracle i) (trip (abortFires tick) (run p))) as [sd st'].
    cbn [run snd] in *. exists more. exact Hmore.
  - exists []. cbn. rewrite app_nil_r. reflexivity.
Qed.

Lemma settleAll_log (oracle : Oracle) (fuel : nat) :
  forall p, exists more, log (run (settleAll oracle fuel p)) = log (run p) ++ more.
Proof.
  induction fuel as [|fuel IH]; intros p; cbn [settleAll].
  - exists []. rewrite app_nil_r. reflexivity.
  - destruct (IH (settleOne oracle p)) as [more Hmore].
    destruct (settleOne_log oracle p) as [more' Hmore'].
    exists (more' ++ more). rewrite Hmore, Hmore', app_assoc. reflexivity.
Qed.

(** On two scenes [createMovie] is the parallel controller followed by
    the assembly of the result. *)
Lemma createMovie_twelveSeconds (oracle : Oracle) :
  createMovie twelveSeconds oracle false Budget.fresh =
  match processScenesInParallel oracle 2 MAX_PARALLEL_SCENES start with
  | Some (_, st) => Some (Return (assemble 2 12 st))
  | None => None
  end.
Proof.
  unfold createMovie.
  change (String.length (Js.trim (baseStoryPrompt twelveSeconds)) <? 10)%nat with false.
  change (length (characterIds twelveSeconds) =? 0)%nat with false.
  change (Js.gtb (totalDurationSeconds twelveSeconds) MAX_TOTAL_DURATION) with false.
  change (calculatedSceneDuration twelveSeconds) with (Some 6%Q).
  cbv iota beta.
  assert (Hest : exists e,
    calculateEstimatedCost (totalDurationSeconds twelveSeconds) 6
      (selectedModelName twelveSeconds) (openaiModel twelveSeconds) = Some e /\
    isWithinBudget (Some e) = true /\
    Js.ltb (remaining (getBudgetStatus Budget.fresh)) (total e) = false).
  { eexists. split; [reflexivity|]. split; vm_compute; reflexivity. }
  destruct Hest as (e & -> & Hwithin & Hremain). rewrite Hwithin, Hremain.
  cbn [negb].
  change (sceneCount (totalDurationSeconds twelveSeconds) 6) with 2.
  change (Z.to_nat 2) with 2%nat.
  unfold drive. cbn [enableParallel twelveSeconds andb Nat.ltb Nat.leb].
  change (trip false start) with start.
  destruct (processScenesInParallel oracle 2 MAX_PARALLEL_SCENES start) as [[array st]|];
    reflexivity.
Qed.

(** C2 on the code. On the two-scene run both script requests are
    issued, with the empty continuity, before any scene has written it:
    whatever the backends do and in whatever order the scenes finish,
    the log starts with the script call of scene 1 and the script call
    of scene 2.  With the scenes finishing in order, scene 2 has asked
    for its script with an empty story while scene 1 writes its summary
    and hook only afterwards. *)
Theorem parallel_script_call_precedes_continuity_write :
  (forall oracle,
     exists array st more,
       processScenesInParallel oracle 2 MAX_PARALLEL_SCENES start = Some (array, st) /\
       createMovie twelveSeconds oracle false Budget.fresh = Some (Return (assemble 2 12 st)) /\
       log st = ScriptCall 1 EmptyString None :: ScriptCall 2 EmptyString None :: more) /\
  (exists array st,
     processScenesInParallel inOrder 2 MAX_PARALLEL_SCENES start = Some (array, st) /\
     log st =
       [ScriptCall 1 EmptyString None;
        ScriptCall 2 EmptyString None;
        ContinuityWrite 1 (sceneLine 1 "summary 1") "hook 1";
        ContinuityWrite 2 (sceneLine 1 "summary 1" +:+ sceneLine 2 "summary 2") "hook 2"]).
Proof.
  split.
  - intros oracle. rewrite createMovie_twelveSeconds.
    unfold processScenesInParallel, MAX_PARALLEL_SCENES.
    cbn [seq spawn waitForSlot running run length Nat.ltb Nat.leb signal start sceneStart
         ticks results app Nat.add].
    match goal with |- context [settleAll oracle 2 ?p] =>
      destruct (settleAll_log oracle 2 p) as [more Hmore]; set (final := settleAll oracle 2 p) in *
    end.
    cbn [run log app] in Hmore.
    exists (omap id (results final)), (run final), more.
    split; [reflexivity|]. split; [reflexivity|exact Hmore].
  - eexists _, _. split; vm_compute; reflexivity.
Qed.

(** C8 on the code. On the two-scene run in which scene 2 finishes
    first, the scenes of the returned result are scene 2, scene 1: the
    order of completion.  The array that [processScenesInParallel]
    itself returns is in scene order, but [createMovie] does not use it. *)
Theorem parallel_result_in_completion_order :
  exists res array st,
    createMovie twelveSeconds smooth false Budget.fresh = Some (Return res) /\
    map scene (resultScenes res) = [2; 1]%nat /\
    successfulScenes res = 2%nat /\
    processScenesInParallel smooth 2 MAX_PARALLEL_SCENES start = Some (array, st) /\
    map scene array = [1; 2]%nat.
Proof.
  eexists _, _, _. split; [vm_compute; reflexivity|].
  split; [vm_compute; reflexivity|]. split; [vm_compute; reflexivity|].
  split; vm_compute; reflexivity.
Qed.

End ParallelPath.

(** ** Orchestrator: what the sequential loops do *)

Section SequentialPath.
Import Budget Video Movie.

Lemma sorted_snoc {R : relation nat} (l : list nat) (x : nat) :
  StronglySorted R l -> Forall (fun y => R y x) l -> StronglySorted R (l ++ [x]).
Proof.
  intros Hs Hall. apply StronglySorted_app_2; [|exact Hs|repeat constructor].
  intros x1 x2 H1 H2. apply list_elem_of_singleton in H2 as ->.
  rewrite Forall_forall in Hall. auto.
Qed.

Lemma sorted_filter_map {A : Type} (R : relation nat) (f : A -> nat) (keep : A -> bool)
    (l : list A) :
  StronglySorted R (map f l) -> StronglySorted R (map f (List.filter keep l)).
Proof.
  induction l as [|x l IH]; cbn [map List.filter]; [auto|].
  intros Hs. apply StronglySorted_cons in Hs as [Hall Hs].
  destruct (keep x); [|auto]. cbn [map]. apply StronglySorted_cons. split; [|auto].
  rewrite Forall_forall in *. intros y Hy. apply Hall.
  apply list_elem_of_fmap in Hy as (z & -> & Hz). apply list_elem_of_fmap. exists z.
  split; [reflexivity|]. apply list_elem_of_In. apply list_elem_of_In in Hz.
  apply List.filter_In in Hz. tauto.
Qed.

Lemma ordered_weaken (sb lb sb' lb' : nat) (st : Run) :
  (sb <= sb')%nat -> (lb <= lb')%nat -> ordered sb lb st -> ordered sb' lb' st.
Proof.
  intros Hs Hl (H1 & H2 & H3 & H4). repeat split; try assumption.
  - eapply Forall_impl; [exact H2|]. cbn. intros; lia.
  - eapply Forall_impl; [exact H4|]. cbn. intros; lia.
Qed.

Lemma ordered_trip (sb lb : nat) (fires : bool) (st : Run) :
  ordered sb lb st -> ordered sb lb (trip fires st).
Proof. intros H. exact H. Qed.

(** Starting scene [a + 1] after the scenes up to [a] keeps the order. *)
Lemma sceneStart_ordered (a : nat) (st : Run) :
  ordered a a st -> ordered a (a + 1) (snd (sceneStart (a + 1) st)).
Proof.
  intros H. unfold sceneStart. destruct (signal st); cbn [snd].
  - eapply ordered_weaken; [| |exact H]; lia.
  - destruct H as (H1 & H2 & H3 & H4). unfold ordered. cbn [scenes log].
    split; [exact H1|]. split; [exact H2|]. rewrite map_app. cbn [map eventScene]. split.
    + apply sorted_snoc; [exact H3|]. eapply Forall_impl; [exact H4|]. cbn. intros; lia.
    + apply Forall_app. split; [|repeat constructor].
      eapply Forall_impl; [exact H4|]. cbn. intros; lia.
Qed.

(** So does its end. *)
Lemma sceneFinish_ordered (a : nat) (outcome : Outcome) (st : Run) :
  ordered a (a + 1) st -> ordered (a + 1) (a + 1) (snd (sceneFinish (a + 1) outcome st)).
Proof.
  intros (H1 & H2 & H3 & H4).
  assert (Hscenes : forall s, scene s = (a + 1)%nat ->
    StronglySorted lt (map scene (scenes st ++ [s])) /\
    Forall (fun n => n <= a + 1)%nat (map scene (scenes st ++ [s]))).
  { intros s Hs. rewrite map_app. cbn [map]. rewrite Hs. split.
    - apply sorted_snoc; [exact H1|]. eapply Forall_impl; [exact H2|]. cbn. intros; lia.
    - apply Forall_app. split; [|repeat constructor].
      eapply Forall_impl; [exact H2|]. cbn. intros; lia. }
  destruct outcome as [sm hook url|message]; cbn [sceneFinish].
  - cbn [snd]. unfold ordered. cbn [scenes log].
    destruct (Hscenes {| scene := a + 1; success := true; video := Some url;
                         summary := Some sm; error := None; aborted := false |} eq_refl)
      as [Hs1 Hs2].
    split; [exact Hs1|]. split; [exact Hs2|]. rewrite map_app. cbn [map eventScene]. split.
    + apply sorted_snoc; [exact H3|exact H4].
    + apply Forall_app. split; [exact H4|repeat constructor].
  - destruct (Js.includes "aborted" message || signal st); cbn [snd]; unfold ordered;
      cbn [scenes log].
    + destruct (Hscenes {| scene := a + 1; success := false; video := None; summary := None;
                           error := Some "Generation aborted"%string; aborted := true |} eq_refl)
        as [Hs1 Hs2]. auto.
    + destruct (Hscenes {| scene := a + 1; success := false; video := None; summary := None;
                           error := Some message; aborted := false |} eq_refl)
        as [Hs1 Hs2]. auto.
Qed.

Lemma runSequential_ordered (oracle : Oracle) (count n : nat) :
  forall a st, ordered a a st ->
  ordered (a + n) (a + n) (snd (runSequential oracle count (seq a n) st)).
Proof.
  induction n as [|n IH]; intros a st Hord; cbn [seq runSequential].
  - cbn [snd]. eapply ordered_weaken; [| |exact Hord]; lia.
  - destruct (signal st) eqn:Hsig.
    + cbn [snd]. eapply ordered_weaken; [| |exact Hord]; lia.
    + pose proof (sceneStart_ordered a st Hord) as Hstart.
      unfold sceneStart in *. rewrite Hsig in *. cbn [snd] in Hstart. cbn [settle].
      apply (ordered_trip _ _ (abortDuringScene oracle (a + 1))) in Hstart.
      pose proof (sceneFinish_ordered a (outcomeOf oracle (a + 1)) _ Hstart) as Hfin.
      destruct (sceneFinish (a + 1) (outcomeOf oracle (a + 1)) _) as [[sd|message] st2];
        cbn [snd] in *.
      * match goal with |- context [runSequential oracle count (seq (S a) n) ?x] =>
          specialize (IH (S a) x)
        end.
        replace (a + S n)%nat with (S a + n)%nat by lia. apply IH.
        replace (S a) with (a + 1)%nat by lia.
        destruct ((a <? count - 1)%nat && negb (signal st2)); [apply ordered_trip|]; exact Hfin.
      * eapply ordered_weaken; [| |exact Hfin]; lia.
Qed.

(** What the sibling paths of the parallel one guarantee.  Whenever
    [createMovie] runs its scenes in one of the sequential loops, the
    events of the run come in scene order, so that the continuity
    write of a scene precedes the script call of every later scene,
    and the scenes of the result are in ascending scene order. *)
Lemma sequential_run_in_scene_order (oracle : Oracle) (count : nat) (total : Z) (d : Q) :
  let st := snd (runSequential oracle count (seq 0 count) start) in
  StronglySorted le (map eventScene (log st)) /\
  StronglySorted lt (map scene (resultScenes (assemble total d st))).
Proof.
  cbn zeta.
  assert (Hstart : ordered 0 0 start) by (repeat split; constructor).
  destruct (runSequential_ordered oracle count count 0 start Hstart) as (H1 & _ & H3 & _).
  split; [exact H3|]. cbn [assemble resultScenes]. apply sorted_filter_map. exact H1.
Qed.

Lemma replay_snoc (events : list Event) (ev : Event) :
  forall story hook story' hook',
  replay story hook events = Some (story', hook') ->
  replay story hook (events ++ [ev]) = replay story' hook' [ev].
Proof.
  induction events as [|e events IH]; intros story hook story' hook'; cbn [replay app].
  - intros [= <- <-]. reflexivity.
  - destruct e as [i s h|i s h].
    + case_decide; [|discriminate]. intros Hrest. rewrite (IH _ _ _ _ Hrest). reflexivity.
    + intros Hrest. rewrite (IH _ _ _ _ Hrest). reflexivity.
Qed.

(** In every run, sequential or not, a script call is made with the
    continuity that was written last before it. *)
Lemma sceneStart_replay (i : nat) (st : Run) :
  replay EmptyString None (log st) = Some (storySoFar st, previousSceneEnd st) ->
  let st' := snd (sceneStart i st) in
  replay EmptyString None (log st') = Some (storySoFar st', previousSceneEnd st').
Proof.
  intros H. unfold sceneStart. destruct (signal st); cbn [snd]; [exact H|].
  cbn [log storySoFar previousSceneEnd]. rewrite (replay_snoc _ _ _ _ _ _ H). cbn [replay].
  rewrite decide_True by auto. reflexivity.
Qed.

Lemma sceneFinish_replay (i : nat) (outcome : Outcome) (st : Run) :
  replay EmptyString None (log st) = Some (storySoFar st, previousSceneEnd st) ->
  let st' := snd (sceneFinish i outcome st) in
  replay EmptyString None (log st') = Some (storySoFar st', previousSceneEnd st').
Proof.
  intros H. destruct outcome as [sm hook url|message]; cbn [sceneFinish].
  - cbn [snd log storySoFar previousSceneEnd]. rewrite (replay_snoc _ _ _ _ _ _ H).
    reflexivity.
  - destruct (Js.includes "aborted" message || signal st); exact H.
Qed.

Lemma runSequential_replay (oracle : Oracle) (count : nat) (indices : list nat) :
  forall st,
  replay EmptyString None (log st) = Some (storySoFar st, previousSceneEnd st) ->
  let st' := snd (runSequential oracle count indices st) in
  replay EmptyString None (log st') = Some (storySoFar st', previousSceneEnd st').
Proof.
  induction indices as [|i rest IH]; intros st Hst; cbn [runSequential]; [exact Hst|].
  destruct (signal st) eqn:Hsig; [exact Hst|].
  pose proof (sceneStart_replay (i + 1) st Hst) as Hstart.
  unfold sceneStart in *. rewrite Hsig in *. cbn zeta in Hstart. cbn [snd] in Hstart.
  cbn [settle].
  match goal with |- context [sceneFinish ?j ?o ?x] =>
    pose proof (sceneFinish_replay j o x Hstart) as Hfin;
    destruct (sceneFinish j o x) as [[sd|message] st2]
  end; cbn zeta in Hfin; cbn [snd] in Hfin.
  - apply IH. destruct ((i <? count - 1)%nat && negb (signal st2)); exact Hfin.
  - exact Hfin.
Qed.

End SequentialPath.

(** * Further properties of the code *)

(** ** Budget governor *)

Section GovernorMore.
Import Budget Traces.

Lemma within_app (w now : Z) (l l' : list Z) :
  within w now (l ++ l') = within w now l ++ within w now l'.
Proof. unfold within. apply filter_app. Qed.

Lemma within_now (w now : Z) : 0 < w -> within w now [now] = [now].
Proof. intros Hw. rewrite within_cons. case_decide; [reflexivity|lia]. Qed.

(** One call keeps both windows, read at the instant of the call,
    within their limits. *)
Lemma checkRateLimit_keeps_limits (service : Service) (identifier : string) (now : Z)
    (bm : BudgetManager) :
  (length (within MINUTE now (recorded service identifier bm))
     <= requestsPerMinute (RATE_LIMITS service))%nat ->
  (length (within HOUR now (recorded service identifier bm))
     <= requestsPerHour (RATE_LIMITS service))%nat ->
  let bm' := snd (checkRateLimit service identifier now bm) in
  (length (within MINUTE now (recorded service identifier bm'))
     <= requestsPerMinute (RATE_LIMITS service))%nat /\
  (length (within HOUR now (recorded service identifier bm'))
     <= requestsPerHour (RATE_LIMITS service))%nat.
Proof.
  intros Hm Hh. cbn zeta. rewrite checkRateLimit_recorded.
  pose proof minute_below_hour as Hmh.
  destruct (allowed (fst (checkRateLimit service identifier now bm))) eqn:E.
  - apply checkRateLimit_allowed_iff in E as [Em Eh].
    rewrite !within_app, !length_app.
    rewrite (within_absorb MINUTE HOUR now now) by lia.
    rewrite (within_absorb HOUR HOUR now now) by lia.
    rewrite !within_now by (unfold MINUTE, HOUR; lia). cbn [length]. lia.
  - rewrite (within_absorb MINUTE HOUR now now) by lia.
    rewrite (within_absorb HOUR HOUR now now) by lia. lia.
Qed.

Lemma pollState_keeps_limits (service : Service) (identifier : string) (times : list Z) :
  forall (bm : BudgetManager) (t0 : Z),
  StronglySorted Z.le (t0 :: times) ->
  (length (within MINUTE t0 (recorded service identifier bm))
     <= requestsPerMinute (RATE_LIMITS service))%nat ->
  (length (within HOUR t0 (recorded service identifier bm))
     <= requestsPerHour (RATE_LIMITS service))%nat ->
  forall now, Forall (fun t => t <= now) (t0 :: times) ->
  let bm' := pollState service identifier times bm in
  (length (within MINUTE now (recorded service identifier bm'))
     <= requestsPerMinute (RATE_LIMITS service))%nat /\
  (length (within HOUR now (recorded service identifier bm'))
     <= requestsPerHour (RATE_LIMITS service))%nat.
Proof.
  induction times as [|t rest IH]; intros bm t0 Hsorted Hm Hh now Hnow; cbn [pollState].
  - inversion Hnow as [|? ? Ht0 _]; subst.
    pose proof (within_length_mono MINUTE t0 now (recorded service identifier bm) Ht0).
    pose proof (within_length_mono HOUR t0 now (recorded service identifier bm) Ht0).
    cbn zeta. lia.
  - apply StronglySorted_cons in Hsorted as [Hall Hsorted].
    inversion Hall as [|? ? Ht0t _]; subst.
    inversion Hnow as [|? ? _ Hnow']; subst.
    pose proof (within_length_mono MINUTE t0 t (recorded service identifier bm) Ht0t).
    pose proof (within_length_mono HOUR t0 t (recorded service identifier bm) Ht0t).
    destruct (checkRateLimit_keeps_limits service identifier t bm) as [Hm' Hh']; [lia|lia|].
    exact (IH _ t Hsorted Hm' Hh' now Hnow').
Qed.

Lemma recorded_fresh (service : Service) (identifier : string) :
  recorded service identifier Budget.fresh = [].
Proof.
  unfold recorded, Budget.fresh.
  destruct service; cbn [rateLimiter openaiLimiter replicateLimiter];
    rewrite lookup_empty; reflexivity.
Qed.

(** The stored list never holds more than the limits allow. *)
Lemma stored_never_over_limit
    (service : Service) (identifier : string) (times : list Z) (now : Z) :
  StronglySorted Z.le times ->
  Forall (fun t => t <= now) times ->
  let bm := pollState service identifier times Budget.fresh in
  (length (within MINUTE now (recorded service identifier bm))
     <= requestsPerMinute (RATE_LIMITS service))%nat /\
  (length (within HOUR now (recorded service identifier bm))
     <= requestsPerHour (RATE_LIMITS service))%nat.
Proof.
  intros Hsorted Hnow.
  destruct times as [|t0 rest].
  - cbn zeta. cbn [pollState]. rewrite recorded_fresh. cbn. lia.
  - cbn [pollState].
    destruct (checkRateLimit_keeps_limits service identifier t0 Budget.fresh) as [Hm Hh].
    { rewrite recorded_fresh. cbn. lia. }
    { rewrite recorded_fresh. cbn. lia. }
    exact (pollState_keeps_limits service identifier rest _ t0 Hsorted Hm Hh now Hnow).
Qed.

(** The same for the requests that were let through, read at an
    instant from the last call on. *)
Lemma history_never_over_limit
    (service : Service) (identifier : string) (times : list Z) (now : Z) :
  StronglySorted Z.le times ->
  Forall (fun t => t <= now) times ->
  (length (within MINUTE now (letThrough service identifier times Budget.fresh))
     <= requestsPerMinute (RATE_LIMITS service))%nat /\
  (length (within HOUR now (letThrough service identifier times Budget.fresh))
     <= requestsPerHour (RATE_LIMITS service))%nat.
Proof.
  intros Hsorted Hnow.
  pose proof (stored_never_over_limit service identifier times now Hsorted Hnow) as Hstored.
  cbn zeta in Hstored.
  assert (Hs : StronglySorted Z.le (times ++ [now])).
  { apply StronglySorted_app. split; [|split; [exact Hsorted|repeat constructor]].
    intros x1 x2 H1 H2. apply list_elem_of_singleton in H2 as ->.
    rewrite Forall_forall in Hnow. exact (Hnow x1 H1). }
  destruct (sorted_last_le times now Hs) as [Hs' Hlast].
  pose proof (poll_history service identifier times Budget.fresh (hd now times) []
                (recorded_fresh service identifier) Hs') as Hrec.
  cbn [app] in Hrec. rewrite Hrec in Hstored.
  pose proof minute_below_hour.
  rewrite (within_absorb MINUTE HOUR now) in Hstored by lia.
  rewrite (within_absorb HOUR HOUR now) in Hstored by lia. exact Hstored.
Qed.

Lemma letThrough_sub (service : Service) (identifier : string) (P : Z -> Prop)
    (times : list Z) :
  forall bm, Forall P times -> Forall P (letThrough service identifier times bm).
Proof.
  induction times as [|t rest IH]; intros bm Hall; cbn [letThrough]; [constructor|].
  inversion Hall; subst. apply Forall_app. split; [|apply IH; assumption].
  destruct (allowed _); repeat constructor. assumption.
Qed.

Lemma sorted_split (times : list Z) (until : Z) :
  StronglySorted Z.le times ->
  exists before after,
    times = before ++ after /\ StronglySorted Z.le before /\
    Forall (fun t => t <= until) before /\ Forall (fun t => until < t) after.
Proof.
  induction times as [|t rest IH]; intros Hsorted.
  - exists [], []. repeat split; constructor.
  - apply StronglySorted_cons in Hsorted as [Hall Hsorted].
    destruct (decide (t <= until)) as [Hle|Hgt].
    + destruct (IH Hsorted) as (before & after & -> & Hs & Hb & Ha).
      exists (t :: before), after. split; [reflexivity|]. split; [|split; [|exact Ha]].
      * constructor; [exact Hs|]. apply Forall_app in Hall as [Hall _]. exact Hall.
      * constructor; assumption.
    + exists [], (t :: rest). split; [reflexivity|]. split; [constructor|].
      split; [constructor|]. constructor; [lia|].
      eapply Forall_impl; [exact Hall|]. cbn. intros; lia.
Qed.

Lemma inWindow_within (window until : Z) (instants : list Z) :
  (length (inWindow window until instants) <= length (within window until instants))%nat.
Proof.
  unfold inWindow, within. induction instants as [|t l IH]; [reflexivity|].
  rewrite !filter_cons. repeat case_decide; cbn [length]; lia.
Qed.

Lemma inWindow_app (window until : Z) (l l' : list Z) :
  inWindow window until (l ++ l') = inWindow window until l ++ inWindow window until l'.
Proof. unfold inWindow. apply filter_app. Qed.

Lemma inWindow_later (window until : Z) (instants : list Z) :
  Forall (fun t => until < t) instants -> inWindow window until instants = [].
Proof.
  unfold inWindow. induction 1 as [|t l Ht _ IH]; [reflexivity|].
  rewrite filter_cons. case_decide; [lia|exact IH].
Qed.

(** X1. Whatever calls are made for an identifier, at instants that do
    not decrease, starting from a new budget manager: no window of one
    minute, wherever it ends, holds more than [requestsPerMinute] of
    the instants at which the calls were let through, and no window of
    one hour more than [requestsPerHour]. *)
Theorem governor_never_over_limit
    (service : Service) (identifier : string) (times : list Z) (until : Z) :
  StronglySorted Z.le times ->
  let history := letThrough service identifier times Budget.fresh in
  (length (inWindow MINUTE until history) <= requestsPerMinute (RATE_LIMITS service))%nat /\
  (length (inWindow HOUR until history) <= requestsPerHour (RATE_LIMITS service))%nat.
Proof.
  intros Hsorted. cbn zeta.
  destruct (sorted_split times until Hsorted) as (before & after & -> & Hs & Hb & Ha).
  rewrite letThrough_app, !inWindow_app, !length_app.
  rewrite !(inWindow_later _ until (letThrough service identifier after _))
    by (apply letThrough_sub; exact Ha).
  destruct (history_never_over_limit service identifier before until Hs Hb) as [Hm Hh].
  pose proof (inWindow_within MINUTE until (letThrough service identifier before Budget.fresh)).
  pose proof (inWindow_within HOUR until (letThrough service identifier before Budget.fresh)).
  cbn [length]. lia.
Qed.

Lemma governor_never_over_limit_witness :
  let history := letThrough replicate "luma/dream-machine"
                   [0; 1; 2; 3; 4; 5; 6; 7; 8; 9; 10; 11; 12] Budget.fresh in
  (length (inWindow MINUTE 13 history) <= 10)%nat.
Proof.
  cbn zeta.
  refine (proj1 (governor_never_over_limit replicate "luma/dream-machine"
                   [0; 1; 2; 3; 4; 5; 6; 7; 8; 9; 10; 11; 12] 13 _)).
  repeat (constructor; [|repeat (constructor; [lia|]); constructor]). constructor.
Defined.

(** X2. A [checkRateLimit] call touches nothing but the record of its
    own service and identifier: the records of every other identifier
    and service and the cumulative cost are as before; and [trackCost]
    touches nothing but the cumulative cost. *)
Theorem governor_calls_are_isolated
    (service : Service) (identifier : string) (now : Z) (bm : BudgetManager)
    (label : string) (cost : Q) :
  let bm' := snd (checkRateLimit service identifier now bm) in
  let bm'' := snd (trackCost label cost bm) in
  (forall service' identifier',
     (service', identifier') <> (service, identifier) ->
     rateLimiter service' bm' !! identifier' = rateLimiter service' bm !! identifier') /\
  currentCost bm' = currentCost bm /\
  (forall service', rateLimiter service' bm'' = rateLimiter service' bm).
Proof.
  cbn zeta. split; [|split].
  - intros service' identifier' Hne. unfold checkRateLimit.
    destruct (rateLimiter service bm !! identifier); cbn zeta;
      repeat case_decide; cbn [snd];
      destruct service, service';
      cbn [rateLimiter setRateLimiter openaiLimiter replicateLimiter];
      try reflexivity; rewrite lookup_insert_ne by congruence; reflexivity.
  - unfold checkRateLimit.
    destruct (rateLimiter service bm !! identifier); cbn zeta;
      repeat case_decide; cbn [snd]; destruct service; reflexivity.
  - intros service'. unfold trackCost. destruct (Js.gtb _ _); destruct service'; reflexivity.
Qed.

Lemma head_within (w now t0 : Z) (l : list Z) :
  head (within w now l) = Some t0 -> now - t0 < w /\ t0 ∈ l.
Proof.
  intros H. assert (Hin : t0 ∈ within w now l).
  { destruct (within w now l); [discriminate|]. injection H as ->. constructor. }
  unfold within in Hin. apply list_elem_of_filter in Hin. exact Hin.
Qed.

(** X3. When [checkRateLimit] denies a call and no stored timestamp
    lies in the future, the answer names the limit that was hit and a
    [retryAfter] in whole seconds between 1 and 60 for the per-minute
    limit, between 1 and 3600 for the per-hour limit. *)
Theorem denial_carries_bounded_retry
    (service : Service) (identifier : string) (now : Z) (bm : BudgetManager) :
  Forall (fun t => t <= now) (recorded service identifier bm) ->
  allowed (fst (checkRateLimit service identifier now bm)) = false ->
  exists seconds,
    (fst (checkRateLimit service identifier now bm) =
       Denied (PerMinute (requestsPerMinute (RATE_LIMITS service))) (Some seconds) /\
     1 <= seconds <= 60) \/
    (fst (checkRateLimit service identifier now bm) =
       Denied (PerHour (requestsPerHour (RATE_LIMITS service))) (Some seconds) /\
     1 <= seconds <= 3600).
Proof.
  intros Hpast Hden.
  pose proof (limits_positive service) as [Hm Hh].
  unfold checkRateLimit, recorded in *.
  destruct (rateLimiter service bm !! identifier) as [r|]; cbn zeta in *.
  - destruct (decide (requestsPerMinute (RATE_LIMITS service)
                        ≤ length (within MINUTE now (within HOUR now (requests r))))%nat)
      as [Hfull|Hroom].
    + destruct (head (within MINUTE now (within HOUR now (requests r)))) as [t0|] eqn:Ehd.
      * apply head_within in Ehd as [Hlt Hin].
        unfold within in Hin. apply list_elem_of_filter in Hin as [_ Hin].
        rewrite Forall_forall in Hpast. specialize (Hpast t0 Hin).
        exists (60 - (now - t0) / 1000). left. split; [reflexivity|].
        unfold MINUTE in Hlt.
        assert (0 <= (now - t0) / 1000) by (apply Z.div_pos; lia).
        assert ((now - t0) / 1000 < 60) by (apply Z.div_lt_upper_bound; lia). lia.
      * destruct (within MINUTE now (within HOUR now (requests r))); [cbn in Hfull; lia|discriminate].
    + destruct (decide (requestsPerHour (RATE_LIMITS service)
                          ≤ length (within HOUR now (requests r)))%nat) as [Hfull|Hroom'];
        [|cbn in Hden; discriminate].
      destruct (head (within HOUR now (requests r))) as [t0|] eqn:Ehd.
      * apply head_within in Ehd as [Hlt Hin].
        rewrite Forall_forall in Hpast. specialize (Hpast t0 Hin).
        exists (3600 - (now - t0) / 1000). right. split; [reflexivity|].
        unfold HOUR in Hlt.
        assert (0 <= (now - t0) / 1000) by (apply Z.div_pos; lia).
        assert ((now - t0) / 1000 < 3600) by (apply Z.div_lt_upper_bound; lia). lia.
      * destruct (within HOUR now (requests r)); [cbn in Hfull; lia|discriminate].
  - exfalso. cbn [requests] in Hden.
    repeat case_decide; cbn in *; try discriminate; lia.
Qed.

Lemma denial_carries_bounded_retry_witness :
  let bm := {| currentCost := 0;
               openaiLimiter := ∅;
               replicateLimiter :=
                 {[ "luma/dream-machine"%string :=
                      {| requests := [0; 100; 200; 300; 400; 500; 600; 700; 800; 900];
                         lastReset := 0 |} ]} |} in
  exists seconds,
    (fst (checkRateLimit replicate "luma/dream-machine" 2500 bm) =
       Denied (PerMinute 10) (Some seconds) /\ 1 <= seconds <= 60) \/
    (fst (checkRateLimit replicate "luma/dream-machine" 2500 bm) =
       Denied (PerHour 500) (Some seconds) /\ 1 <= seconds <= 3600).
Proof.
  cbn zeta.
  apply (denial_carries_bounded_retry replicate "luma/dream-machine" 2500).
  - vm_compute. repeat (constructor; [discriminate|]). constructor.
  - vm_compute. reflexivity.
Defined.

Lemma governor_calls_are_isolated_witness :
  let bm := snd (checkRateLimit replicate "luma/dream-machine" 1000 Budget.fresh) in
  rateLimiter replicate bm !! "stability-ai/svd"%string = None /\
  rateLimiter openai bm !! "luma/dream-machine"%string = None.
Proof.
  cbn zeta.
  destruct (governor_calls_are_isolated replicate "luma/dream-machine" 1000 Budget.fresh
              "replicate" 0) as (H & _ & _).
  split.
  - rewrite (H replicate "stability-ai/svd"%string) by discriminate. reflexivity.
  - rewrite (H openai "luma/dream-machine"%string) by discriminate. reflexivity.
Defined.

Lemma getModelCost_positive (modelName : string) : (0 < getModelCost modelName)%Q.
Proof. unfold getModelCost. repeat case_decide; reflexivity. Qed.

Lemma openai_rate_positive (model : string) (rate : Q) :
  OPENAI_COST_PER_1K_TOKENS model = Some rate -> (0 < rate)%Q.
Proof.
  unfold OPENAI_COST_PER_1K_TOKENS. repeat case_decide; intros [= <-]; reflexivity.
Qed.

(** What a call to the text model is charged: never nothing. *)
Lemma openai_charge_positive (tokens : Z) (model : string) :
  0 <= tokens ->
  (0 < Js.orElse (option_map (fun rate => (inject_Z tokens / 1000 * rate)%Q)
                             (OPENAI_COST_PER_1K_TOKENS model)) 0.00015)%Q.
Proof.
  intros Htokens. unfold Js.orElse.
  destruct (OPENAI_COST_PER_1K_TOKENS model) as [rate|] eqn:E; cbn [option_map];
    [|reflexivity].
  apply openai_rate_positive in E.
  destruct (Qeq_bool (inject_Z tokens / 1000 * rate) 0) eqn:Ez; [reflexivity|].
  apply Qeq_bool_neq in Ez.
  assert (Hnn : (0 <= inject_Z tokens)%Q).
  { change 0%Q with (inject_Z 0). rewrite <- Zle_Qle. exact Htokens. }
  assert (Hge : (0 <= inject_Z tokens / 1000 * rate)%Q).
  { apply Qmult_le_0_compat; [|lra]. apply Qle_shift_div_l; [reflexivity|lra]. }
  apply Qle_lteq in Hge as [Hlt|Heq]; [exact Hlt|]. symmetry in Heq. contradiction.
Qed.

(** X5. [trackOpenAICost] never charges nothing: for a token count
    that is not negative the cumulative cost grows strictly, by the
    flat 0.00015 when the model has no price or the count is zero. *)
Theorem trackOpenAICost_always_charges (tokens : Z) (model : string) (bm : BudgetManager) :
  0 <= tokens ->
  let bm' := snd (trackOpenAICost tokens model bm) in
  (currentCost bm < currentCost bm')%Q /\
  (OPENAI_COST_PER_1K_TOKENS model = None \/ tokens = 0 ->
   (currentCost bm' == currentCost bm + 0.00015)%Q).
Proof.
  intros Htokens. cbn zeta. unfold trackOpenAICost. rewrite trackCost_stores.
  pose proof (openai_charge_positive tokens model Htokens) as Hpos.
  split; [lra|].
  intros [Hnone| ->].
  - rewrite Hnone. reflexivity.
  - unfold Js.orElse. destruct (OPENAI_COST_PER_1K_TOKENS model); reflexivity.
Qed.

Lemma trackOpenAICost_always_charges_witness :
  (currentCost Budget.fresh
   < currentCost (snd (trackOpenAICost 0 "gpt-4o" Budget.fresh)))%Q.
Proof.
  exact (proj1 (trackOpenAICost_always_charges 0 "gpt-4o" Budget.fresh ltac:(lia))).
Defined.

Lemma checkRateLimit_lastReset (service : Service) (identifier : string) (now : Z)
    (bm : BudgetManager) :
  lastResetOf service identifier (snd (checkRateLimit service identifier now bm)) =
  Some (default now (lastResetOf service identifier bm)).
Proof.
  unfold lastResetOf, checkRateLimit.
  destruct (rateLimiter service bm !! identifier) as [r|]; cbn zeta;
    repeat case_decide; cbn [snd]; rewrite rateLimiter_set, lookup_insert_eq; reflexivity.
Qed.

(** X6. The first call for an identifier that has no record is let
    through and creates the record with [lastReset] at that instant;
    no later call, allowed or denied, ever changes [lastReset]. *)
Theorem lastReset_is_the_first_call
    (service : Service) (identifier : string) (first : Z) (later : list Z)
    (bm : BudgetManager) :
  rateLimiter service bm !! identifier = None ->
  fst (checkRateLimit service identifier first bm) = Allowed /\
  recorded service identifier (snd (checkRateLimit service identifier first bm)) = [first] /\
  lastResetOf service identifier (pollState service identifier (first :: later) bm)
    = Some first.
Proof.
  intros Hnone.
  assert (Hallowed : allowed (fst (checkRateLimit service identifier first bm)) = true).
  { apply checkRateLimit_allowed_iff. unfold recorded. rewrite Hnone. cbn.
    destruct service; cbn; lia. }
  split; [destruct (fst (checkRateLimit service identifier first bm)); [reflexivity|discriminate]|].
  split.
  - rewrite checkRateLimit_recorded, Hallowed. unfold recorded. rewrite Hnone. reflexivity.
  - cbn [pollState].
    assert (Hfirst : lastResetOf service identifier
                       (snd (checkRateLimit service identifier first bm)) = Some first).
    { rewrite checkRateLimit_lastReset. unfold lastResetOf. rewrite Hnone. reflexivity. }
    revert Hfirst. generalize (snd (checkRateLimit service identifier first bm)).
    induction later as [|t rest IH]; intros b Hb; cbn [pollState]; [exact Hb|].
    apply IH. rewrite checkRateLimit_lastReset, Hb. reflexivity.
Qed.

Lemma lastReset_is_the_first_call_witness :
  lastResetOf openai "script-generation"
    (pollState openai "script-generation" [5000; 70000; 4000000] Budget.fresh) = Some 5000.
Proof.
  exact (proj2 (proj2 (lastReset_is_the_first_call openai "script-generation" 5000
                         [70000; 4000000] Budget.fresh eq_refl))).
Defined.

End GovernorMore.

(** ** Budget governor: the estimate on doubles *)

Section Estimate.
Import Double.

Lemma mul_NaN (a : number) : mul a NaN = NaN.
Proof. destruct a; reflexivity. Qed.

Lemma orElse_number (a : number) (q : Q) :
  Qeq_bool q 0 = false ->
  orElse a (Finite q) <> NaN /\ eqb (orElse a (Finite q)) (Finite 0) = false.
Proof.
  intros Hq. destruct a as [x| | |]; cbn [orElse].
  - destruct (Qeq_bool x 0) eqn:E; cbn [eqb]; split; congruence.
  - split; [discriminate|reflexivity].
  - split; [discriminate|reflexivity].
  - cbn [eqb]. split; congruence.
Qed.

(** X4. [calculateEstimatedCost] prices [ceil(T / d)] scenes, the
    quotient being that of JavaScript, and [createMovie] runs that
    count or one scene if it is less.  The text part of the estimate is
    never zero and never [NaN]: it is 0.00015 when the text model has
    no rate.  For a model name that every object answers through
    [Object.prototype], such as constructor or toString, [getModelCost]
    returns that inherited value, which has no [costPerSecond]: the
    video part and the total are [NaN], [isWithinBudget] is false, and
    [createMovie] rejects the request before any scene starts.  For
    every other name the rate is that of the table, 0.007 for a name
    the table does not have. *)
Theorem estimate_covers_requested_duration
    (T d : number) (modelName openaiModel : string) :
  let e := calculateEstimatedCost T d modelName openaiModel in
  scenes e = ceil (div T d) /\
  sceneCount T d = fmax (Finite 1) (scenes e) /\
  total e = add (video e) (openai e) /\
  openai e <> NaN /\ eqb (openai e) (Finite 0) = false /\
  (Budget.OPENAI_COST_PER_1K_TOKENS openaiModel = None -> openai e = literal 0.00015) /\
  (modelName ∈ inherited ->
   video e = NaN /\ total e = NaN /\ isWithinBudget e = false /\
   forall req oracle signalAtStart bm,
     selectedModelName req = modelName ->
     exists why, createMovie req oracle signalAtStart bm = Some (Throws why) /\
                 preflight why) /\
  (modelName ∉ inherited ->
   getModelCost modelName = literal (Budget.getModelCost modelName) /\
   video e = mul (mul (scenes e) d) (literal (Budget.getModelCost modelName))).
Proof.
  cbn zeta. unfold calculateEstimatedCost.
  cbn [scenes Double.total video openai].
  split; [reflexivity|]. split; [reflexivity|]. split; [reflexivity|].
  assert (Hflat : literal 0.00015 = Finite (5534023222112865 # 36893488147419103232))
    by (vm_compute; reflexivity).
  rewrite Hflat.
  split; [apply orElse_number; reflexivity|]. split; [apply orElse_number; reflexivity|].
  split; [|split].
  - intros Hnone. unfold OPENAI_COST_PER_1K_TOKENS. rewrite Hnone, mul_NaN. reflexivity.
  - intros Hin. unfold getModelCost. rewrite decide_True by exact Hin.
    rewrite mul_NaN. cbn [add].
    split; [reflexivity|]. split; [reflexivity|]. split; [reflexivity|].
    intros req oracle signalAtStart bm Hname. unfold createMovie.
    destruct (String.length (Js.trim (baseStoryPrompt req)) <? 10)%nat;
      [eexists; split; [reflexivity|exact I]|].
    destruct (length (characterIds req) =? 0)%nat;
      [eexists; split; [reflexivity|exact I]|].
    destruct (gtb (totalDurationSeconds req) (Finite Video.MAX_TOTAL_DURATION));
      [eexists; split; [reflexivity|exact I]|].
    destruct (calculatedSceneDuration req) as [d'|];
      [|eexists; split; [reflexivity|exact I]].
    unfold isWithinBudget, calculateEstimatedCost. cbn [Double.total].
    rewrite Hname. unfold getModelCost. rewrite decide_True by exact Hin.
    rewrite mul_NaN. cbn [add leb negb].
    eexists; split; [reflexivity|exact I].
  - intros Hout. unfold getModelCost. rewrite decide_False by exact Hout.
    split; reflexivity.
Qed.

Lemma estimate_covers_requested_duration_witness :
  let e := calculateEstimatedCost (Finite 120) (Finite 8) "constructor" "gpt-4.1" in
  scenes e = Finite 15 /\ total e = NaN /\ isWithinBudget e = false /\
  openai e = literal 0.00015 /\
  scenes (calculateEstimatedCost (Finite 120) (Finite 8) "google/veo-3.1-fast" "gpt-4o-mini")
    = Finite 15.
Proof.
  cbn zeta.
  destruct (estimate_covers_requested_duration (Finite 120) (Finite 8) "constructor" "gpt-4.1")
    as (Hs & _ & _ & _ & _ & Hflat & Hin & _).
  cbn zeta in *.
  destruct (Hin ltac:(unfold inherited; constructor)) as (_ & Ht & Hw & _).
  split; [rewrite Hs; vm_compute; reflexivity|]. split; [exact Ht|]. split; [exact Hw|].
  split; [apply Hflat; reflexivity|].
  vm_compute. reflexivity.
Defined.

End Estimate.

(** ** Circuit breaker *)

Section BreakerMore.
Import Circuit Traces.

(** X7. While fewer than [failureThreshold] failures are remembered for
    a backend, [canExecute] lets it through at every instant: failures
    below the threshold never block. *)
Theorem breaker_closed_below_threshold
    (cb : CircuitBreaker) (B : string) (times : list Z) (now : Z) :
  (failureCount B cb + length times < failureThreshold cb)%nat ->
  fst (canExecute B now (recordFailures B times cb)) = true.
Proof.
  intros Hfew.
  pose proof (recordFailures_count B times cb) as Hcount.
  destruct (recordFailures_params B times cb) as [Hthr _].
  unfold canExecute, failureCount in *.
  destruct (failures (recordFailures B times cb) !! B) as [r|]; [|reflexivity].
  case_decide; [reflexivity|]. cbn [fst]. apply bool_decide_eq_true_2. lia.
Qed.

Lemma breaker_closed_below_threshold_witness :
  fst (canExecute "luma/dream-machine" 2500
         (recordFailures "luma/dream-machine" [1000; 2000] circuitBreaker)) = true.
Proof.
  apply (breaker_closed_below_threshold circuitBreaker "luma/dream-machine" [1000; 2000] 2500).
  vm_compute. lia.
Defined.

(** X8. [canExecute] refuses a backend exactly when [getStatus] says
    open and the last failure is at most [resetTimeout] old.
    [getStatus] does not read the clock: it goes on saying open after
    the timeout, when [canExecute] lets the backend through again. *)
Theorem canExecute_refuses_iff_open_and_recent (cb : CircuitBreaker) (B : string) (now : Z) :
  (fst (canExecute B now cb) = false <->
   getStatus B cb = open /\
   exists t, lastFailureOf B cb = Some t /\ now - t <= resetTimeout cb) /\
  (getStatus B cb = open ->
   (exists t, lastFailureOf B cb = Some t /\ resetTimeout cb < now - t) ->
   fst (canExecute B now cb) = true /\ getStatus B (snd (canExecute B now cb)) = closed).
Proof.
  unfold canExecute, getStatus, lastFailureOf.
  destruct (failures cb !! B) as [r|] eqn:E; cbn [fmap option_fmap option_map].
  - destruct (decide (resetTimeout cb < now - lastFailure r)) as [Hexp|Hfresh];
      cbn [fst snd failures setFailures].
    + rewrite lookup_delete_eq. split.
      * split; [discriminate|]. intros (_ & t & [= <-] & Ht). lia.
      * intros _ _. split; reflexivity.
    + rewrite E. split.
      * split.
        -- intros Hf. apply bool_decide_eq_false in Hf.
           split; [destruct (decide (failureThreshold cb ≤ count r)%nat); [reflexivity|lia]|].
           exists (lastFailure r). split; [reflexivity|lia].
        -- intros (Hopen & _). apply bool_decide_eq_false.
           destruct (decide (failureThreshold cb ≤ count r)%nat); [lia|discriminate].
      * intros _ (t & [= <-] & Ht). lia.
  - split.
    + split; [discriminate|]. intros (Hopen & _). discriminate.
    + intros Hopen. discriminate.
Qed.

Lemma canExecute_refuses_iff_open_and_recent_witness :
  let cb := recordFailures "luma/dream-machine" [1000; 2000; 3000] circuitBreaker in
  fst (canExecute "luma/dream-machine" 63000 cb) = false /\
  fst (canExecute "luma/dream-machine" 63001 cb) = true.
Proof.
  cbn zeta.
  pose proof (canExecute_refuses_iff_open_and_recent
                (recordFailures "luma/dream-machine" [1000; 2000; 3000] circuitBreaker)
                "luma/dream-machine") as H.
  split.
  - apply (proj1 (H 63000)). split; [vm_compute; reflexivity|].
    exists 3000. split; [vm_compute; reflexivity|]. vm_compute. discriminate.
  - apply (proj2 (H 63001)); [vm_compute; reflexivity|].
    exists 3000. split; [vm_compute; reflexivity|]. vm_compute. reflexivity.
Defined.

Lemma spaced_tries_never_open (timeout : Z) (B : string) (tries : list (Z * Z)) :
  forall (cb : CircuitBreaker) (previous : option Z),
  resetTimeout cb = timeout ->
  match previous with
  | Some f => failures cb !! B = Some {| count := 1; lastFailure := f |}
  | None => failures cb !! B = None
  end ->
  spaced timeout previous tries ->
  Forall (fun answer => answer = true) (answers (failingTries B tries) cb) /\
  (failureCount B (run (failingTries B tries) cb) <= 1)%nat.
Proof.
  induction tries as [|[c f] rest IH]; intros cb previous Htimeout Hstate Hspaced.
  - cbn. split; [constructor|]. unfold failureCount.
    destruct previous; rewrite Hstate; cbn; lia.
  - cbn [spaced fst snd] in Hspaced. destruct Hspaced as [Hgap Hrest].
    cbn [failingTries flat_map app answers run foldl step fst snd].
    fold (failingTries B rest). 
    assert (Hcan : canExecute B c cb = (true, setFailures (delete B (failures cb)) cb)).
    { unfold canExecute. destruct previous as [f0|]; rewrite Hstate.
      - cbn [lastFailure]. rewrite Htimeout. case_decide; [reflexivity|lia].
      - f_equal. unfold setFailures. destruct cb as [thr tmo fl]. cbn in *.
        f_equal. symmetry. apply delete_id. exact Hstate. }
    rewrite Hcan. cbn [fst snd].
    set (cb1 := setFailures (delete B (failures cb)) cb).
    assert (Hnone : failures cb1 !! B = None) by apply lookup_delete_eq.
    set (cb2 := snd (recordFailure B f cb1)).
    assert (Hrec : failures cb2 !! B = Some {| count := 1; lastFailure := f |}).
    { unfold cb2, recordFailure. rewrite Hnone. cbn [snd failures setFailures count].
      apply lookup_insert_eq. }
    destruct (IH cb2 (Some f) Htimeout Hrec Hrest) as [Hans Hcount].
    split; [constructor; [reflexivity|exact Hans]|exact Hcount].
Qed.

(** X9. The breaker counts failures only while they follow one
    another within [resetTimeout]: when every try of a backend is
    preceded by its [canExecute] call and starts more than
    [resetTimeout] after the failure before it, every [canExecute]
    answers true and no more than one failure is ever remembered,
    however many tries fail. *)
Theorem slow_failures_never_open_the_breaker
    (cb : CircuitBreaker) (B : string) (tries : list (Z * Z)) :
  failures cb !! B = None ->
  spaced (resetTimeout cb) None tries ->
  Forall (fun answer => answer = true) (answers (failingTries B tries) cb) /\
  (failureCount B (run (failingTries B tries) cb) <= 1)%nat.
Proof.
  intros Hnone Hspaced.
  exact (spaced_tries_never_open (resetTimeout cb) B tries cb None eq_refl Hnone Hspaced).
Qed.

Lemma slow_failures_never_open_the_breaker_witness :
  let tries := [(0, 300000); (360001, 660001); (720002, 1020002); (1080003, 1380003)] in
  Forall (fun answer => answer = true)
    (answers (failingTries "google/veo-3.1-fast" tries) circuitBreaker) /\
  (failureCount "google/veo-3.1-fast"
     (run (failingTries "google/veo-3.1-fast" tries) circuitBreaker) <= 1)%nat.
Proof.
  cbn zeta.
  apply (slow_failures_never_open_the_breaker circuitBreaker "google/veo-3.1-fast").
  - reflexivity.
  - cbn. repeat split; lia.
Defined.

End BreakerMore.

(** ** Video stage: durations, retry hint, clip URL *)

Section VideoMore.
Import Budget Video Stage Text.

Lemma ltb_false_le (x y : Q) : Js.ltb x y = false -> (y <= x)%Q.
Proof.
  intros H. destruct (Qlt_le_dec x y) as [Hlt|Hle]; [|exact Hle].
  apply ltb_spec in Hlt. congruence.
Qed.

Lemma closer_choice (x prev curr : Q) :
  (closer x prev curr = prev \/ closer x prev curr = curr) /\
  (Js.dist (closer x prev curr) x <= Js.dist prev x)%Q /\
  (Js.dist (closer x prev curr) x <= Js.dist curr x)%Q.
Proof.
  unfold closer. destruct (Js.ltb (Js.dist curr x) (Js.dist prev x)) eqn:E.
  - apply ltb_spec in E. split; [auto|]. split; lra.
  - apply ltb_false_le in E. split; [auto|]. split; lra.
Qed.

Lemma foldl_closer_nearest (x : Q) (rest : list Q) :
  forall first,
  foldl (closer x) first rest ∈ first :: rest /\
  Forall (fun p => (Js.dist (foldl (closer x) first rest) x <= Js.dist p x)%Q)
         (first :: rest).
Proof.
  induction rest as [|p rest IH]; intros first; cbn [foldl].
  - split; [constructor|]. repeat constructor. lra.
  - destruct (IH (closer x first p)) as [Hin Hall].
    destruct (closer_choice x first p) as (Hc & Hd1 & Hd2).
    inversion Hall as [|? ? Hhd Htl]; subst.
    split.
    + apply elem_of_cons in Hin as [Hin|Hin].
      * rewrite Hin. destruct Hc as [-> | ->]; [constructor|]. right. constructor.
      * right. right. exact Hin.
    + constructor; [lra|]. constructor; [lra|exact Htl].
Qed.

Lemma known_models (modelName : string) (vm : VideoModel) :
  VIDEO_MODELS modelName = Some vm ->
  (modelName = "google/veo-3.1-fast"%string /\ vm = veo) \/
  (modelName = "luma/dream-machine"%string /\ vm = luma) \/
  (modelName = "stability-ai/svd"%string /\ vm = svd) \/
  (modelName = "anotherjesse/zeroscope-v2-xl"%string /\ vm = zeroscope).
Proof.
  unfold VIDEO_MODELS. repeat case_decide; intros [= <-]; subst; tauto.
Qed.

(** The price table of the budget manager and the table of backends
    agree on the price of a second. *)
Lemma known_model_price (modelName : string) (vm : VideoModel) :
  VIDEO_MODELS modelName = Some vm -> getModelCost modelName = costPerSecond vm.
Proof.
  intros H. destruct (known_models _ _ H) as [[-> ->]|[[-> ->]|[[-> ->]|[-> ->]]]];
    reflexivity.
Qed.

Lemma clamp_bounds (vm : VideoModel) (d : Q) :
  (MIN_DURATION <= maxDuration vm)%Q ->
  (MIN_DURATION <= clampDuration vm d)%Q /\ (clampDuration vm d <= maxDuration vm)%Q.
Proof.
  intros Hm. unfold clampDuration. split.
  - apply Q.min_glb; [apply Q.le_max_r | exact Hm].
  - apply Q.le_min_r.
Qed.

Lemma clamp_inside (vm : VideoModel) (d : Q) :
  (MIN_DURATION <= d)%Q -> (d <= maxDuration vm)%Q -> (clampDuration vm d == d)%Q.
Proof.
  intros H4 Hd. unfold clampDuration.
  rewrite (Q.max_l d MIN_DURATION) by exact H4. apply Q.min_l. exact Hd.
Qed.

Lemma veo_snaps_to_member (d : Q) :
  exists a, actualDuration veo d = Some a /\ (a = 4%Q \/ a = 6%Q \/ a = 8%Q).
Proof.
  unfold actualDuration. cbn [allowedDurations veo closestAllowed].
  destruct (foldl_closer_nearest (clampDuration veo d) [6%Q; 8%Q] 4%Q) as [Hin _].
  eexists. split; [reflexivity|].
  repeat (apply elem_of_cons in Hin as [Hin|Hin]; [tauto|]).
  apply elem_of_nil in Hin. contradiction.
Qed.

(** X11. For every backend of [VIDEO_MODELS] and every requested
    duration the video stage computes a duration, between
    [MIN_DURATION] = 4 and the [maxDuration] of the backend; a request
    already in that range is kept by the backends without a list of
    permitted durations, and for "google/veo-3.1-fast" the result is
    one of 4, 6, 8.  The clip it prices never costs more than 0.30. *)
Theorem actualDuration_within_model_range (modelName : string) (vm : VideoModel) (d : Q) :
  VIDEO_MODELS modelName = Some vm ->
  exists a,
    actualDuration vm d = Some a /\
    (MIN_DURATION <= a)%Q /\ (a <= maxDuration vm)%Q /\
    (allowedDurations vm = None -> (MIN_DURATION <= d)%Q -> (d <= maxDuration vm)%Q ->
     (a == d)%Q) /\
    (vm = veo -> a = 4%Q \/ a = 6%Q \/ a = 8%Q) /\
    (costPerSecond vm * a <= 0.30)%Q.
Proof.
  intros Hknown.
  destruct (known_models _ _ Hknown) as [[_ ->]|[[_ ->]|[[_ ->]|[_ ->]]]].
  - destruct (veo_snaps_to_member d) as (a & Ha & Hmem).
    exists a. split; [exact Ha|].
    cbn [maxDuration allowedDurations costPerSecond veo]. unfold MIN_DURATION.
    destruct Hmem as [-> | [-> | ->]];
      (split; [discriminate|]); (split; [discriminate|]);
      (split; [discriminate|]); (split; [tauto|discriminate]).
  - destruct (clamp_bounds luma d) as [Hlo Hhi]; [discriminate|].
    exists (clampDuration luma d). split; [reflexivity|].
    split; [exact Hlo|]. split; [exact Hhi|].
    split; [intros _; apply clamp_inside|]. split; [discriminate|].
    cbn [maxDuration costPerSecond luma] in *. unfold MIN_DURATION in Hlo. lra.
  - destruct (clamp_bounds svd d) as [Hlo Hhi]; [discriminate|].
    exists (clampDuration svd d). split; [reflexivity|].
    split; [exact Hlo|]. split; [exact Hhi|].
    split; [intros _; apply clamp_inside|]. split; [discriminate|].
    cbn [maxDuration costPerSecond svd] in *. unfold MIN_DURATION in Hlo. lra.
  - destruct (clamp_bounds zeroscope d) as [Hlo Hhi]; [discriminate|].
    exists (clampDuration zeroscope d). split; [reflexivity|].
    split; [exact Hlo|]. split; [exact Hhi|].
    split; [intros _; apply clamp_inside|]. split; [discriminate|].
    cbn [maxDuration costPerSecond zeroscope] in *. unfold MIN_DURATION in Hlo. lra.
Qed.

Lemma actualDuration_within_model_range_witness :
  exists a, actualDuration luma 45 = Some a /\ (a <= 30)%Q.
Proof.
  destruct (actualDuration_within_model_range "luma/dream-machine" luma 45 eq_refl)
    as (a & Ha & _ & Hhi & _).
  exists a. split; [exact Ha|exact Hhi].
Defined.

End VideoMore.

(** ** Video stage: snapping on doubles *)

Section Snapping.
Import Double.

Lemma ltb_asym (a b : number) : ltb a b = true -> ltb b a = false.
Proof.
  destruct a as [x| | |], b as [y| | |]; cbn; try congruence.
  rewrite negb_true_iff, negb_false_iff, Qle_bool_false, Qle_bool_iff. lra.
Qed.

Lemma foldl_closer_least (x : number) (rest : list number) :
  forall first,
  let r := foldl (closer x) first rest in
  r ∈ first :: rest /\
  (r = first \/ ltb (distance r x) (distance first x) = true) /\
  Forall (fun p => ltb (distance p x) (distance r x) = false) (first :: rest).
Proof.
  induction rest as [|p rest IH]; intros first; cbn [foldl]; cbn zeta.
  - split; [left|]. split; [left; reflexivity|].
    repeat constructor. apply ltb_irrefl.
  - destruct (IH (closer x first p)) as (Hin & Hfirst & Hall). cbn zeta in *.
    set (r := foldl (closer x) (closer x first p) rest) in *.
    apply Forall_cons in Hall as [Hc Hrest].
    unfold closer in Hin, Hfirst, Hc.
    destruct (ltb (distance p x) (distance first x)) eqn:E.
    + assert (Hr : ltb (distance r x) (distance first x) = true).
      { destruct Hfirst as [->|Hlt]; [exact E|]. exact (ltb_trans _ _ _ Hlt E). }
      split; [right; exact Hin|]. split; [right; exact Hr|].
      constructor; [apply ltb_asym; exact Hr|]. constructor; assumption.
    + split; [apply elem_of_cons in Hin as [Hin|Hin]; [rewrite Hin; left|right; right; exact Hin]|].
      split; [exact Hfirst|].
      constructor; [exact Hc|]. constructor; [|exact Hrest].
      destruct Hfirst as [->|Hlt]; [exact E|].
      destruct (ltb (distance p x) (distance r x)) eqn:E'; [|reflexivity].
      rewrite (ltb_trans _ _ _ E' Hlt) in E. discriminate.
Qed.

(** What rounding yields is in lowest terms. *)
Lemma round64_canonical (s v : Q) : round64 s = Finite v -> Qred v = v.
Proof.
  unfold round64. destruct (s ?= 0)%Q.
  - intros [= <-]. reflexivity.
  - destruct (Qle_bool _ _); [discriminate|]. intros [= <-]. apply Qred_idem.
  - destruct (Qle_bool _ _); [discriminate|]. intros [= <-]. apply Qred_idem.
Qed.

Lemma round64_merged (s s' : Q) :
  (s <= s')%Q -> ltb (round64 s) (round64 s') = false -> round64 s = round64 s'.
Proof.
  intros Hle Hlt. pose proof (round64_mono _ _ Hle) as Hm.
  destruct (round64 s) as [u| | |] eqn:Eu, (round64 s') as [v| | |] eqn:Ev;
    try discriminate; try reflexivity.
  apply leb_finite in Hm. cbn in Hlt. rewrite negb_false_iff in Hlt.
  apply Qle_bool_iff in Hlt.
  rewrite <- (round64_canonical _ _ Eu), <- (round64_canonical _ _ Ev).
  f_equal. apply Qred_complete. lra.
Qed.

(** X10. On a list of permitted durations that is not empty the
    [reduce] of the engine returns a member of the list, and no
    permitted duration has a smaller distance to the request as
    JavaScript computes the distances.  A permitted duration that is
    nearer to the request in exact arithmetic has the same computed
    distance as the one returned: rounding has merged the two.  On an
    empty list the [reduce] has no result. *)
Theorem closestAllowed_is_nearest (allowed : list number) (x : number) :
  (allowed = [] -> closestAllowed allowed x = None) /\
  (allowed <> [] ->
   exists r, closestAllowed allowed x = Some r /\ r ∈ allowed /\
             Forall (fun p => ltb (distance p x) (distance r x) = false) allowed /\
             forall a b c, Finite a ∈ allowed -> r = Finite b -> x = Finite c ->
                           (Qabs (a - c) < Qabs (b - c))%Q ->
                           distance (Finite a) x = distance r x).
Proof.
  split; [intros ->; reflexivity|].
  intros Hne. destruct allowed as [|first rest]; [contradiction|].
  cbn [closestAllowed]. eexists. split; [reflexivity|].
  destruct (foldl_closer_least x rest first) as (Hin & _ & Hall). cbn zeta in *.
  split; [exact Hin|]. split; [exact Hall|].
  intros a b c Ha Hb Hc Hnear.
  rewrite Forall_forall in Hall. specialize (Hall _ Ha).
  rewrite Hb, Hc, !distance_finite in *.
  apply round64_merged; [lra|exact Hall].
Qed.

Lemma closestAllowed_is_nearest_witness :
  let far := literal 100000000000000000 in
  closestAllowed veoDurations far = Some (Finite 4) /\
  distance (Finite 8) far = distance (Finite 4) far /\
  exists c, far = Finite c /\ (Qabs (8 - c) < Qabs (4 - c))%Q.
Proof.
  cbn zeta.
  destruct (proj2 (closestAllowed_is_nearest veoDurations (literal 100000000000000000))
              ltac:(discriminate)) as (r & Hr & _ & _ & Hmerged).
  assert (E : r = Finite 4) by (revert Hr; vm_compute; congruence).
  split; [rewrite Hr, E; reflexivity|].
  split.
  - rewrite <- E. apply (Hmerged 8%Q 4%Q 100000000000000000%Q).
    + unfold veoDurations. repeat constructor.
    + exact E.
    + vm_compute. reflexivity.
    + vm_compute. reflexivity.
  - eexists. split; [vm_compute; reflexivity|]. vm_compute. reflexivity.
Defined.

End Snapping.

(** ** Video stage: what a run spends *)

Section StageLedger.
Import Budget Circuit Video Stage Ledger.

Context (env : Env) (prompt : string) (requested : Q).

Lemma checkRateLimit_cost (service : Service) (identifier : string) (now : Z)
    (bm : BudgetManager) :
  currentCost (snd (checkRateLimit service identifier now bm)) = currentCost bm.
Proof.
  unfold checkRateLimit. destruct (rateLimiter service bm !! identifier); cbn zeta;
    repeat case_decide; destruct service; reflexivity.
Qed.

Lemma canExecute_keeps_world (modelName : string) (w : World) :
  spent (setBreaker (snd (canExecute modelName (clock w) (breaker w))) w) = spent w.
Proof. reflexivity. Qed.

Lemma failedTurn_spent (modelName : string) (errors : list ErrorEntry) (text : string)
    (w : World) :
  exists errors' w',
    failedTurn modelName errors text w = (Continue errors', w') /\
    spent w' = spent w /\ trace w' = trace w /\ clock w' = clock w.
Proof.
  unfold failedTurn. destruct (recordFailure modelName (clock w) (breaker w)) as [n cb].
  eexists _, _. split; [reflexivity|]. repeat split.
Qed.

(** The call itself, once the budget test has passed. *)
Lemma callBackend_charged (actual : Q) (modelName : string) (vm : VideoModel) (w : World) :
  VIDEO_MODELS modelName = Some vm ->
  Js.ltb (remaining (getBudgetStatus (budget w))) (costPerSecond vm * actual)%Q = false ->
  match fst (callBackend env prompt actual modelName vm w) with
  | Return r =>
      model r = modelName /\ duration r = actual /\
      (spent (snd (callBackend env prompt actual modelName vm w))
       == spent w + actual * costPerSecond vm)%Q /\
      (spent (snd (callBackend env prompt actual modelName vm w)) <= MAX_BUDGET)%Q
  | Throw _ => spent (snd (callBackend env prompt actual modelName vm w)) = spent w
  end.
Proof.
  intros Hknown Hfits. apply ltb_false_le in Hfits. cbn [getBudgetStatus remaining] in Hfits.
  pose proof (known_model_price _ _ Hknown) as Hprice.
  unfold callBackend. cbn zeta.
  destruct (if bool_decide (MODEL_TIMEOUT_MS <= latency _) then _ else _) as [output|msg];
    [|reflexivity].
  destruct (extractVideoUrl output) as [url|]; [|reflexivity].
  unfold trackReplicateCost, trackCost. cbn [currentCost].
  destruct (Js.gtb _ _) eqn:E.
  - apply gtb_spec in E. cbn [elapse budget] in E. rewrite Hprice in E. lra.
  - cbn [fst snd model duration spent setBreaker setBudget budget currentCost elapse].
    rewrite Hprice. split; [reflexivity|]. split; [reflexivity|]. split; [reflexivity|]. lra.
Qed.

Lemma charged_from (w0 w : World) (res : completion VideoResult) (w' : World) :
  spent w = spent w0 -> charged requested w res w' -> charged requested w0 res w'.
Proof. unfold charged. intros ->. tauto. Qed.

Lemma handleFailure_charged
    (retry : option (string -> World -> completion VideoResult * World))
    (modelName : string) (errors : list ErrorEntry) (message : string) (w : World) :
  chargedRetry requested retry ->
  chargedTurn requested w (fst (handleFailure env retry modelName errors message w))
                          (snd (handleFailure env retry modelName errors message w)).
Proof.
  intros Hretry. unfold handleFailure.
  destruct (Js.includes "Budget exceeded" message); [reflexivity|].
  destruct (_ || _ || _).
  { destruct (failedTurn_spent modelName errors creditMessage w) as (e & w' & -> & H & _).
    exact H. }
  destruct (_ || _).
  2:{ destruct (failedTurn_spent modelName errors message w) as (e & w' & -> & H & _).
      exact H. }
  destruct retry as [again|].
  2:{ destruct (failedTurn_spent modelName errors
                  (rateLimitedMessage (extractRetryTime message)) w) as (e & w' & -> & H & _).
      exact H. }
  cbn zeta. destruct (abortedAt env _); [reflexivity|].
  pose proof (Hretry modelName (wait (extractRetryTime message + 1) w)) as Hagain.
  destruct (again modelName (wait (extractRetryTime message + 1) w)) as [[r|retryMessage] w1].
  - exact Hagain.
  - cbn [fst snd charged] in Hagain.
    destruct (failedTurn_spent modelName errors retryMessage w1) as (e & w' & -> & H & _).
    cbn [fst snd chargedTurn]. rewrite H. exact Hagain.
Qed.

Lemma attempt_charged
    (retry : option (string -> World -> completion VideoResult * World))
    (modelName : string) (vm : VideoModel) (errors : list ErrorEntry) (w : World) :
  VIDEO_MODELS modelName = Some vm ->
  chargedRetry requested retry ->
  chargedTurn requested w
    (fst (attempt env retry prompt requested modelName vm errors w))
    (snd (attempt env retry prompt requested modelName vm errors w)).
Proof.
  intros Hknown Hretry. unfold attempt.
  destruct (abortedAt env (clock w)); [reflexivity|].
  destruct (canExecute modelName (clock w) (breaker w)) as [permitted cb].
  destruct permitted; cbn [negb]; [|reflexivity].
  pose proof (checkRateLimit_cost replicate modelName (clock (setBreaker cb w))
                (budget (setBreaker cb w))) as Hcost.
  destruct (checkRateLimit replicate modelName (clock (setBreaker cb w))
              (budget (setBreaker cb w))) as [[|reason retryAfter] bm]; cbn [snd] in Hcost.
  2:{ exact Hcost. }
  destruct (actualDuration vm requested) as [actual|] eqn:Hactual; [|exact Hcost].
  destruct (Js.ltb _ _) eqn:Hfits; [exact Hcost|].
  pose proof (callBackend_charged actual modelName vm (setBudget bm (setBreaker cb w))
                Hknown Hfits) as Hcall.
  destruct (callBackend env prompt actual modelName vm (setBudget bm (setBreaker cb w)))
    as [[r|message] w1]; cbn [fst snd] in Hcall.
  - destruct Hcall as (Hm & Hd & Hs & Hmax). cbn [fst snd chargedTurn charged].
    exists vm. rewrite Hm, Hd. split; [exact Hknown|]. split; [exact Hactual|].
    split; [|exact Hmax]. rewrite Hs. unfold spent. cbn [setBudget budget]. rewrite Hcost.
    reflexivity.
  - pose proof (handleFailure_charged retry modelName errors message w1 Hretry) as Hh.
    destruct (handleFailure env retry modelName errors message w1) as [[errs|res] w2];
      cbn [fst snd chargedTurn] in *.
    + rewrite Hh, Hcall. exact Hcost.
    + apply (charged_from w w1); [|exact Hh]. rewrite Hcall. exact Hcost.
Qed.

Lemma enabledModels_known (chain : list string) :
  Forall (fun entry => VIDEO_MODELS (fst entry) = Some (snd entry)) (enabledModels chain).
Proof.
  unfold enabledModels. induction chain as [|m chain IH]; cbn [omap list_omap]; [constructor|].
  destruct (VIDEO_MODELS m) as [vm|] eqn:E; [|exact IH].
  destruct (enabled vm); [|exact IH]. constructor; [exact E|exact IH].
Qed.

Lemma tryModels_charged
    (retry : option (string -> World -> completion VideoResult * World))
    (models : list (string * VideoModel)) :
  Forall (fun entry => VIDEO_MODELS (fst entry) = Some (snd entry)) models ->
  chargedRetry requested retry ->
  forall errors w,
  charged requested w (fst (tryModels env retry prompt requested models errors w))
                      (snd (tryModels env retry prompt requested models errors w)).
Proof.
  intros Hknown Hretry. induction Hknown as [|[modelName vm] rest Hhd Htl IH]; intros errors w.
  - reflexivity.
  - cbn [tryModels]. cbn [fst snd] in Hhd.
    pose proof (attempt_charged retry modelName vm errors w Hhd Hretry) as Hturn.
    destruct (attempt env retry prompt requested modelName vm errors w) as [[errs|res] w1];
      cbn [fst snd chargedTurn] in Hturn.
    + apply (charged_from w w1); [exact Hturn|]. apply IH.
    + exact Hturn.
Qed.

Lemma generateSceneVideoFrom_charged (retriesLeft : nat) :
  forall modelChain w,
  charged requested w
    (fst (generateSceneVideoFrom env retriesLeft prompt requested modelChain w))
    (snd (generateSceneVideoFrom env retriesLeft prompt requested modelChain w)).
Proof.
  induction retriesLeft as [|n IH]; intros modelChain w.
  - cbn [generateSceneVideoFrom].
    pose proof (enabledModels_known (default DEFAULT_CHAIN modelChain)) as Hknown.
    destruct (enabledModels (default DEFAULT_CHAIN modelChain)) as [|entry rest];
      [reflexivity|].
    destruct (abortedAt env (clock w)); [reflexivity|].
    apply tryModels_charged; [exact Hknown|exact I].
  - cbn [generateSceneVideoFrom].
    pose proof (enabledModels_known (default DEFAULT_CHAIN modelChain)) as Hknown.
    destruct (enabledModels (default DEFAULT_CHAIN modelChain)) as [|entry rest];
      [reflexivity|].
    destruct (abortedAt env (clock w)); [reflexivity|].
    apply tryModels_charged; [exact Hknown|].
    intros modelName w0. apply IH.
Qed.

(** X12. Take a run of [generateSceneVideo] that has the budget
    manager and the circuit breaker to itself: nothing else acts on
    them while the run waits for a backend (so it is in the sequential
    loops of [createMovie] when no other request is served; with two
    scenes [createMovie] interleaves two runs, which is not this case,
    see [budget_race_between_two_runs]).
    Whatever the backends answer, such a run, if it throws, has charged
    nothing, and if it delivers a clip, has charged that clip once, at
    the price per second of the backend that delivered it and for the
    duration computed for that backend, the spend staying at or under
    [MAX_BUDGET]. *)
Theorem stage_charges_the_delivered_clip_only
    (modelChain : option (list string)) (retryCount : nat) (w : World) :
  match generateSceneVideo env prompt requested modelChain retryCount w with
  | (Return r, w') =>
      exists vm, VIDEO_MODELS (model r) = Some vm /\
                 actualDuration vm requested = Some (duration r) /\
                 (currentCost (budget w') ==
                  currentCost (budget w) + duration r * costPerSecond vm)%Q /\
                 (currentCost (budget w') <= MAX_BUDGET)%Q
  | (Throw _, w') => currentCost (budget w') = currentCost (budget w)
  end.
Proof.
  unfold generateSceneVideo.
  pose proof (generateSceneVideoFrom_charged (MAX_RETRIES - retryCount) modelChain w) as H.
  destruct (generateSceneVideoFrom env (MAX_RETRIES - retryCount) prompt requested modelChain w)
    as [[r|msg] w']; exact H.
Qed.

End StageLedger.

(** ** Video stage: two runs on one budget manager *)

Section SharedBudget.
Import Budget Circuit Video Stage.

(** With nothing else acting on the singletons the shared [try] block
    is the one of [Stage]. *)
Lemma callBackend_alone (env : Env) (prompt : string) (actual : Q) (modelName : string)
    (vm : VideoModel) (w : World) :
  Shared.callBackend env (fun w => w) prompt actual modelName vm w =
  Stage.callBackend env prompt actual modelName vm w.
Proof. reflexivity. Qed.

(** Two scene tasks of the parallel path on a budget at 4.90, each
    with a clip of ten seconds of stability-ai/svd: this one passes the
    budget test, the other is charged while this one awaits the
    backend, and this one then throws the budget error with its own
    charge stored. *)
Lemma budget_race_between_two_runs :
  let w := Shared.nearCeiling in
  let others := Shared.otherClip 10 "stability-ai/svd" in
  let run := Shared.callBackend throttledLuma others "a prompt" 10 "stability-ai/svd" svd w in
  Js.ltb (remaining (getBudgetStatus (budget w))) (costPerSecond svd * 10)%Q = false /\
  (exists message, fst run = Throw message /\ Js.includes "Budget exceeded" message = true) /\
  (currentCost (budget (snd run)) ==
   currentCost (budget w) + 10 * costPerSecond svd + 10 * costPerSecond svd)%Q /\
  (MAX_BUDGET < currentCost (budget (snd run)))%Q.
Proof.
  cbn zeta. split; [vm_compute; reflexivity|]. split; [|split].
  - eexists. split; [vm_compute; reflexivity|]. vm_compute. reflexivity.
  - vm_compute. reflexivity.
  - vm_compute. reflexivity.
Qed.

End SharedBudget.

(** ** Video stage: the retry hint read from an error message *)

Section RetryHint.
Import Video Text.

Lemma afterLiteral_digit (lit : string) :
  forall s r, afterLiteral lit s = Some r -> hasDigit r = true -> hasDigit s = true.
Proof.
  induction lit as [|a lit IH]; intros s r Hafter Hr.
  - destruct s; cbn [afterLiteral] in Hafter; injection Hafter as <-; exact Hr.
  - destruct s as [|b s]; cbn [afterLiteral] in Hafter; [discriminate|].
    destruct (decide (lower a = lower b)); [|discriminate].
    cbn [hasDigit]. rewrite (IH s r Hafter Hr). apply orb_true_r.
Qed.

Lemma skipWhile_digit (p : ascii -> bool) (s : string) :
  hasDigit (skipWhile p s) = true -> hasDigit s = true.
Proof.
  induction s as [|c s IH]; cbn [skipWhile]; [auto|].
  destruct (p c); [|auto]. intros H. cbn [hasDigit]. rewrite (IH H). apply orb_true_r.
Qed.

Lemma spaces1_digit (s r : string) :
  spaces1 s = Some r -> hasDigit r = true -> hasDigit s = true.
Proof.
  destruct s as [|c s]; cbn [spaces1]; [discriminate|].
  destruct (isSpace c); [|discriminate]. intros [= <-] H.
  cbn [hasDigit]. rewrite (skipWhile_digit _ _ H). apply orb_true_r.
Qed.

Lemma digits1_digit (s : string) (x : N * string) :
  digits1 s = Some x -> hasDigit s = true.
Proof.
  destruct s as [|c s]; cbn [digits1]; [discriminate|].
  destruct (isDigit c) eqn:E; [|discriminate]. intros _. cbn [hasDigit]. rewrite E. reflexivity.
Qed.

Lemma digits1_fst_digit (s : string) (n : N) :
  option_map fst (digits1 s) = Some n -> hasDigit s = true.
Proof.
  destruct (digits1 s) as [x|] eqn:E; [|discriminate]. intros _. exact (digits1_digit s x E).
Qed.

Lemma retryAfterKeyAt_digit (s : string) (n : N) :
  retryAfterKeyAt s = Some n -> hasDigit s = true.
Proof.
  unfold retryAfterKeyAt. destruct (afterLiteral "retry_after" s) as [r|] eqn:E; [|discriminate].
  intros H. apply digits1_fst_digit in H. apply skipWhile_digit in H.
  exact (afterLiteral_digit _ _ _ E H).
Qed.

Lemma waitSecondsAt_digit (s : string) (n : N) :
  waitSecondsAt s = Some n -> hasDigit s = true.
Proof.
  unfold waitSecondsAt. destruct (afterLiteral "wait" s) as [r|] eqn:E; [|discriminate].
  destruct (spaces1 r) as [r1|] eqn:E1; [|discriminate].
  destruct (digits1 r1) as [x|] eqn:E2; [|discriminate].
  intros _. apply (afterLiteral_digit _ _ _ E). apply (spaces1_digit _ _ E1).
  exact (digits1_digit _ _ E2).
Qed.

Lemma retryAfterWordsAt_digit (s : string) (n : N) :
  retryAfterWordsAt s = Some n -> hasDigit s = true.
Proof.
  unfold retryAfterWordsAt. destruct (afterLiteral "retry" s) as [r|] eqn:E; [|discriminate].
  destruct (spaces1 r) as [r1|] eqn:E1; [|discriminate].
  destruct (afterLiteral "after" r1) as [r2|] eqn:E2; [|discriminate].
  destruct (spaces1 r2) as [r3|] eqn:E3; [|discriminate].
  intros H. apply digits1_fst_digit in H.
  apply (afterLiteral_digit _ _ _ E). apply (spaces1_digit _ _ E1).
  apply (afterLiteral_digit _ _ _ E2). exact (spaces1_digit _ _ E3 H).
Qed.

Lemma search_digit (re : string -> option N) :
  (forall s n, re s = Some n -> hasDigit s = true) ->
  forall s n, search re s = Some n -> hasDigit s = true.
Proof.
  intros Hre. induction s as [|c s IH]; intros n; cbn [search].
  - destruct (re EmptyString) as [k|] eqn:E; [|discriminate]. intros _. exact (Hre _ _ E).
  - destruct (re (String c s)) as [k|] eqn:E.
    + intros _. exact (Hre _ _ E).
    + intros H. cbn [hasDigit]. rewrite (IH n H). apply orb_true_r.
Qed.

(** X13. [extractRetryTime] never returns a negative number of
    seconds, and on a message without any decimal digit it returns its
    default of 10. *)
Theorem extractRetryTime_defaults_to_ten (errorMessage : string) :
  0 <= extractRetryTime errorMessage /\
  (hasDigit errorMessage = false -> extractRetryTime errorMessage = 10).
Proof.
  unfold extractRetryTime. split.
  - destruct (search retryAfterKeyAt errorMessage); [lia|].
    destruct (search waitSecondsAt errorMessage); [lia|].
    destruct (search retryAfterWordsAt errorMessage); lia.
  - intros Hno.
    destruct (search retryAfterKeyAt errorMessage) as [n|] eqn:E1.
    { apply (search_digit _ retryAfterKeyAt_digit) in E1. congruence. }
    destruct (search waitSecondsAt errorMessage) as [n|] eqn:E2.
    { apply (search_digit _ waitSecondsAt_digit) in E2. congruence. }
    destruct (search retryAfterWordsAt errorMessage) as [n|] eqn:E3.
    { apply (search_digit _ retryAfterWordsAt_digit) in E3. congruence. }
    reflexivity.
Qed.

Lemma extractRetryTime_defaults_to_ten_witness :
  extractRetryTime "Too Many Requests: retry after a while" = 10.
Proof.
  apply (extractRetryTime_defaults_to_ten "Too Many Requests: retry after a while").
  reflexivity.
Defined.

End RetryHint.

(** ** Video stage: how often a run calls the backends *)

Section StageCalls.
Import Budget Circuit Video Stage Ledger.

Context (env : Env) (prompt : string) (requested : Q).

Lemma extends_refl (bound : string -> nat) (w w' : World) :
  trace w' = trace w -> extends bound w w'.
Proof.
  intros H. exists []. rewrite app_nil_r. split; [exact H|]. intros m. cbn. lia.
Qed.

Lemma occurrences_app (m : string) (l l' : list string) :
  occurrences m (l ++ l') = (occurrences m l + occurrences m l')%nat.
Proof. unfold occurrences. rewrite filter_app, length_app. reflexivity. Qed.

Lemma occurrences_cons (m x : string) (l : list string) :
  occurrences m (x :: l) = ((if decide (x = m) then 1 else 0) + occurrences m l)%nat.
Proof. unfold occurrences. rewrite filter_cons. destruct (decide (x = m)); reflexivity. Qed.

Lemma callsOf_app (m : string) (evs evs' : list Event) :
  callsOf m (evs ++ evs') = (callsOf m evs + callsOf m evs')%nat.
Proof. unfold callsOf, calledModels. rewrite omap_app. apply occurrences_app. Qed.

Lemma extends_trans (bound bound' : string -> nat) (w w1 w2 : World) :
  extends bound w w1 -> extends bound' w1 w2 ->
  extends (fun m => bound m + bound' m)%nat w w2.
Proof.
  intros (evs & Ht & Hb) (evs' & Ht' & Hb').
  exists (evs ++ evs'). rewrite Ht', Ht, app_assoc. split; [reflexivity|].
  intros m. rewrite callsOf_app. specialize (Hb m). specialize (Hb' m). lia.
Qed.

Lemma extends_weaken (bound bound' : string -> nat) (w w' : World) :
  (forall m, bound m <= bound' m)%nat -> extends bound w w' -> extends bound' w w'.
Proof.
  intros Hle (evs & Ht & Hb). exists evs. split; [exact Ht|].
  intros m. specialize (Hb m). specialize (Hle m). lia.
Qed.

Lemma callBackend_extends (actual : Q) (modelName : string) (vm : VideoModel) (w : World) :
  extends (only modelName 1) w (snd (callBackend env prompt actual modelName vm w)).
Proof.
  exists [EvCall modelName (buildInput vm prompt actual DEFAULT_FPS ASPECT_RATIO) (clock w)].
  split.
  - unfold callBackend. cbn zeta.
    destruct (if bool_decide (MODEL_TIMEOUT_MS <= latency _) then _ else _) as [output|msg];
      [|reflexivity].
    destruct (extractVideoUrl output) as [url|]; [|reflexivity].
    destruct (trackReplicateCost _ _ _) as [[c|msg] bm]; reflexivity.
  - intros m. unfold callsOf, calledModels, only. cbn [omap list_omap].
    rewrite occurrences_cons. cbn.
    destruct (decide (modelName = m)) as [->|Hne].
    + destruct (decide (m = m)); [lia|contradiction].
    + destruct (decide (m = modelName)); [congruence|lia].
Qed.

Lemma failedTurn_extends (bound : string -> nat) (modelName : string)
    (errors : list ErrorEntry) (text : string) (w : World) :
  extends bound w (snd (failedTurn modelName errors text w)).
Proof.
  destruct (failedTurn_spent modelName errors text w) as (e & w' & -> & _ & Ht & _).
  apply extends_refl. exact Ht.
Qed.

Lemma only_plus (modelName : string) (j k : nat) (m : string) :
  (only modelName j m + only modelName k m)%nat = only modelName (j + k) m.
Proof. unfold only. destruct (decide (m = modelName)); lia. Qed.

Lemma handleFailure_extends (k : nat)
    (retry : option (string -> World -> completion VideoResult * World))
    (modelName : string) (errors : list ErrorEntry) (message : string) (w : World) :
  boundedRetry k retry ->
  extends (only modelName (retryCalls k retry)) w
          (snd (handleFailure env retry modelName errors message w)).
Proof.
  intros Hretry. unfold handleFailure.
  destruct (Js.includes "Budget exceeded" message).
  { apply extends_refl. reflexivity. }
  destruct (_ || _ || _); [apply failedTurn_extends|].
  destruct (_ || _); [|apply failedTurn_extends].
  destruct retry as [again|]; [|apply failedTurn_extends].
  cbn zeta. cbn [retryCalls].
  assert (Hwait : extends (only modelName 0) w (wait (extractRetryTime message + 1) w)).
  { exists [EvWait (extractRetryTime message + 1)]. split; [reflexivity|].
    intros m. cbn. lia. }
  destruct (abortedAt env _).
  { refine (extends_weaken _ _ _ _ _ Hwait). intros m. unfold only.
    destruct (decide (m = modelName)); lia. }
  pose proof (Hretry modelName (wait (extractRetryTime message + 1) w)) as Hagain.
  destruct (again modelName (wait (extractRetryTime message + 1) w)) as [[r|retryMessage] w1];
    cbn [snd] in *.
  - refine (extends_weaken _ _ _ _ _ (extends_trans _ _ _ _ _ Hwait Hagain)).
    intros m. rewrite only_plus. cbn [Nat.add]. lia.
  - pose proof (failedTurn_extends (only modelName 0) modelName errors retryMessage w1)
      as Hfail.
    refine (extends_weaken _ _ _ _ _
              (extends_trans _ _ _ _ _ (extends_trans _ _ _ _ _ Hwait Hagain) Hfail)).
    intros m. rewrite !only_plus. cbn [Nat.add]. rewrite Nat.add_0_r. lia.
Qed.

Lemma attempt_extends (k : nat)
    (retry : option (string -> World -> completion VideoResult * World))
    (modelName : string) (vm : VideoModel) (errors : list ErrorEntry) (w : World) :
  boundedRetry k retry ->
  extends (only modelName (S (retryCalls k retry))) w
          (snd (attempt env retry prompt requested modelName vm errors w)).
Proof.
  intros Hretry. unfold attempt.
  destruct (abortedAt env (clock w)); [apply extends_refl; reflexivity|].
  destruct (canExecute modelName (clock w) (breaker w)) as [permitted cb].
  destruct permitted; cbn [negb]; [|apply extends_refl; reflexivity].
  destruct (checkRateLimit replicate modelName (clock (setBreaker cb w))
              (budget (setBreaker cb w))) as [[|reason retryAfter] bm];
    [|apply extends_refl; reflexivity].
  destruct (actualDuration vm requested) as [actual|]; [|apply extends_refl; reflexivity].
  destruct (Js.ltb _ _); [apply extends_refl; reflexivity|].
  pose proof (callBackend_extends actual modelName vm (setBudget bm (setBreaker cb w))) as Hcall.
  destruct (callBackend env prompt actual modelName vm (setBudget bm (setBreaker cb w)))
    as [[r|message] w1]; cbn [snd] in Hcall.
  - cbn [snd]. refine (extends_weaken _ _ _ _ _ Hcall). intros m. unfold only.
    destruct (decide (m = modelName)); lia.
  - pose proof (handleFailure_extends k retry modelName errors message w1 Hretry) as Hh.
    destruct (handleFailure env retry modelName errors message w1) as [c w2]; cbn [snd] in *.
    refine (extends_weaken _ _ _ _ _ (extends_trans _ _ w w1 w2 Hcall Hh)).
    intros m. rewrite only_plus. cbn [Nat.add]. lia.
Qed.

Lemma tryModels_extends (k : nat)
    (retry : option (string -> World -> completion VideoResult * World))
    (models : list (string * VideoModel)) :
  boundedRetry k retry ->
  forall errors w,
  extends (fun m => S (retryCalls k retry) * occurrences m (map fst models))%nat w
          (snd (tryModels env retry prompt requested models errors w)).
Proof.
  intros Hretry. induction models as [|[modelName vm] rest IH]; intros errors w.
  - apply extends_refl. reflexivity.
  - cbn [tryModels].
    pose proof (attempt_extends k retry modelName vm errors w Hretry) as Hturn.
    assert (Hone : forall m,
              (only modelName (S (retryCalls k retry)) m +
               S (retryCalls k retry) * occurrences m (map fst rest) <=
               S (retryCalls k retry) * occurrences m (map fst ((modelName, vm) :: rest)))%nat).
    { intros m. cbn [map fst]. rewrite occurrences_cons. unfold only.
      destruct (decide (m = modelName)) as [->|Hne].
      - destruct (decide (modelName = modelName)); [lia|contradiction].
      - destruct (decide (modelName = m)); [congruence|lia]. }
    destruct (attempt env retry prompt requested modelName vm errors w) as [[errs|res] w1];
      cbn [snd] in Hturn.
    + refine (extends_weaken _ _ _ _ Hone (extends_trans _ _ _ _ _ Hturn (IH errs w1))).
    + cbn [snd]. refine (extends_weaken _ _ _ _ _ Hturn).
      intros m. specialize (Hone m). lia.
Qed.

Lemma enabledModels_single (modelName m : string) :
  (occurrences m (map fst (enabledModels [modelName])) <= only modelName 1 m)%nat.
Proof.
  unfold enabledModels, only. cbn [omap list_omap].
  destruct (VIDEO_MODELS modelName) as [vm|]; [destruct (enabled vm)|]; cbn [map fst];
    try (cbn; lia).
  rewrite occurrences_cons. cbn.
  destruct (decide (modelName = m)) as [->|Hne].
  - destruct (decide (m = m)); [lia|contradiction].
  - destruct (decide (m = modelName)); [congruence|lia].
Qed.

Lemma enabledModels_sub (chain : list string) (m : string) :
  (occurrences m (map fst (enabledModels chain)) <= occurrences m chain)%nat /\
  (VIDEO_MODELS m = None -> occurrences m (map fst (enabledModels chain)) = 0%nat).
Proof.
  unfold enabledModels. induction chain as [|x chain [IHle IHnone]]; cbn [omap list_omap].
  - split; [cbn; lia|reflexivity].
  - rewrite (occurrences_cons m x chain).
    destruct (VIDEO_MODELS x) as [vm|] eqn:E; [destruct (enabled vm)|]; cbn [map fst].
    + rewrite occurrences_cons. split; [lia|].
      intros Hm. destruct (decide (x = m)) as [->|Hne]; [congruence|].
      rewrite (IHnone Hm). reflexivity.
    + split; [lia|exact IHnone].
    + split; [lia|exact IHnone].
Qed.

Lemma generateSceneVideoFrom_extends (retriesLeft : nat) :
  forall modelChain w,
  extends (fun m => S retriesLeft *
                    occurrences m (map fst (enabledModels (default DEFAULT_CHAIN modelChain))))%nat
          w (snd (generateSceneVideoFrom env retriesLeft prompt requested modelChain w)).
Proof.
  induction retriesLeft as [|n IH]; intros modelChain w.
  - cbn [generateSceneVideoFrom].
    destruct (enabledModels (default DEFAULT_CHAIN modelChain)) as [|entry rest] eqn:E.
    { apply extends_refl. reflexivity. }
    destruct (abortedAt env (clock w)); [apply extends_refl; reflexivity|].
    exact (tryModels_extends 0 None (entry :: rest) I [] w).
  - cbn [generateSceneVideoFrom].
    destruct (enabledModels (default DEFAULT_CHAIN modelChain)) as [|entry rest] eqn:E.
    { apply extends_refl. reflexivity. }
    destruct (abortedAt env (clock w)); [apply extends_refl; reflexivity|].
    apply (tryModels_extends (S n)
             (Some (fun modelName w' =>
                      generateSceneVideoFrom env n prompt requested (Some [modelName]) w'))
             (entry :: rest)).
    intros modelName w0. pose proof (IH (Some [modelName]) w0) as H.
    cbn [default from_option id] in H.
    refine (extends_weaken _ _ _ _ _ H). intros m.
    pose proof (enabledModels_single modelName m) as Hs. unfold only in *.
    destruct (decide (m = modelName)); nia.
Qed.

(** X14. A run of [generateSceneVideo] only adds to what has happened
    before.  For each backend [m], the calls it makes to [m] are at
    most [MAX_RETRIES - retryCount + 1] for each time [m] is named in
    the chain: four when the stage is entered from outside and the
    chain names [m] once, none when the chain does not name [m] or
    [VIDEO_MODELS] does not know it. *)
Theorem stage_calls_are_bounded
    (modelChain : option (list string)) (retryCount : nat) (w : World) :
  exists events,
    trace (snd (generateSceneVideo env prompt requested modelChain retryCount w)) =
      trace w ++ events /\
    forall m,
      (callsOf m events <=
       S (MAX_RETRIES - retryCount) * occurrences m (default DEFAULT_CHAIN modelChain))%nat /\
      (VIDEO_MODELS m = None -> callsOf m events = 0%nat).
Proof.
  unfold generateSceneVideo.
  destruct (generateSceneVideoFrom_extends (MAX_RETRIES - retryCount) modelChain w)
    as (events & Ht & Hbound).
  exists events. split; [exact Ht|]. intros m. specialize (Hbound m).
  destruct (enabledModels_sub (default DEFAULT_CHAIN modelChain) m) as [Hle Hnone].
  split; [nia|]. intros Hm. rewrite (Hnone Hm) in Hbound. lia.
Qed.

End StageCalls.

Section StageCallsExamples.
Import Budget Circuit Video Stage Ledger.

Lemma stage_calls_are_bounded_witness :
  exists events,
    trace (snd (generateSceneVideo throttledLuma "a prompt" 6
                  (Some ["luma/dream-machine"; "luma/dream-machine"]%string) 0
                  (freshWorld 0))) = events /\
    (callsOf "luma/dream-machine" events <= 8)%nat /\
    callsOf "acme/unknown-model" events = 0%nat.
Proof.
  destruct (stage_calls_are_bounded throttledLuma "a prompt" 6
              (Some ["luma/dream-machine"; "luma/dream-machine"]%string) 0 (freshWorld 0))
    as (events & Ht & Hb).
  exists events. split; [exact Ht|]. split.
  - exact (proj1 (Hb "luma/dream-machine"%string)).
  - apply (proj2 (Hb "acme/unknown-model"%string)). reflexivity.
Defined.

End StageCallsExamples.

(** ** Video stage: turns that are skipped, and the first delivery *)

Section StageTurns.
Import Budget Circuit Video Stage Ledger.

Context (env : Env) (prompt : string) (requested : Q).



(** X16. Take a run of [generateSceneVideo] that has the budget
    manager and the circuit breaker to itself: nothing else acts on
    them while the run waits for the backend (with two scenes
    [createMovie] interleaves two runs, which is not this case).  When
    the first model of the chain is known, passes the breaker and the
    governor, fits in the remaining budget, and the backend answers in
    time with an output that holds a clip URL, the stage returns that
    clip with the model and the computed duration after that single
    call; the models after it are not tried, and the failures
    remembered for the model are forgotten. *)
Theorem first_backend_delivers
    (modelName : string) (vm : VideoModel) (rest : list string) (retryCount : nat)
    (w : World) (actual : Q) (lat : Z) (output : Output) (url : string) :
  VIDEO_MODELS modelName = Some vm ->
  abortedAt env (clock w) = false ->
  fst (canExecute modelName (clock w) (breaker w)) = true ->
  allowed (fst (checkRateLimit replicate modelName (clock w) (budget w))) = true ->
  actualDuration vm requested = Some actual ->
  (costPerSecond vm * actual <= MAX_BUDGET - currentCost (budget w))%Q ->
  replicateRun env modelName (buildInput vm prompt actual DEFAULT_FPS ASPECT_RATIO) (clock w)
    = {| latency := lat; result := Return output |} ->
  lat < MODEL_TIMEOUT_MS ->
  extractVideoUrl output = Some url ->
  exists w',
    generateSceneVideo env prompt requested (Some (modelName :: rest)) retryCount w =
      (Return {| videoUrl := url; model := modelName; duration := actual;
                 promptLength := String.length prompt |}, w') /\
    failures (breaker w') !! modelName = None /\
    clock w' = clock w + lat /\
    steps (trace w') = steps (trace w) ++ [Call modelName].
Proof.
  intros Hknown Hlive Hpermitted Hallowed Hactual Hfits Hreply Hlat Hurl.
  assert (Henabled : enabled vm = true).
  { destruct (known_models _ _ Hknown) as [[_ ->]|[[_ ->]|[[_ ->]|[_ ->]]]]; reflexivity. }
  pose proof (known_model_price _ _ Hknown) as Hprice.
  assert (Hturn : forall retry, exists w',
    attempt env retry prompt requested modelName vm [] w =
      (Finish (Return {| videoUrl := url; model := modelName; duration := actual;
                         promptLength := String.length prompt |}), w') /\
    failures (breaker w') !! modelName = None /\
    clock w' = clock w + lat /\
    steps (trace w') = steps (trace w) ++ [Call modelName]).
  { intros retry. unfold attempt. rewrite Hlive.
    assert (Hcb : exists cb, canExecute modelName (clock w) (breaker w) = (true, cb)).
    { destruct (canExecute modelName (clock w) (breaker w)) as [b cb]. cbn [fst] in Hpermitted.
      subst b. exists cb. reflexivity. }
    destruct Hcb as [cb ->]. cbn [negb setBreaker clock budget].
    pose proof (checkRateLimit_cost replicate modelName (clock w) (budget w)) as Hcost.
    destruct (checkRateLimit replicate modelName (clock w) (budget w)) as [check bm].
    cbn [fst snd] in *. destruct check; [|discriminate].
    rewrite Hactual. cbn [getBudgetStatus remaining setBudget budget]. rewrite Hcost.
    destruct (Js.ltb _ _) eqn:Hshort; [apply ltb_spec in Hshort; lra|].
    unfold callBackend. cbn [clock setBudget setBreaker]. rewrite Hreply. cbn [latency result].
    rewrite bool_decide_eq_false_2 by lia. rewrite Hurl.
    unfold trackReplicateCost, trackCost. cbn [currentCost elapse budget].
    destruct (Js.gtb _ _) eqn:Hover.
    { apply gtb_spec in Hover. cbn [setBudget budget] in Hover.
      rewrite Hcost, Hprice in Hover. lra. }
    eexists. split; [reflexivity|].
    cbn [setBreaker setBudget elapse breaker clock trace recordSuccess setFailures failures].
    split; [apply lookup_delete_eq|]. split; [reflexivity|].
    rewrite steps_app. reflexivity. }
  unfold generateSceneVideo.
  destruct (MAX_RETRIES - retryCount)%nat as [|n];
    cbn [generateSceneVideoFrom default from_option id];
    rewrite (enabledModels_cons modelName vm Hknown Henabled), Hlive; cbn [tryModels].
  - destruct (Hturn None) as (w' & -> & H). exists w'. split; [reflexivity|exact H].
  - destruct (Hturn (Some (fun modelName0 w' =>
                        generateSceneVideoFrom env n prompt requested (Some [modelName0]) w')))
      as (w' & -> & H).
    exists w'. split; [reflexivity|exact H].
Qed.

End StageTurns.

Section StageTurnsExamples.
Import Budget Circuit Video Stage Ledger.


Lemma first_backend_delivers_witness :
  exists w',
    generateSceneVideo throttledLuma "a prompt" 6
      (Some ["stability-ai/svd"; "luma/dream-machine"]%string) 0 (freshWorld 0) =
      (Return {| videoUrl := "https://replicate.delivery/clip.mp4";
                 model := "stability-ai/svd"; duration := 6;
                 promptLength := 8 |}, w') /\
    clock w' = 90000.
Proof.
  destruct (first_backend_delivers throttledLuma "a prompt" 6 "stability-ai/svd" svd
              ["luma/dream-machine"%string] 0 (freshWorld 0) 6 90000
              (OutArray [JsString "https://replicate.delivery/clip.mp4"])
              "https://replicate.delivery/clip.mp4")
    as (w' & Hrun & _ & Hclock & _).
  - reflexivity.
  - reflexivity.
  - vm_compute. reflexivity.
  - vm_compute. reflexivity.
  - reflexivity.
  - vm_compute. discriminate.
  - reflexivity.
  - reflexivity.
  - reflexivity.
  - exists w'. split; [exact Hrun|exact Hclock].
Defined.

End StageTurnsExamples.

(** ** Orchestrator: the array returned by the concurrency controller *)

Section ParallelArray.
Import Budget Video Movie Slots.

Context (oracle : Oracle).

Lemma settle_scene (task : Task) (st : Run) (s : SceneData) :
  fst (settle oracle task st) = Resolved s -> scene s = taskScene task.
Proof.
  destruct task as [i|i]; cbn [settle taskScene]; [|discriminate].
  unfold sceneFinish. destruct (outcomeOf oracle i) as [sm hook url|message].
  - cbn [fst]. intros [= <-]. reflexivity.
  - destruct (Js.includes "aborted" message || signal st); cbn [fst]; [discriminate|].
    intros [= <-]. reflexivity.
Qed.

Lemma aligned_insert (count : nat) (res : list (option SceneData)) (index : nat)
    (slot : SceneData) :
  scene slot = (index + 1)%nat ->
  (forall j s, res !! j = Some (Some s) -> scene s = (j + 1)%nat) ->
  forall j s, <[index := Some slot]> res !! j = Some (Some s) -> scene s = (j + 1)%nat.
Proof.
  intros Hslot Hres j s Hj. apply list_lookup_insert_Some in Hj as [(<- & Heq & _)|[_ Hj]].
  - injection Heq as <-. exact Hslot.
  - exact (Hres j s Hj).
Qed.

Lemma settleOne_aligned (count : nat) (p : Pool) :
  aligned count p -> aligned count (settleOne oracle p).
Proof.
  intros (Hlen & Hres & Hrun). unfold settleOne.
  set (tick := match ticks p with t :: _ => t | [] => _ end).
  destruct (running p !! (pick tick mod length (running p))%nat) as [[index task]|] eqn:E;
    [|repeat split; assumption].
  pose proof (proj1 (Forall_lookup _ _) Hrun _ _ E) as [Hindex Htask]. cbn [fst snd] in *.
  pose proof (settle_scene task (trip (abortFires tick) (run p))) as Hscene.
  destruct (settle oracle task (trip (abortFires tick) (run p))) as [settled st].
  cbn [fst] in Hscene. unfold aligned. cbn [results running].
  split; [|split].
  - destruct (signal st); [exact Hlen|]. rewrite length_insert. exact Hlen.
  - destruct (signal st); [exact Hres|]. apply (aligned_insert count); [|exact Hres].
    destruct settled as [s|message]; [|reflexivity].
    rewrite (Hscene s eq_refl). exact Htask.
  - apply Forall_app. split; [apply Forall_take|apply Forall_drop]; exact Hrun.
Qed.

Lemma settleAll_aligned (count fuel : nat) :
  forall p, aligned count p -> aligned count (settleAll oracle fuel p).
Proof.
  induction fuel as [|fuel IH]; intros p Hp; cbn [settleAll]; [exact Hp|].
  apply IH. apply settleOne_aligned. exact Hp.
Qed.

Lemma settleOne_shrinks (p : Pool) :
  (length (running (settleOne oracle p)) <= length (running p))%nat.
Proof.
  destruct (running p) as [|entry rest] eqn:E.
  - unfold settleOne.
    destruct (running p !! _) as [[index task]|] eqn:L; [|rewrite E; cbn [length]; lia].
    apply lookup_lt_Some in L. rewrite E in L. cbn [length] in L. lia.
  - rewrite <- E. pose proof (settleOne_running oracle p) as H. rewrite E in H at 1.
    specialize (H ltac:(discriminate)). lia.
Qed.

Lemma settleAll_shrinks (fuel : nat) :
  forall p, (length (running (settleAll oracle fuel p)) <= length (running p))%nat.
Proof.
  induction fuel as [|fuel IH]; intros p; cbn [settleAll]; [lia|].
  pose proof (IH (settleOne oracle p)). pose proof (settleOne_shrinks p). lia.
Qed.

(** With room for at least one task the wait for a free slot ends. *)
Lemma waitForSlot_returns (count maxParallel fuel : nat) :
  (1 <= maxParallel)%nat ->
  forall p, aligned count p -> (length (running p) <= fuel)%nat ->
  exists p', waitForSlot oracle maxParallel fuel p = Some p' /\ aligned count p'.
Proof.
  intros Hmax. induction fuel as [|fuel IH]; intros p Hp Hlen; cbn [waitForSlot].
  - replace (length (running p) <? maxParallel)%nat with true
      by (symmetry; apply Nat.ltb_lt; lia).
    exists p. auto.
  - destruct (length (running p) <? maxParallel)%nat eqn:E; [exists p; auto|].
    destruct (signal (run p)); [exists p; auto|].
    assert (Hne : running p <> []).
    { apply Nat.ltb_ge in E. destruct (running p); [cbn in E; lia|discriminate]. }
    pose proof (settleOne_running oracle p Hne) as Hrun.
    set (more := match ticks p with t :: _ => batch t | [] => O end).
    pose proof (settleAll_shrinks more (settleOne oracle p)) as Hshrink.
    apply IH; [|lia]. apply settleAll_aligned. apply settleOne_aligned. exact Hp.
Qed.

Lemma fillAborted_aligned (count : nat) (indices : list nat) :
  forall res,
  length res = count ->
  (forall j s, res !! j = Some (Some s) -> scene s = (j + 1)%nat) ->
  length (fillAborted indices res) = count /\
  (forall j s, fillAborted indices res !! j = Some (Some s) -> scene s = (j + 1)%nat).
Proof.
  induction indices as [|i rest IH]; intros res Hlen Hres; cbn [fillAborted]; [auto|].
  apply IH.
  - rewrite length_insert. exact Hlen.
  - apply (aligned_insert count); [reflexivity|exact Hres].
Qed.

Lemma spawn_returns (count maxParallel : nat) (indices : list nat) :
  (1 <= maxParallel)%nat -> Forall (fun i => i < count)%nat indices ->
  forall p, aligned count p ->
  exists p', spawn oracle maxParallel indices p = Some p' /\ aligned count p'.
Proof.
  intros Hmax Hin. induction Hin as [|i rest Hi Hrest IH]; intros p Hp; cbn [spawn].
  - exists p. auto.
  - destruct (signal (run p)).
    { eexists. split; [reflexivity|]. destruct Hp as (Hlen & Hres & Hrun).
      destruct (fillAborted_aligned count (i :: rest) (results p) Hlen Hres) as [H1 H2].
      unfold aligned. cbn [setResults results running]. auto. }
    destruct (waitForSlot_returns count maxParallel (length (running p)) Hmax p Hp ltac:(lia))
      as (p1 & -> & Hp1).
    destruct (signal (run p1)) eqn:Hsig; [exists p1; auto|].
    unfold sceneStart. rewrite Hsig. apply IH.
    destruct Hp1 as (Hlen & Hres & Hrun). unfold aligned. cbn [results running].
    split; [exact Hlen|]. split; [exact Hres|].
    apply Forall_app. split; [exact Hrun|]. repeat constructor. exact Hi.
Qed.

Lemma filled_slots_sorted (res : list (option SceneData)) :
  forall offset,
  (forall j s, res !! j = Some (Some s) -> scene s = (offset + j + 1)%nat) ->
  StronglySorted lt (map scene (omap id res)) /\
  Forall (fun n => offset < n <= offset + length res)%nat (map scene (omap id res)).
Proof.
  induction res as [|slot res IH]; intros offset Hres; cbn [omap list_omap map].
  - split; constructor.
  - destruct (IH (S offset)) as [Hsorted Hrange].
    { intros j s Hj. rewrite (Hres (S j) s Hj). lia. }
    assert (Hrange' : Forall (fun n => offset < n <= offset + length (slot :: res))%nat
                             (map scene (omap id res))).
    { eapply Forall_impl; [exact Hrange|]. cbn [length]. intros n Hn. cbn beta in *. lia. }
    destruct slot as [s|]; cbn [id map]; [|split; assumption].
    pose proof (Hres 0%nat s eq_refl) as Hs.
    split.
    + constructor; [exact Hsorted|]. eapply Forall_impl; [exact Hrange|].
      intros n Hn. cbn beta in *. lia.
    + constructor; [cbn [length]; lia|exact Hrange'].
Qed.

(** X17. With room for at least one task, [processScenesInParallel]
    returns, whatever order the scene tasks finish in and whenever the
    signal trips, and the array it returns is in scene order: the scene
    numbers of its entries are strictly ascending and lie between 1 and
    the number of closures. *)
Theorem parallel_array_in_scene_order (count maxParallel : nat) (st : Run) :
  (1 <= maxParallel)%nat ->
  exists array st',
    processScenesInParallel oracle count maxParallel st = Some (array, st') /\
    StronglySorted lt (map scene array) /\
    Forall (fun n => 1 <= n <= count)%nat (map scene array).
Proof.
  intros Hmax. unfold processScenesInParallel.
  match goal with |- context [spawn oracle maxParallel (seq 0 count) ?x] =>
    destruct (spawn_returns count maxParallel (seq 0 count) Hmax
                ltac:(apply Forall_forall; intros i Hi; apply elem_of_seq in Hi; lia) x)
      as (p & -> & Hp)
  end.
  { unfold aligned. cbn [results running]. split; [apply repeat_length|].
    split; [|constructor].
    intros j s Hj. exfalso. revert j Hj. induction count as [|n IH]; intros j Hj.
    - destruct j; discriminate.
    - destruct j as [|j]; [discriminate|]. exact (IH j Hj). }
  assert (Hfinal : aligned count
            (if signal (run p) then p else settleAll oracle (length (running p)) p)).
  { destruct (signal (run p)); [exact Hp|]. apply settleAll_aligned. exact Hp. }
  destruct Hfinal as (Hlen & Hres & _).
  eexists _, _. split; [reflexivity|].
  destruct (filled_slots_sorted _ 0%nat Hres) as [Hsorted Hrange].
  split; [exact Hsorted|]. eapply Forall_impl; [exact Hrange|].
  intros n Hn. cbn beta in *. lia.
Qed.

End ParallelArray.

Section ParallelArrayExamples.
Import Video Movie.

Lemma parallel_array_in_scene_order_witness :
  exists array st',
    processScenesInParallel smooth 2 MAX_PARALLEL_SCENES start = Some (array, st') /\
    StronglySorted lt (map scene array).
Proof.
  destruct (parallel_array_in_scene_order smooth 2 MAX_PARALLEL_SCENES start)
    as (array & st' & Hrun & Hsorted & _).
  - unfold MAX_PARALLEL_SCENES. lia.
  - exists array, st'. split; [exact Hrun|exact Hsorted].
Defined.

End ParallelArrayExamples.

(** ** Orchestrator: abort, and the sequential loops *)

Section AbortAndOrder.
Import Budget Video Movie Slots.

Context (oracle : Oracle).

Lemma fillAborted_all (n : nat) :
  forall filled : list (option SceneData),
  fillAborted (seq (length filled) n) (filled ++ List.repeat None n) =
  filled ++ map (fun j => Some (abortedSlot j)) (seq (length filled) n).
Proof.
  induction n as [|n IH]; intros filled; cbn [seq List.repeat fillAborted map]; [reflexivity|].
  rewrite insert_app_r_alt by lia. rewrite Nat.sub_diag. cbn [insert list_insert].
  pose proof (IH (filled ++ [Some (abortedSlot (length filled))])) as H.
  rewrite length_app in H. cbn [length] in H. rewrite Nat.add_1_r in H.
  rewrite <- !app_assoc in H. cbn [app] in H. exact H.
Qed.

Lemma omap_id_Some (l : list nat) :
  omap id (map (fun j => Some (abortedSlot j)) l) = map abortedSlot l.
Proof. induction l as [|j l IH]; cbn [map omap list_omap id]; [reflexivity|]. rewrite IH. reflexivity. Qed.

(** X18. When the abort signal is already set, nothing is started:
    the concurrency controller returns one "Generation aborted" entry
    for each closure, in scene order, and every way in which
    [createMovie] drives the closures ends at once, with the run as it
    was and without a script call. *)
Theorem abort_before_first_scene (count maxParallel : nat) (parallel : bool) (st : Run) :
  signal st = true ->
  processScenesInParallel oracle count maxParallel st =
    Some (map abortedSlot (seq 0 count), st) /\
  drive oracle parallel count st = Some (Return tt, st).
Proof.
  intros Hsig.
  assert (Hpar : forall mp, processScenesInParallel oracle count mp st =
                            Some (map abortedSlot (seq 0 count), st)).
  { intros mp. unfold processScenesInParallel. destruct count as [|n].
    - cbn [seq spawn run]. rewrite Hsig. reflexivity.
    - cbn [seq spawn run]. rewrite Hsig. cbn [setResults run results]. rewrite Hsig.
      pose proof (fillAborted_all (S n) []) as H. cbn [length app seq] in H.
      rewrite H. cbn [setResults results run]. rewrite omap_id_Some. reflexivity. }
  assert (Hseq : runSequential oracle count (seq 0 count) st = (Return tt, st)).
  { destruct count; cbn [seq runSequential]; [reflexivity|]. rewrite Hsig. reflexivity. }
  split; [apply Hpar|]. unfold drive. rewrite Hpar, Hseq.
  destruct (parallel && (1 <? count)%nat); [|reflexivity].
  destruct (2 <? count)%nat; reflexivity.
Qed.

(** X19. In the sequential loops, a scene whose pipeline raises an
    error while the abort signal is set, or an error whose message
    contains "aborted", ends the loop with the error "Generation
    aborted by user": the scene is recorded as aborted, it is not
    counted as failed, and no later scene is started. *)
Theorem sequential_abort_rejects (count i : nat) (rest : list nat) (st : Run)
    (message : string) :
  signal st = false ->
  outcomeOf oracle (i + 1) = Raised message ->
  Js.includes "aborted" message || abortDuringScene oracle (i + 1) = true ->
  exists st',
    runSequential oracle count (i :: rest) st = (Throw abortedMessage, st') /\
    scenes st' = scenes st ++ [abortedSlot i] /\
    failedScenes st' = failedScenes st /\
    log st' = log st ++ [ScriptCall (i + 1) (storySoFar st) (previousSceneEnd st)].
Proof.
  intros Hsig Hout Habort. cbn [runSequential]. rewrite Hsig.
  unfold sceneStart. rewrite Hsig. cbn [settle]. rewrite Hout. cbn [sceneFinish].
  cbn [trip signal orb]. rewrite Habort.
  eexists. split; [reflexivity|]. cbn [scenes failedScenes log]. repeat split.
Qed.

Lemma sceneFinish_numbered (a : nat) (outcome : Outcome) (st : Run) :
  map scene (scenes st) = seq 1 a ->
  numbered (a + 1) (snd (sceneFinish (a + 1) outcome st)).
Proof.
  intros Hscenes.
  assert (Hsnoc : forall s, scene s = (a + 1)%nat ->
            map scene (scenes st ++ [s]) = seq 1 (a + 1)).
  { intros s Hs. rewrite map_app, Hscenes, Nat.add_1_r, seq_S. cbn [map]. rewrite Hs.
    f_equal. f_equal. lia. }
  unfold sceneFinish. destruct outcome as [sm hook url|message].
  - split; [apply Hsnoc|]; reflexivity.
  - destruct (Js.includes "aborted" message || signal st); (split; [apply Hsnoc|]); reflexivity.
Qed.

Lemma runSequential_numbered (count n : nat) :
  forall a st, numbered a st ->
  exists k, (k <= n)%nat /\
            numbered (a + k) (snd (runSequential oracle count (seq a n) st)).
Proof.
  induction n as [|n IH]; intros a st Hnum; cbn [seq runSequential].
  - exists 0%nat. rewrite Nat.add_0_r. split; [lia|exact Hnum].
  - destruct (signal st) eqn:Hsig.
    { exists 0%nat. rewrite Nat.add_0_r. split; [lia|exact Hnum]. }
    unfold sceneStart. rewrite Hsig. cbn [settle].
    match goal with |- context [sceneFinish ?j ?o ?x] =>
      pose proof (sceneFinish_numbered a o x) as Hfin;
      destruct (sceneFinish j o x) as [[sd|message] st2]
    end; cbn [snd] in Hfin; specialize (Hfin (proj1 Hnum)).
    + match goal with |- context [runSequential oracle count (seq (S a) n) ?x] =>
        destruct (IH (S a) x) as (k & Hk & Hnum')
      end.
      { rewrite Nat.add_1_r in Hfin.
        destruct ((a <? count - 1)%nat && negb (signal st2)); exact Hfin. }
      exists (S k). split; [lia|]. replace (a + S k)%nat with (S a + k)%nat by lia. exact Hnum'.
    + exists 1%nat. split; [lia|exact Hfin].
Qed.

(** X20. Whenever [createMovie] runs its closures in one of the
    sequential loops, the scene records are those of scenes 1, 2, ...
    up to the scene that notified the progress tracker last, in that
    order and without gap or repetition; the events come in scene
    order; and every script call was made with the continuity as the
    last successful scene before it left it. *)
Theorem sequential_loop_keeps_continuity (count : nat) :
  let st := snd (runSequential oracle count (seq 0 count) start) in
  map scene (scenes st) = seq 1 (completedScenes st) /\
  (completedScenes st <= count)%nat /\
  StronglySorted le (map eventScene (log st)) /\
  replay EmptyString None (log st) = Some (storySoFar st, previousSceneEnd st).
Proof.
  cbn zeta.
  destruct (runSequential_numbered count count 0 start ltac:(split; reflexivity))
    as (k & Hk & Hscenes & Hdone).
  assert (Hstart : ordered 0 0 start) by (repeat split; constructor).
  destruct (runSequential_ordered oracle count count 0 start Hstart) as (_ & _ & Hlog & _).
  pose proof (runSequential_replay oracle count (seq 0 count) start eq_refl) as Hreplay.
  cbn zeta in Hreplay. cbn [Nat.add] in Hscenes, Hdone.
  rewrite Hdone. split; [exact Hscenes|]. split; [lia|]. split; [exact Hlog|exact Hreplay].
Qed.

End AbortAndOrder.

Section AbortAndOrderExamples.
Import Budget Video Movie Slots.

Lemma abort_before_first_scene_witness :
  drive smooth true 2 (trip true start) = Some (Return tt, trip true start).
Proof.
  apply (abort_before_first_scene smooth 2 MAX_PARALLEL_SCENES true (trip true start)).
  reflexivity.
Defined.

Lemma sequential_abort_rejects_witness :
  fst (runSequential
         {| outcomeOf _ := Raised "Generation aborted by user";
            abortDuringScene _ := false; abortDuringDelay _ := false; schedule := [] |}
         3 [0; 1; 2]%nat start) = Throw abortedMessage.
Proof.
  destruct (sequential_abort_rejects
              {| outcomeOf _ := Raised "Generation aborted by user";
                 abortDuringScene _ := false; abortDuringDelay _ := false; schedule := [] |}
              3 0 [1; 2]%nat start "Generation aborted by user")
    as (st' & Hrun & _).
  - reflexivity.
  - reflexivity.
  - vm_compute. reflexivity.
  - rewrite Hrun. reflexivity.
Defined.

End AbortAndOrderExamples.

(** ** Orchestrator: the movie record *)

Section MovieRecord.
Import Movie Persist.




End MovieRecord.

(** ** Jobs manager *)

Section JobsManager.
Import Jobs.

Lemma signalAborted_length (ref : nat) (m : GenerationJobsManager) :
  signalAborted ref m = true -> (ref < length (controllers m))%nat.
Proof.
  unfold signalAborted. destruct (controllers m !! ref) eqn:E; [|discriminate].
  intros _. apply lookup_lt_Some in E. exact E.
Qed.

Lemma fresh_wellFormed : wellFormed fresh.
Proof. intros jobId job Hjob. unfold fresh in Hjob. cbn [jobs] in Hjob. rewrite lookup_empty in Hjob. discriminate. Qed.

Lemma createJob_wellFormed (jobId : string) (movie : option string) (now : Z)
    (m : GenerationJobsManager) :
  wellFormed m -> wellFormed (snd (createJob jobId movie now m)).
Proof.
  intros Hwf j job Hj. unfold createJob in *. cbn [snd jobs controllers] in *.
  rewrite length_app. cbn [length].
  apply lookup_insert_Some in Hj as [[_ <-]|[_ Hj]]; [cbn [abortController]; lia|].
  pose proof (Hwf j job Hj). lia.
Qed.

Lemma step_keeps_aborted (op : Op) (m : GenerationJobsManager) (ref : nat) :
  signalAborted ref m = true -> signalAborted ref (step m op) = true.
Proof.
  intros H. pose proof (signalAborted_length ref m H) as Hlen.
  destruct op as [jobId movie now|jobId now|jobId now|older now]; cbn [step].
  - unfold createJob, signalAborted in *. cbn [snd controllers].
    rewrite lookup_app_l by exact Hlen. exact H.
  - unfold abortJob. destruct (jobs m !! jobId) as [job|]; [|exact H].
    destruct (status job); try exact H.
    unfold signalAborted in *. cbn [snd controllers].
    destruct (decide (abortController job = ref)) as [->|Hne].
    + rewrite list_lookup_insert_eq by exact Hlen. reflexivity.
    + rewrite list_lookup_insert_ne by exact Hne. exact H.
  - unfold completeJob. destruct (jobs m !! jobId) as [job|]; exact H.
  - exact H.
Qed.

(** X22. No call on the jobs manager takes an abort back: a signal
    that reads aborted reads aborted after every further sequence of
    [createJob], [abortJob], [completeJob] and [cleanup] calls. *)
Theorem abort_signal_is_never_reset (ops : list Op) (m : GenerationJobsManager) (ref : nat) :
  signalAborted ref m = true -> signalAborted ref (run ops m) = true.
Proof.
  revert m. induction ops as [|op ops IH]; intros m H; [exact H|].
  unfold run. cbn [foldl]. apply IH. apply step_keeps_aborted. exact H.
Qed.

Lemma abort_signal_is_never_reset_witness :
  let m := snd (abortJob "job-1" 2000 (snd (createJob "job-1" None 1000 fresh))) in
  signalAborted 0 (run [CompleteJob "job-1" 3000; CreateJob "job-1" None 4000;
                        Cleanup 0 9000000] m) = true.
Proof.
  cbn zeta.
  apply (abort_signal_is_never_reset
           [CompleteJob "job-1" 3000; CreateJob "job-1" None 4000; Cleanup 0 9000000]
           (snd (abortJob "job-1" 2000 (snd (createJob "job-1" None 1000 fresh)))) 0).
  vm_compute. reflexivity.
Defined.

(** X23. [abortJob] answers true exactly for a job that exists and is
    running; a call that answers false changes nothing, so that a
    second abort of the same job is refused without effect; and after
    a call that answers true the signal handed out for the job reads
    aborted and the job is reported as aborted. *)
Theorem abortJob_only_running_jobs (jobId : string) (now : Z) (m : GenerationJobsManager) :
  (fst (abortJob jobId now m) = true <->
   exists job, jobs m !! jobId = Some job /\ status job = jobRunning) /\
  (fst (abortJob jobId now m) = false -> snd (abortJob jobId now m) = m) /\
  (forall later, abortJob jobId later (snd (abortJob jobId now m)) =
                 (false, snd (abortJob jobId now m))) /\
  (wellFormed m -> fst (abortJob jobId now m) = true ->
   exists ref, getAbortSignal jobId m = Some ref /\
               signalAborted ref (snd (abortJob jobId now m)) = true /\
               view_status <$> getJobStatus jobId now (snd (abortJob jobId now m))
                 = Some jobAborted).
Proof.
  unfold abortJob. destruct (jobs m !! jobId) as [job|] eqn:E.
  2:{ cbn [fst snd]. split; [split; [discriminate|intros (job & [=] & _)]|].
      split; [reflexivity|]. split; [|discriminate].
      intros later. rewrite E. reflexivity. }
  destruct (status job) eqn:Hstatus; cbn [fst snd].
  - split; [split; [intros _; exists job; auto|reflexivity]|].
    split; [discriminate|]. split.
    + intros later. cbn [jobs]. rewrite lookup_insert_eq. reflexivity.
    + intros Hwf _. exists (abortController job). unfold getAbortSignal. rewrite E.
      split; [reflexivity|]. split.
      * unfold signalAborted. cbn [controllers].
        rewrite list_lookup_insert_eq by exact (Hwf jobId job E). reflexivity.
      * unfold getJobStatus. cbn [jobs]. rewrite lookup_insert_eq. reflexivity.
  - split; [split; [discriminate|intros (job' & [= <-] & Hs); congruence]|].
    split; [reflexivity|]. split; [|discriminate].
    intros later. rewrite E, Hstatus. reflexivity.
  - split; [split; [discriminate|intros (job' & [= <-] & Hs); congruence]|].
    split; [reflexivity|]. split; [|discriminate].
    intros later. rewrite E, Hstatus. reflexivity.
Qed.

Lemma abortJob_only_running_jobs_witness :
  let m := snd (createJob "job-1" None 1000 fresh) in
  exists ref, getAbortSignal "job-1" m = Some ref /\
              signalAborted ref (snd (abortJob "job-1" 2000 m)) = true.
Proof.
  cbn zeta.
  destruct (abortJob_only_running_jobs "job-1" 2000 (snd (createJob "job-1" None 1000 fresh)))
    as (_ & _ & _ & H).
  destruct H as (ref & Hsig & Haborted & _).
  - apply createJob_wellFormed. exact fresh_wellFormed.
  - vm_compute. reflexivity.
  - exists ref. split; assumption.
Defined.

(** X24. [cleanup] never deletes a running job, however old: the
    signal of a generation that is still running stays reachable.  A
    job that was aborted or completed is deleted only once its last
    instant lies more than [olderThanMs] back.  No signal is touched. *)
Theorem cleanup_spares_running_jobs (olderThanMs now : Z) (m : GenerationJobsManager)
    (jobId : string) (job : Job) :
  jobs m !! jobId = Some job ->
  (status job = jobRunning -> jobs (cleanup olderThanMs now m) !! jobId = Some job) /\
  (now - referenceTime job <= olderThanMs ->
   jobs (cleanup olderThanMs now m) !! jobId = Some job) /\
  (status job <> jobRunning -> olderThanMs < now - referenceTime job ->
   jobs (cleanup olderThanMs now m) !! jobId = None) /\
  controllers (cleanup olderThanMs now m) = controllers m.
Proof.
  intros Hjob. unfold cleanup. cbn [jobs controllers].
  split; [|split; [|split; [|reflexivity]]].
  - intros Hrun. apply map_lookup_filter_Some. split; [exact Hjob|].
    cbn [snd]. unfold stale. rewrite Hrun. reflexivity.
  - intros Hyoung. apply map_lookup_filter_Some. split; [exact Hjob|].
    cbn [snd]. unfold stale. rewrite bool_decide_eq_false_2 by lia. apply andb_false_r.
  - intros Hdone Hold.
    destruct (filter _ (jobs m) !! jobId) as [job'|] eqn:E; [|reflexivity].
    apply map_lookup_filter_Some in E as [Hjob' Hkeep]. cbn [snd] in Hkeep.
    rewrite Hjob in Hjob'. injection Hjob' as <-.
    unfold stale in Hkeep. rewrite bool_decide_eq_true_2 in Hkeep by exact Hold.
    destruct (status job); cbn in Hkeep; congruence.
Qed.

Lemma cleanup_spares_running_jobs_witness :
  let m := snd (createJob "job-1" None 1000 fresh) in
  getAbortSignal "job-1" (cleanup 3600000 9000000 m) = Some 0%nat.
Proof.
  cbn zeta.
  destruct (cleanup_spares_running_jobs 3600000 9000000
              (snd (createJob "job-1" None 1000 fresh)) "job-1"
              {| abortController := 0; startTime := 1000; movieId := None;
                 status := jobRunning; abortedAt := None; completedAt := None |})
    as (Hkept & _).
  - unfold createJob, fresh. cbn [snd jobs controllers length].
    apply lookup_insert_eq.
  - unfold getAbortSignal. rewrite (Hkept eq_refl). reflexivity.
Defined.

Lemma step_keeps_orphan (op : Op) (m : GenerationJobsManager) (ref : nat) :
  orphan ref m -> signalAborted ref m = false ->
  orphan ref (step m op) /\ signalAborted ref (step m op) = false.
Proof.
  intros [Hlen Hnone] Hsig.
  destruct op as [jobId movie now|jobId now|jobId now|older now]; cbn [step].
  - unfold createJob, orphan, signalAborted in *. cbn [snd controllers jobs].
    rewrite length_app. cbn [length]. split; [split; [lia|]|].
    + intros j job Hj. apply lookup_insert_Some in Hj as [[_ <-]|[_ Hj]].
      * cbn [abortController]. lia.
      * exact (Hnone j job Hj).
    + rewrite lookup_app_l by exact Hlen. exact Hsig.
  - unfold abortJob. destruct (jobs m !! jobId) as [job|] eqn:E; [|split; [split|]; assumption].
    destruct (status job); try (split; [split|]; assumption).
    unfold orphan, signalAborted in *. cbn [snd controllers jobs].
    rewrite length_insert. split; [split; [exact Hlen|]|].
    + intros j job' Hj. apply lookup_insert_Some in Hj as [[_ <-]|[_ Hj]].
      * cbn [abortController]. exact (Hnone jobId job E).
      * exact (Hnone j job' Hj).
    + rewrite list_lookup_insert_ne by exact (Hnone jobId job E). exact Hsig.
  - unfold completeJob. destruct (jobs m !! jobId) as [job|] eqn:E; [|split; [split|]; assumption].
    unfold orphan, signalAborted in *. cbn [controllers jobs].
    split; [split; [exact Hlen|]|exact Hsig].
    intros j job' Hj. apply lookup_insert_Some in Hj as [[_ <-]|[_ Hj]].
    + cbn [abortController]. exact (Hnone jobId job E).
    + exact (Hnone j job' Hj).
  - unfold cleanup, orphan, signalAborted in *. cbn [controllers jobs].
    split; [split; [exact Hlen|]|exact Hsig].
    intros j job Hj. apply map_lookup_filter_Some in Hj as [Hj _]. exact (Hnone j job Hj).
Qed.

Lemma run_keeps_orphan (ops : list Op) :
  forall m ref, orphan ref m -> signalAborted ref m = false ->
                signalAborted ref (run ops m) = false.
Proof.
  induction ops as [|op ops IH]; intros m ref Horphan Hsig; [exact Hsig|].
  unfold run. cbn [foldl].
  destruct (step_keeps_orphan op m ref Horphan Hsig) as [Ho Hs]. exact (IH _ _ Ho Hs).
Qed.

(** X25. The manager keeps one controller for each job id.  When
    [createJob] is called a second time with an id, the controller
    made by the first call is no longer known to the manager: the id
    leads to the controller of the second call, and no later sequence
    of calls sets the signal that the first call handed out. *)
Theorem recreated_job_orphans_first_signal
    (m : GenerationJobsManager) (jobId : string) (movie movie' : option string)
    (t t' : Z) (ops : list Op) :
  wellFormed m ->
  let first := createJob jobId movie t m in
  let second := createJob jobId movie' t' (snd first) in
  fst first <> fst second /\
  getAbortSignal jobId (snd second) = Some (fst second) /\
  signalAborted (fst first) (run ops (snd second)) = false.
Proof.
  intros Hwf. cbn zeta. unfold createJob. cbn [fst snd controllers jobs].
  rewrite length_app. cbn [length]. split; [lia|]. split.
  - unfold getAbortSignal. cbn [jobs]. rewrite lookup_insert_eq. reflexivity.
  - apply run_keeps_orphan.
    + unfold orphan. cbn [controllers jobs]. rewrite !length_app. cbn [length].
      split; [lia|]. intros j job Hj.
      apply lookup_insert_Some in Hj as [[_ <-]|[Hne Hj]]; [cbn [abortController]; lia|].
      apply lookup_insert_Some in Hj as [[Heq _]|[_ Hj]]; [congruence|].
      pose proof (Hwf j job Hj). lia.
    + unfold signalAborted. cbn [controllers].
      rewrite lookup_app_l by (rewrite length_app; cbn [length]; lia).
      rewrite lookup_app_r by lia. rewrite Nat.sub_diag. reflexivity.
Qed.

Lemma recreated_job_orphans_first_signal_witness :
  let second := createJob "job-1" None 2000 (snd (createJob "job-1" None 1000 fresh)) in
  signalAborted 0 (run [AbortJob "job-1" 3000] (snd second)) = false.
Proof.
  cbn zeta.
  refine (proj2 (proj2 (recreated_job_orphans_first_signal fresh "job-1" None None 1000 2000
                          [AbortJob "job-1" 3000] _))).
  exact fresh_wellFormed.
Defined.

End JobsManager.

(** ** Script stage *)

Section ScriptStage.
Import Budget Stage Script Text.

Lemma avoids_app (c : ascii) (a b : string) :
  avoids c (a +:+ b) = avoids c a && avoids c b.
Proof.
  induction a as [|x a IH]; simpl; [reflexivity|].
  rewrite IH. apply andb_assoc.
Qed.

Lemma includes_avoids (s : string) :
  avoids "R" s = true -> Js.includes "Rate limit" s = false.
Proof.
  induction s as [|c s IH]; cbn [avoids Js.includes String.prefix]; [reflexivity|].
  intros H. apply andb_true_iff in H as [Hc Hs]. rewrite (IH Hs).
  destruct (ascii_dec "R" c) as [<-|_]; [discriminate|reflexivity].
Qed.

Lemma uint_avoids (d : Decimal.uint) : avoids "R" (NilEmpty.string_of_uint d) = true.
Proof. induction d; cbn [NilEmpty.string_of_uint avoids]; [reflexivity|exact IHd..]. Qed.

Lemma ofInt_avoids (z : Z) : avoids "R" (Js.ofInt z) = true.
Proof.
  unfold Js.ofInt, NilZero.string_of_int, NilZero.string_of_uint.
  destruct (Z.to_int z) as [d|d]; destruct d; try reflexivity; apply uint_avoids.
Qed.

Lemma padStart4_avoids (s : string) : avoids "R" s = true -> avoids "R" (Js.padStart4 s) = true.
Proof.
  intros H. unfold Js.padStart4. induction (4 - String.length s)%nat as [|k IH];
    cbn [Nat.iter avoids]; [exact H|exact IH].
Qed.

Lemma toFixed4_avoids (x : Q) : avoids "R" (Js.toFixed4 x) = true.
Proof.
  unfold Js.toFixed4. cbn zeta.
  assert (Hbody : forall a b, avoids "R" (Js.ofInt a +:+ "." +:+ Js.padStart4 (Js.ofInt b)) = true).
  { intros a b. rewrite !avoids_app, ofInt_avoids, (padStart4_avoids _ (ofInt_avoids b)).
    reflexivity. }
  destruct (Qle_bool 0 x); [apply Hbody|].
  rewrite avoids_app, Hbody. reflexivity.
Qed.

Lemma budget_error_is_no_rate_limit (c : Q) :
  Js.includes "Rate limit" (budgetExceededMessage c) = false.
Proof.
  apply includes_avoids. unfold budgetExceededMessage.
  rewrite !avoids_app, toFixed4_avoids. reflexivity.
Qed.

Lemma governor_error_is_rate_limit (reason : Reason) (retryAfter : option Z) :
  Js.includes "Rate limit" (governorDeniedMessage reason retryAfter) = true.
Proof. reflexivity. Qed.

Lemma trackOpenAICost_outcome (tokens : Z) (model : string) (bm : BudgetManager) :
  (exists c, fst (trackOpenAICost tokens model bm) = Throw (budgetExceededMessage c) /\
             (MAX_BUDGET < currentCost (snd (trackOpenAICost tokens model bm)))%Q) \/
  (exists c, fst (trackOpenAICost tokens model bm) = Return c /\
             (currentCost (snd (trackOpenAICost tokens model bm)) <= MAX_BUDGET)%Q).
Proof.
  unfold trackOpenAICost, trackCost. cbn [currentCost].
  destruct (Js.gtb _ _) eqn:E; cbn [fst snd currentCost].
  - left. eexists. split; [reflexivity|]. apply gtb_spec in E. exact E.
  - right. eexists. split; [reflexivity|].
    match goal with |- (?x <= _)%Q =>
      destruct (Qlt_le_dec MAX_BUDGET x) as [Hlt|Hle]; [|exact Hle]
    end.
    apply gtb_spec in Hlt. congruence.
Qed.

(** X26. [generateSceneScript] throws nothing but rate-limit errors:
    the refusal of the governor, in which case nothing has been
    charged, or an error of OpenAI whose message contains "Rate
    limit".  In every other case it returns a script: the one OpenAI
    wrote, or the fallback script. *)
Theorem script_stage_throws_only_rate_limits
    (reply : completion ChatResponse) (openaiModel : string)
    (characters : list Character) (now : Z) (bm : BudgetManager) :
  match generateSceneScript reply openaiModel characters now bm with
  | (Throw message, bm') =>
      Js.includes "Rate limit" message = true /\
      currentCost bm' = currentCost bm /\
      (allowed (fst (checkRateLimit openai "script-generation" now bm)) = false \/
       reply = Throw message)
  | (Return script, _) =>
      script = fallbackScript characters \/
      exists response, reply = Return response /\ script = textOr (content response) EmptyString
  end.
Proof.
  unfold generateSceneScript.
  pose proof (checkRateLimit_cost openai "script-generation" now bm) as Hcost.
  destruct (checkRateLimit openai "script-generation" now bm) as [[|reason retryAfter] bm1];
    cbn [fst snd allowed] in *.
  2:{ unfold recover. rewrite governor_error_is_rate_limit. auto. }
  destruct reply as [response|message].
  2:{ unfold recover. destruct (Js.includes "Rate limit" message) eqn:E; auto. }
  destruct (usage response) as [u|].
  2:{ right. exists response. auto. }
  destruct (trackOpenAICost_outcome
              (default 0 (prompt_tokens u) + default 0 (completion_tokens u)) openaiModel bm1)
    as [(c & Hthrow & _)|(c & Hreturn & _)].
  - destruct (trackOpenAICost _ openaiModel bm1) as [tracked bm2]. cbn [fst] in Hthrow.
    subst tracked. unfold recover. rewrite budget_error_is_no_rate_limit. auto.
  - destruct (trackOpenAICost _ openaiModel bm1) as [tracked bm2]. cbn [fst] in Hreturn.
    subst tracked. right. exists response. auto.
Qed.


End ScriptStage.

Section ScriptStageExamples.
Import Budget Stage Script.


End ScriptStageExamples.

(** ** The prompt of the video stage *)

Section VideoPrompt.
Import Script.

Lemma string_length_app (a b : string) :
  String.length (a +:+ b) = (String.length a + String.length b)%nat.
Proof. induction a as [|c a IH]; simpl; [reflexivity|]. rewrite IH. reflexivity. Qed.

Lemma trimStart_length (s : string) : (String.length (Js.trimStart s) <= String.length s)%nat.
Proof.
  induction s as [|c s IH]; cbn [Js.trimStart String.length]; [lia|].
  destruct (Js.isWhite c); cbn [String.length]; lia.
Qed.

Lemma trimEnd_length (s : string) : (String.length (Js.trimEnd s) <= String.length s)%nat.
Proof.
  induction s as [|c s IH]; cbn [Js.trimEnd String.length]; [lia|].
  destruct (Js.trimEnd s) as [|c' rest]; cbn [String.length] in *.
  - destruct (Js.isWhite c); cbn [String.length]; lia.
  - lia.
Qed.

Lemma trim_length (s : string) : (String.length (Js.trim s) <= String.length s)%nat.
Proof.
  unfold Js.trim. pose proof (trimEnd_length (Js.trimStart s)).
  pose proof (trimStart_length s). lia.
Qed.

Lemma substring_length (n : nat) : forall s, (String.length (substring 0 n s) <= n)%nat.
Proof.
  induction n as [|n IH]; intros s; destruct s as [|c s]; cbn [substring String.length];
    try lia.
  pose proof (IH s). lia.
Qed.

Lemma substring_app_exact (a b : string) (k : nat) :
  substring 0 (String.length a + k) (a +:+ b) = a +:+ substring 0 k b.
Proof.
  induction a as [|c a IH]; simpl; [reflexivity|]. rewrite IH. reflexivity.
Qed.

Lemma substring_app_l (k : nat) :
  forall a b, (k <= String.length a)%nat -> substring 0 k (a +:+ b) = substring 0 k a.
Proof.
  induction k as [|k IH]; intros a b Hk.
  - destruct a, b; reflexivity.
  - destruct a as [|c a]; cbn [String.length] in Hk; [lia|].
    simpl. rewrite IH by lia. reflexivity.
Qed.

(** X28. The prompt that [buildVideoPrompt] hands to the video stage
    never has more than [MAX_PROMPT_LENGTH] = 4000 characters,
    whatever the script, the characters and the premise. *)
Theorem buildVideoPrompt_within_limit (parts : SceneParts) (characters : list Character)
    (previousSceneEnd baseStoryPrompt : option string) :
  (String.length (buildVideoPrompt parts characters previousSceneEnd baseStoryPrompt)
   <= MAX_PROMPT_LENGTH)%nat.
Proof.
  unfold buildVideoPrompt. cbn zeta.
  match goal with |- context [Js.trim ?x] => pose proof (trim_length x) as Htrim end.
  destruct (MAX_PROMPT_LENGTH <? _)%nat eqn:E.
  - match type of Htrim with context [substring 0 ?n ?x] =>
      pose proof (substring_length n x)
    end. lia.
  - apply Nat.ltb_ge in E. lia.
Qed.

(** X29. The cut is made at the end of the template, where the
    character requirements stand.  When the visual description of the
    script alone fills the room left by the heading, the prompt is the
    heading and the first 3971 characters of the description: nothing
    of the dialogue, the premise, the previous scene end or the
    characters reaches the backend. *)
Theorem long_visual_crowds_out_characters (parts : SceneParts)
    (characters : list Character) (previousSceneEnd baseStoryPrompt : option string) :
  (3971 <= String.length (visual parts))%nat ->
  buildVideoPrompt parts characters previousSceneEnd baseStoryPrompt =
  Js.trim (promptHeading +:+ substring 0 3971 (visual parts)).
Proof.
  intros Hlong. unfold buildVideoPrompt. cbn zeta.
  assert (Htail : (1 <= String.length
                          (promptTail parts characters previousSceneEnd baseStoryPrompt))%nat).
  { unfold promptTail. rewrite string_length_app. cbn [nl String.length]. lia. }
  assert (Hhead : String.length promptHeading = 29%nat) by reflexivity.
  replace (MAX_PROMPT_LENGTH <? _)%nat with true.
  2:{ symmetry. apply Nat.ltb_lt. rewrite !string_length_app, Hhead.
      unfold MAX_PROMPT_LENGTH. lia. }
  f_equal.
  change MAX_PROMPT_LENGTH with (String.length promptHeading + 3971)%nat.
  rewrite substring_app_exact, substring_app_l by exact Hlong. reflexivity.
Qed.

Lemma long_visual_crowds_out_characters_witness :
  let parts := {| visual := Nat.iter 4000 (String "a"%char) EmptyString;
                  dialogue := "Keeper: Who is there?" |} in
  buildVideoPrompt parts [] (Some "The lamp goes dark."%string) None =
  Js.trim (promptHeading +:+ substring 0 3971 (visual parts)).
Proof.
  cbn zeta.
  apply (long_visual_crowds_out_characters
           {| visual := Nat.iter 4000 (String "a"%char) EmptyString;
              dialogue := "Keeper: Who is there?" |} []
           (Some "The lamp goes dark."%string) None).
  apply Nat.leb_le. vm_compute. reflexivity.
Defined.

End VideoPrompt.

(** ** Characters *)

Section Characters.
Import Script.

Lemma textOr_truthy (a : option string) (b : string) :
  b <> EmptyString -> textOr a b <> EmptyString.
Proof. intros Hb. destruct a as [[|c s]|]; cbn [textOr]; [exact Hb|discriminate|exact Hb]. Qed.

Lemma textOr_default (a : option string) (b : string) :
  b <> EmptyString -> textOr (Some (textOr a b)) EmptyString <> EmptyString.
Proof.
  intros Hb. pose proof (textOr_truthy a b Hb) as H.
  destruct (textOr a b); [contradiction|discriminate].
Qed.

(** X30. [getCharacters] always answers, whatever the database does:
    for a list of ids that is not empty it returns at least one
    character, and every character it returns carries a base prompt
    and a personality that are not empty.  When the query fails or
    finds nothing, it returns one placeholder for each id asked for,
    in the same order. *)
Theorem getCharacters_always_answers (reply : completion QueryResult)
    (characterIds : list string) :
  (characterIds <> [] -> getCharacters reply characterIds <> []) /\
  Forall (fun c => textOr (base_prompt c) EmptyString <> EmptyString /\
                   textOr (personality c) EmptyString <> EmptyString)
         (getCharacters reply characterIds) /\
  ((forall result, reply = Return result ->
      query_error result <> None \/ query_data result = None \/ query_data result = Some []) ->
   map id (getCharacters reply characterIds) = characterIds).
Proof.
  assert (Hplace : forall ids,
            (ids <> [] -> map placeholder ids <> []) /\
            Forall (fun c => textOr (base_prompt c) EmptyString <> EmptyString /\
                             textOr (personality c) EmptyString <> EmptyString)
                   (map placeholder ids) /\
            map id (map placeholder ids) = ids).
  { intros ids. split; [destruct ids; [contradiction|discriminate]|]. split.
    - apply Forall_forall. intros c Hc. apply list_elem_of_fmap in Hc as (x & -> & _).
      split; discriminate.
    - rewrite map_map. cbn [placeholder id]. apply map_id. }
  destruct (Hplace characterIds) as (Hne & Hall & Hids).
  unfold getCharacters. destruct reply as [result|message]; [|auto].
  destruct (query_error result) as [e|] eqn:He; [auto|].
  destruct (query_data result) as [[|row data]|] eqn:Hd; [auto| |auto].
  split; [discriminate|]. split.
  - apply Forall_forall. intros c Hc. apply list_elem_of_fmap in Hc as (x & -> & _).
    unfold fromRow. destruct (row_profile x); cbn [base_prompt personality];
      split; apply textOr_default; discriminate.
  - intros Hfail. destruct (Hfail result eq_refl) as [H|[H|H]]; congruence.
Qed.

Lemma getCharacters_always_answers_witness :
  getCharacters (Throw "fetch failed") ["c-001"; "c-002"]%string <> [].
Proof.
  apply (getCharacters_always_answers (Throw "fetch failed") ["c-001"; "c-002"]%string).
  discriminate.
Defined.

End Characters.
